(** * SciAnim: the interpolation and scheduling engine

    A shallow embedding of the animation core of [src/SciAnim.js]: the
    [Easing] table, the colour helpers [parseColor] and [interpolateColor],
    the [Tween] class and the [Timeline] class, with the methods of the
    shapes that build tweens and the tween registry of [Scene]; followed by
    the properties of the engine that the specification states, and by
    further properties of the code.

    Conventions of the embedding.

    - JavaScript numbers are exact in the engine: rationals ([Q]), without
      rounding, [NaN] or infinity.  A numeric conclusion is stated on the
      expression the source evaluates, so that it does not rest on an
      identity that rounding breaks; where rounding decides a property, it
      is computed on binary64 numbers ([PrimFloat], in [EasingD] and
      [DoublesFacts]).  A quotient by zero follows [Qdiv] (it is 0), which
      only a tween of duration 0 can reach; the source gets [NaN] or an
      infinity there, and the properties that state a value computed from
      such a quotient exclude a duration of 0.  The remainder by a zero
      duration, which only a looping timeline without duration can reach,
      leaves the play-head where it is.  The alpha channel of a parsed
      colour is the one place where the source computes with a failed
      [parseInt], and it is an [option Q] there.
    - The easing table is on reals ([R]): [Math.PI] is the double the
      source has, and [Math.cos], [Math.sin], [Math.sqrt] and [Math.pow] are
      the real functions, of which an engine returns the double next to the
      value.  The functions of the table that need arithmetic and square
      roots only are given on binary64 numbers as well.
    - Strings are sequences of ASCII characters, and the white space that
      [trim] removes is the ASCII one.
    - Objects reachable from a tween target form a tree owned by that
      target, addressed by a reference into the [heap]; a value kept in a
      tween field is a snapshot.  [Vec2] instances carry two numbers and
      arrays are lists of numbers or of [Vec2]; built-in properties of
      primitives and arrays (such as [length]) are not modelled.
    - An entry of [Timeline] holds its Tween object by value: every entry
      has a Tween object of its own.  [TimelineRef] has the entries refer
      to Tween objects in a store, where one object may be added twice.
    - The code embedded here has no [throw]; an assignment that would raise a
      [TypeError] in strict mode (a property written on a primitive) leaves
      the heap unchanged, as does an assignment that would break the typing
      of a [Vec2] or of an array.  A property that states what an
      assignment leaves in the heap asks that the assignment takes effect.
    - Callbacks ([onUpdate], [onComplete], the timeline's
      [onCompleteCallback]) and the calls on a scene are recorded in a
      trace, in the order the source performs them; a callback is named by
      a handle and does not re-enter the engine.  Console output is not
      recorded. *)

From Stdlib Require Import QArith Qminmax Qround Qabs ZArith List String Ascii.
From Stdlib Require Import Reals Qreals Psatz.
From Stdlib Require PrimFloat.
From stdpp Require Import gmap strings pretty.
Import ListNotations.

Set Warnings "-register-all".
Local Open Scope string_scope.

(** ** JavaScript values *)

Inductive value : Type :=
| VUndefined
| VNull
| VBool (b : bool)
| VNum (q : Q)
| VStr (s : string)
| VVec2 (x y : Q)
| VPoints (ps : list (Q * Q))
| VNums (qs : list Q)
| VObj (fields : list (string * value)).

(** [typeof v === 'object'] *)
Definition typeof_object (v : value) : bool :=
  match v with
  | VNull | VVec2 _ _ | VPoints _ | VNums _ | VObj _ => true
  | _ => false
  end.

Definition typeof_number (v : value) : bool :=
  match v with VNum _ => true | _ => false end.

Definition typeof_string (v : value) : bool :=
  match v with VStr _ => true | _ => false end.

Definition is_null (v : value) : bool :=
  match v with VNull => true | _ => false end.

Definition is_undefined (v : value) : bool :=
  match v with VUndefined => true | _ => false end.

(** [v === undefined || v === null] *)
Definition is_nullish (v : value) : bool := is_undefined v || is_null v.

(** [v instanceof Vec2] *)
Definition instanceof_Vec2 (v : value) : bool :=
  match v with VVec2 _ _ => true | _ => false end.

(** [Array.isArray(v)] *)
Definition isArray (v : value) : bool :=
  match v with VPoints _ | VNums _ => true | _ => false end.

Definition array_length (v : value) : nat :=
  match v with
  | VPoints ps => length ps
  | VNums qs => length qs
  | _ => 0
  end.

(** [a[0] instanceof Vec2] and [typeof a[0] === 'number'] on an array. *)
Definition head_is_Vec2 (v : value) : bool :=
  match v with VPoints (_ :: _) => true | _ => false end.

Definition head_is_number (v : value) : bool :=
  match v with VNums (_ :: _) => true | _ => false end.

(** The own enumerable properties of a value, in enumeration order: what
    object spread copies, what [for ... in] visits and what
    [hasOwnProperty] finds. *)
Fixpoint indexed {A : Type} (f : A -> value) (i : nat) (l : list A)
  : list (string * value) :=
  match l with
  | [] => []
  | x :: rest => (pretty i, f x) :: indexed f (S i) rest
  end.

Definition own_fields (v : value) : list (string * value) :=
  match v with
  | VObj fs => fs
  | VVec2 x y => [("x", VNum x); ("y", VNum y)]
  | VPoints ps => indexed (fun p => VVec2 (fst p) (snd p)) 0 ps
  | VNums qs => indexed VNum 0 qs
  | _ => []
  end.

Fixpoint lookup_field (k : string) (fs : list (string * value)) : option value :=
  match fs with
  | [] => None
  | (k', v) :: rest => if String.eqb k k' then Some v else lookup_field k rest
  end.

(** [o.hasOwnProperty(k)] *)
Definition hasOwnProperty (o : value) (k : string) : bool :=
  match lookup_field k (own_fields o) with Some _ => true | None => false end.

(** [o[k]] read on a value that is neither [undefined] nor [null]. *)
Definition get_prop (o : value) (k : string) : value :=
  match lookup_field k (own_fields o) with Some v => v | None => VUndefined end.

(** [fields[k] = v] on a plain object: an existing key keeps its place, a
    new key is added last. *)
Fixpoint set_field (k : string) (v : value) (fs : list (string * value))
  : list (string * value) :=
  match fs with
  | [] => [(k, v)]
  | (k', v') :: rest =>
      if String.eqb k k' then (k, v) :: rest else (k', v') :: set_field k v rest
  end.

(** The index an array key denotes: the [i] below [n] printed as [k]. *)
Fixpoint index_of_key (k : string) (n : nat) : option nat :=
  match n with
  | O => None
  | S m => if String.eqb k (pretty m) then Some m else index_of_key k m
  end.

(** [o[k] = v].  An assignment the typing of the value does not take (a
    property of a primitive, for which the source raises a [TypeError]; a
    key or a value a [Vec2] or an array of the embedding cannot hold)
    leaves the value as it is. *)
Definition set_prop (o : value) (k : string) (v : value) : value :=
  match o with
  | VObj fs => VObj (set_field k v fs)
  | VVec2 x y =>
      match v with
      | VNum q =>
          if String.eqb k "x" then VVec2 q y
          else if String.eqb k "y" then VVec2 x q
          else o
      | _ => o
      end
  | VPoints ps =>
      match v, index_of_key k (length ps) with
      | VVec2 x y, Some i => VPoints (<[i := (x, y)]> ps)
      | _, _ => o
      end
  | VNums qs =>
      match v, index_of_key k (length qs) with
      | VNum q, Some i => VNums (<[i := q]> qs)
      | _, _ => o
      end
  | _ => o
  end.

(** [{ ...v }] *)
Definition spread (v : value) : value := VObj (own_fields v).

(** [v.clone()] on a [Vec2], and [a.map(v => v.clone())], [[...a]] on the
    arrays: a snapshot is its own copy. *)
Definition clone (v : value) : value := v.

(** ** Property paths *)

(** [Tween._getDeepProperty(obj, path)] *)
Fixpoint _getDeepProperty (obj : value) (path : list string) : value :=
  match path with
  | [] => obj
  | k :: rest =>
      if is_nullish obj then VUndefined
      else _getDeepProperty (get_prop obj k) rest
  end.

(** [Tween._setDeepProperty(obj, path, value)]: the object with the
    assignment done.  The loop stops with a console error when a step
    yields [undefined] or [null]. *)
Fixpoint _setDeepProperty (obj : value) (path : list string) (v : value) : value :=
  match path with
  | [] => obj (* not reached: a split path has at least one key *)
  | [k] => set_prop obj k v
  | k :: rest =>
      let current := get_prop obj k in
      if is_nullish current then obj
      else set_prop obj k (_setDeepProperty current rest v)
  end.

(** [s.split('.')] and [path.join('.')] *)
Fixpoint split_dot_aux (acc : string) (s : string) : list string :=
  match s with
  | EmptyString => [acc]
  | String c rest =>
      if Ascii.eqb c "."%char then acc :: split_dot_aux "" rest
      else split_dot_aux (acc ++ String c "") rest
  end.

Definition split_dot (s : string) : list string := split_dot_aux "" s.

Fixpoint join_dot (path : list string) : string :=
  match path with
  | [] => ""
  | [k] => k
  | k :: rest => k ++ "." ++ join_dot rest
  end.

(** ** The heap of target objects *)

Definition ref : Type := nat.

Bind Scope nat_scope with ref.

(** [_getDeepProperty(target, path)] for a target held by reference; a
    dangling reference reads as [undefined]. *)
Definition heap_get (h : gmap nat value) (target : ref) (path : list string) : value :=
  match h !! target with
  | Some obj => _getDeepProperty obj path
  | None => VUndefined
  end.

Definition heap_set (h : gmap nat value) (target : ref) (path : list string) (v : value)
  : gmap nat value :=
  match h !! target with
  | Some obj => <[target := _setDeepProperty obj path v]> h
  | None => h
  end.

(** ** Colours: [parseColor] and [interpolateColor] *)

(** A parsed colour.  The alpha channel is [None] where the source holds
    [NaN] (a failed [parseInt] or [parseFloat]). *)
Record rgba := { r : Z; g : Z; b : Z; a : option Q }.

Definition is_space (c : ascii) : bool :=
  let n := nat_of_ascii c in
  ((9 <=? n) && (n <=? 13))%nat || (n =? 32)%nat.

Definition is_digit (c : ascii) : bool :=
  let n := nat_of_ascii c in ((48 <=? n) && (n <=? 57))%nat.

Definition digit_val (c : ascii) : Z := Z.of_nat (nat_of_ascii c) - 48.

Definition hex_val (c : ascii) : option Z :=
  let n := Z.of_nat (nat_of_ascii c) in
  if ((48 <=? n) && (n <=? 57))%Z then Some (n - 48)%Z
  else if ((97 <=? n) && (n <=? 102))%Z then Some (n - 87)%Z
  else if ((65 <=? n) && (n <=? 70))%Z then Some (n - 55)%Z
  else None.

Fixpoint drop_spaces (s : list ascii) : list ascii :=
  match s with
  | c :: rest => if is_space c then drop_spaces rest else s
  | [] => []
  end.

(** [s.trim()] *)
Definition trim (s : string) : string :=
  string_of_list_ascii
    (rev (drop_spaces (rev (drop_spaces (list_ascii_of_string s))))).

(** The digits of [parseInt(s, 16)]: the longest run of hexadecimal digits
    at the front, with its value; [None] when there is none. *)
Fixpoint hex_run (acc : option Z) (s : list ascii) : option Z :=
  match s with
  | c :: rest =>
      match hex_val c with
      | Some d =>
          hex_run (Some (16 * match acc with Some n => n | None => 0 end + d)%Z) rest
      | None => acc
      end
  | [] => acc
  end.

Definition strip_0x (s : list ascii) : list ascii :=
  match s with
  | "0"%char :: "x"%char :: rest => rest
  | "0"%char :: "X"%char :: rest => rest
  | _ => s
  end.

(** [parseInt(s, 16)]; [None] is [NaN]. *)
Definition parseInt16 (s : string) : option Z :=
  match drop_spaces (list_ascii_of_string s) with
  | "-"%char :: rest => option_map Z.opp (hex_run None (strip_0x rest))
  | "+"%char :: rest => hex_run None (strip_0x rest)
  | rest => hex_run None (strip_0x rest)
  end.

Fixpoint take_digits (s : list ascii) : list ascii * list ascii :=
  match s with
  | c :: rest =>
      if is_digit c then let (ds, tl) := take_digits rest in (c :: ds, tl)
      else ([], s)
  | [] => ([], [])
  end.

Definition decimal_val (ds : list ascii) : Z :=
  fold_left (fun n c => (10 * n + digit_val c)%Z) ds 0%Z.

(** [parseFloat] on a run of digits and dots: the longest prefix that is a
    decimal literal; [None] is [NaN]. *)
Definition parseFloat_digits (s : list ascii) : option Q :=
  let (ip, rest) := take_digits s in
  let fp := match rest with
            | "."%char :: rest' => fst (take_digits rest')
            | _ => []
            end in
  match ip, fp with
  | [], [] => None
  | _, _ =>
      Some (inject_Z (decimal_val ip)
            + (decimal_val fp # Pos.of_nat (10 ^ length fp)))%Q
  end.

(** One attempt of
    [/rgba?\((\d+),\s*(\d+),\s*(\d+)(?:,\s*([\d.]+))?\)/i] at the front of
    the input: the four captures. *)
Definition lower (c : ascii) : ascii :=
  let n := nat_of_ascii c in
  if ((65 <=? n) && (n <=? 90))%nat then ascii_of_nat (n + 32) else c.

Fixpoint take_digits_dots (s : list ascii) : list ascii * list ascii :=
  match s with
  | c :: rest =>
      if is_digit c || Ascii.eqb c "."%char
      then let (ds, tl) := take_digits_dots rest in (c :: ds, tl)
      else ([], s)
  | [] => ([], [])
  end.

Definition expect (c : ascii) (s : list ascii) : option (list ascii) :=
  match s with
  | c' :: rest => if Ascii.eqb c c' then Some rest else None
  | [] => None
  end.

Definition digits1 (s : list ascii) : option (list ascii * list ascii) :=
  match take_digits s with
  | ([], _) => None
  | p => Some p
  end.

Definition rgb_tail (s : list ascii)
  : option (list ascii * list ascii * list ascii * option (list ascii)) :=
  match digits1 s with
  | None => None
  | Some (d1, s1) =>
  match expect ","%char s1 with
  | None => None
  | Some s2 =>
  match digits1 (drop_spaces s2) with
  | None => None
  | Some (d2, s3) =>
  match expect ","%char s3 with
  | None => None
  | Some s4 =>
  match digits1 (drop_spaces s4) with
  | None => None
  | Some (d3, s5) =>
  match s5 with
  | ")"%char :: _ => Some (d1, d2, d3, None)
  | ","%char :: s6 =>
      match take_digits_dots (drop_spaces s6) with
      | ([], _) => None
      | (d4, ")"%char :: _) => Some (d1, d2, d3, Some d4)
      | _ => None
      end
  | _ => None
  end end end end end end.

Definition rgb_at (s : list ascii)
  : option (list ascii * list ascii * list ascii * option (list ascii)) :=
  match map lower s with
  | "r"%char :: "g"%char :: "b"%char :: "a"%char :: "("%char :: _ =>
      rgb_tail (skipn 5 s)
  | "r"%char :: "g"%char :: "b"%char :: "("%char :: _ => rgb_tail (skipn 4 s)
  | _ => None
  end.

(** [regex.exec(s)]: the leftmost position at which the expression matches. *)
Fixpoint rgb_exec (s : list ascii)
  : option (list ascii * list ascii * list ascii * option (list ascii)) :=
  match rgb_at s with
  | Some m => Some m
  | None => match s with _ :: rest => rgb_exec rest | [] => None end
  end.

Definition starts_with (p s : string) : bool := String.prefix p s.

Definition char_at (s : string) (i : nat) : string :=
  match String.get i s with Some c => String c "" | None => "" end.

(** [(num >> 16) & 255] and its siblings; [NaN] converts to 0. *)
Definition channel (num : option Z) (shift : Z) : Z :=
  Z.land (Z.shiftr (match num with Some n => n | None => 0%Z end) shift) 255.

Definition alpha_of (n : option Z) : option Q :=
  option_map (fun z => inject_Z z / 255)%Q n.

(** [parseColor(colorStr)] on a string; [None] is the source's [null]. *)
Definition parseColor (colorStr : string) : option rgba :=
  let colorStr := trim colorStr in
  if starts_with "#" colorStr then
    let hex := substring 1 (String.length colorStr - 1) colorStr in
    let doubled := char_at hex 0 ++ char_at hex 0 ++ char_at hex 1
                   ++ char_at hex 1 ++ char_at hex 2 ++ char_at hex 2 in
    let '(hex, alpha) :=
      if (String.length hex =? 3)%nat then (doubled, Some 1%Q)
      else if (String.length hex =? 4)%nat then
        (doubled, alpha_of (parseInt16 (char_at hex 3 ++ char_at hex 3)))
      else if (String.length hex =? 8)%nat then
        (substring 0 6 hex, alpha_of (parseInt16 (substring 6 2 hex)))
      else (hex, Some 1%Q) in
    if (String.length hex =? 6)%nat then
      let num := parseInt16 hex in
      Some {| r := channel num 16; g := channel num 8; b := channel num 0;
              a := alpha |}
    else None
  else if starts_with "rgb" colorStr then
    match rgb_exec (list_ascii_of_string colorStr) with
    | None => None
    | Some (d1, d2, d3, d4) =>
        Some {| r := decimal_val d1; g := decimal_val d2; b := decimal_val d3;
                a := match d4 with
                     | Some ds => parseFloat_digits ds
                     | None => Some 1%Q
                     end |}
    end
  else None.

(** [Math.round(x)] *)
Definition Math_round (x : Q) : Z := Qfloor (x + (1 # 2)).

(** The text of [parseFloat(a.toFixed(3))] in a template string: [a]
    rounded to the nearest thousandth, ties away from zero, printed without
    trailing zeros. *)
Definition thousandths (x : Q) : Z := Qfloor (Qabs x * 1000 + (1 # 2)).

Definition pad3 (n : Z) : string :=
  let s := pretty n in
  match String.length s with
  | 1%nat => "00" ++ s
  | 2%nat => "0" ++ s
  | _ => s
  end.

Fixpoint drop_zeros (s : list ascii) : list ascii :=
  match s with
  | "0"%char :: rest => drop_zeros rest
  | _ => s
  end.

Definition print_fixed3 (x : option Q) : string :=
  match x with
  | None => "NaN"
  | Some q =>
      let n := thousandths q in
      let ip := pretty (n / 1000)%Z in
      let fp := string_of_list_ascii
                  (rev (drop_zeros (rev (list_ascii_of_string
                                           (pad3 (n mod 1000)%Z))))) in
      let sign := if (Qle_bool 0 q || (n =? 0)%Z) then "" else "-" in
      match fp with
      | EmptyString => sign ++ ip
      | _ => sign ++ ip ++ "." ++ fp
      end
  end.

Definition blend (x y : Z) (factor : Q) : Z :=
  Math_round (inject_Z x + factor * (inject_Z y - inject_Z x)).

(** [interpolateColor(color1, color2, factor)] *)
Definition interpolateColor (color1 color2 : string) (factor : Q) : string :=
  match parseColor color1, parseColor color2 with
  | Some c1, Some c2 =>
      let alpha :=
        match a c1, a c2 with
        | Some a1, Some a2 => Some (a1 + factor * (a2 - a1))%Q
        | _, _ => None
        end in
      "rgba(" ++ pretty (blend (r c1) (r c2) factor) ++ ","
              ++ pretty (blend (g c1) (g c2) factor) ++ ","
              ++ pretty (blend (b c1) (b c2) factor) ++ ","
              ++ print_fixed3 alpha ++ ")"
  | _, _ => color1
  end.

(** [parseColor(s)] used as a condition. *)
Definition is_color (s : string) : bool :=
  match parseColor s with Some _ => true | None => false end.

(** ** const Easing

    The base families of the table, on real numbers.  A pre-decrement
    [--t] or a compound assignment [t -= c] inside an expression is the
    [let] that rebinds [t] before the rest is evaluated.  [Math.PI] is not
    the real number pi but the double next to it, and [Math.cos] and
    [Math.sin] are the real functions, of which an engine returns the
    double next to the value. *)

Module Easing.

Local Open Scope R_scope.

Definition ltb (x y : R) : bool := if Rlt_dec x y then true else false.

Definition eqb (x y : R) : bool := if Req_dec_T x y then true else false.

(** [Math.pow(2, x)] *)
Definition pow2 (x : R) : R := Rpower 2 x.

(** [Math.PI]: the double 3.141592653589793, which is
    884279719003555 / 2^48. *)
Definition Math_PI : R := 884279719003555 / 281474976710656.

Definition linear (t : R) : R := t.

Definition easeInQuad (t : R) : R := t * t.

Definition easeOutQuad (t : R) : R := t * (2 - t).

Definition easeInOutQuad (t : R) : R :=
  if ltb t 0.5 then 2 * t * t else -1 + (4 - 2 * t) * t.

Definition easeInCubic (t : R) : R := t * t * t.

Definition easeOutCubic (t : R) : R := let t := t - 1 in t * t * t + 1.

Definition easeInOutCubic (t : R) : R :=
  if ltb t 0.5 then 4 * t * t * t else (t - 1) * (2 * t - 2) * (2 * t - 2) + 1.

Definition easeInQuart (t : R) : R := t * t * t * t.

Definition easeOutQuart (t : R) : R := let t := t - 1 in 1 - t * t * t * t.

Definition easeInOutQuart (t : R) : R :=
  if ltb t 0.5 then 8 * t * t * t * t
  else let t := t - 1 in 1 - 8 * t * t * t * t.

Definition easeInQuint (t : R) : R := t * t * t * t * t.

Definition easeOutQuint (t : R) : R := let t := t - 1 in 1 + t * t * t * t * t.

Definition easeInOutQuint (t : R) : R :=
  if ltb t 0.5 then 16 * t * t * t * t * t
  else let t := t - 1 in 1 + 16 * t * t * t * t * t.

Definition easeInSine (t : R) : R := 1 - cos (t * Math_PI / 2).

Definition easeOutSine (t : R) : R := sin (t * Math_PI / 2).

Definition easeInOutSine (t : R) : R := - (cos (Math_PI * t) - 1) / 2.

Definition easeInExpo (t : R) : R :=
  if eqb t 0 then 0 else pow2 (10 * (t - 1)).

Definition easeOutExpo (t : R) : R :=
  if eqb t 1 then 1 else 1 - pow2 (-10 * t).

Definition easeInOutExpo (t : R) : R :=
  if eqb t 0 then 0
  else if eqb t 1 then 1
  else if ltb t 0.5 then pow2 (20 * t - 10) / 2
  else (2 - pow2 (-20 * t + 10)) / 2.

Definition easeInCirc (t : R) : R := 1 - sqrt (1 - t * t).

Definition easeOutCirc (t : R) : R := let t := t - 1 in sqrt (1 - t * t).

Definition easeInOutCirc (t : R) : R :=
  if ltb t 0.5 then (1 - sqrt (1 - 4 * t * t)) / 2
  else (sqrt (1 - (-2 * t + 2) * (-2 * t + 2)) + 1) / 2.

Definition easeOutBounce (t : R) : R :=
  if ltb t (1 / 2.75) then 7.5625 * t * t
  else if ltb t (2 / 2.75) then
    let t := t - 1.5 / 2.75 in 7.5625 * t * t + 0.75
  else if ltb t (2.5 / 2.75) then
    let t := t - 2.25 / 2.75 in 7.5625 * t * t + 0.9375
  else let t := t - 2.625 / 2.75 in 7.5625 * t * t + 0.984375.

Definition easeInBounce (t : R) : R := 1 - easeOutBounce (1 - t).

Definition easeInOutBounce (t : R) : R :=
  if ltb t 0.5 then easeInBounce (t * 2) * 0.5
  else easeOutBounce (t * 2 - 1) * 0.5 + 0.5.

(** The base (non-overshoot) families: every entry of the table but the
    back and elastic ones. *)
Definition base : list (string * (R -> R)) :=
  [ ("linear", linear);
    ("easeInQuad", easeInQuad); ("easeOutQuad", easeOutQuad);
    ("easeInOutQuad", easeInOutQuad);
    ("easeInCubic", easeInCubic); ("easeOutCubic", easeOutCubic);
    ("easeInOutCubic", easeInOutCubic);
    ("easeInQuart", easeInQuart); ("easeOutQuart", easeOutQuart);
    ("easeInOutQuart", easeInOutQuart);
    ("easeInQuint", easeInQuint); ("easeOutQuint", easeOutQuint);
    ("easeInOutQuint", easeInOutQuint);
    ("easeInSine", easeInSine); ("easeOutSine", easeOutSine);
    ("easeInOutSine", easeInOutSine);
    ("easeInExpo", easeInExpo); ("easeOutExpo", easeOutExpo);
    ("easeInOutExpo", easeInOutExpo);
    ("easeInCirc", easeInCirc); ("easeOutCirc", easeOutCirc);
    ("easeInOutCirc", easeInOutCirc);
    ("easeInBounce", easeInBounce); ("easeOutBounce", easeOutBounce);
    ("easeInOutBounce", easeInOutBounce) ].

(** The real numbers next to which the double is 1: the doubles around 1
    are [1 - 2^-53] and [1 + 2^-52], and a tie goes to 1. *)
Definition rounds_to_one (y : R) : Prop := 1 - / 2 ^ 54 <= y <= 1 + / 2 ^ 53.

(** The real numbers next to which the double is the one just below 1,
    [1 - 2^-53], printed 0.9999999999999999. *)
Definition rounds_below_one (y : R) : Prop :=
  1 - 3 / 2 ^ 54 < y < 1 - / 2 ^ 54.

(** What the function called [name] of the table makes of 1: exactly 1,
    except in the sine family, where the value is a real number next to 1. *)
Definition at_one (name : string) (y : R) : Prop :=
  if String.eqb name "easeInSine" then rounds_below_one y
  else if String.eqb name "easeOutSine" || String.eqb name "easeInOutSine"
       then rounds_to_one y
  else y = 1.

(** Case analysis on the comparisons of an easing function. *)
Ltac branches :=
  repeat match goal with
         | |- context [Rlt_dec ?x ?y] => destruct (Rlt_dec x y); try lra
         | |- context [Req_dec_T ?x ?y] => destruct (Req_dec_T x y); try lra
         end.

End Easing.

(** The functions of the table that use arithmetic, comparisons and
    [Math.sqrt] only, on binary64 numbers: every operation rounds as the
    engine's does. *)
Module EasingD.

Import PrimFloat.
Local Open Scope float_scope.
#[local] Set Warnings "-inexact-float".

Definition linear (t : float) : float := t.

Definition easeInQuad (t : float) : float := t * t.

Definition easeOutQuad (t : float) : float := t * (2 - t).

Definition easeInOutQuad (t : float) : float :=
  if ltb t 0.5 then 2 * t * t else -1 + (4 - 2 * t) * t.

Definition easeInCubic (t : float) : float := t * t * t.

Definition easeOutCubic (t : float) : float := let t := t - 1 in t * t * t + 1.

Definition easeInOutCubic (t : float) : float :=
  if ltb t 0.5 then 4 * t * t * t else (t - 1) * (2 * t - 2) * (2 * t - 2) + 1.

Definition easeInQuart (t : float) : float := t * t * t * t.

Definition easeOutQuart (t : float) : float := let t := t - 1 in 1 - t * t * t * t.

Definition easeInOutQuart (t : float) : float :=
  if ltb t 0.5 then 8 * t * t * t * t
  else let t := t - 1 in 1 - 8 * t * t * t * t.

Definition easeInQuint (t : float) : float := t * t * t * t * t.

Definition easeOutQuint (t : float) : float := let t := t - 1 in 1 + t * t * t * t * t.

Definition easeInOutQuint (t : float) : float :=
  if ltb t 0.5 then 16 * t * t * t * t * t
  else let t := t - 1 in 1 + 16 * t * t * t * t * t.

Definition easeInCirc (t : float) : float := 1 - sqrt (1 - t * t).

Definition easeOutCirc (t : float) : float := let t := t - 1 in sqrt (1 - t * t).

Definition easeInOutCirc (t : float) : float :=
  if ltb t 0.5 then (1 - sqrt (1 - 4 * t * t)) / 2
  else (sqrt (1 - (-2 * t + 2) * (-2 * t + 2)) + 1) / 2.

Definition easeOutBounce (t : float) : float :=
  if ltb t (1 / 2.75) then 7.5625 * t * t
  else if ltb t (2 / 2.75) then
    let t := t - 1.5 / 2.75 in 7.5625 * t * t + 0.75
  else if ltb t (2.5 / 2.75) then
    let t := t - 2.25 / 2.75 in 7.5625 * t * t + 0.9375
  else let t := t - 2.625 / 2.75 in 7.5625 * t * t + 0.984375.

Definition easeInBounce (t : float) : float := 1 - easeOutBounce (1 - t).

Definition easeInOutBounce (t : float) : float :=
  if ltb t 0.5 then easeInBounce (t * 2) * 0.5
  else easeOutBounce (t * 2 - 1) * 0.5 + 0.5.

Definition arithmetic : list (string * (float -> float)) :=
  [ ("linear", linear);
    ("easeInQuad", easeInQuad); ("easeOutQuad", easeOutQuad);
    ("easeInOutQuad", easeInOutQuad);
    ("easeInCubic", easeInCubic); ("easeOutCubic", easeOutCubic);
    ("easeInOutCubic", easeInOutCubic);
    ("easeInQuart", easeInQuart); ("easeOutQuart", easeOutQuart);
    ("easeInOutQuart", easeInOutQuart);
    ("easeInQuint", easeInQuint); ("easeOutQuint", easeOutQuint);
    ("easeInOutQuint", easeInOutQuint);
    ("easeInCirc", easeInCirc); ("easeOutCirc", easeOutCirc);
    ("easeInOutCirc", easeInOutCirc);
    ("easeInBounce", easeInBounce); ("easeOutBounce", easeOutBounce);
    ("easeInOutBounce", easeInOutBounce) ].

(** [f(0) === 0] and [f(1) === 1], as doubles. *)
Definition fixes_endpoints (f : float -> float) : Prop := f 0 = 0 /\ f 1 = 1.

(** [Math.PI] and the double next to the cosine of its half. *)
Definition Math_PI : float := 3.141592653589793.

Definition cos_half_PI : float := 6.123233995736766e-17.

End EasingD.

(** The partial sums of the series of the cosine, on rationals. *)
Module Taylor.

Fixpoint zfact (n : nat) : Z :=
  match n with
  | O => 1
  | S k => Z.of_nat (S k) * zfact k
  end.

Fixpoint qpow (a : Q) (n : nat) : Q :=
  match n with
  | O => 1
  | S k => a * qpow a k
  end.

Definition cos_term (a : Q) (i : nat) : Q :=
  qpow (-1) i * (qpow a (2 * i) / inject_Z (zfact (2 * i))).

Fixpoint sum (f : nat -> Q) (n : nat) : Q :=
  match n with
  | O => f O
  | S k => sum f k + f (S k)
  end.

Definition cos_approx (a : Q) (n : nat) : Q := sum (cos_term a) n.

(** [Math.PI / 4], the double next to [Math.cos(Math.PI / 2)], which is
    4967757600021511 / 2^106, and 2^-108. *)
Definition quarter : Q := 884279719003555 # 1125899906842624.

Definition cos_half : Q := 4967757600021511 # 81129638414606681695789005144064.

Definition eps : Q := 1 # 324518553658426726783156020576256.

End Taylor.

(** [Easing.linear] on the rationals of the engine, the default [easingFn]
    of a tween. *)
Definition linear (t : Q) : Q := t.

(** ** The world a tween acts on *)

Local Open Scope Q_scope.

(** What the engine does to its surroundings besides writing properties:
    the callbacks it invokes and the calls it makes on a scene. *)
Inductive event : Type :=
| EvUpdate (cb : nat) (currentValue : value) (progress : Q)
| EvComplete (cb : nat)
| EvAddTween (scene : nat)
| EvRemoveTween (scene : nat)
| EvAddTimeline (scene : nat)
| EvRemoveTimeline (scene : nat)
| EvTimelineComplete (cb : nat).

Record World := { heap : gmap nat value; trace : list event }.

Definition emit (e : event) (w : World) : World :=
  {| heap := heap w; trace := trace w ++ [e] |}.

Definition emit_if (cb : option nat) (e : nat -> event) (w : World) : World :=
  match cb with Some k => emit (e k) w | None => w end.

Definition write (target : ref) (path : list string) (v : value) (w : World) : World :=
  {| heap := heap_set (heap w) target path v; trace := trace w |}.

Definition Qltb (x y : Q) : bool := negb (Qle_bool y x).

(** [s + (e - s) * t] *)
Definition lerp (s e t : Q) : Q := s + (e - s) * t.

(** ** class Tween *)

Module Tween.

Record t := mk {
  target : ref;
  propertyPath : list string;
  endValue : value;
  duration : Q;
  easingFn : Q -> Q;
  sceneRef : option nat;
  elapsedTime : Q;
  isActive : bool;
  startValue : value;
  rawStartValue : value;
  rawEndValue : value;
  onUpdate : option nat;
  onComplete : option nat;
  _managedByTimeline : bool
}.

(** [new Tween(target, propertyPath, endValue, duration, easingFn, sceneRef)].
    Scenes are collaborators outside the heap: [sceneRef] stands for the
    value of [sceneRef || (target && target.sceneRef) || null], [None] when
    that is not a scene. *)
Definition constructor (target : ref) (propertyPath : string) (endValue : value)
    (duration : Q) (easingFn : Q -> Q) (sceneRef : option nat) : t :=
  {| target := target;
     propertyPath := split_dot propertyPath;
     endValue := endValue;
     duration := duration;
     easingFn := easingFn;
     sceneRef := sceneRef;
     elapsedTime := 0;
     isActive := false;
     startValue := VNull;
     rawStartValue := VNull;
     rawEndValue := VNull;
     onUpdate := None;
     onComplete := None;
     _managedByTimeline := false |}.

Definition with_elapsedTime (x : Q) (tw : t) : t :=
  mk (target tw) (propertyPath tw) (endValue tw) (duration tw) (easingFn tw)
     (sceneRef tw) x (isActive tw) (startValue tw) (rawStartValue tw)
     (rawEndValue tw) (onUpdate tw) (onComplete tw) (_managedByTimeline tw).

Definition with_isActive (x : bool) (tw : t) : t :=
  mk (target tw) (propertyPath tw) (endValue tw) (duration tw) (easingFn tw)
     (sceneRef tw) (elapsedTime tw) x (startValue tw) (rawStartValue tw)
     (rawEndValue tw) (onUpdate tw) (onComplete tw) (_managedByTimeline tw).

Definition with_startValue (x : value) (tw : t) : t :=
  mk (target tw) (propertyPath tw) (endValue tw) (duration tw) (easingFn tw)
     (sceneRef tw) (elapsedTime tw) (isActive tw) x (rawStartValue tw)
     (rawEndValue tw) (onUpdate tw) (onComplete tw) (_managedByTimeline tw).

Definition with_raw (s e : value) (tw : t) : t :=
  mk (target tw) (propertyPath tw) (endValue tw) (duration tw) (easingFn tw)
     (sceneRef tw) (elapsedTime tw) (isActive tw) (startValue tw) s e
     (onUpdate tw) (onComplete tw) (_managedByTimeline tw).

Definition with_managedByTimeline (x : bool) (tw : t) : t :=
  mk (target tw) (propertyPath tw) (endValue tw) (duration tw) (easingFn tw)
     (sceneRef tw) (elapsedTime tw) (isActive tw) (startValue tw)
     (rawStartValue tw) (rawEndValue tw) (onUpdate tw) (onComplete tw) x.

(** [then(callback)] and [onProgress(callback)] *)
Definition then_ (callback : nat) (tw : t) : t :=
  mk (target tw) (propertyPath tw) (endValue tw) (duration tw) (easingFn tw)
     (sceneRef tw) (elapsedTime tw) (isActive tw) (startValue tw)
     (rawStartValue tw) (rawEndValue tw) (onUpdate tw) (Some callback)
     (_managedByTimeline tw).

Definition onProgress (callback : nat) (tw : t) : t :=
  mk (target tw) (propertyPath tw) (endValue tw) (duration tw) (easingFn tw)
     (sceneRef tw) (elapsedTime tw) (isActive tw) (startValue tw)
     (rawStartValue tw) (rawEndValue tw) (Some callback) (onComplete tw)
     (_managedByTimeline tw).

(** [this.propertyPath.join('.') === '_dummyPropertyForColorTween'] *)
Definition is_dummy (tw : t) : bool :=
  String.eqb (join_dot (propertyPath tw)) "_dummyPropertyForColorTween".

(** Both values are strings that [parseColor] accepts. *)
Definition both_colors (s e : value) : bool :=
  match s, e with
  | VStr s', VStr e' => is_color s' && is_color e'
  | _, _ => false
  end.

(** The value [start()] keeps in [startValue], [None] where it logs an
    error and gives up. *)
Definition capture (tw : t) (rawStart rawEnd : value) : option value :=
  if both_colors rawStart rawEnd then Some rawStart
  else if instanceof_Vec2 rawStart && instanceof_Vec2 rawEnd then
    Some (clone rawStart)
  else if isArray rawStart && isArray rawEnd
          && (array_length rawStart =? array_length rawEnd)%nat then
    if (array_length rawStart =? 0)%nat
       || (head_is_Vec2 rawStart && head_is_Vec2 rawEnd)
    then Some (clone rawStart)
    else if (array_length rawStart =? 0)%nat
            || (head_is_number rawStart && head_is_number rawEnd)
    then Some (clone rawStart)
    else None
  else if typeof_number rawStart && typeof_number rawEnd then Some rawStart
  else if typeof_object rawStart && negb (is_null rawStart)
          && typeof_object rawEnd && negb (is_null rawEnd) then
    Some (spread rawStart)
  else if is_dummy tw then Some (VNum 0)
  else None.

(** [start()] *)
Definition start (tw : t) (w : World) : t * World :=
  let rawStart := heap_get (heap w) (target tw) (propertyPath tw) in
  let tw := with_raw rawStart (endValue tw) tw in
  if is_undefined rawStart && negb (is_dummy tw) then (with_isActive false tw, w)
  else
    match capture tw rawStart (rawEndValue tw) with
    | None => (with_isActive false tw, w)
    | Some sv =>
        let tw := with_isActive true (with_elapsedTime 0 (with_startValue sv tw)) in
        match sceneRef tw with
        | Some scene =>
            if negb (_managedByTimeline tw) then (tw, emit (EvAddTween scene) w)
            else (tw, w)
        | None => (tw, w)
        end
    end.

(** The local [valueToSet] of [resetToStart]: the copy of [rawStartValue]
    that is written back. *)
Definition valueToSet (raw : value) : value :=
  if instanceof_Vec2 raw then clone raw
  else if isArray raw && (0 <? array_length raw)%nat && head_is_Vec2 raw
  then clone raw
  else if isArray raw && head_is_number raw then clone raw
  else if typeof_object raw && negb (is_null raw) then spread raw
  else raw.

(** [resetToStart()] *)
Definition resetToStart (tw : t) (w : World) : t * World :=
  let tw := with_isActive false (with_elapsedTime 0 tw) in
  if negb (is_null (startValue tw)) && negb (is_null (rawStartValue tw))
     && negb (is_dummy tw) then
    (tw, write (target tw) (propertyPath tw) (valueToSet (rawStartValue tw)) w)
  else (tw, w).

(** The body of the [for (const key in this.rawEndValue)] loop of
    [update], on the copy [currentValue] of the start record. *)
Definition record_step (sv ev : value) (eased progress : Q)
    (currentValue : value) (key : string) : value :=
  if hasOwnProperty sv key && hasOwnProperty ev key then
    match get_prop sv key, get_prop ev key with
    | VNum s, VNum e => set_prop currentValue key (VNum (lerp s e eased))
    | VStr s, VStr e =>
        if is_color s && is_color e
        then set_prop currentValue key (VStr (interpolateColor s e eased))
        else if Qle_bool 1 progress then set_prop currentValue key (VStr e)
        else currentValue
    | _, e =>
        if Qle_bool 1 progress then set_prop currentValue key e else currentValue
    end
  else currentValue.

Definition lerp_point (eased : Q) (sv ev : Q * Q) : Q * Q :=
  (lerp (fst sv) (fst ev) eased, lerp (snd sv) (snd ev) eased).

(** The value [update] computes for the current progress: [Some] of it,
    [Some VUndefined] for the phantom binding, [None] where the source
    logs "Unsupported property type" and deactivates the tween.  The
    branches come in the order of the source.  [start] captures a point
    list only against a point list and a number list only against a number
    list, of the same length, so that [zip_with] is the source's [map] over
    [startValue] with [rawEndValue[i]]; the pairings [start] never produces
    fall to the last array case. *)
Definition interpolate (tw : t) (eased progress : Q) : option value :=
  let sv := startValue tw in
  let ev := rawEndValue tw in
  if both_colors (rawStartValue tw) ev then
    match rawStartValue tw, ev with
    | VStr s, VStr e => Some (VStr (interpolateColor s e eased))
    | _, _ => None
    end
  else if instanceof_Vec2 sv && instanceof_Vec2 ev then
    match sv, ev with
    | VVec2 sx sy, VVec2 ex ey =>
        Some (VVec2 (lerp sx ex eased) (lerp sy ey eased))
    | _, _ => None
    end
  else if isArray sv && isArray ev
          && (array_length sv =? array_length ev)%nat then
    if (array_length sv =? 0)%nat then Some (VPoints [])
    else
      match sv, ev with
      | VPoints ss, VPoints es =>
          Some (VPoints (zip_with (lerp_point eased) ss es))
      | VNums ss, VNums es =>
          Some (VNums (zip_with (fun s e => lerp s e eased) ss es))
      | _, _ => Some ev
      end
  else if typeof_number sv && typeof_number ev then
    match sv, ev with
    | VNum s, VNum e => Some (VNum (lerp s e eased))
    | _, _ => None
    end
  else if typeof_object sv && negb (is_null sv)
          && typeof_object ev && negb (is_null ev) then
    Some (fold_left (record_step sv ev eased progress)
                    (map fst (own_fields ev)) (spread sv))
  else if is_dummy tw then Some VUndefined
  else None.

(** The merge of [rawEndValue] into the object found at the binding, at
    completion: only keys the object already has are assigned. *)
Definition merge_existing (finalTargetObj ev : value) : value :=
  fold_left (fun o key =>
               if hasOwnProperty o key then set_prop o key (get_prop ev key)
               else o)
            (map fst (own_fields ev)) finalTargetObj.

(** The block of [update] under [if (progress >= 1)] that sets the final
    value. *)
Definition write_final (tw : t) (w : World) : World :=
  let ev := rawEndValue tw in
  match ev with
  | VObj _ =>
      let finalTargetObj := heap_get (heap w) (target tw) (propertyPath tw) in
      if typeof_object finalTargetObj && negb (is_null finalTargetObj) then
        write (target tw) (propertyPath tw) (merge_existing finalTargetObj ev) w
      else write (target tw) (propertyPath tw) ev w
  | _ => write (target tw) (propertyPath tw) ev w
  end.

(** [update(deltaTime)].  The progress is a quotient by the duration: for
    a duration of 0 the source gets [NaN] or an infinity, which the
    embedding does not have. *)
Definition update (deltaTime : Q) (tw : t) (w : World) : t * World :=
  if negb (isActive tw) then (tw, w)
  else
    let tw := if negb (_managedByTimeline tw)
              then with_elapsedTime (elapsedTime tw + deltaTime) tw else tw in
    let progress := Qmin (elapsedTime tw / duration tw) 1 in
    let easedProgress := easingFn tw progress in
    match interpolate tw easedProgress progress with
    | None => (with_isActive false tw, w)
    | Some currentValue =>
        let w := if negb (is_dummy tw)
                 then write (target tw) (propertyPath tw) currentValue w else w in
        let w := emit_if (onUpdate tw) (fun cb => EvUpdate cb currentValue progress) w in
        if Qle_bool 1 progress then
          let tw := with_isActive false tw in
          let w := if negb (is_dummy tw) then write_final tw w else w in
          let w := emit_if (onComplete tw) EvComplete w in
          let w := match sceneRef tw with
                   | Some scene =>
                       if negb (_managedByTimeline tw)
                       then emit (EvRemoveTween scene) w else w
                   | None => w
                   end in
          (tw, w)
        else (tw, w)
    end.

(** [setProgress(progressRatio)] *)
Definition setProgress (progressRatio : Q) (tw : t) (w : World) : t * World :=
  let inside := Qltb 0 progressRatio && Qltb progressRatio 1 in
  let '(tw, w) :=
    if negb (isActive tw) && inside && is_null (startValue tw)
    then start tw w else (tw, w) in
  let tw := if negb (isActive tw) && inside then with_isActive true tw else tw in
  let tw := with_elapsedTime (Qmin (Qmax 0 progressRatio) 1 * duration tw) tw in
  update 0 tw w.

End Tween.

(** ** class Timeline *)

(** [x || d] on a number option of an options object: an absent option and
    the number 0 are both falsy. *)
Definition or_default (x : option Q) (d : Q) : Q :=
  match x with
  | Some q => if Qeq_bool q 0 then d else q
  | None => d
  end.

(** [x % y] on numbers: the remainder has the sign of the dividend.  (The
    source gets [NaN] for [y] zero; here the quotient by zero is 0 and the
    remainder is [x].) *)
Definition Qtrunc (x : Q) : Z := if Qle_bool 0 x then Qfloor x else Qceiling x.

Definition Qrem (x y : Q) : Q := x - y * inject_Z (Qtrunc (x / y)).

Module Timeline.

(** An element of [tweensWithMeta]. *)
Record item := mkItem {
  tween : Tween.t;
  startTime : Q;
  _hasStartedInternal : bool
}.

Record t := mk {
  sceneRef : option nat;
  tweensWithMeta : list item;
  currentTime : Q;
  isPlaying : bool;
  timeScale : Q;
  duration : Q;
  loop : bool;
  onCompleteCallback : option nat
}.

(** The options object of [sequence] and [parallel]. *)
Record options := { offset : option Q; gap : option Q }.

(** [new Timeline(sceneRef)] *)
Definition constructor (sceneRef : option nat) (w : World) : t * World :=
  let tl := {| sceneRef := sceneRef; tweensWithMeta := []; currentTime := 0;
               isPlaying := false; timeScale := 1; duration := 0;
               loop := false; onCompleteCallback := None |} in
  (tl, emit_if sceneRef EvAddTimeline w).

Definition with_items (x : list item) (tl : t) : t :=
  mk (sceneRef tl) x (currentTime tl) (isPlaying tl) (timeScale tl)
     (duration tl) (loop tl) (onCompleteCallback tl).

Definition with_currentTime (x : Q) (tl : t) : t :=
  mk (sceneRef tl) (tweensWithMeta tl) x (isPlaying tl) (timeScale tl)
     (duration tl) (loop tl) (onCompleteCallback tl).

Definition with_isPlaying (x : bool) (tl : t) : t :=
  mk (sceneRef tl) (tweensWithMeta tl) (currentTime tl) x (timeScale tl)
     (duration tl) (loop tl) (onCompleteCallback tl).

Definition with_duration (x : Q) (tl : t) : t :=
  mk (sceneRef tl) (tweensWithMeta tl) (currentTime tl) (isPlaying tl)
     (timeScale tl) x (loop tl) (onCompleteCallback tl).

(** [setLoop(loop)], [setTimeScale(scale)], [then(callback)] *)
Definition setLoop (x : bool) (tl : t) : t :=
  mk (sceneRef tl) (tweensWithMeta tl) (currentTime tl) (isPlaying tl)
     (timeScale tl) (duration tl) x (onCompleteCallback tl).

Definition setTimeScale (scale : Q) (tl : t) : t :=
  mk (sceneRef tl) (tweensWithMeta tl) (currentTime tl) (isPlaying tl) scale
     (duration tl) (loop tl) (onCompleteCallback tl).

Definition then_ (callback : nat) (tl : t) : t :=
  mk (sceneRef tl) (tweensWithMeta tl) (currentTime tl) (isPlaying tl)
     (timeScale tl) (duration tl) (loop tl) (Some callback).

(** [item.startTime + item.tween.duration] *)
Definition tweenEndTime (it : item) : Q := startTime it + Tween.duration (tween it).

(** [_recalculateDuration()] *)
Definition _recalculateDuration (tl : t) : t :=
  with_duration
    (fold_left (fun d it => Qmax d (tweenEndTime it)) (tweensWithMeta tl) 0) tl.

(** [add(tween, startTime)]; every [Tween.t] is an instance of [Tween]. *)
Definition add (tween : Tween.t) (startTime : Q) (tl : t) : t :=
  let it := {| tween := Tween.with_managedByTimeline true tween;
               startTime := startTime;
               _hasStartedInternal := false |} in
  _recalculateDuration (with_items (tweensWithMeta tl ++ [it]) tl).

(** The loop of [sequence]: [currentTimeMarker] is threaded through. *)
Fixpoint sequence_from (tweens : list Tween.t) (gap currentTimeMarker : Q) (tl : t) : t :=
  match tweens with
  | [] => tl
  | tween :: rest =>
      sequence_from rest gap (currentTimeMarker + (Tween.duration tween + gap))
                    (add tween currentTimeMarker tl)
  end.

(** [sequence(tweens, options)] *)
Definition sequence (tweens : list Tween.t) (opts : options) (tl : t) : t :=
  let sequenceOffset := or_default (offset opts) (duration tl) in
  let gap := or_default (gap opts) 0 in
  sequence_from tweens gap sequenceOffset tl.

(** [parallel(tweens, options)] *)
Definition parallel (tweens : list Tween.t) (opts : options) (tl : t) : t :=
  let parallelOffset := or_default (offset opts) (duration tl) in
  fold_left (fun tl tween => add tween parallelOffset tl) tweens tl.

(** A [for (const item of this.tweensWithMeta)] loop whose body updates the
    item and the world. *)
Fixpoint for_each (body : item -> World -> item * World) (items : list item)
    (w : World) : list item * World :=
  match items with
  | [] => ([], w)
  | it :: rest =>
      let '(it', w') := body it w in
      let '(rest', w'') := for_each body rest w' in
      (it' :: rest', w'')
  end.

Definition with_tween (tw : Tween.t) (it : item) : item :=
  mkItem tw (startTime it) (_hasStartedInternal it).

Definition with_started (x : bool) (it : item) : item :=
  mkItem (tween it) (startTime it) x.

(** [resetAllTweensState()] *)
Definition reset_item (it : item) (w : World) : item * World :=
  let '(tw, w) := Tween.resetToStart (tween it) w in
  (mkItem tw (startTime it) false, w).

Definition resetAllTweensState (tl : t) (w : World) : t * World :=
  let '(items, w) := for_each reset_item (tweensWithMeta tl) w in
  (with_items items tl, w).

(** [play()] *)
Definition play (tl : t) (w : World) : t * World :=
  if isPlaying tl then (tl, w)
  else
    let tl := with_isPlaying true tl in
    if Qle_bool (duration tl) (currentTime tl) && negb (loop tl) then
      resetAllTweensState (with_currentTime 0 tl) w
    else (tl, w).


(** [pause()] *)
Definition pause (tl : t) : t := with_isPlaying false tl.

(** The body of the loop of [seek], at play-head [now]. *)
Definition seek_item (now : Q) (it : item) (w : World) : item * World :=
  let tw := tween it in
  if Qle_bool (startTime it) now && Qltb now (tweenEndTime it) then
    let '(tw, w, started) :=
      if negb (_hasStartedInternal it)
      then let '(tw, w) := Tween.start tw w in (tw, w, true)
      else (tw, w, _hasStartedInternal it) in
    let '(tw, w) :=
      Tween.setProgress ((now - startTime it) / Tween.duration tw) tw w in
    (mkItem tw (startTime it) started, w)
  else if Qle_bool (tweenEndTime it) now then
    if _hasStartedInternal it && Tween.isActive tw then
      let '(tw, w) := Tween.setProgress 1 tw w in
      (with_tween tw it, w)
    else if negb (_hasStartedInternal it) then
      let '(tw, w) := Tween.start tw w in
      let '(tw, w) := Tween.setProgress 1 tw w in
      (mkItem tw (startTime it) true, w)
    else (it, w)
  else if _hasStartedInternal it then
    let '(tw, w) := Tween.resetToStart tw w in
    (mkItem tw (startTime it) false, w)
  else (it, w).

(** [seek(time)] *)
Definition seek (time : Q) (tl : t) (w : World) : t * World :=
  let tl := with_currentTime (Qmax 0 (Qmin time (duration tl))) tl in
  let '(items, w) := for_each (seek_item (currentTime tl)) (tweensWithMeta tl) w in
  (with_items items tl, w).

(** The body of the first loop of [update], at play-head [now].  The local
    [allComplete] of the source is assigned and never read; it is left
    out. *)
Definition update_item (now : Q) (it : item) (w : World) : item * World :=
  let tw := tween it in
  if Qle_bool (startTime it) now && Qltb now (tweenEndTime it) then
    let '(tw, w, started) :=
      if negb (_hasStartedInternal it)
      then let '(tw, w) := Tween.start tw w in
           (Tween.with_isActive true tw, w, true)
      else (tw, w, _hasStartedInternal it) in
    let '(tw, w) :=
      Tween.setProgress ((now - startTime it) / Tween.duration tw) tw w in
    (mkItem tw (startTime it) started, w)
  else if Qle_bool (tweenEndTime it) now then
    if _hasStartedInternal it && Tween.isActive tw then
      let '(tw, w) := Tween.setProgress 1 tw w in
      (with_tween tw it, w)
    else (it, w)
  else if Qltb now (startTime it) && _hasStartedInternal it then
    let '(tw, w) := Tween.resetToStart tw w in
    (mkItem tw (startTime it) false, w)
  else (it, w).

(** The body of the loop that finishes a timeline which does not loop. *)
Definition finish_item (it : item) (w : World) : item * World :=
  if _hasStartedInternal it && Tween.isActive (tween it) then
    let '(tw, w) := Tween.setProgress 1 (tween it) w in
    (with_tween tw it, w)
  else (it, w).

(** [update(deltaTime)].  The source calls itself once after a loop wrap
    ([this.update(0)]); [fuel] bounds the depth of that call. *)
Fixpoint update_fuel (fuel : nat) (deltaTime : Q) (tl : t) (w : World) : t * World :=
  if negb (isPlaying tl) then (tl, w)
  else
    let tl := with_currentTime (currentTime tl + deltaTime * timeScale tl) tl in
    let '(items, w) :=
      for_each (update_item (currentTime tl)) (tweensWithMeta tl) w in
    let tl := with_items items tl in
    if Qle_bool (duration tl) (currentTime tl) then
      if loop tl then
        let tl := with_currentTime (Qrem (currentTime tl) (duration tl)) tl in
        let '(tl, w) := resetAllTweensState tl w in
        match fuel with
        | O => (tl, w)
        | S fuel' => update_fuel fuel' 0 tl w
        end
      else
        let tl := with_isPlaying false tl in
        let '(items, w) := for_each finish_item (tweensWithMeta tl) w in
        (with_items items tl, emit_if (onCompleteCallback tl) EvTimelineComplete w)
    else (tl, w).

(** One nested call is all the source makes when the timeline has a
    positive duration: see [update_fuel_enough]. *)
Definition update (deltaTime : Q) (tl : t) (w : World) : t * World :=
  update_fuel 1 deltaTime tl w.

(** [dispose()] *)
Definition dispose (tl : t) (w : World) : t * World :=
  (with_items [] tl, emit_if (sceneRef tl) EvRemoveTimeline w).

End Timeline.

(** ** Timelines whose entries share Tween objects

    [add] keeps the Tween object it is given, and one object may be added
    more than once.  Here the Tween objects live in a store and an entry
    holds a reference to one of them; [Timeline] above is the case in
    which every entry refers to a Tween object of its own (see
    [for_each_by_value]). *)

Module TimelineRef.

(** The Tween objects, by reference. *)
Definition tweens : Type := nat -> Tween.t.

(** The object at [r] replaced by [tw]. *)
Definition put (r : nat) (tw : Tween.t) (s : tweens) : tweens :=
  fun r' => if Nat.eqb r' r then tw else s r'.

(** An element of [tweensWithMeta]. *)
Record item := mkItem {
  tween : nat;
  startTime : Q;
  _hasStartedInternal : bool
}.

Record t := mk {
  sceneRef : option nat;
  tweensWithMeta : list item;
  currentTime : Q;
  isPlaying : bool;
  timeScale : Q;
  duration : Q;
  loop : bool;
  onCompleteCallback : option nat
}.

(** An entry with the current state of its Tween object. *)
Definition entry (s : tweens) (it : item) : Timeline.item :=
  Timeline.mkItem (s (tween it)) (startTime it) (_hasStartedInternal it).

(** [new Timeline(sceneRef)] *)
Definition constructor (sceneRef : option nat) (w : World) : t * World :=
  ({| sceneRef := sceneRef; tweensWithMeta := []; currentTime := 0;
      isPlaying := false; timeScale := 1; duration := 0;
      loop := false; onCompleteCallback := None |},
   emit_if sceneRef EvAddTimeline w).

(** [add(tween, startTime)]: the Tween object is marked as managed, the
    entry is pushed and the duration is recalculated. *)
Definition add (tween : nat) (startTime : Q) (tl : t) (s : tweens) : t * tweens :=
  let s := put tween (Tween.with_managedByTimeline true (s tween)) s in
  let items := (tweensWithMeta tl ++ [mkItem tween startTime false])%list in
  (mk (sceneRef tl) items (currentTime tl) (isPlaying tl) (timeScale tl)
      (fold_left (fun d it => Qmax d (Timeline.tweenEndTime (entry s it))) items 0)
      (loop tl) (onCompleteCallback tl),
   s).

(** The body of the loop of [seek], at play-head [now]: the body of
    [Timeline.seek_item] on the Tween object the entry refers to, whose
    new state goes back into the store. *)
Definition seek_item (now : Q) (it : item) (s : tweens) (w : World)
  : item * tweens * World :=
  let '(it', w) := Timeline.seek_item now (entry s it) w in
  (mkItem (tween it) (Timeline.startTime it') (Timeline._hasStartedInternal it'),
   put (tween it) (Timeline.tween it') s, w).

Fixpoint for_each (body : item -> tweens -> World -> item * tweens * World)
    (items : list item) (s : tweens) (w : World) : list item * tweens * World :=
  match items with
  | [] => ([], s, w)
  | it :: rest =>
      let '(it', s', w') := body it s w in
      let '(rest', s'', w'') := for_each body rest s' w' in
      (it' :: rest', s'', w'')
  end.

(** [seek(time)] *)
Definition seek (time : Q) (tl : t) (s : tweens) (w : World) : t * tweens * World :=
  let now := Qmax 0 (Qmin time (duration tl)) in
  let '(items, s, w) := for_each (seek_item now) (tweensWithMeta tl) s w in
  (mk (sceneRef tl) items now (isPlaying tl) (timeScale tl) (duration tl)
      (loop tl) (onCompleteCallback tl),
   s, w).

End TimelineRef.

(** ** Vocabulary of the properties *)

(** The error taxonomy of the specification, and the two ways a [new]
    expression can end. *)
Inductive error : Type :=
| PropertyNotFound
| UnsupportedValueType
| ShapeMismatch
| InvalidDuration.

Inductive outcome (A : Type) : Type :=
| Returned (a : A)
| Thrown (e : error).

Arguments Returned {A} a.
Arguments Thrown {A} e.

(** [new Tween(...)] as an expression.  The constructor body is a run of
    assignments without a [throw]: it returns on every input. *)
Definition new_Tween (target : ref) (propertyPath : string) (endValue : value)
    (duration : Q) (easingFn : Q -> Q) (sceneRef : option nat)
  : outcome Tween.t :=
  Returned (Tween.constructor target propertyPath endValue duration easingFn sceneRef).

(** The start times that the loop of [sequence] passes to [add], one per
    tween: [currentTimeMarker] before each [currentTimeMarker +=
    tween.duration + gap].  The numbers are of any kind, with [plus] for
    their addition: the rationals of the engine, or the doubles of
    [Doubles] below. *)
Fixpoint markers {N : Type} (plus : N -> N -> N) (durations : list N)
    (gap currentTimeMarker : N) : list N :=
  match durations with
  | [] => []
  | d :: rest =>
      currentTimeMarker :: markers plus rest gap (plus currentTimeMarker (plus d gap))
  end.

(** Completion callbacks in a trace. *)
Definition is_complete (e : event) : bool :=
  match e with EvComplete _ => true | _ => false end.

Definition completions (tr : list event) : nat := length (filter is_complete tr).

(** [w'] continues [w] with the events [evs]. *)
Definition extends (w w' : World) (evs : list event) : Prop :=
  trace w' = (trace w ++ evs)%list.

(** The value one turn of the record loop of [Tween.update] assigns to
    [key], if it assigns one. *)
Definition assigned (sv ev : value) (eased progress : Q) (key : string)
  : option value :=
  if hasOwnProperty sv key && hasOwnProperty ev key then
    match get_prop sv key, get_prop ev key with
    | VNum s, VNum e => Some (VNum (lerp s e eased))
    | VStr s, VStr e =>
        if is_color s && is_color e
        then Some (VStr (interpolateColor s e eased))
        else if Qle_bool 1 progress then Some (VStr e) else None
    | _, e => if Qle_bool 1 progress then Some e else None
    end
  else None.

(** [w'] continues [w] without a completion callback. *)
Definition quiet (w w' : World) : Prop :=
  exists evs, extends w w' evs /\ completions evs = 0%nat.

(** The progress [Tween.update] computes right after
    [setProgress(ratio)] has set [elapsedTime]. *)
Definition progress_at (ratio : Q) (tw : Tween.t) : Q :=
  let elapsed := Qmin (Qmax 0 ratio) 1 * Tween.duration tw in
  Qmin ((if negb (Tween._managedByTimeline tw) then elapsed + 0 else elapsed)
        / Tween.duration tw) 1.

(** The fields of a tween that no method assigns. *)
Definition same_binding (X Y : Tween.t) : Prop :=
  Tween.target Y = Tween.target X
  /\ Tween.propertyPath Y = Tween.propertyPath X
  /\ Tween.endValue Y = Tween.endValue X
  /\ Tween.duration Y = Tween.duration X
  /\ Tween.easingFn Y = Tween.easingFn X
  /\ Tween.sceneRef Y = Tween.sceneRef X
  /\ Tween.onUpdate Y = Tween.onUpdate X
  /\ Tween.onComplete Y = Tween.onComplete X
  /\ Tween._managedByTimeline Y = Tween._managedByTimeline X.

(** The start value [Tween.start] captures when the binding reads as
    [rawStart]; [None] when it gives up. *)
Definition start_outcome (tw : Tween.t) (rawStart : value) : option value :=
  if is_undefined rawStart && negb (Tween.is_dummy tw) then None
  else Tween.capture tw rawStart (Tween.endValue tw).

(** The binding of a tween in a heap. *)
Definition bound (h : gmap nat value) (tw : Tween.t) : value :=
  heap_get h (Tween.target tw) (Tween.propertyPath tw).

(** A path that runs through plain objects of [obj] down to its last key:
    an assignment through it takes effect. *)
Fixpoint writable (obj : value) (path : list string) : bool :=
  match obj, path with
  | VObj _, [_] => true
  | VObj fs, k :: rest =>
      match lookup_field k fs with
      | Some c => writable c rest
      | None => false
      end
  | _, _ => false
  end.

Definition heap_writable (h : gmap nat value) (tw : Tween.t) : bool :=
  match h !! Tween.target tw with
  | Some obj => writable obj (Tween.propertyPath tw)
  | None => false
  end.

(** A tween holds a captured start value, in the sense of the guard of
    [resetToStart]. *)
Definition holds_start (tw : Tween.t) : bool :=
  negb (is_null (Tween.startValue tw)) && negb (is_null (Tween.rawStartValue tw))
  && negb (Tween.is_dummy tw).

(** What rewinding a timeline means, in the words of the specification:
    every entry goes back to Unstarted, and each tween that holds a
    captured start value has it written back through its binding, in
    container order. *)
Definition unstarted (it : Timeline.item) : Timeline.item :=
  Timeline.mkItem
    (Tween.with_isActive false (Tween.with_elapsedTime 0 (Timeline.tween it)))
    (Timeline.startTime it) false.

(** The value that goes back into the binding for a captured
    [rawStartValue]: the value itself, with one exception, an empty array,
    for which a plain object without keys is written. *)
Definition restored (raw : value) : value :=
  if isArray raw && (array_length raw =? 0)%nat then VObj [] else raw.

Definition write_back (h : gmap nat value) (it : Timeline.item) : gmap nat value :=
  let tw := Timeline.tween it in
  if holds_start tw
  then heap_set h (Tween.target tw) (Tween.propertyPath tw)
                (restored (Tween.rawStartValue tw))
  else h.

(** [p] is a prefix of [q]: the property at [q] is the one at [p] or lies
    inside it. *)
Fixpoint is_prefix (p q : list string) : bool :=
  match p, q with
  | [], _ => true
  | _ :: _, [] => false
  | k :: p', k' :: q' => String.eqb k k' && is_prefix p' q'
  end.

(** Two bindings overlap: same target object, and one property is the
    other or lies inside it. *)
Definition overlap (X Y : Tween.t) : bool :=
  Nat.eqb (Tween.target X) (Tween.target Y)
  && (is_prefix (Tween.propertyPath X) (Tween.propertyPath Y)
      || is_prefix (Tween.propertyPath Y) (Tween.propertyPath X)).

(** No two entries of a timeline have bindings that overlap.  Two entries
    may animate different properties of one object. *)
Definition separate (items : list Timeline.item) : Prop :=
  ForallOrdPairs
    (fun a b => overlap (Timeline.tween a) (Timeline.tween b) = false) items.



(** [h'] comes from [h] by assignments through bindings that do not
    overlap the binding of [X]. *)
Inductive written_apart (X : Tween.t) (h : gmap nat value) : gmap nat value -> Prop :=
| written_none : written_apart X h h
| written_more (h' : gmap nat value) (Y : Tween.t) (u : value) :
    written_apart X h h' -> overlap X Y = false ->
    written_apart X h (heap_set h' (Tween.target Y) (Tween.propertyPath Y) u).


(** A tween as a timeline keeps it between calls: managed by the timeline
    and, when active, holding a captured start value (or being the phantom
    binding).  [Timeline.add] on an inactive tween establishes it and
    [Timeline.seek] preserves it. *)
Definition driven (tw : Tween.t) : bool :=
  Tween._managedByTimeline tw
  && (negb (Tween.isActive tw) || negb (is_null (Tween.startValue tw))
      || Tween.is_dummy tw).

(** ** Scenarios *)

(** The target [{x: 0}] at reference 0, and nothing traced yet. *)
Definition world_x0 : World :=
  {| heap := {[ 0%nat := VObj [("x", VNum 0)] ]}; trace := [] |}.

(** A timeline with one entry, [x] to 10 over one second from time 0, and
    timeline callback 9. *)
Definition tween_a : Tween.t :=
  Tween.then_ 1 (Tween.constructor 0 "x" (VNum 10) 1 linear None).

Definition timeline_a : Timeline.t :=
  Timeline.then_ 9 (Timeline.add tween_a 0 (fst (Timeline.constructor None world_x0))).

(** Two entries on the same property: [x] to 20 over two seconds, then
    [x] to 10 over one second, both from time 0. *)
Definition tween_b : Tween.t := Tween.constructor 0 "x" (VNum 20) 2 linear None.

Definition timeline_ba : Timeline.t :=
  Timeline.add tween_a 0
    (Timeline.add tween_b 0 (fst (Timeline.constructor None world_x0))).

(** The target [{style: {a: 1, c: "#000"}}] and a record tween on
    [style] whose end value has a key [b] that the start lacks. *)
Definition world_style : World :=
  {| heap := {[ 0%nat := VObj [("style", VObj [("a", VNum 1); ("c", VStr "#000")])] ]};
     trace := [] |}.

Definition tween_style : Tween.t :=
  Tween.constructor 0 "style"
    (VObj [("a", VNum 2); ("b", VNum 3); ("c", VStr "#fff")]) 1 linear None.

(** One Tween object, [x] to 10 over a second with completion callback 1,
    added to a timeline twice, at 0 and at 2. *)
Definition shared_tweens : TimelineRef.tweens :=
  fun _ => Tween.then_ 1 (Tween.constructor 0 "x" (VNum 10) 1 linear None).

Definition timeline_shared : TimelineRef.t * TimelineRef.tweens :=
  let '(tl, s) := TimelineRef.add 0 0 (fst (TimelineRef.constructor None world_x0))
                    shared_tweens in
  TimelineRef.add 0 2 tl s.

(** The target [{x: 0, y: 0}] and a timeline with two Tween objects on it,
    [x] to 10 over [0, 1) and [y] to 5 over [0, 2). *)
Definition world_xy : World :=
  {| heap := {[ 0%nat := VObj [("x", VNum 0); ("y", VNum 0)] ]}; trace := [] |}.

Definition tweens_xy : TimelineRef.tweens :=
  fun r => match r with
           | O => Tween.then_ 1 (Tween.constructor 0 "x" (VNum 10) 1 linear None)
           | _ => Tween.constructor 0 "y" (VNum 5) 2 linear None
           end.

Definition timeline_xy : TimelineRef.t * TimelineRef.tweens :=
  let '(tl, s) := TimelineRef.add 0 0 (fst (TimelineRef.constructor None world_xy))
                    tweens_xy in
  TimelineRef.add 1 0 tl s.



(** [h'] is [h] after some writes through the binding of [X], if any. *)
Definition rewritten (X : Tween.t) (h h' : gmap nat value) : Prop :=
  h' = h \/ exists u, h' = heap_set h (Tween.target X) (Tween.propertyPath X) u.

(** The invocation of a timeline's completion callback. *)
Definition is_timeline_complete (e : event) : bool :=
  match e with EvTimelineComplete _ => true | _ => false end.

(** [w'] continues [w] without an event that [f] selects. *)
Definition avoids (f : event -> bool) (w w' : World) : Prop :=
  exists evs, extends w w' evs /\ filter f evs = [].

(** ** Shapes that animate themselves

    The methods of [PolygonShape] and [FunctionPlot] that build tweens.
    The shape is the object at [this] in the heap; [sceneRef] stands for
    its [sceneRef] property, resolved as for [Tween.constructor]. *)

Module PolygonShape.

(** [morphTo(targetPoints, duration, easing)]; [None] is the inert stub
    the source returns after logging that the lengths differ. *)
Definition morphTo (this : ref) (targetPoints : list (Q * Q)) (duration : Q)
    (easing : Q -> Q) (sceneRef : option nat) (w : World) : option Tween.t :=
  if negb (array_length (heap_get (heap w) this ["points"]) =? length targetPoints)%nat
  then None
  else Some (Tween.constructor this "points" (clone (VPoints targetPoints))
               duration easing sceneRef).

End PolygonShape.

Module FunctionPlot.

(** [createAnimation(duration, easing)] *)
Definition createAnimation (this : ref) (duration : Q) (easing : Q -> Q)
    (sceneRef : option nat) (w : World) : Tween.t * World :=
  let w := write this ["drawProgress"] (VNum 0) w in
  (Tween.constructor this "drawProgress" (VNum 1) duration easing sceneRef, w).

(** [uncreateAnimation(duration, easing)] *)
Definition uncreateAnimation (this : ref) (duration : Q) (easing : Q -> Q)
    (sceneRef : option nat) : Tween.t :=
  Tween.constructor this "drawProgress" (VNum 0) duration easing sceneRef.

End FunctionPlot.

(** A run of decimal digits. *)
Definition all_digits (ds : list ascii) : Prop := Forall (fun c => is_digit c = true) ds.

(** The digits [print_fixed3] writes after the decimal point for the
    thousandths [m], and the check that they read back as [m / 1000]. *)
Definition frac_digits (m : Z) : list ascii :=
  rev (drop_zeros (rev (list_ascii_of_string (pad3 m)))).

Definition frac_ok (m : Z) : bool :=
  let fp := frac_digits m in
  forallb is_digit fp
  && (decimal_val fp * 1000 =? m * Z.of_nat (10 ^ length fp))%Z
  && match fp with [] => (m =? 0)%Z | _ :: _ => negb (m =? 0)%Z end.

(** A colour whose channels are at most 255 and whose alpha is a number
    between 0 and 1. *)
Definition in_gamut (c : rgba) : Prop :=
  (r c <= 255 /\ g c <= 255 /\ b c <= 255)%Z
  /\ exists q, a c = Some q /\ 0 <= q /\ q <= 1.

(** ** class Scene: the registry of standalone tweens

    Tweens are objects compared by identity; a handle names one.  The
    registry is the array [activeTweens]. *)

Module Scene.

Record t := mk { activeTweens : list nat }.

(** [a.indexOf(x)]; [None] is -1. *)
Fixpoint indexOf (x : nat) (l : list nat) : option nat :=
  match l with
  | [] => None
  | y :: rest => if Nat.eqb x y then Some 0%nat else option_map S (indexOf x rest)
  end.

(** [addTween(tween)] *)
Definition addTween (tween : nat) (sc : t) : t :=
  if existsb (Nat.eqb tween) (activeTweens sc) then sc
  else mk (activeTweens sc ++ [tween]).

(** [removeTween(tween)]: [splice(index, 1)] at the first index of the
    tween, if it has one. *)
Definition removeTween (tween : nat) (sc : t) : t :=
  match indexOf tween (activeTweens sc) with
  | Some index => mk (delete index (activeTweens sc))
  | None => sc
  end.

End Scene.

(** * Properties *)

(** ** The easing table *)

Module EasingFacts.

Local Open Scope R_scope.

Import Easing.

Lemma pow2_0 (x : R) : x = 0 -> pow2 x = 1.
Proof. intros ->. apply Rpower_O. lra. Qed.

Lemma bounce_0 : easeOutBounce 0 = 0.
Proof. unfold easeOutBounce, ltb. branches. Qed.

Lemma bounce_1 : easeOutBounce 1 = 1.
Proof. unfold easeOutBounce, ltb. branches. Qed.

(** *** The sine family at the double [Math.PI] *)

Lemma zfact_fact (n : nat) : IZR (Taylor.zfact n) = INR (fact n).
Proof.
  induction n as [|n IH]; [reflexivity|].
  change (fact (S n)) with (S n * fact n)%nat.
  rewrite mult_INR, <- IH. cbn [Taylor.zfact].
  rewrite mult_IZR, <- INR_IZR_INZ. reflexivity.
Qed.

Lemma zfact_pos (n : nat) : (0 < Taylor.zfact n)%Z.
Proof. induction n as [|n IH]; cbn [Taylor.zfact]; lia. Qed.

Lemma qpow_pow (a : Q) (n : nat) : Q2R (Taylor.qpow a n) = Q2R a ^ n.
Proof.
  induction n as [|n IH]; cbn [Taylor.qpow pow].
  - unfold Q2R. cbn. lra.
  - rewrite Q2R_mult, IH. reflexivity.
Qed.

Lemma Q2R_inject_Z (z : Z) : Q2R (inject_Z z) = IZR z.
Proof. unfold Q2R, inject_Z. cbn. lra. Qed.

Lemma Q2R_minus_one : Q2R (-1) = -1.
Proof. unfold Q2R. cbn. lra. Qed.

Lemma Q2R_0 : Q2R 0 = 0.
Proof. unfold Q2R. cbn. lra. Qed.

Lemma Q2R_1 : Q2R 1 = 1.
Proof. unfold Q2R. cbn. lra. Qed.

Lemma Q2R_2 : Q2R 2 = 2.
Proof. unfold Q2R. cbn. lra. Qed.

Lemma term_Q2R (a : Q) (i k : nat) :
  Q2R (Taylor.qpow (-1) i * (Taylor.qpow a k / inject_Z (Taylor.zfact k)))
  = (-1) ^ i * (Q2R a ^ k / INR (fact k)).
Proof.
  rewrite Q2R_mult, Q2R_div, !qpow_pow, Q2R_inject_Z, zfact_fact, Q2R_minus_one.
  - reflexivity.
  - intros H. pose proof (zfact_pos k) as Hp.
    unfold Qeq, inject_Z in H. cbn in H. lia.
Qed.

Lemma sum_Q2R (f : nat -> Q) (g : nat -> R) (n : nat) :
  (forall i, Q2R (f i) = g i) -> Q2R (Taylor.sum f n) = sum_f_R0 g n.
Proof.
  intros H. induction n as [|n IH]; cbn [Taylor.sum sum_f_R0].
  - apply H.
  - rewrite Q2R_plus, IH, H. reflexivity.
Qed.

Lemma cos_approx_Q2R (a : Q) (n : nat) :
  Q2R (Taylor.cos_approx a n) = cos_approx (Q2R a) n.
Proof. apply sum_Q2R. intros i. apply term_Q2R. Qed.

Lemma quarter_R : Q2R Taylor.quarter = Math_PI / 4.
Proof. unfold Q2R, Taylor.quarter, Math_PI. cbn. lra. Qed.

Lemma PI_above_3 : 3 < PI.
Proof. pose proof PI2_3_2. lra. Qed.

(** The cosine of [Math.PI / 4] lies between two partial sums of its
    series. *)
Lemma cos_quarter :
  Q2R (Taylor.cos_approx Taylor.quarter 15) <= cos (Math_PI / 4)
  <= Q2R (Taylor.cos_approx Taylor.quarter 16).
Proof.
  rewrite !cos_approx_Q2R, <- quarter_R.
  assert (H : 0 <= Q2R Taylor.quarter <= PI / 2).
  { rewrite quarter_R. unfold Math_PI. pose proof PI_above_3. lra. }
  apply (cos_bound (Q2R Taylor.quarter) 7); lra.
Qed.

(** The cosine of [Math.PI / 2] is not 0: it is within 2^-108 of
    4967757600021511 / 2^106, about 6.1e-17. *)
Lemma cos_half_PI :
  Q2R (Taylor.cos_half - Taylor.eps) < cos (Math_PI / 2)
  < Q2R (Taylor.cos_half + Taylor.eps).
Proof.
  replace (Math_PI / 2) with (2 * (Math_PI / 4)) by lra.
  rewrite cos_2a_cos.
  destruct cos_quarter as [Hl Hu].
  assert (Hl0 : 0 <= Q2R (Taylor.cos_approx Taylor.quarter 15)).
  { rewrite <- Q2R_0. apply Qle_Rle. vm_compute. discriminate. }
  assert (H1 : Q2R (Taylor.cos_half - Taylor.eps)
               < Q2R (2 * Taylor.cos_approx Taylor.quarter 15
                        * Taylor.cos_approx Taylor.quarter 15 - 1)).
  { apply Qlt_Rlt. vm_compute. reflexivity. }
  assert (H2 : Q2R (2 * Taylor.cos_approx Taylor.quarter 16
                      * Taylor.cos_approx Taylor.quarter 16 - 1)
               < Q2R (Taylor.cos_half + Taylor.eps)).
  { apply Qlt_Rlt. vm_compute. reflexivity. }
  revert H1 H2.
  generalize (Q2R (Taylor.cos_half - Taylor.eps)) (Q2R (Taylor.cos_half + Taylor.eps)).
  intros lo hi.
  rewrite !Q2R_minus, !Q2R_mult, Q2R_1, Q2R_2.
  revert Hl Hu Hl0.
  generalize (Q2R (Taylor.cos_approx Taylor.quarter 15))
             (Q2R (Taylor.cos_approx Taylor.quarter 16))
             (cos (Math_PI / 4)).
  intros l u c Hl Hu Hl0 H1 H2. split; nra.
Qed.

(** In units of 2^-54: the cosine of [Math.PI / 2] is more than one and
    less than two of them. *)
Lemma cos_half_PI_coarse : / 2 ^ 54 < cos (Math_PI / 2) < 2 / 2 ^ 54.
Proof.
  destruct cos_half_PI as [Hl Hu].
  assert (H1 : Q2R (1 # 18014398509481984) < Q2R (Taylor.cos_half - Taylor.eps)).
  { apply Qlt_Rlt. vm_compute. reflexivity. }
  assert (H2 : Q2R (Taylor.cos_half + Taylor.eps) < Q2R (2 # 18014398509481984)).
  { apply Qlt_Rlt. vm_compute. reflexivity. }
  assert (E1 : Q2R (1 # 18014398509481984) = / 2 ^ 54).
  { unfold Q2R. cbn [Qnum Qden]. lra. }
  assert (E2 : Q2R (2 # 18014398509481984) = 2 / 2 ^ 54).
  { unfold Q2R. cbn [Qnum Qden]. lra. }
  rewrite E1 in H1. rewrite E2 in H2. split; lra.
Qed.

Lemma sine_at_0 : easeInSine 0 = 0 /\ easeOutSine 0 = 0 /\ easeInOutSine 0 = 0.
Proof.
  unfold easeInSine, easeOutSine, easeInOutSine.
  replace (0 * Math_PI / 2) with 0 by lra.
  replace (Math_PI * 0) with 0 by lra.
  rewrite cos_0, sin_0. repeat split; lra.
Qed.

(** [easeInSine(1)] is next to the double below 1. *)
Lemma easeInSine_1 : rounds_below_one (easeInSine 1).
Proof.
  unfold rounds_below_one, easeInSine.
  replace (1 * Math_PI / 2) with (Math_PI / 2) by lra.
  destruct cos_half_PI_coarse as [Hl Hu]. split; lra.
Qed.

Lemma easeOutSine_1 : rounds_to_one (easeOutSine 1).
Proof.
  unfold rounds_to_one, easeOutSine.
  replace (1 * Math_PI / 2) with (Math_PI / 2) by lra.
  destruct cos_half_PI_coarse as [Hl Hu].
  assert (Hp : 0 < / 2 ^ 54) by (apply Rinv_0_lt_compat; lra).
  assert (Hq : / 2 ^ 54 < / 1000) by (apply Rinv_lt_contravar; lra).
  assert (Hr : 0 < / 2 ^ 53) by (apply Rinv_0_lt_compat; lra).
  destruct (SIN_bound (Math_PI / 2)) as [_ Hs1].
  assert (Hs0 : 0 <= sin (Math_PI / 2)).
  { apply sin_ge_0; unfold Math_PI; pose proof PI_above_3; lra. }
  pose proof (sin2_cos2 (Math_PI / 2)) as H2. unfold Rsqr in H2.
  set (x := Math_PI / 2) in *. unfold Rdiv in Hu.
  revert Hl Hu Hs0 Hs1 H2 Hp Hq Hr.
  generalize (sin x) (cos x) (/ 2 ^ 54) (/ 2 ^ 53).
  intros s c e e' Hl Hu Hs0 Hs1 H2 Hp Hq Hr.
  assert (Hc : 0 <= (2 * e - c) * (2 * e + c)) by (apply Rmult_le_pos; lra).
  assert (He : 0 <= e * (1 - 4 * e)) by (apply Rmult_le_pos; lra).
  assert (Hs : 0 <= s * (1 - s)) by (apply Rmult_le_pos; lra).
  split; lra.
Qed.

Lemma easeInOutSine_1 : rounds_to_one (easeInOutSine 1).
Proof.
  unfold rounds_to_one, easeInOutSine.
  replace (Math_PI * 1) with (2 * (Math_PI / 2)) by lra.
  rewrite cos_2a_cos.
  destruct cos_half_PI_coarse as [Hl Hu].
  assert (Hp : 0 < / 2 ^ 54) by (apply Rinv_0_lt_compat; lra).
  assert (Hq : / 2 ^ 54 < / 1000) by (apply Rinv_lt_contravar; lra).
  assert (Hr : 0 < / 2 ^ 53) by (apply Rinv_0_lt_compat; lra).
  set (x := Math_PI / 2) in *. unfold Rdiv in Hu.
  revert Hl Hu Hp Hq Hr.
  generalize (cos x) (/ 2 ^ 54) (/ 2 ^ 53).
  intros c e e' Hl Hu Hp Hq Hr.
  assert (Hc : 0 <= (2 * e - c) * (2 * e + c)) by (apply Rmult_le_pos; lra).
  assert (He : 0 <= e * (1 - 4 * e)) by (apply Rmult_le_pos; lra).
  assert (Hc0 : 0 <= c * c) by (apply Rmult_le_pos; lra).
  split; lra.
Qed.

Lemma circ_ends :
  easeInCirc 0 = 0 /\ easeInCirc 1 = 1 /\ easeOutCirc 0 = 0 /\ easeOutCirc 1 = 1
  /\ easeInOutCirc 0 = 0 /\ easeInOutCirc 1 = 1.
Proof.
  unfold easeInCirc, easeOutCirc, easeInOutCirc, ltb.
  branches.
  replace (1 - 0 * 0) with 1 by lra.
  replace (1 - 1 * 1) with 0 by lra.
  replace (1 - (0 - 1) * (0 - 1)) with 0 by lra.
  replace (1 - (1 - 1) * (1 - 1)) with 1 by lra.
  replace (1 - 4 * 0 * 0) with 1 by lra.
  replace (1 - (-2 * 1 + 2) * (-2 * 1 + 2)) with 1 by lra.
  rewrite sqrt_0, sqrt_1.
  repeat split; lra.
Qed.

Lemma expo_ends :
  easeInExpo 0 = 0 /\ easeInExpo 1 = 1 /\ easeOutExpo 0 = 0 /\ easeOutExpo 1 = 1
  /\ easeInOutExpo 0 = 0 /\ easeInOutExpo 1 = 1.
Proof.
  unfold easeInExpo, easeOutExpo, easeInOutExpo, eqb, ltb.
  branches.
  rewrite (pow2_0 (10 * (1 - 1))) by lra.
  rewrite (pow2_0 (-10 * 0)) by lra.
  repeat split; lra.
Qed.

End EasingFacts.

(** C8, as the code has it: every easing function of the base families
    (linear, quad, cubic, quart, quint, sine, expo, circ and bounce, in
    their in, out and in-out variants) maps 0 to 0, and every one outside
    the sine family maps 1 to 1.  In the sine family, [Math.PI] being a
    double, the real value at 1 is not 1: for [easeOutSine] and
    [easeInOutSine] it is next to the double 1, for [easeInSine] it is next
    to the double below 1.  The functions that use arithmetic and
    [Math.sqrt] only have these endpoints on doubles as well, every
    operation rounded. *)
Theorem base_easings_fix_endpoints :
  Forall (fun e => snd e 0%R = 0%R /\ Easing.at_one (fst e) (snd e 1%R)) Easing.base
  /\ Forall (fun e => EasingD.fixes_endpoints (snd e)) EasingD.arithmetic.
Proof.
  split.
  - pose proof EasingFacts.sine_at_0 as Hs.
    pose proof EasingFacts.easeInSine_1 as Hs1.
    pose proof EasingFacts.easeOutSine_1 as Hs2.
    pose proof EasingFacts.easeInOutSine_1 as Hs3.
    pose proof EasingFacts.circ_ends as Hc.
    pose proof EasingFacts.expo_ends as He.
    pose proof EasingFacts.bounce_0 as Hb0.
    pose proof EasingFacts.bounce_1 as Hb1.
    unfold Easing.base.
    repeat (apply List.Forall_cons || apply List.Forall_nil);
      cbn [fst snd];
      match goal with
      | |- _ /\ Easing.at_one ?n ?y =>
          let P := eval vm_compute in (Easing.at_one n) in
          change (Easing.at_one n y) with (P y); cbv beta
      end;
      try tauto.
    all: unfold Easing.linear, Easing.easeInQuad, Easing.easeOutQuad,
        Easing.easeInOutQuad, Easing.easeInCubic, Easing.easeOutCubic,
        Easing.easeInOutCubic, Easing.easeInQuart, Easing.easeOutQuart,
        Easing.easeInOutQuart, Easing.easeInQuint, Easing.easeOutQuint,
        Easing.easeInOutQuint, Easing.easeInBounce, Easing.easeInOutBounce,
        Easing.ltb.
    all: Easing.branches.
    all: try (split; lra).
    + clear Hs Hs1 Hs2 Hs3 Hc He.
      rewrite Rminus_0_r, Rminus_diag, Hb0, Hb1. split; lra.
    + clear Hs Hs1 Hs2 Hs3 Hc He. unfold Easing.easeInBounce.
      replace (1 - 0 * 2)%R with 1%R by (clear; lra).
      replace (1 * 2 - 1)%R with 1%R by (clear; lra).
      rewrite Hb1. split; lra.
  - unfold EasingD.arithmetic.
    repeat (apply List.Forall_cons; [vm_compute; split; reflexivity|]).
    apply List.Forall_nil.
Qed.

(** Not every function of the base families has 1 at 1: [easeInSine] is in
    the table, and its value at 1 is more than 2^-54 below 1, so that the
    double next to it is not 1. *)
Lemma easeInSine_misses_one :
  In ("easeInSine", Easing.easeInSine) Easing.base
  /\ (Easing.easeInSine 1 < 1 - / 2 ^ 54)%R.
Proof.
  split.
  - unfold Easing.base. cbn [In]. tauto.
  - exact (proj2 EasingFacts.easeInSine_1).
Qed.

(** ** The tween scenario *)

(** C4: on the target [{x: 0}], a tween of [x] to 10 over 2 seconds with
    linear easing leaves [x] equal to 5 after [start()] and
    [setProgress(0.5)]; [setProgress(1)] leaves exactly the end value 10 in
    [x], deactivates the tween and invokes its completion callback once;
    a further [setProgress(1)] changes nothing and invokes nothing. *)
Theorem tween_scenario (cb : nat) (tr : list event) :
  let w0 := {| heap := {[ 0%nat := VObj [("x", VNum 0)] ]}; trace := tr |} in
  let tw0 := Tween.then_ cb (Tween.constructor 0 "x" (VNum 10) 2 linear None) in
  let '(tw1, w1) := Tween.start tw0 w0 in
  let '(tw2, w2) := Tween.setProgress (1 # 2) tw1 w1 in
  let '(tw3, w3) := Tween.setProgress 1 tw2 w2 in
  let '(tw4, w4) := Tween.setProgress 1 tw3 w3 in
  (exists q, heap_get (heap w2) 0 ["x"] = VNum q /\ q == 5)
  /\ Tween.isActive tw2 = true /\ trace w2 = tr
  /\ heap_get (heap w3) 0 ["x"] = VNum 10
  /\ Tween.isActive tw3 = false
  /\ trace w3 = (tr ++ [EvComplete cb])%list
  /\ tw4 = tw3 /\ heap w4 = heap w3 /\ trace w4 = trace w3.
Proof.
  vm_compute.
  repeat split; try reflexivity.
  exists (20 # 4). split; reflexivity.
Qed.

(** ** Entries the play-head jumps over *)

(** C1 at the failing input: a timeline with one entry, [x] to 10 over
    [0, 1).  After [play()] and [update(2)] the play-head is at 2, past the
    window, yet the tween was never started: [x] is still 0, the entry is
    not marked as started and its completion callback 1 did not fire,
    although the timeline reported completion (callback 9).  [seek(2)] on
    the same timeline catches up: [x] is 10 and callback 1 fired. *)
Theorem update_skips_entry_seek_catches_up :
  let '(tl1, w1) := Timeline.play timeline_a world_x0 in
  let '(tl2, w2) := Timeline.update 2 tl1 w1 in
  let '(tl3, w3) := Timeline.seek 2 timeline_a world_x0 in
  (Forall (fun it => Timeline.tweenEndTime it <= Timeline.currentTime tl2)
          (Timeline.tweensWithMeta tl2)
   /\ heap_get (heap w2) 0 ["x"] = VNum 0
   /\ map Timeline._hasStartedInternal (Timeline.tweensWithMeta tl2) = [false]
   /\ trace w2 = [EvTimelineComplete 9])
  /\ (Forall (fun it => Timeline.tweenEndTime it <= Timeline.currentTime tl3)
             (Timeline.tweensWithMeta tl3)
      /\ heap_get (heap w3) 0 ["x"] = VNum 10
      /\ map Timeline._hasStartedInternal (Timeline.tweensWithMeta tl3) = [true]
      /\ trace w3 = [EvComplete 1]).
Proof.
  vm_compute.
  repeat split; try reflexivity; repeat constructor; discriminate.
Qed.

(** ** The range of the play-head *)

Lemma recalculated_duration_nonneg (tl : Timeline.t) :
  0 <= Timeline.duration (Timeline._recalculateDuration tl).
Proof.
  unfold Timeline._recalculateDuration. simpl.
  assert (G : forall items d, 0 <= d ->
            0 <= fold_left (fun d it => Qmax d (Timeline.tweenEndTime it)) items d).
  { induction items as [|it items IH]; intros d Hd; simpl; [exact Hd|].
    apply IH. eapply Qle_trans; [exact Hd|]. apply Q.le_max_l. }
  apply G. apply Qle_refl.
Qed.

(** Every timeline that [add] returns has a duration that is not negative. *)
Lemma add_duration_nonneg (tw : Tween.t) (s : Q) (tl : Timeline.t) :
  0 <= Timeline.duration (Timeline.add tw s tl).
Proof. apply recalculated_duration_nonneg. Qed.

Lemma for_each_length (body : Timeline.item -> World -> Timeline.item * World)
    (items : list Timeline.item) (w : World) :
  length (fst (Timeline.for_each body items w)) = length items.
Proof.
  revert w. induction items as [|it items IH]; intros w; simpl; [reflexivity|].
  destruct (body it w) as [it' w'].
  specialize (IH w'). destruct (Timeline.for_each body items w') as [rest w''].
  simpl in *. congruence.
Qed.

(** C3, as the code has it: [seek] clamps its argument into
    [[0, duration]]; [update] on a playing timeline that does not loop
    moves the play-head by [deltaTime * timeScale] without clamping it, and
    stops playing exactly when the play-head has reached [duration]. *)
Theorem seek_clamps_update_does_not (tl : Timeline.t) (w : World) (x : Q) :
  (0 <= Timeline.duration tl ->
   let tl' := fst (Timeline.seek x tl w) in
   Timeline.currentTime tl' = Qmax 0 (Qmin x (Timeline.duration tl))
   /\ 0 <= Timeline.currentTime tl' <= Timeline.duration tl
   /\ Timeline.duration tl' = Timeline.duration tl)
  /\ (Timeline.isPlaying tl = true -> Timeline.loop tl = false ->
      let tl' := fst (Timeline.update x tl w) in
      Timeline.currentTime tl'
      = Timeline.currentTime tl + x * Timeline.timeScale tl
      /\ Timeline.duration tl' = Timeline.duration tl
      /\ Timeline.isPlaying tl'
         = Qltb (Timeline.currentTime tl') (Timeline.duration tl)).
Proof.
  split.
  - intros Hd. unfold Timeline.seek. simpl.
    destruct (Timeline.for_each _ _ w) as [items w']. simpl.
    split; [reflexivity|]. split; [|reflexivity]. split.
    + apply Q.le_max_l.
    + apply Q.max_lub; [exact Hd|]. apply Q.le_min_r.
  - intros Hp Hl. unfold Timeline.update, Timeline.update_fuel.
    rewrite Hp. simpl.
    destruct (Timeline.for_each _ _ w) as [items w']. simpl.
    unfold Qltb.
    destruct (Qle_bool (Timeline.duration tl) _) eqn:E; simpl.
    + rewrite Hl.
      destruct (Timeline.for_each Timeline.finish_item items w') as [items' w''].
      simpl. rewrite E. repeat split.
    + rewrite Hp, E. repeat split.
Qed.

(** A playing timeline of duration 1 that gets [update(5)] ends with its
    play-head at 5, beyond its duration, and does not loop. *)
Lemma update_overshoots_duration :
  let tl := fst (Timeline.play timeline_a world_x0) in
  let tl' := fst (Timeline.update 5 tl (snd (Timeline.play timeline_a world_x0))) in
  Timeline.loop tl = false
  /\ Timeline.isPlaying tl = true
  /\ ~ Timeline.currentTime tl' <= Timeline.duration tl'.
Proof. vm_compute. repeat split. intros H. apply H. reflexivity. Qed.

(** The clamp and the overshoot on the one-entry timeline. *)
Lemma seek_clamps_update_does_not_witness :
  (let tl' := fst (Timeline.seek 5 timeline_a world_x0) in
   0 <= Timeline.currentTime tl' <= Timeline.duration timeline_a)
  /\ (let tl := fst (Timeline.play timeline_a world_x0) in
      let tl' := fst (Timeline.update 5 tl world_x0) in
      Timeline.isPlaying tl' = false).
Proof.
  split.
  - apply (seek_clamps_update_does_not timeline_a world_x0 5). discriminate.
  - pose proof (seek_clamps_update_does_not
                  (fst (Timeline.play timeline_a world_x0)) world_x0 5) as [_ H].
    specialize (H eq_refl eq_refl). cbv zeta in *.
    destruct H as (_ & _ & H). rewrite H. reflexivity.
Defined.

(** ** Sequences and parallel blocks *)

Lemma add_items (tw : Tween.t) (s : Q) (tl : Timeline.t) :
  Timeline.tweensWithMeta (Timeline.add tw s tl)
  = (Timeline.tweensWithMeta tl
     ++ [Timeline.mkItem (Tween.with_managedByTimeline true tw) s false])%list.
Proof. reflexivity. Qed.

Lemma or_default_gap (g : Q) : or_default (Some g) 0 == g.
Proof.
  unfold or_default. destruct (Qeq_bool g 0) eqn:E; [|reflexivity].
  apply Qeq_bool_iff in E. symmetry. exact E.
Qed.

(** C7, as the code has it: [sequence([A, B, C], {gap: g})] appends three
    entries; A starts at the duration the timeline had at the call, B at
    A's start plus the sum of A's duration and the gap, and C at B's start
    plus the sum of B's duration and the gap.  The sums are the ones the
    source evaluates, [currentTimeMarker + (tween.duration + gap)], so the
    equalities hold of the numbers the source computes, not only up to
    rounding; the gap is the number [g] ([g || 0]). *)
Theorem sequence_chains_start_times (tl : Timeline.t) (A B C : Tween.t) (g : Q) :
  let gap := or_default (Some g) 0 in
  gap == g
  /\ exists sA sB sC,
       Timeline.tweensWithMeta
         (Timeline.sequence [A; B; C]
            {| Timeline.offset := None; Timeline.gap := Some g |} tl)
       = (Timeline.tweensWithMeta tl
          ++ [ Timeline.mkItem (Tween.with_managedByTimeline true A) sA false;
               Timeline.mkItem (Tween.with_managedByTimeline true B) sB false;
               Timeline.mkItem (Tween.with_managedByTimeline true C) sC false ])%list
       /\ sA = Timeline.duration tl
       /\ sB = sA + (Tween.duration A + gap)
       /\ sC = sB + (Tween.duration B + gap)
       /\ [sA; sB; sC]
          = markers Qplus [Tween.duration A; Tween.duration B; Tween.duration C] gap sA.
Proof.
  cbv zeta. split; [apply or_default_gap|].
  unfold Timeline.sequence. cbn [Timeline.offset Timeline.gap].
  cbn [Timeline.sequence_from].
  rewrite !add_items, <- !app_assoc. cbn [app].
  do 3 eexists. split; [reflexivity|]. repeat split.
Qed.

Module DoublesFacts.

Import PrimFloat.

Local Open Scope float_scope.

#[local] Set Warnings "-inexact-float".

(** The same loop on doubles, for three tweens of duration 0.1 and a gap
    of 0.05 on an empty timeline: C starts at B's start plus the sum of the
    duration and the gap, which is 0.30000000000000004, and not at B's
    start plus B's duration plus the gap, which is 0.3. *)
Lemma sequence_adds_the_gap_first :
  exists sA sB sC,
    markers add [0.1; 0.1; 0.1] 0.05 0 = [sA; sB; sC]
    /\ sB = sA + (0.1 + 0.05)
    /\ sC = sB + (0.1 + 0.05)
    /\ sC = 0.30000000000000004
    /\ sB + 0.1 + 0.05 = 0.3
    /\ eqb sC (sB + 0.1 + 0.05) = false.
Proof. do 3 eexists. vm_compute. repeat split. Qed.

(** The rational numbers used for [Math.PI] and for the cosine of its half
    are these doubles, and on doubles [1 - Math.cos(Math.PI / 2)] is the
    double below 1. *)
Lemma easeInSine_at_1_on_doubles :
  884279719003555 / 281474976710656 = EasingD.Math_PI
  /\ 4967757600021511 / 9007199254740992 / 9007199254740992 = EasingD.cos_half_PI
  /\ 1 * EasingD.Math_PI / 2 = 1.5707963267948966
  /\ 1 - EasingD.cos_half_PI = 0.9999999999999999
  /\ eqb (1 - EasingD.cos_half_PI) 1 = false.
Proof. vm_compute. repeat split. Qed.

End DoublesFacts.

Lemma sequence_from_items (tweens : list Tween.t) (gap marker : Q) (tl : Timeline.t) :
  exists added,
    Timeline.tweensWithMeta (Timeline.sequence_from tweens gap marker tl)
    = (Timeline.tweensWithMeta tl ++ added)%list
    /\ length added = length tweens
    /\ forall it, head added = Some it -> Timeline.startTime it = marker.
Proof.
  revert marker tl.
  induction tweens as [|tw rest IH]; intros marker tl; cbn [Timeline.sequence_from].
  - exists []. rewrite app_nil_r. repeat split. discriminate.
  - destruct (IH (marker + (Tween.duration tw + gap)) (Timeline.add tw marker tl))
      as (added & Hitems & Hlen & _).
    rewrite add_items, <- app_assoc in Hitems.
    eexists. split; [exact Hitems|]. split.
    + simpl. rewrite Hlen. reflexivity.
    + simpl. intros it [= <-]. reflexivity.
Qed.

Lemma parallel_items (tweens : list Tween.t) (off : Q) (tl : Timeline.t) :
  Timeline.tweensWithMeta
    (fold_left (fun tl tween => Timeline.add tween off tl) tweens tl)
  = (Timeline.tweensWithMeta tl
     ++ map (fun tw => Timeline.mkItem (Tween.with_managedByTimeline true tw) off false)
            tweens)%list.
Proof.
  revert tl. induction tweens as [|tw rest IH]; intros tl; simpl.
  - rewrite app_nil_r. reflexivity.
  - rewrite IH, add_items, <- app_assoc. reflexivity.
Qed.

Lemma or_default_zero (z d : Q) : z == 0 -> or_default (Some z) d = d.
Proof.
  intros Hz. unfold or_default.
  apply Qeq_bool_iff in Hz. rewrite Hz. reflexivity.
Qed.

(** C9: on a timeline whose duration is positive, an [offset] option equal
    to 0 is the same as no [offset] option, for [sequence] and for
    [parallel]: the new entries start at the current duration (the first
    one of a sequence, every one of a parallel block), not at time 0. *)
Theorem offset_zero_is_no_offset (tl : Timeline.t) (tweens : list Tween.t)
    (z : Q) (g : option Q) :
  0 < Timeline.duration tl -> z == 0 ->
  let zero := {| Timeline.offset := Some z; Timeline.gap := g |} in
  let none := {| Timeline.offset := None; Timeline.gap := g |} in
  Timeline.sequence tweens zero tl = Timeline.sequence tweens none tl
  /\ Timeline.parallel tweens zero tl = Timeline.parallel tweens none tl
  /\ (exists added,
        Timeline.tweensWithMeta (Timeline.sequence tweens zero tl)
        = (Timeline.tweensWithMeta tl ++ added)%list
        /\ length added = length tweens
        /\ forall it, head added = Some it ->
             Timeline.startTime it = Timeline.duration tl
             /\ ~ Timeline.startTime it == 0)
  /\ (exists added,
        Timeline.tweensWithMeta (Timeline.parallel tweens zero tl)
        = (Timeline.tweensWithMeta tl ++ added)%list
        /\ length added = length tweens
        /\ Forall (fun it => Timeline.startTime it = Timeline.duration tl
                             /\ ~ Timeline.startTime it == 0) added).
Proof.
  intros Hd Hz zero none.
  assert (Hne : ~ Timeline.duration tl == 0).
  { intros E. rewrite E in Hd. discriminate. }
  unfold Timeline.sequence, Timeline.parallel. subst zero none.
  cbn [Timeline.offset Timeline.gap]. rewrite (or_default_zero z _ Hz).
  cbn [or_default].
  split; [reflexivity|]. split; [reflexivity|]. split.
  - destruct (sequence_from_items tweens (or_default g 0) (Timeline.duration tl) tl)
      as (added & Hitems & Hlen & Hhead).
    exists added. split; [exact Hitems|]. split; [exact Hlen|].
    intros it Hit. rewrite (Hhead it Hit). split; [reflexivity|exact Hne].
  - eexists. split; [apply parallel_items|]. split; [apply length_map|].
    apply Forall_map. apply Forall_forall. intros tw _. simpl.
    split; [reflexivity|exact Hne].
Qed.

(** On the one-entry timeline (duration 1), [sequence([b], {offset: 0})]
    puts [b] at time 1. *)
Lemma offset_zero_is_no_offset_witness :
  0 < Timeline.duration timeline_a
  /\ map Timeline.startTime
       (Timeline.tweensWithMeta
          (Timeline.sequence [tween_b]
             {| Timeline.offset := Some 0; Timeline.gap := None |} timeline_a))
     = [0; 1]
  /\ Timeline.sequence [tween_b]
       {| Timeline.offset := Some 0; Timeline.gap := None |} timeline_a
     = Timeline.sequence [tween_b]
         {| Timeline.offset := None; Timeline.gap := None |} timeline_a.
Proof.
  split; [reflexivity|]. split; [reflexivity|].
  apply (offset_zero_is_no_offset timeline_a [tween_b] 0 None); reflexivity.
Defined.

(** ** Plain objects and paths *)

Lemma eqb_string_refl (k : string) : String.eqb k k = true.
Proof. apply String.eqb_refl. Qed.

Lemma lookup_set_field (k k' : string) (v : value) (fs : list (string * value)) :
  lookup_field k (set_field k' v fs)
  = if String.eqb k k' then Some v else lookup_field k fs.
Proof.
  induction fs as [|[k0 v0] fs IH]; simpl.
  - destruct (String.eqb k k'); reflexivity.
  - destruct (String.eqb k' k0) eqn:E0; simpl.
    + apply String.eqb_eq in E0. subst k0.
      destruct (String.eqb k k'); reflexivity.
    + destruct (String.eqb k k0) eqn:E1.
      * apply String.eqb_eq in E1. subst k0.
        rewrite String.eqb_sym, E0. reflexivity.
      * exact IH.
Qed.

Lemma writable_inv (obj : value) (path : list string) :
  writable obj path = true -> exists fs, obj = VObj fs.
Proof. destruct obj, path; simpl; try discriminate; eauto. Qed.

Lemma writable_cons (fs : list (string * value)) (k k2 : string)
    (rest : list string) :
  writable (VObj fs) (k :: k2 :: rest)
  = match lookup_field k fs with
    | Some c => writable c (k2 :: rest)
    | None => false
    end.
Proof. reflexivity. Qed.

Lemma set_deep_cons (obj : value) (k k2 : string) (rest : list string) (v : value) :
  _setDeepProperty obj (k :: k2 :: rest) v
  = if is_nullish (get_prop obj k) then obj
    else set_prop obj k (_setDeepProperty (get_prop obj k) (k2 :: rest) v).
Proof. reflexivity. Qed.

Lemma get_deep_cons (obj : value) (k : string) (rest : list string) :
  _getDeepProperty obj (k :: rest)
  = if is_nullish obj then VUndefined else _getDeepProperty (get_prop obj k) rest.
Proof. reflexivity. Qed.

Lemma get_prop_set_field (fs : list (string * value)) (k : string) (v : value) :
  get_prop (VObj (set_field k v fs)) k = v.
Proof.
  unfold get_prop. cbn [own_fields].
  rewrite lookup_set_field, eqb_string_refl. reflexivity.
Qed.

Lemma get_prop_lookup (fs : list (string * value)) (k : string) (c : value) :
  lookup_field k fs = Some c -> get_prop (VObj fs) k = c.
Proof. unfold get_prop. cbn [own_fields]. intros ->. reflexivity. Qed.

Lemma get_set_deep (path : list string) (obj v : value) :
  writable obj path = true ->
  _getDeepProperty (_setDeepProperty obj path v) path = v.
Proof.
  revert obj. induction path as [|k rest IH]; intros obj Hw.
  - destruct obj; discriminate.
  - destruct (writable_inv _ _ Hw) as [fs ->].
    destruct rest as [|k2 rest].
    + change (_setDeepProperty (VObj fs) [k] v) with (VObj (set_field k v fs)).
      rewrite get_deep_cons. cbn [is_nullish is_undefined is_null orb].
      rewrite get_prop_set_field. reflexivity.
    + rewrite writable_cons in Hw.
      destruct (lookup_field k fs) as [c|] eqn:Ek; [|discriminate].
      destruct (writable_inv _ _ Hw) as [fc ->].
      rewrite set_deep_cons, (get_prop_lookup _ _ _ Ek).
      cbn [is_nullish is_undefined is_null orb set_prop].
      rewrite get_deep_cons. cbn [is_nullish is_undefined is_null orb].
      rewrite get_prop_set_field. apply IH. exact Hw.
Qed.

Lemma writable_set_deep (path : list string) (obj v : value) :
  writable obj path = true ->
  writable (_setDeepProperty obj path v) path = true.
Proof.
  revert obj. induction path as [|k rest IH]; intros obj Hw.
  - destruct obj; discriminate.
  - destruct (writable_inv _ _ Hw) as [fs ->].
    destruct rest as [|k2 rest]; [reflexivity|].
    rewrite writable_cons in Hw.
    destruct (lookup_field k fs) as [c|] eqn:Ek; [|discriminate].
    destruct (writable_inv _ _ Hw) as [fc ->].
    rewrite set_deep_cons, (get_prop_lookup _ _ _ Ek).
    cbn [is_nullish is_undefined is_null orb set_prop].
    rewrite writable_cons, lookup_set_field, eqb_string_refl.
    apply IH. exact Hw.
Qed.

Lemma bound_write (tw : Tween.t) (w : World) (v : value) :
  heap_writable (heap w) tw = true ->
  bound (heap (write (Tween.target tw) (Tween.propertyPath tw) v w)) tw = v
  /\ heap_writable (heap (write (Tween.target tw) (Tween.propertyPath tw) v w)) tw
     = true.
Proof.
  unfold heap_writable, bound, write, heap_get, heap_set. cbn [heap].
  destruct (heap w !! Tween.target tw) as [obj|] eqn:E; [|discriminate].
  intros Hw. rewrite lookup_insert_eq.
  split; [apply get_set_deep|apply writable_set_deep]; exact Hw.
Qed.

(** ** Record tweens *)

Lemma record_step_assigned (sv ev : value) (eased progress : Q) (cur : value)
    (key : string) :
  Tween.record_step sv ev eased progress cur key
  = match assigned sv ev eased progress key with
    | Some v => set_prop cur key v
    | None => cur
    end.
Proof.
  unfold Tween.record_step, assigned.
  destruct (hasOwnProperty sv key && hasOwnProperty ev key); [|reflexivity].
  destruct (get_prop sv key), (get_prop ev key);
    repeat match goal with
           | |- context [if ?c then _ else _] => destruct c
           end; reflexivity.
Qed.

Lemma lookup_field_keys (k : string) (fs : list (string * value)) :
  existsb (String.eqb k) (map fst fs)
  = match lookup_field k fs with Some _ => true | None => false end.
Proof.
  induction fs as [|[k0 v0] fs IH]; simpl; [reflexivity|].
  destruct (String.eqb k k0); simpl; [reflexivity|exact IH].
Qed.

(** The record loop, key by key: a visited key to which a turn assigns a
    value ends with that value; every other key is as it was. *)
Lemma record_loop (sv ev : value) (eased progress : Q) (keys : list string)
    (cur : list (string * value)) :
  exists cur',
    fold_left (Tween.record_step sv ev eased progress) keys (VObj cur) = VObj cur'
    /\ forall k,
         lookup_field k cur'
         = match (if existsb (String.eqb k) keys
                  then assigned sv ev eased progress k else None) with
           | Some v => Some v
           | None => lookup_field k cur
           end.
Proof.
  revert cur. induction keys as [|key keys IH]; intros cur; cbn [fold_left existsb].
  - exists cur. split; reflexivity.
  - rewrite record_step_assigned.
    destruct (assigned sv ev eased progress key) as [v|] eqn:Ea; cbn [set_prop].
    + destruct (IH (set_field key v cur)) as (cur' & Efold & Hlook).
      exists cur'. split; [exact Efold|]. intros k. rewrite Hlook.
      rewrite lookup_set_field.
      destruct (String.eqb k key) eqn:Ek; cbn [orb].
      * apply String.eqb_eq in Ek. subst k. rewrite Ea.
        destruct (existsb (String.eqb key) keys); reflexivity.
      * reflexivity.
    + destruct (IH cur) as (cur' & Efold & Hlook).
      exists cur'. split; [exact Efold|]. intros k. rewrite Hlook.
      destruct (String.eqb k key) eqn:Ek; cbn [orb]; [|reflexivity].
      apply String.eqb_eq in Ek. subst k. rewrite Ea.
      destruct (existsb (String.eqb key) keys); reflexivity.
Qed.

(** The merge at completion, key by key: a visited key that the object
    has takes the end value; no key is added. *)
Lemma merge_loop (ev : value) (keys : list string) (cur : list (string * value)) :
  exists cur',
    fold_left (fun o key =>
                 if hasOwnProperty o key then set_prop o key (get_prop ev key) else o)
              keys (VObj cur) = VObj cur'
    /\ forall k,
         lookup_field k cur'
         = match lookup_field k cur with
           | Some v => if existsb (String.eqb k) keys
                       then Some (get_prop ev k) else Some v
           | None => None
           end.
Proof.
  revert cur. induction keys as [|key keys IH]; intros cur; cbn [fold_left existsb].
  - exists cur. split; [reflexivity|]. intros k.
    destruct (lookup_field k cur); reflexivity.
  - assert (Hh : hasOwnProperty (VObj cur) key
                 = match lookup_field key cur with Some _ => true | None => false end)
      by reflexivity.
    rewrite Hh.
    destruct (lookup_field key cur) as [v0|] eqn:E0; cbn [set_prop].
    + destruct (IH (set_field key (get_prop ev key) cur)) as (cur' & Efold & Hlook).
      exists cur'. split; [exact Efold|]. intros k. rewrite Hlook.
      rewrite lookup_set_field.
      destruct (String.eqb k key) eqn:Ek; cbn [orb].
      * apply String.eqb_eq in Ek. subst k. rewrite E0.
        destruct (existsb (String.eqb key) keys); reflexivity.
      * reflexivity.
    + destruct (IH cur) as (cur' & Efold & Hlook).
      exists cur'. split; [exact Efold|]. intros k. rewrite Hlook.
      destruct (String.eqb k key) eqn:Ek; cbn [orb]; [|reflexivity].
      apply String.eqb_eq in Ek. subst k. rewrite E0. reflexivity.
Qed.

Lemma interpolate_record (tw : Tween.t) (eased progress : Q)
    (fs fe : list (string * value)) :
  Tween.startValue tw = VObj fs ->
  Tween.rawEndValue tw = VObj fe ->
  Tween.interpolate tw eased progress
  = Some (fold_left (Tween.record_step (VObj fs) (VObj fe) eased progress)
                    (map fst fe) (VObj fs)).
Proof.
  intros Hs He. unfold Tween.interpolate. rewrite Hs, He.
  assert (Hc : Tween.both_colors (Tween.rawStartValue tw) (VObj fe) = false)
    by (destruct (Tween.rawStartValue tw); reflexivity).
  rewrite Hc. reflexivity.
Qed.

(** C2, as the code has it: a tween whose start and end values are plain
    records and whose duration is not 0 (the progress is a quotient by the
    duration), updated while active.  While progress is below 1, a key
    present in both records with two numbers, or with two colour strings,
    holds their interpolation, and every other key holds its start value.
    Once progress has reached 1, every key present in both records holds
    exactly its end value; a key of the end value that the start record
    lacks is not added, and a key that only the start record has keeps its
    value. *)
Theorem record_tween_update (tw : Tween.t) (w : World) (deltaTime : Q)
    (fs fe : list (string * value)) :
  Tween.isActive tw = true ->
  Tween.startValue tw = VObj fs ->
  Tween.rawEndValue tw = VObj fe ->
  Tween.is_dummy tw = false ->
  heap_writable (heap w) tw = true ->
  ~ Tween.duration tw == 0 ->
  let '(tw', w') := Tween.update deltaTime tw w in
  let progress := Qmin (Tween.elapsedTime tw' / Tween.duration tw) 1 in
  let eased := Tween.easingFn tw progress in
  exists cur,
    bound (heap w') tw = VObj cur
    /\ (progress < 1 ->
        forall k,
          lookup_field k cur
          = match lookup_field k fs, lookup_field k fe with
            | Some (VNum s), Some (VNum e) => Some (VNum (lerp s e eased))
            | Some (VStr s), Some (VStr e) =>
                if is_color s && is_color e
                then Some (VStr (interpolateColor s e eased))
                else Some (VStr s)
            | v, _ => v
            end)
    /\ (1 <= progress ->
        forall k,
          lookup_field k cur
          = match lookup_field k fs, lookup_field k fe with
            | Some _, Some e => Some e
            | v, _ => v
            end).
Proof.
  intros Ha Hs He Hd Hw _.
  unfold Tween.update. rewrite Ha. cbn [negb].
  set (tw_e := if negb (Tween._managedByTimeline tw)
               then Tween.with_elapsedTime (Tween.elapsedTime tw + deltaTime) tw
               else tw).
  assert (Hfields : Tween.startValue tw_e = VObj fs /\ Tween.rawEndValue tw_e = VObj fe
                    /\ Tween.is_dummy tw_e = false
                    /\ Tween.target tw_e = Tween.target tw
                    /\ Tween.propertyPath tw_e = Tween.propertyPath tw
                    /\ Tween.duration tw_e = Tween.duration tw
                    /\ Tween.easingFn tw_e = Tween.easingFn tw).
  { subst tw_e. destruct (negb (Tween._managedByTimeline tw)); repeat split; assumption. }
  destruct Hfields as (Hs' & He' & Hd' & Ht & Hp & Hdur & Heas).
  set (progress := Qmin (Tween.elapsedTime tw_e / Tween.duration tw_e) 1).
  set (eased := Tween.easingFn tw_e progress).
  rewrite (interpolate_record tw_e eased progress fs fe Hs' He').
  rewrite Hd'. cbn [negb].
  destruct (record_loop (VObj fs) (VObj fe) eased progress (map fst fe) fs)
    as (cv & Ecv & Hcv).
  rewrite Ecv, Ht, Hp.
  set (w1 := write (Tween.target tw) (Tween.propertyPath tw) (VObj cv) w).
  destruct (bound_write tw w (VObj cv) Hw) as [Hb1 Hw1]. fold w1 in Hb1, Hw1.
  assert (Hheap : forall cb e, heap (emit_if cb e w1) = heap w1).
  { intros [cb|] e; reflexivity. }
  assert (Hassigned : forall k,
            (if existsb (String.eqb k) (map fst fe)
             then assigned (VObj fs) (VObj fe) eased progress k else None)
            = match lookup_field k fs, lookup_field k fe with
              | Some vs, Some ve =>
                  match vs, ve with
                  | VNum s, VNum e => Some (VNum (lerp s e eased))
                  | VStr s, VStr e =>
                      if is_color s && is_color e
                      then Some (VStr (interpolateColor s e eased))
                      else if Qle_bool 1 progress then Some (VStr e) else None
                  | _, e => if Qle_bool 1 progress then Some e else None
                  end
              | _, _ => None
              end).
  { intros k. rewrite lookup_field_keys. unfold assigned, hasOwnProperty, get_prop.
    cbn [own_fields].
    destruct (lookup_field k fe) as [ve|], (lookup_field k fs) as [vs|];
      try reflexivity.
    destruct vs, ve; reflexivity. }
  destruct (Qle_bool 1 progress) eqn:Ep.
  - (* completion *)
    cbn [Tween.with_isActive Tween.is_dummy Tween.propertyPath] .
    change (Tween.is_dummy (Tween.with_isActive false tw_e)) with (Tween.is_dummy tw_e).
    rewrite Hd'. cbn [negb].
    unfold Tween.write_final.
    change (Tween.rawEndValue (Tween.with_isActive false tw_e))
      with (Tween.rawEndValue tw_e).
    change (Tween.target (Tween.with_isActive false tw_e)) with (Tween.target tw_e).
    change (Tween.propertyPath (Tween.with_isActive false tw_e))
      with (Tween.propertyPath tw_e).
    rewrite He', Ht, Hp.
    set (w2 := emit_if (Tween.onUpdate tw_e)
                       (fun cb => EvUpdate cb (VObj cv) progress) w1).
    assert (Hh2 : heap w2 = heap w1) by apply Hheap.
    assert (Hb2 : heap_get (heap w2) (Tween.target tw) (Tween.propertyPath tw) = VObj cv).
    { rewrite Hh2. exact Hb1. }
    rewrite Hb2. cbn [typeof_object is_null negb andb].
    unfold Tween.merge_existing. cbn [own_fields].
    destruct (merge_loop (VObj fe) (map fst fe) cv) as (cm & Ecm & Hcm).
    rewrite Ecm.
    assert (Hw2 : heap_writable (heap w2) tw = true) by (rewrite Hh2; exact Hw1).
    destruct (bound_write tw w2 (VObj cm) Hw2) as [Hb3 _].
    set (w3 := write (Tween.target tw) (Tween.propertyPath tw) (VObj cm) w2) in *.
    cbn [Tween.elapsedTime Tween.with_isActive].
    exists cm. split.
    + unfold bound.
      match goal with
      | |- heap_get (heap ?x) _ _ = _ =>
          assert (Hx : heap x = heap w3)
      end.
      { destruct (Tween.onComplete (Tween.with_isActive false tw_e)) as [cb|];
          destruct (Tween.sceneRef (Tween.with_isActive false tw_e)) as [sc|];
          cbn [emit_if];
          try destruct (negb (Tween._managedByTimeline (Tween.with_isActive false tw_e)));
          reflexivity. }
      rewrite Hx. exact Hb3.
    + fold progress. rewrite <- Hdur. fold progress.
      split.
      * intros Hlt. apply Qle_bool_iff in Ep. exfalso.
        apply (Qlt_irrefl 1). eapply Qle_lt_trans; [exact Ep|exact Hlt].
      * intros _ k. rewrite Hcm, Hcv, lookup_field_keys. 
        specialize (Hassigned k). rewrite lookup_field_keys in Hassigned.
        rewrite Hassigned.
        unfold get_prop. cbn [own_fields].
        destruct (lookup_field k fs) as [vs|], (lookup_field k fe) as [ve|];
          try reflexivity; try (destruct vs; reflexivity).
        destruct vs, ve; try reflexivity;
          destruct (is_color s && is_color s0); reflexivity.
  - (* below 1 *)
    cbn [Tween.elapsedTime].
    exists cv. split.
    + unfold bound. rewrite Hheap. exact Hb1.
    + rewrite <- Hdur. fold progress. rewrite <- Heas. fold eased.
      split.
      * intros _ k. rewrite Hcv, Hassigned.
        destruct (lookup_field k fs) as [vs|], (lookup_field k fe) as [ve|];
          try reflexivity; try (destruct vs; reflexivity).
        destruct vs, ve; try reflexivity.
        destruct (is_color s && is_color s0); reflexivity.
      * intros Hge. apply Qle_bool_iff in Hge. rewrite Hge in Ep. discriminate.
Qed.

(** The record tween on [style] from [{a: 1, c: "#000"}] to
    [{a: 2, b: 3, c: "#fff"}], completed: the end value has the key [b]
    with the value 3, the bound record has no key [b]. *)
Lemma end_only_key_is_not_added :
  let '(tw1, w1) := Tween.start tween_style world_style in
  let '(tw2, w2) := Tween.setProgress 1 tw1 w1 in
  Tween.isActive tw2 = false
  /\ get_prop (Tween.rawEndValue tw2) "b" = VNum 3
  /\ hasOwnProperty (bound (heap w2) tw2) "b" = false
  /\ get_prop (bound (heap w2) tw2) "b" = VUndefined
  /\ get_prop (bound (heap w2) tw2) "a" = VNum 2.
Proof. vm_compute. repeat split. Qed.

(** The same tween, half way: [a] is interpolated between 1 and 2, the
    colour [c] between black and white. *)
Lemma record_tween_update_witness :
  let tw := fst (Tween.start tween_style world_style) in
  exists cur,
    bound (heap (snd (Tween.update (1 # 2) tw world_style))) tw = VObj cur
    /\ lookup_field "a" cur = Some (VNum (lerp 1 2 (Qmin ((0 + (1 # 2)) / 1) 1)))
    /\ lookup_field "c" cur = Some (VStr "rgba(128,128,128,1)").
Proof.
  intros tw.
  assert (Hne : ~ Tween.duration tw == 0) by (intros H; discriminate H).
  pose proof (record_tween_update tw world_style (1 # 2)
                [("a", VNum 1); ("c", VStr "#000")]
                [("a", VNum 2); ("b", VNum 3); ("c", VStr "#fff")]
                eq_refl eq_refl eq_refl eq_refl eq_refl Hne) as H.
  destruct (Tween.update (1 # 2) tw world_style) as [tw' w'] eqn:E.
  assert (He : Tween.elapsedTime tw' = 0 + (1 # 2)).
  { injection E as <- _. reflexivity. }
  cbv zeta in H. destruct H as (cur & Hb & Hlt & _).
  exists cur. split; [exact Hb|].
  rewrite He in Hlt.
  assert (Hp : Qmin ((0 + (1 # 2)) / Tween.duration tw) 1 < 1) by reflexivity.
  split.
  - rewrite (Hlt Hp "a"). reflexivity.
  - rewrite (Hlt Hp "c"). reflexivity.
Defined.

(** ** Writes to the heap *)

Lemma heap_get_same (h h' : gmap nat value) (x : ref) (path : list string) :
  h !! x = h' !! x -> heap_get h x path = heap_get h' x path.
Proof. unfold heap_get. intros ->. reflexivity. Qed.

Lemma heap_set_other (h : gmap nat value) (x y : ref) (path : list string) (v : value) :
  x <> y -> heap_set h x path v !! y = h !! y.
Proof.
  intros Hxy. unfold heap_set. destruct (h !! x); [|reflexivity].
  apply lookup_insert_ne. exact Hxy.
Qed.

Lemma heap_set_at (h : gmap nat value) (x : ref) (path : list string) (v : value) :
  heap_set h x path v !! x
  = match h !! x with
    | Some obj => Some (_setDeepProperty obj path v)
    | None => None
    end.
Proof.
  unfold heap_set. destruct (h !! x) eqn:E; [|exact E].
  apply lookup_insert_eq.
Qed.

Lemma set_field_twice (k : string) (v : value) (fs : list (string * value)) :
  set_field k v (set_field k v fs) = set_field k v fs.
Proof.
  induction fs as [|[k0 v0] fs IH]; simpl.
  - rewrite String.eqb_refl. reflexivity.
  - destruct (String.eqb k k0) eqn:E; simpl.
    + rewrite String.eqb_refl. reflexivity.
    + rewrite E, IH. reflexivity.
Qed.

Lemma index_of_key_bound (k : string) (n i : nat) :
  index_of_key k n = Some i -> (i < n)%nat.
Proof.
  induction n as [|n IH]; simpl; [discriminate|].
  destruct (String.eqb k (pretty n)).
  - intros [= <-]. lia.
  - intros H. specialize (IH H). lia.
Qed.

Lemma set_prop_twice (o : value) (k : string) (v : value) :
  set_prop (set_prop o k v) k v = set_prop o k v.
Proof.
  destruct o; try reflexivity; cbn [set_prop].
  - destruct v; try reflexivity.
    destruct (String.eqb k "x") eqn:Ex; cbn [set_prop]; [rewrite Ex; reflexivity|].
    destruct (String.eqb k "y") eqn:Ey; cbn [set_prop]; rewrite Ex, Ey; reflexivity.
  - destruct v; try reflexivity.
    destruct (index_of_key k (length ps)) as [i|] eqn:Ei; cbn [set_prop].
    + rewrite length_insert, Ei, list_insert_insert_eq. reflexivity.
    + rewrite Ei. reflexivity.
  - destruct v; try reflexivity.
    destruct (index_of_key k (length qs)) as [i|] eqn:Ei; cbn [set_prop].
    + rewrite length_insert, Ei, list_insert_insert_eq. reflexivity.
    + rewrite Ei. reflexivity.
  - rewrite set_field_twice. reflexivity.
Qed.

Lemma set_prop_nullish (o : value) (k : string) (v : value) :
  is_nullish (set_prop o k v) = is_nullish o.
Proof.
  destruct o; try reflexivity; cbn [set_prop].
  - destruct v; try reflexivity.
    destruct (String.eqb k "x"); [reflexivity|].
    destruct (String.eqb k "y"); reflexivity.
  - destruct v; try reflexivity. destruct (index_of_key k (length ps)); reflexivity.
  - destruct v; try reflexivity. destruct (index_of_key k (length qs)); reflexivity.
Qed.

Lemma set_deep_nullish (path : list string) (o v : value) :
  is_nullish (_setDeepProperty o path v) = is_nullish o.
Proof.
  destruct path as [|k [|k2 rest]]; [reflexivity|apply set_prop_nullish|].
  rewrite set_deep_cons.
  destruct (is_nullish (get_prop o k)); [reflexivity|apply set_prop_nullish].
Qed.

Lemma index_of_key_pretty (k : string) (n i : nat) :
  index_of_key k n = Some i -> k = pretty i /\ (i < n)%nat.
Proof.
  induction n as [|n IH]; simpl; [discriminate|].
  destruct (String.eqb k (pretty n)) eqn:E.
  - intros [= <-]. apply String.eqb_eq in E. split; [exact E|lia].
  - intros H. destruct (IH H). split; [assumption|lia].
Qed.

Lemma lookup_indexed {A : Type} (f : A -> value) (l : list A) (off i : nat) (x : A) :
  l !! i = Some x ->
  lookup_field (pretty (off + i)%nat) (indexed f off l) = Some (f x).
Proof.
  revert off i. induction l as [|a l IH]; intros off i; [discriminate|].
  destruct i as [|i]; cbn [indexed lookup_field].
  - intros [= ->]. rewrite Nat.add_0_r, String.eqb_refl. reflexivity.
  - intros Hi. cbn in Hi.
    destruct (String.eqb (pretty (off + S i)%nat) (pretty off)) eqn:E.
    + apply String.eqb_eq in E. apply pretty_nat_inj in E. lia.
    + rewrite <- Nat.add_succ_comm. apply IH. exact Hi.
Qed.

Lemma index_of_key_found (n i : nat) :
  (i < n)%nat -> index_of_key (pretty i) n = Some i.
Proof.
  induction n as [|n IH]; intros Hi; [lia|]. cbn [index_of_key].
  destruct (String.eqb (pretty i) (pretty n)) eqn:E.
  - apply String.eqb_eq in E. apply pretty_nat_inj in E. subst. reflexivity.
  - apply IH. apply String.eqb_neq in E.
    destruct (Nat.eq_dec i n) as [->|Hne]; [contradiction|lia].
Qed.

Lemma lookup_indexed_inv {A : Type} (f : A -> value) (l : list A) (off : nat)
    (k : string) (c : value) :
  lookup_field k (indexed f off l) = Some c ->
  exists i x, l !! i = Some x /\ k = pretty (off + i)%nat /\ c = f x.
Proof.
  revert off. induction l as [|x l IH]; intros off; cbn [indexed lookup_field].
  - discriminate.
  - destruct (String.eqb k (pretty off)) eqn:E.
    + intros [= <-]. apply String.eqb_eq in E. exists 0%nat, x.
      rewrite Nat.add_0_r. repeat split. exact E.
    + intros H. destruct (IH _ H) as (i & y & Hi & Hk & Hc).
      exists (S i), y. rewrite Nat.add_succ_r. repeat split; assumption.
Qed.

(** Reading back a key that was just assigned gives the assigned value,
    unless the assignment did not take. *)
Lemma get_prop_set_prop (o : value) (k : string) (v : value) :
  get_prop (set_prop o k v) k = v \/ set_prop o k v = o.
Proof.
  destruct o; try (right; reflexivity); cbn [set_prop].
  - destruct v; try (right; reflexivity).
    destruct (String.eqb k "x") eqn:Ex.
    + apply String.eqb_eq in Ex. subst k. left. reflexivity.
    + destruct (String.eqb k "y") eqn:Ey; [|right; reflexivity].
      apply String.eqb_eq in Ey. subst k. left. reflexivity.
  - destruct v; try (right; reflexivity).
    destruct (index_of_key k (length ps)) as [i|] eqn:Ei; [|right; reflexivity].
    left. apply index_of_key_pretty in Ei as [-> Hi].
    unfold get_prop. cbn [own_fields].
    rewrite (lookup_indexed _ _ 0 i (x, y)); [reflexivity|].
    apply list_lookup_insert_eq. exact Hi.
  - destruct v; try (right; reflexivity).
    destruct (index_of_key k (length qs)) as [i|] eqn:Ei; [|right; reflexivity].
    left. apply index_of_key_pretty in Ei as [-> Hi].
    unfold get_prop. cbn [own_fields].
    rewrite (lookup_indexed _ _ 0 i q); [reflexivity|].
    apply list_lookup_insert_eq. exact Hi.
  - left. apply get_prop_set_field.
Qed.

Lemma set_deep_twice (path : list string) (o v : value) :
  _setDeepProperty (_setDeepProperty o path v) path v = _setDeepProperty o path v.
Proof.
  revert o. induction path as [|k rest IH]; intros o; [reflexivity|].
  destruct rest as [|k2 rest]; [apply set_prop_twice|].
  rewrite (set_deep_cons o).
  destruct (is_nullish (get_prop o k)) eqn:En.
  - rewrite set_deep_cons, En. reflexivity.
  - set (c' := _setDeepProperty (get_prop o k) (k2 :: rest) v).
    rewrite set_deep_cons.
    destruct (get_prop_set_prop o k c') as [Hg | Hs].
    + rewrite Hg. unfold c' at 1. rewrite set_deep_nullish, En.
      unfold c' at 2. rewrite IH. fold c'. apply set_prop_twice.
    + rewrite Hs, En. fold c'. exact Hs.
Qed.

(** Writing again what a write has put at a binding changes nothing. *)
Lemma write_again (w v : World) (x : ref) (path : list string) (val : value) :
  heap v !! x = heap (write x path val w) !! x ->
  heap (write x path val v) = heap v.
Proof.
  unfold write. cbn [heap]. rewrite heap_set_at. intros Hv.
  unfold heap_set. destruct (heap v !! x) as [o|] eqn:Eo; [|reflexivity].
  destruct (heap w !! x) as [obj|]; [|discriminate].
  injection Hv as ->. rewrite set_deep_twice. apply insert_id. exact Eo.
Qed.

(** ** Bindings that do not overlap *)

Lemma lookup_indexed_insert_ne {A : Type} (f : A -> value) (l : list A)
    (off i : nat) (a : A) (k : string) :
  k <> pretty (off + i)%nat ->
  lookup_field k (indexed f off (<[i := a]> l)) = lookup_field k (indexed f off l).
Proof.
  revert off i. induction l as [|x l IH]; intros off i Hk; [reflexivity|].
  destruct i as [|i]; cbn [indexed lookup_field].
  - change (<[0%nat := a]> (x :: l)) with (a :: l). cbn [indexed lookup_field].
    rewrite Nat.add_0_r in Hk.
    destruct (String.eqb k (pretty off)) eqn:E; [|reflexivity].
    apply String.eqb_eq in E. contradiction.
  - change (<[S i := a]> (x :: l)) with (x :: <[i := a]> l). cbn [indexed lookup_field].
    destruct (String.eqb k (pretty off)); [reflexivity|].
    apply IH. rewrite Nat.add_succ_comm. exact Hk.
Qed.

(** An assignment to one key leaves the other keys as they read. *)
Lemma get_prop_set_prop_ne (o : value) (k k' : string) (c : value) :
  k <> k' -> get_prop (set_prop o k' c) k = get_prop o k.
Proof.
  intros Hk. unfold get_prop.
  assert (Hne : String.eqb k k' = false) by (apply String.eqb_neq; exact Hk).
  destruct o; try reflexivity; cbn [set_prop].
  - destruct c; try reflexivity.
    destruct (String.eqb k' "x") eqn:Ex.
    + apply String.eqb_eq in Ex. subst k'. cbn [own_fields lookup_field].
      rewrite Hne. reflexivity.
    + destruct (String.eqb k' "y") eqn:Ey; [|reflexivity].
      apply String.eqb_eq in Ey. subst k'. cbn [own_fields lookup_field].
      rewrite Hne. reflexivity.
  - destruct c; try reflexivity.
    destruct (index_of_key k' (length ps)) as [i|] eqn:Ei; [|reflexivity].
    apply index_of_key_pretty in Ei as [-> Hi]. cbn [own_fields].
    rewrite lookup_indexed_insert_ne; [reflexivity|exact Hk].
  - destruct c; try reflexivity.
    destruct (index_of_key k' (length qs)) as [i|] eqn:Ei; [|reflexivity].
    apply index_of_key_pretty in Ei as [-> Hi]. cbn [own_fields].
    rewrite lookup_indexed_insert_ne; [reflexivity|exact Hk].
  - cbn [own_fields]. rewrite lookup_set_field, Hne. reflexivity.
Qed.

(** An assignment through a path leaves a property at a path that
    neither contains it nor lies inside it as it reads. *)
Lemma get_deep_set_deep_apart (p p' : list string) (o u : value) :
  is_prefix p p' = false -> is_prefix p' p = false ->
  _getDeepProperty (_setDeepProperty o p' u) p = _getDeepProperty o p.
Proof.
  revert o p'. induction p as [|k rest IH]; intros o p' H1 H2; [discriminate H1|].
  destruct p' as [|k' rest']; [discriminate H2|].
  cbn [is_prefix] in H1, H2.
  rewrite !get_deep_cons, set_deep_nullish.
  destruct (is_nullish o); [reflexivity|].
  destruct (String.eqb k k') eqn:E.
  - apply String.eqb_eq in E. subst k'. rewrite String.eqb_refl in H2.
    cbn [andb] in H1, H2.
    destruct rest' as [|k2 rest']; [discriminate H2|].
    rewrite set_deep_cons.
    destruct (is_nullish (get_prop o k)) eqn:En; [reflexivity|].
    destruct (get_prop_set_prop o k (_setDeepProperty (get_prop o k) (k2 :: rest') u))
      as [Hg|Hs].
    + rewrite Hg. apply IH; assumption.
    + rewrite Hs. reflexivity.
  - apply String.eqb_neq in E. f_equal.
    destruct rest' as [|k2 rest'].
    + apply get_prop_set_prop_ne. exact E.
    + rewrite set_deep_cons. destruct (is_nullish (get_prop o k')); [reflexivity|].
      apply get_prop_set_prop_ne. exact E.
Qed.

Lemma overlap_sym (X Y : Tween.t) : overlap Y X = overlap X Y.
Proof. unfold overlap. rewrite Nat.eqb_sym, orb_comm. reflexivity. Qed.

(** A write through a binding that does not overlap the binding of [X]
    leaves the binding of [X] as it reads. *)
Lemma bound_set_apart (X Y : Tween.t) (h : gmap nat value) (u : value) :
  overlap X Y = false ->
  bound (heap_set h (Tween.target Y) (Tween.propertyPath Y) u) X = bound h X.
Proof.
  unfold overlap, bound, heap_get, heap_set. intros Ho.
  destruct (h !! Tween.target Y) as [obj|] eqn:EY; [|reflexivity].
  destruct (Nat.eqb (Tween.target X) (Tween.target Y)) eqn:Et.
  - apply Nat.eqb_eq in Et. rewrite Et, lookup_insert_eq, EY.
    cbn [andb] in Ho. apply orb_false_elim in Ho as [H1 H2].
    apply get_deep_set_deep_apart; assumption.
  - apply Nat.eqb_neq in Et. rewrite lookup_insert_ne by congruence. reflexivity.
Qed.

(** ** Assignments that change nothing *)

Lemma set_field_fixed (k : string) (v : value) (fs : list (string * value)) :
  set_field k v fs = fs -> lookup_field k fs = Some v.
Proof.
  induction fs as [|[k0 v0] fs IH]; cbn [set_field lookup_field]; [discriminate|].
  destruct (String.eqb k k0).
  - intros [= _ ->]. reflexivity.
  - intros [= H]. apply IH. exact H.
Qed.

Lemma set_field_stable (k k' : string) (v c : value) (fs : list (string * value)) :
  k <> k' -> set_field k v fs = fs ->
  set_field k v (set_field k' c fs) = set_field k' c fs.
Proof.
  intros Hk. induction fs as [|[k0 v0] fs IH]; cbn [set_field]; [discriminate|].
  destruct (String.eqb k k0) eqn:E.
  - intros [= Hk0 Hv]. subst k0 v0.
    assert (E' : String.eqb k' k = false) by (apply String.eqb_neq; congruence).
    rewrite E'. cbn [set_field]. rewrite String.eqb_refl. reflexivity.
  - intros [= H]. destruct (String.eqb k' k0) eqn:E'; cbn [set_field].
    + assert (E2 : String.eqb k k' = false) by (apply String.eqb_neq; exact Hk).
      rewrite E2, H. reflexivity.
    + rewrite E, (IH H). reflexivity.
Qed.

Lemma index_of_key_ne (k k' : string) (n i j : nat) :
  k <> k' -> index_of_key k n = Some i -> index_of_key k' n = Some j -> i <> j.
Proof.
  intros Hk Hi Hj. apply index_of_key_pretty in Hi as [-> _].
  apply index_of_key_pretty in Hj as [-> _]. congruence.
Qed.

(** An assignment that changes nothing still changes nothing after an
    assignment to another key. *)
Lemma set_prop_stable (o : value) (k k' : string) (v c : value) :
  k <> k' -> set_prop o k v = o ->
  set_prop (set_prop o k' c) k v = set_prop o k' c.
Proof.
  intros Hk. destruct o as [| | | | |x y|ps|qs|fs]; try (intros _; reflexivity).
  - cbn [set_prop]. destruct v as [| | |q| | | | |]; intros H;
      try (destruct c; try reflexivity;
           destruct (String.eqb k' "x"); [reflexivity|];
           destruct (String.eqb k' "y"); reflexivity).
    destruct c as [| | |q'| | | | |]; try exact H.
    destruct (String.eqb k "x") eqn:Ex.
    + apply String.eqb_eq in Ex. subst k. injection H as ->.
      assert (E' : String.eqb k' "x" = false) by (apply String.eqb_neq; congruence).
      rewrite E'. destruct (String.eqb k' "y"); reflexivity.
    + destruct (String.eqb k "y") eqn:Ey.
      * apply String.eqb_eq in Ey. subst k. injection H as ->.
        destruct (String.eqb k' "x") eqn:E'; cbn [set_prop]; [reflexivity|].
        assert (E2 : String.eqb k' "y" = false) by (apply String.eqb_neq; congruence).
        rewrite E2. cbn [set_prop]. reflexivity.
      * destruct (String.eqb k' "x"); cbn [set_prop]; rewrite ?Ex, ?Ey; [reflexivity|].
        destruct (String.eqb k' "y"); cbn [set_prop]; rewrite ?Ex, ?Ey; reflexivity.
  - cbn [set_prop]. intros H.
    destruct c as [| | | | |cx cy| | |];
      try exact H.
    destruct (index_of_key k' (length ps)) as [j|] eqn:Ej; [|exact H].
    cbn [set_prop]. rewrite length_insert.
    destruct v as [| | | | |vx vy| | |]; try reflexivity.
    destruct (index_of_key k (length ps)) as [i|] eqn:Ei; [|reflexivity].
    injection H as H.
    rewrite list_insert_insert_ne by (eapply index_of_key_ne; eassumption).
    rewrite H. reflexivity.
  - cbn [set_prop]. intros H.
    destruct c as [| | |cq| | | | |];
      try exact H.
    destruct (index_of_key k' (length qs)) as [j|] eqn:Ej; [|exact H].
    cbn [set_prop]. rewrite length_insert.
    destruct v as [| | |vq| | | | |]; try reflexivity.
    destruct (index_of_key k (length qs)) as [i|] eqn:Ei; [|reflexivity].
    injection H as H.
    rewrite list_insert_insert_ne by (eapply index_of_key_ne; eassumption).
    rewrite H. reflexivity.
  - cbn [set_prop]. intros [= H]. rewrite (set_field_stable k k' v c fs Hk H).
    reflexivity.
Qed.

(** A value no assignment changes is not changed through a path either. *)
Lemma set_deep_inert (c : value) (path : list string) (u : value) :
  (forall k v, set_prop c k v = c) -> _setDeepProperty c path u = c.
Proof.
  intros H. destruct path as [|k [|k2 rest]]; [reflexivity|apply H|].
  rewrite set_deep_cons. destruct (is_nullish (get_prop c k)); [reflexivity|apply H].
Qed.

Lemma set_prop_Vec2 (x y : Q) (k : string) (v : value) :
  exists x' y', set_prop (VVec2 x y) k v = VVec2 x' y'.
Proof.
  cbn [set_prop]. destruct v; try (exists x, y; reflexivity).
  destruct (String.eqb k "x"); [eexists _, _; reflexivity|].
  destruct (String.eqb k "y"); eexists _, _; reflexivity.
Qed.

Lemma set_deep_Vec2 (x y : Q) (path : list string) (u : value) :
  exists x' y', _setDeepProperty (VVec2 x y) path u = VVec2 x' y'.
Proof.
  destruct path as [|k [|k2 rest]]; [exists x, y; reflexivity|apply set_prop_Vec2|].
  rewrite set_deep_cons.
  destruct (is_nullish (get_prop (VVec2 x y) k)); [exists x, y; reflexivity|].
  apply set_prop_Vec2.
Qed.

(** When the assignment of a property's own value, rewritten through a
    path, changes nothing, the rewriting had changed nothing. *)
Lemma set_deep_inner_fixed (o : value) (k : string) (rest : list string) (v : value) :
  set_prop o k (_setDeepProperty (get_prop o k) rest v) = o ->
  _setDeepProperty (get_prop o k) rest v = get_prop o k.
Proof.
  destruct o as [| | | | |x y|ps|qs|fs];
    try (intros _; apply set_deep_inert; reflexivity).
  - intros _. unfold get_prop. cbn [own_fields lookup_field].
    destruct (String.eqb k "x"); [apply set_deep_inert; reflexivity|].
    destruct (String.eqb k "y"); apply set_deep_inert; reflexivity.
  - unfold get_prop. cbn [own_fields].
    destruct (lookup_field k _) as [c|] eqn:Ec; [|intros _; apply set_deep_inert; reflexivity].
    destruct (lookup_indexed_inv _ _ _ _ _ Ec) as (i & [px py] & Hi & -> & ->).
    cbn [fst snd]. rewrite Nat.add_0_l.
    destruct (set_deep_Vec2 px py rest v) as (x' & y' & ->).
    cbn [set_prop]. rewrite (index_of_key_found _ _ (lookup_lt_Some _ _ _ Hi)).
    intros [= H].
    pose proof (list_lookup_insert_eq ps i (x', y') (lookup_lt_Some _ _ _ Hi)) as Hl.
    rewrite H, Hi in Hl. injection Hl as -> ->. reflexivity.
  - intros _. unfold get_prop. cbn [own_fields].
    destruct (lookup_field k _) as [c|] eqn:Ec; [|apply set_deep_inert; reflexivity].
    destruct (lookup_indexed_inv _ _ _ _ _ Ec) as (i & q & Hi & -> & ->).
    apply set_deep_inert. reflexivity.
  - cbn [set_prop]. intros [= H]. apply set_field_fixed in H.
    unfold get_prop at 2. cbn [own_fields]. rewrite H. reflexivity.
Qed.

(** An assignment through a path that changes nothing still changes nothing
    after an assignment through a path that neither contains it nor lies
    inside it. *)
Lemma set_deep_stable (p p' : list string) (o v u : value) :
  is_prefix p p' = false -> is_prefix p' p = false ->
  _setDeepProperty o p v = o ->
  _setDeepProperty (_setDeepProperty o p' u) p v = _setDeepProperty o p' u.
Proof.
  revert o p'. induction p as [|k rest IH]; intros o p' H1 H2 Hfix; [discriminate H1|].
  destruct p' as [|k' rest']; [discriminate H2|].
  cbn [is_prefix] in H1, H2.
  destruct (String.eqb k k') eqn:E.
  - apply String.eqb_eq in E. subst k'. rewrite String.eqb_refl in H2.
    cbn [andb] in H1, H2.
    destruct rest as [|k1 rest]; [discriminate H1|].
    destruct rest' as [|k2 rest']; [discriminate H2|].
    rewrite set_deep_cons in Hfix. rewrite (set_deep_cons o k k2).
    destruct (is_nullish (get_prop o k)) eqn:En.
    { rewrite set_deep_cons, En. reflexivity. }
    pose proof (set_deep_inner_fixed o k (k1 :: rest) v Hfix) as Hin.
    set (c := get_prop o k) in *.
    set (c1 := _setDeepProperty c (k2 :: rest') u).
    rewrite set_deep_cons.
    destruct (get_prop_set_prop o k c1) as [Hg|Hs].
    + rewrite Hg. unfold c1 at 1. rewrite set_deep_nullish, En.
      unfold c1 at 2. rewrite (IH c (k2 :: rest') H1 H2 Hin). fold c1.
      apply set_prop_twice.
    + rewrite Hs. fold c. rewrite En, Hin. rewrite Hin in Hfix. exact Hfix.
  - apply String.eqb_neq in E.
    assert (Hp' : _setDeepProperty o (k' :: rest') u = o
                  \/ exists c', _setDeepProperty o (k' :: rest') u = set_prop o k' c').
    { destruct rest' as [|k2 rest']; [right; eexists; reflexivity|].
      rewrite set_deep_cons. destruct (is_nullish (get_prop o k'));
        [left; reflexivity|right; eexists; reflexivity]. }
    destruct Hp' as [->|[c' ->]]; [exact Hfix|].
    destruct rest as [|k1 rest].
    + cbn [_setDeepProperty] in Hfix |- *. apply set_prop_stable; assumption.
    + rewrite set_deep_cons in Hfix |- *.
      rewrite (get_prop_set_prop_ne o k k' c' E).
      destruct (is_nullish (get_prop o k)); [reflexivity|].
      apply set_prop_stable; assumption.
Qed.

Lemma written_apart_trans (X : Tween.t) (h1 h2 h3 : gmap nat value) :
  written_apart X h1 h2 -> written_apart X h2 h3 -> written_apart X h1 h3.
Proof.
  intros H12 H23. induction H23 as [|h' Y u H IH Ho]; [exact H12|].
  apply written_more; assumption.
Qed.

Lemma written_apart_binding (X X' : Tween.t) (h h' : gmap nat value) :
  Tween.target X' = Tween.target X ->
  Tween.propertyPath X' = Tween.propertyPath X ->
  written_apart X h h' -> written_apart X' h h'.
Proof.
  intros Ht Hp H. induction H as [|h' Y u H IH Ho]; [apply written_none|].
  apply written_more; [exact IH|]. unfold overlap in Ho |- *. rewrite Ht, Hp. exact Ho.
Qed.

Lemma written_one (X Y : Tween.t) (h : gmap nat value) (u : value) :
  overlap X Y = false ->
  written_apart X h (heap_set h (Tween.target Y) (Tween.propertyPath Y) u).
Proof. intros Ho. apply written_more; [apply written_none|exact Ho]. Qed.

(** Assignments through bindings that do not overlap the binding of [X]
    leave the binding of [X] as it reads. *)
Lemma bound_apart (X : Tween.t) (h h' : gmap nat value) :
  written_apart X h h' -> bound h' X = bound h X.
Proof.
  intros H. induction H as [|h' Y u H IH Ho]; [reflexivity|].
  rewrite bound_set_apart by exact Ho. exact IH.
Qed.

(** An assignment through the binding of [X] that changes nothing still
    changes nothing after assignments through bindings that do not overlap
    it. *)
Lemma heap_set_again_apart (X : Tween.t) (h h' : gmap nat value) (val : value) :
  written_apart X h h' ->
  heap_set h (Tween.target X) (Tween.propertyPath X) val = h ->
  heap_set h' (Tween.target X) (Tween.propertyPath X) val = h'.
Proof.
  intros H Hfix. induction H as [|h' Y u H IH Ho]; [exact Hfix|].
  destruct (h' !! Tween.target Y) as [objY|] eqn:EY.
  2:{ replace (heap_set h' (Tween.target Y) (Tween.propertyPath Y) u) with h'
        by (unfold heap_set; rewrite EY; reflexivity).
      exact IH. }
  replace (heap_set h' (Tween.target Y) (Tween.propertyPath Y) u)
    with (<[Tween.target Y := _setDeepProperty objY (Tween.propertyPath Y) u]> h')
    by (unfold heap_set; rewrite EY; reflexivity).
  unfold heap_set. unfold overlap in Ho.
  destruct (Nat.eqb (Tween.target X) (Tween.target Y)) eqn:Et.
  - apply Nat.eqb_eq in Et. rewrite Et in IH |- *. rewrite lookup_insert_eq.
    cbn [andb] in Ho. apply orb_false_elim in Ho as [H1 H2].
    unfold heap_set in IH. rewrite EY in IH.
    assert (Hobj : _setDeepProperty objY (Tween.propertyPath X) val = objY).
    { assert (Hl : <[Tween.target Y := _setDeepProperty objY (Tween.propertyPath X) val]> h'
                   !! Tween.target Y = Some objY) by (rewrite IH; exact EY).
      rewrite lookup_insert_eq in Hl. injection Hl as Hl. exact Hl. }
    rewrite (set_deep_stable _ _ _ _ u H1 H2 Hobj).
    apply insert_id. apply lookup_insert_eq.
  - apply Nat.eqb_neq in Et. rewrite lookup_insert_ne by congruence.
    unfold heap_set in IH.
    destruct (h' !! Tween.target X) as [objX|] eqn:EX; [|reflexivity].
    assert (Hobj : _setDeepProperty objX (Tween.propertyPath X) val = objX).
    { assert (Hl : <[Tween.target X := _setDeepProperty objX (Tween.propertyPath X) val]> h'
                   !! Tween.target X = Some objX) by (rewrite IH; exact EX).
      rewrite lookup_insert_eq in Hl. injection Hl as Hl. exact Hl. }
    rewrite Hobj. apply insert_id. rewrite lookup_insert_ne by congruence. exact EX.
Qed.

(** ** Rewinding *)

(** The copy that [resetToStart] makes of a captured value is the value,
    except for the empty array. *)
Lemma valueToSet_restored (raw : value) : Tween.valueToSet raw = restored raw.
Proof.
  destruct raw as [| | | | | | ps | qs |]; try reflexivity.
  - destruct ps; reflexivity.
  - destruct qs; reflexivity.
Qed.

Lemma reset_item_spec (it : Timeline.item) (w : World) :
  Timeline.reset_item it w
  = (unstarted it, {| heap := write_back (heap w) it; trace := trace w |}).
Proof.
  unfold Timeline.reset_item, Tween.resetToStart, write_back, holds_start, unstarted.
  rewrite valueToSet_restored.
  destruct it as [tw s f]. destruct w as [h tr]. cbn [Timeline.tween Timeline.startTime].
  change (Tween.startValue (Tween.with_isActive false (Tween.with_elapsedTime 0 tw)))
    with (Tween.startValue tw).
  change (Tween.rawStartValue (Tween.with_isActive false (Tween.with_elapsedTime 0 tw)))
    with (Tween.rawStartValue tw).
  change (Tween.is_dummy (Tween.with_isActive false (Tween.with_elapsedTime 0 tw)))
    with (Tween.is_dummy tw).
  destruct (negb (is_null (Tween.startValue tw)) && negb (is_null (Tween.rawStartValue tw))
            && negb (Tween.is_dummy tw)); reflexivity.
Qed.

Lemma resetAllTweensState_spec (tl : Timeline.t) (w : World) :
  Timeline.resetAllTweensState tl w
  = (Timeline.with_items (map unstarted (Timeline.tweensWithMeta tl)) tl,
     {| heap := fold_left write_back (Timeline.tweensWithMeta tl) (heap w);
        trace := trace w |}).
Proof.
  unfold Timeline.resetAllTweensState.
  assert (G : forall items w,
             Timeline.for_each Timeline.reset_item items w
             = (map unstarted items,
                {| heap := fold_left write_back items (heap w); trace := trace w |})).
  { induction items as [|it items IH]; intros [h tr]; simpl.
    - reflexivity.
    - rewrite reset_item_spec, IH. reflexivity. }
  rewrite G. reflexivity.
Qed.






(** ** Traces *)

Lemma quiet_refl (w : World) : quiet w w.
Proof. exists []. split; [unfold extends; rewrite app_nil_r|]; reflexivity. Qed.

Lemma quiet_trans (w1 w2 w3 : World) : quiet w1 w2 -> quiet w2 w3 -> quiet w1 w3.
Proof.
  intros (e1 & H1 & C1) (e2 & H2 & C2). exists (e1 ++ e2)%list. split.
  - unfold extends in *. rewrite H2, H1, app_assoc. reflexivity.
  - unfold completions in *. rewrite filter_app, length_app, C1, C2. reflexivity.
Qed.

Lemma quiet_emit (e : event) (w : World) : is_complete e = false -> quiet w (emit e w).
Proof.
  intros He. exists [e]. split; [reflexivity|].
  unfold completions. cbn. rewrite He. reflexivity.
Qed.

Lemma quiet_write (x : ref) (path : list string) (v : value) (w : World) :
  quiet w (write x path v w).
Proof. exists []. split; [unfold extends; cbn; rewrite app_nil_r|]; reflexivity. Qed.

(** ** Progress arithmetic *)

Lemma clamp_inside (p : Q) : 0 <= p -> p < 1 -> Qmin (Qmax 0 p) 1 == p.
Proof.
  intros H0 H1. rewrite (Q.max_r 0 p H0). apply Q.min_l. apply Qlt_le_weak. exact H1.
Qed.

(** A ratio below 1 never gives a progress of 1, whatever the duration. *)
Lemma progress_below_one (p e d : Q) :
  0 <= p -> p < 1 -> e == Qmin (Qmax 0 p) 1 * d ->
  Qle_bool 1 (Qmin (e / d) 1) = false.
Proof.
  intros H0 H1 He.
  destruct (Qle_bool 1 (Qmin (e / d) 1)) eqn:E; [|reflexivity].
  apply Qle_bool_iff in E. exfalso.
  assert (Hx : e / d < 1).
  { rewrite He, (clamp_inside p H0 H1).
    destruct (Qeq_dec d 0) as [Hd|Hd].
    - rewrite Hd.
      assert (Hz : p * 0 / 0 == 0) by (unfold Qdiv; ring).
      rewrite Hz. reflexivity.
    - rewrite Qdiv_mult_l by exact Hd. exact H1. }
  apply (Qlt_irrefl 1). eapply Qle_lt_trans; [exact E|].
  apply Q.min_lt_iff. left. exact Hx.
Qed.

Lemma inside_bounds (p : Q) :
  Qltb 0 p && Qltb p 1 = true -> 0 <= p /\ p < 1.
Proof.
  unfold Qltb. intros H. apply andb_prop in H as [H0 H1].
  apply negb_true_iff in H0, H1. split.
  - destruct (Qlt_le_dec p 0) as [Hlt|Hle]; [|exact Hle].
    exfalso. apply Qlt_le_weak in Hlt. apply Qle_bool_iff in Hlt. congruence.
  - destruct (Qlt_le_dec p 1) as [Hlt|Hle]; [exact Hlt|].
    exfalso. apply Qle_bool_iff in Hle. congruence.
Qed.

Lemma progress_at_below (p : Q) (tw : Tween.t) :
  0 <= p -> p < 1 -> Qle_bool 1 (progress_at p tw) = false.
Proof.
  intros H0 H1. unfold progress_at.
  apply (progress_below_one p _ _ H0 H1).
  destruct (negb (Tween._managedByTimeline tw)); ring.
Qed.

(** ** One tween, step by step *)

Lemma same_binding_refl (X : Tween.t) : same_binding X X.
Proof. repeat split. Qed.

Lemma same_binding_trans (X Y Z : Tween.t) :
  same_binding X Y -> same_binding Y Z -> same_binding X Z.
Proof. unfold same_binding. intuition congruence. Qed.

Lemma same_binding_dummy (X Y : Tween.t) :
  same_binding X Y -> Tween.is_dummy Y = Tween.is_dummy X.
Proof. intros (_ & Hp & _). unfold Tween.is_dummy. rewrite Hp. reflexivity. Qed.

Lemma capture_not_null (X : Tween.t) (r e sv : value) :
  Tween.capture X r e = Some sv -> is_null sv = false.
Proof.
  unfold Tween.capture.
  destruct (Tween.both_colors r e) eqn:Ec.
  { intros [= <-]. destruct r; try discriminate; reflexivity. }
  destruct (instanceof_Vec2 r && instanceof_Vec2 e) eqn:Ev.
  { intros [= <-]. destruct r; try discriminate; reflexivity. }
  destruct (isArray r && isArray e && (array_length r =? array_length e)%nat) eqn:Ea.
  { destruct r; try discriminate;
      repeat match goal with
             | |- context [if ?c then _ else _] => destruct c
             end; intros [= <-]; reflexivity. }
  destruct (typeof_number r && typeof_number e) eqn:En.
  { intros [= <-]. destruct r; try discriminate; reflexivity. }
  destruct (typeof_object r && negb (is_null r) && typeof_object e && negb (is_null e)).
  { intros [= <-]. reflexivity. }
  destruct (Tween.is_dummy X); [|discriminate].
  intros [= <-]. reflexivity.
Qed.

Lemma start_eq (X : Tween.t) (w : World) :
  Tween.start X w
  = let r := bound (heap w) X in
    let Xr := Tween.with_raw r (Tween.endValue X) X in
    match start_outcome X r with
    | None => (Tween.with_isActive false Xr, w)
    | Some sv =>
        (Tween.with_isActive true (Tween.with_elapsedTime 0 (Tween.with_startValue sv Xr)),
         match Tween.sceneRef X with
         | Some scene =>
             if negb (Tween._managedByTimeline X) then emit (EvAddTween scene) w else w
         | None => w
         end)
    end.
Proof.
  unfold Tween.start, start_outcome, bound.
  set (r := heap_get (heap w) (Tween.target X) (Tween.propertyPath X)).
  change (Tween.is_dummy (Tween.with_raw r (Tween.endValue X) X)) with (Tween.is_dummy X).
  cbv zeta.
  destruct (is_undefined r && negb (Tween.is_dummy X)); [reflexivity|].
  change (Tween.rawEndValue (Tween.with_raw r (Tween.endValue X) X))
    with (Tween.endValue X).
  change (Tween.capture (Tween.with_raw r (Tween.endValue X) X) r (Tween.endValue X))
    with (Tween.capture X r (Tween.endValue X)).
  destruct (Tween.capture X r (Tween.endValue X)); [|reflexivity].
  cbn [Tween.sceneRef Tween._managedByTimeline Tween.with_isActive
       Tween.with_elapsedTime Tween.with_startValue Tween.with_raw].
  destruct (Tween.sceneRef X); [destruct (negb _)|]; reflexivity.
Qed.

Lemma start_outcome_not_null (X : Tween.t) (r sv : value) :
  start_outcome X r = Some sv -> is_null sv = false.
Proof.
  unfold start_outcome. destruct (is_undefined r && negb _); [discriminate|].
  apply capture_not_null.
Qed.

(** What [start] does: the heap is untouched, no completion callback is
    invoked, and the tween comes out active with a captured start value or
    inactive. *)
Lemma start_spec (X : Tween.t) (w : World) :
  heap (snd (Tween.start X w)) = heap w
  /\ quiet w (snd (Tween.start X w))
  /\ same_binding X (fst (Tween.start X w))
  /\ (Tween.isActive (fst (Tween.start X w)) = true ->
      is_null (Tween.startValue (fst (Tween.start X w))) = false).
Proof.
  rewrite start_eq. cbv zeta.
  destruct (start_outcome X (bound (heap w) X)) as [sv|] eqn:Eo; cbn [fst snd].
  - apply start_outcome_not_null in Eo.
    destruct (Tween.sceneRef X) as [scene|]; [destruct (negb _)|];
      repeat split; try apply quiet_refl; try (intros _; exact Eo).
    apply quiet_emit. reflexivity.
  - repeat split; [apply quiet_refl|discriminate].
Qed.

Lemma bound_same (h h' : gmap nat value) (X : Tween.t) :
  h !! Tween.target X = h' !! Tween.target X -> bound h X = bound h' X.
Proof. apply heap_get_same. Qed.

Lemma start_local (X : Tween.t) (w v : World) :
  heap v !! Tween.target X = heap w !! Tween.target X ->
  fst (Tween.start X v) = fst (Tween.start X w).
Proof.
  intros Hv. rewrite !start_eq. cbv zeta.
  rewrite (bound_same (heap v) (heap w) X Hv).
  destruct (start_outcome X (bound (heap w) X)); reflexivity.
Qed.

(** A [start] that failed fails again on the same heap, and changes
    nothing the second time, whatever [elapsedTime] has become. *)
Lemma start_failed_again (X : Tween.t) (w v : World) (e : Q) :
  bound (heap v) X = bound (heap w) X ->
  Tween.isActive (fst (Tween.start X w)) = false ->
  Tween.start (Tween.with_elapsedTime e (fst (Tween.start X w))) v
  = (Tween.with_elapsedTime e (fst (Tween.start X w)), v).
Proof.
  intros Hv. rewrite (start_eq X w). cbv zeta.
  destruct (start_outcome X (bound (heap w) X)) as [sv|] eqn:Eo; cbn [fst];
    [discriminate|].
  intros _. rewrite start_eq. cbv zeta.
  set (Y := Tween.with_elapsedTime e _).
  assert (Hb : bound (heap v) Y = bound (heap w) X) by exact Hv.
  assert (Ho : start_outcome Y (bound (heap w) X) = None) by exact Eo.
  rewrite Hb, Ho. subst Y. destruct X. reflexivity.
Qed.

(** [update(0)] on a tween that a timeline manages: [elapsedTime] stays. *)
Lemma update_managed (Z : Tween.t) (w : World) :
  Tween._managedByTimeline Z = true ->
  Tween.update 0 Z w
  = if negb (Tween.isActive Z) then (Z, w)
    else
      let progress := Qmin (Tween.elapsedTime Z / Tween.duration Z) 1 in
      match Tween.interpolate Z (Tween.easingFn Z progress) progress with
      | None => (Tween.with_isActive false Z, w)
      | Some currentValue =>
          let w1 :=
            emit_if (Tween.onUpdate Z) (fun cb => EvUpdate cb currentValue progress)
              (if negb (Tween.is_dummy Z)
               then write (Tween.target Z) (Tween.propertyPath Z) currentValue w
               else w) in
          if Qle_bool 1 progress then
            (Tween.with_isActive false Z,
             match Tween.sceneRef Z with
             | Some scene =>
                 if negb (Tween._managedByTimeline Z)
                 then emit (EvRemoveTween scene)
                        (emit_if (Tween.onComplete Z) EvComplete
                           (if negb (Tween.is_dummy Z)
                            then Tween.write_final (Tween.with_isActive false Z) w1
                            else w1))
                 else emit_if (Tween.onComplete Z) EvComplete
                        (if negb (Tween.is_dummy Z)
                         then Tween.write_final (Tween.with_isActive false Z) w1
                         else w1)
             | None =>
                 emit_if (Tween.onComplete Z) EvComplete
                   (if negb (Tween.is_dummy Z)
                    then Tween.write_final (Tween.with_isActive false Z) w1
                    else w1)
             end)
          else (Z, w1)
      end.
Proof.
  intros Hm. unfold Tween.update. rewrite Hm. cbn [negb].
  destruct (negb (Tween.isActive Z)); [reflexivity|]. cbv zeta.
  destruct (Tween.interpolate Z _ _); [|reflexivity].
  destruct (Qle_bool 1 _); [|reflexivity].
  change (Tween.is_dummy (Tween.with_isActive false Z)) with (Tween.is_dummy Z).
  cbn [Tween.sceneRef Tween.onComplete Tween._managedByTimeline Tween.with_isActive].
  rewrite Hm. destruct (Tween.sceneRef Z); reflexivity.
Qed.

Lemma heap_emit_if (cb : option nat) (e : nat -> event) (w : World) :
  heap (emit_if cb e w) = heap w.
Proof. destruct cb; reflexivity. Qed.

Lemma interpolate_dummy (Z : Tween.t) (eased progress : Q) :
  Tween.is_dummy Z = true -> Tween.interpolate Z eased progress <> None.
Proof.
  intros Hd. unfold Tween.interpolate. rewrite Hd.
  destruct (Tween.both_colors _ _) eqn:Ec.
  { destruct (Tween.rawStartValue Z), (Tween.rawEndValue Z); discriminate. }
  destruct (instanceof_Vec2 _ && instanceof_Vec2 _) eqn:Ev.
  { destruct (Tween.startValue Z), (Tween.rawEndValue Z); discriminate. }
  destruct (isArray _ && isArray _ && _) eqn:Ea.
  { destruct (array_length _ =? 0)%nat; [discriminate|].
    destruct (Tween.startValue Z), (Tween.rawEndValue Z); discriminate. }
  destruct (typeof_number _ && typeof_number _) eqn:En.
  { destruct (Tween.startValue Z), (Tween.rawEndValue Z); discriminate. }
  destruct (typeof_object _ && _ && _ && _); discriminate.
Qed.

(** Setting a field again, and the record identities the proofs use. *)
Lemma with_elapsedTime_twice (x y : Q) (Z : Tween.t) :
  Tween.with_elapsedTime x (Tween.with_elapsedTime y Z) = Tween.with_elapsedTime x Z.
Proof. reflexivity. Qed.

Lemma with_isActive_same (Z : Tween.t) :
  Tween.with_isActive (Tween.isActive Z) Z = Z.
Proof. destruct Z. reflexivity. Qed.

Lemma with_isActive_twice (x y : bool) (Z : Tween.t) :
  Tween.with_isActive x (Tween.with_isActive y Z) = Tween.with_isActive x Z.
Proof. reflexivity. Qed.

Lemma with_elapsedTime_active (x : Q) (b : bool) (Z : Tween.t) :
  Tween.with_elapsedTime x (Tween.with_isActive b Z)
  = Tween.with_isActive b (Tween.with_elapsedTime x Z).
Proof. reflexivity. Qed.

Lemma driven_inv (X : Tween.t) :
  driven X = true ->
  Tween._managedByTimeline X = true
  /\ (Tween.isActive X = true -> is_null (Tween.startValue X) = true ->
      Tween.is_dummy X = true).
Proof.
  unfold driven. intros H. apply andb_prop in H as [Hm Hd]. split; [exact Hm|].
  intros Ha Hn. rewrite Ha, Hn in Hd. exact Hd.
Qed.

(** [update(0)] again on a managed tween that the first [update(0)] left
    active, after assignments through other bindings: the same value is
    written, so the heap does not change. *)
Lemma update_twice_active (Z Y : Tween.t) (w w1 v : World) :
  Tween._managedByTimeline Z = true ->
  Tween.update 0 Z w = (Y, w1) ->
  Tween.isActive Y = true ->
  written_apart Z (heap w1) (heap v) ->
  Y = Z /\ exists v', Tween.update 0 Z v = (Z, v') /\ heap v' = heap v.
Proof.
  intros Hm E Ha Hv. rewrite (update_managed Z w Hm) in E.
  rewrite (update_managed Z v Hm).
  destruct (negb (Tween.isActive Z)) eqn:Ez.
  { injection E as <- <-. split; [reflexivity|]. eexists. split; reflexivity. }
  cbv zeta in *.
  set (progress := Qmin (Tween.elapsedTime Z / Tween.duration Z) 1) in *.
  destruct (Tween.interpolate Z (Tween.easingFn Z progress) progress) as [cv|].
  2:{ injection E as <- <-. discriminate. }
  destruct (Qle_bool 1 progress).
  { injection E as <- <-. discriminate. }
  injection E as <- <-. split; [reflexivity|].
  eexists. split; [reflexivity|].
  rewrite heap_emit_if. rewrite heap_emit_if in Hv.
  destruct (negb (Tween.is_dummy Z)); [|reflexivity].
  apply (heap_set_again_apart Z _ _ _ Hv).
  apply (write_again w (write (Tween.target Z) (Tween.propertyPath Z) cv w)).
  reflexivity.
Qed.

(** The first [update(0)] of a managed tween leaves it inactive: it was
    inactive, or its value could not be computed, or it completed. *)
Lemma update_to_inactive (Z Y : Tween.t) (w w1 : World) :
  Tween._managedByTimeline Z = true ->
  Tween.update 0 Z w = (Y, w1) ->
  Tween.isActive Y = false ->
  Y = Tween.with_isActive false Z
  /\ (Tween.isActive Z = true ->
      let progress := Qmin (Tween.elapsedTime Z / Tween.duration Z) 1 in
      (Tween.interpolate Z (Tween.easingFn Z progress) progress = None /\ w1 = w)
      \/ Qle_bool 1 progress = true).
Proof.
  intros Hm E Ha. rewrite (update_managed Z w Hm) in E.
  destruct (Tween.isActive Z) eqn:Ez; cbn [negb] in E.
  2:{ injection E as <- <-. split; [|discriminate].
      rewrite <- Ez at 1. symmetry. apply with_isActive_same. }
  cbv zeta in *.
  set (progress := Qmin (Tween.elapsedTime Z / Tween.duration Z) 1) in *.
  destruct (Tween.interpolate Z (Tween.easingFn Z progress) progress) as [cv|].
  2:{ injection E as <- <-. split; [reflexivity|]. intros _. left. split; reflexivity. }
  destruct (Qle_bool 1 progress).
  - injection E as <- _. split; [reflexivity|]. intros _. right. reflexivity.
  - injection E as <- _. congruence.
Qed.

(** [setProgress] twice with the same ratio, on a tween that a timeline
    drives, with assignments through other bindings in between: the second
    call leaves the tween as the first left it and changes nothing in the
    heap. *)
Lemma setProgress_twice (p : Q) (X Y : Tween.t) (w w1 v : World) :
  driven X = true ->
  Tween.setProgress p X w = (Y, w1) ->
  written_apart X (heap w1) (heap v) ->
  exists v', Tween.setProgress p Y v = (Y, v') /\ heap v' = heap v.
Proof.
  intros Hdr E Hv. apply driven_inv in Hdr as [Hm Hdum].
  unfold Tween.setProgress in E.
  set (inside := Qltb 0 p && Qltb p 1) in *.
  set (c := Qmin (Qmax 0 p) 1) in *.
  set (pre := negb (Tween.isActive X) && inside && is_null (Tween.startValue X)) in *.
  (* the first call up to its [update] *)
  assert (H1 : exists X1 wA,
             (if pre then Tween.start X w else (X, w)) = (X1, wA)
             /\ heap wA = heap w /\ same_binding X X1
             /\ (pre = true -> X1 = fst (Tween.start X w))
             /\ (pre = false -> X1 = X)
             /\ (Tween.isActive X1 = true -> is_null (Tween.startValue X1) = true ->
                 Tween.is_dummy X = true)).
  { destruct pre eqn:Epre.
    - destruct (start_spec X w) as (Hh & _ & Hb & Hn).
      destruct (Tween.start X w) as [X1 wA]. cbn [fst snd] in *.
      exists X1, wA.
      refine (conj eq_refl (conj Hh (conj Hb (conj (fun _ => eq_refl) (conj _ _))))).
      + discriminate.
      + intros Ha Hnull. rewrite (Hn Ha) in Hnull. discriminate.
    - exists X, w.
      refine (conj eq_refl (conj eq_refl (conj (same_binding_refl X)
                (conj _ (conj (fun _ => eq_refl) Hdum))))).
      discriminate. }
  destruct H1 as (X1 & wA & E1 & HhA & HbA & Hpre1 & Hpre0 & Hdum1).
  rewrite E1 in E. clear E1.
  set (X2 := if negb (Tween.isActive X1) && inside then Tween.with_isActive true X1 else X1) in *.
  assert (Hd2 : Tween.duration X2 = Tween.duration X1).
  { subst X2. destruct (negb (Tween.isActive X1) && inside); reflexivity. }
  rewrite Hd2 in E.
  set (d := Tween.duration X1) in *.
  set (X3 := Tween.with_elapsedTime (c * d) X2) in *.
  assert (Hm3 : Tween._managedByTimeline X3 = true).
  { change (Tween._managedByTimeline X2 = true). subst X2.
    destruct (negb (Tween.isActive X1) && inside);
      change (Tween._managedByTimeline X1 = true);
      destruct HbA as (_ & _ & _ & _ & _ & _ & _ & _ & ->); exact Hm. }
  assert (Ht3 : Tween.target X3 = Tween.target X).
  { change (Tween.target X2 = Tween.target X). subst X2.
    destruct (negb (Tween.isActive X1) && inside); apply HbA. }
  assert (Hp3 : Tween.propertyPath X3 = Tween.propertyPath X).
  { change (Tween.propertyPath X2 = Tween.propertyPath X). subst X2.
    destruct (negb (Tween.isActive X1) && inside); apply HbA. }
  assert (Hd3 : Tween.duration X3 = d).
  { change (Tween.duration X2 = d). exact Hd2. }
  assert (Hv3 : written_apart X3 (heap w1) (heap v)).
  { apply (written_apart_binding X); assumption. }
  (* the second call *)
  unfold Tween.setProgress. fold inside. fold c.
  destruct (Tween.isActive Y) eqn:EaY.
  - destruct (update_twice_active X3 Y wA w1 v Hm3 E EaY Hv3) as (-> & v' & Ev & Hh).
    cbn [negb andb]. rewrite EaY. cbn [negb andb]. rewrite Hd3.
    change (Tween.with_elapsedTime (c * d) X3) with X3.
    exists v'. split; assumption.
  - destruct (update_to_inactive X3 Y wA w1 Hm3 E EaY) as (-> & Hcase).
    assert (Hsv3 : Tween.startValue (Tween.with_isActive false X3) = Tween.startValue X1).
    { change (Tween.startValue X2 = Tween.startValue X1). subst X2.
      destruct (negb (Tween.isActive X1) && inside); reflexivity. }
    change (Tween.isActive (Tween.with_isActive false X3)) with false.
    rewrite Hsv3. cbn [negb andb].
    destruct inside eqn:Ein; cbn [andb].
    + (* a ratio strictly between 0 and 1 *)
      assert (Ha3 : Tween.isActive X3 = true).
      { change (Tween.isActive X2 = true). subst X2.
        destruct (Tween.isActive X1) eqn:Ea1; cbn [negb andb]; [exact Ea1|reflexivity]. }
      assert (Hbelow : Qle_bool 1 (Qmin (Tween.elapsedTime X3 / Tween.duration X3) 1) = false).
      { rewrite Hd3. apply inside_bounds in Ein as [H0 H1].
        apply (progress_below_one p _ _ H0 H1). reflexivity. }
      destruct (Hcase Ha3) as [[Hnone ->] | Hge]; [|cbv zeta in Hge; congruence].
      cbv zeta in Hnone.
      assert (Hrun : Tween.update 0 X3 v = (Tween.with_isActive false X3, v)).
      { rewrite (update_managed X3 v Hm3), Ha3. cbn [negb]. cbv zeta.
        rewrite Hnone. reflexivity. }
      destruct (is_null (Tween.startValue X1)) eqn:Enull.
      * destruct pre eqn:Epre.
        -- specialize (Hpre1 eq_refl).
           assert (Ea1 : Tween.isActive X1 = false).
           { destruct (Tween.isActive X1) eqn:Ea1; [|reflexivity].
             destruct (start_spec X w) as (_ & _ & _ & Hn).
             rewrite <- Hpre1 in Hn. rewrite (Hn Ea1) in Enull. discriminate. }
           assert (EX2 : X2 = Tween.with_isActive true X1).
           { subst X2. rewrite Ea1. reflexivity. }
           assert (EY : Tween.with_isActive false X3 = Tween.with_elapsedTime (c * d) X1).
           { subst X3. rewrite EX2.
             change (Tween.with_elapsedTime (c * d) (Tween.with_isActive false X1)
                     = Tween.with_elapsedTime (c * d) X1).
             pose proof (with_isActive_same X1) as EX1. rewrite Ea1 in EX1.
             rewrite EX1. reflexivity. }
           rewrite EY, Hpre1.
           rewrite start_failed_again.
           ++ rewrite <- Hpre1, <- EY.
              change (Tween.isActive (Tween.with_isActive false X3)) with false.
              cbn [negb andb].
              change (Tween.duration (Tween.with_isActive true (Tween.with_isActive false X3)))
                with (Tween.duration X2).
              rewrite Hd2. fold d.
              change (Tween.with_elapsedTime (c * d)
                        (Tween.with_isActive true (Tween.with_isActive false X3)))
                with (Tween.with_isActive true X3).
              pose proof (with_isActive_same X3) as EX3. rewrite Ha3 in EX3.
              rewrite EX3.
              exists v. split; [exact Hrun|reflexivity].
           ++ rewrite (bound_apart X _ _ Hv), HhA. reflexivity.
           ++ rewrite <- Hpre1. exact Ea1.
        -- specialize (Hpre0 eq_refl). subst X1.
           assert (Ea : Tween.isActive X = true).
           { subst pre. rewrite Enull, andb_true_r in Epre.
             destruct (Tween.isActive X); [reflexivity|discriminate]. }
           exfalso. refine (interpolate_dummy X3 _ _ _ Hnone).
           change (Tween.is_dummy X2 = true). subst X2. rewrite Ea.
           exact (Hdum1 Ea eq_refl).
      * change (Tween.isActive (Tween.with_isActive false X3)) with false.
        cbn [negb andb].
        change (Tween.duration (Tween.with_isActive true (Tween.with_isActive false X3)))
          with (Tween.duration X2).
        rewrite Hd2. fold d.
        change (Tween.with_elapsedTime (c * d)
                  (Tween.with_isActive true (Tween.with_isActive false X3)))
          with (Tween.with_isActive true X3).
        pose proof (with_isActive_same X3) as EX3. rewrite Ha3 in EX3.
              rewrite EX3.
        exists v. split; [exact Hrun|reflexivity].
    + (* a ratio at or beyond the ends *)
      rewrite andb_false_r.
      change (Tween.duration (Tween.with_isActive false X3)) with (Tween.duration X2).
      rewrite Hd2. fold d.
      change (Tween.with_elapsedTime (c * d) (Tween.with_isActive false X3))
        with (Tween.with_isActive false X3).
      exists v. split; [|reflexivity].
      unfold Tween.update. reflexivity.
Qed.

(** ** What a tween method touches *)

Lemma write_other (x y : ref) (path : list string) (val : value) (w : World) :
  x <> y -> heap (write x path val w) !! y = heap w !! y.
Proof. intros Hxy. apply heap_set_other. exact Hxy. Qed.

Lemma write_final_other (Z : Tween.t) (w : World) (y : ref) :
  Tween.target Z <> y -> heap (Tween.write_final Z w) !! y = heap w !! y.
Proof.
  intros Hy. unfold Tween.write_final.
  destruct (Tween.rawEndValue Z); try (apply write_other; exact Hy).
  destruct (typeof_object _ && negb _); apply write_other; exact Hy.
Qed.

Lemma update_touches (deltaTime : Q) (Z : Tween.t) (w : World) :
  same_binding Z (fst (Tween.update deltaTime Z w))
  /\ forall y, Tween.target Z <> y ->
       heap (snd (Tween.update deltaTime Z w)) !! y = heap w !! y.
Proof.
  unfold Tween.update.
  destruct (negb (Tween.isActive Z)); [split; [apply same_binding_refl|reflexivity]|].
  set (Ze := if negb (Tween._managedByTimeline Z)
             then Tween.with_elapsedTime (Tween.elapsedTime Z + deltaTime) Z else Z).
  assert (Hb : same_binding Z Ze).
  { subst Ze. destruct (negb (Tween._managedByTimeline Z)); repeat split. }
  assert (Ht : Tween.target Ze = Tween.target Z) by apply Hb.
  destruct (Tween.interpolate Ze _ _) as [cv|]; cbn [fst snd].
  2:{ split; [|reflexivity]. eapply same_binding_trans; [exact Hb|]. repeat split. }
  set (w1 := emit_if (Tween.onUpdate Ze) _ _).
  assert (Hw1 : forall y, Tween.target Z <> y -> heap w1 !! y = heap w !! y).
  { intros y Hy. subst w1. rewrite heap_emit_if.
    destruct (negb (Tween.is_dummy Ze)); [|reflexivity].
    apply write_other. rewrite Ht. exact Hy. }
  destruct (Qle_bool 1 _); cbn [fst snd]; [|split; assumption].
  split; [eapply same_binding_trans; [exact Hb|]; repeat split|].
  intros y Hy.
  set (w2 := if negb (Tween.is_dummy (Tween.with_isActive false Ze))
             then Tween.write_final (Tween.with_isActive false Ze) w1 else w1).
  assert (Hw2 : heap w2 !! y = heap w !! y).
  { subst w2. destruct (negb (Tween.is_dummy _)); [|apply Hw1; exact Hy].
    rewrite write_final_other; [apply Hw1; exact Hy|].
    change (Tween.target Ze <> y). rewrite Ht. exact Hy. }
  destruct (Tween.sceneRef _);
    [destruct (negb (Tween._managedByTimeline (Tween.with_isActive false Ze)))|];
    cbn [heap emit]; rewrite ?heap_emit_if; exact Hw2.
Qed.

Lemma setProgress_touches (p : Q) (X : Tween.t) (w : World) :
  same_binding X (fst (Tween.setProgress p X w))
  /\ forall y, Tween.target X <> y ->
       heap (snd (Tween.setProgress p X w)) !! y = heap w !! y.
Proof.
  unfold Tween.setProgress.
  set (inside := Qltb 0 p && Qltb p 1).
  set (S1 := if negb (Tween.isActive X) && inside && is_null (Tween.startValue X)
             then Tween.start X w else (X, w)).
  assert (H1 : same_binding X (fst S1) /\ heap (snd S1) = heap w).
  { subst S1. destruct (negb _ && _ && _); [|split; [apply same_binding_refl|reflexivity]].
    destruct (start_spec X w) as (Hh & _ & Hb & _). split; assumption. }
  destruct S1 as [X1 wA]. cbn [fst snd] in H1. destruct H1 as [Hb1 HhA].
  set (X2 := if negb (Tween.isActive X1) && inside then Tween.with_isActive true X1 else X1).
  assert (Hb2 : same_binding X X2).
  { subst X2. destruct (negb (Tween.isActive X1) && inside); [|exact Hb1].
    eapply same_binding_trans; [exact Hb1|]. repeat split. }
  set (X3 := Tween.with_elapsedTime (Qmin (Qmax 0 p) 1 * Tween.duration X2) X2).
  assert (Hb3 : same_binding X X3).
  { eapply same_binding_trans; [exact Hb2|]. repeat split. }
  destruct (update_touches 0 X3 wA) as [Hb Hf].
  split; [eapply same_binding_trans; eassumption|].
  intros y Hy. rewrite Hf; [rewrite HhA; reflexivity|].
  destruct Hb3 as (-> & _). exact Hy.
Qed.

Lemma resetToStart_touches (X : Tween.t) (w : World) :
  same_binding X (fst (Tween.resetToStart X w))
  /\ trace (snd (Tween.resetToStart X w)) = trace w
  /\ forall y, Tween.target X <> y ->
       heap (snd (Tween.resetToStart X w)) !! y = heap w !! y.
Proof.
  unfold Tween.resetToStart.
  destruct (negb _ && negb _ && negb _); cbn [fst snd];
    (split; [repeat split|split; [reflexivity|]]).
  - intros y Hy. apply write_other. exact Hy.
  - reflexivity.
Qed.

Lemma start_driven (X : Tween.t) (w : World) :
  Tween._managedByTimeline X = true -> driven (fst (Tween.start X w)) = true.
Proof.
  intros Hm. destruct (start_spec X w) as (_ & _ & Hb & Hn).
  unfold driven.
  destruct Hb as (_ & _ & _ & _ & _ & _ & _ & _ & ->). rewrite Hm. cbn [andb].
  destruct (Tween.isActive (fst (Tween.start X w))); [|reflexivity].
  rewrite (Hn eq_refl). reflexivity.
Qed.

(** ** Completion callbacks *)

Lemma quiet_emit_if (cb : option nat) (e : nat -> event) (w : World) :
  (forall k, is_complete (e k) = false) -> quiet w (emit_if cb e w).
Proof. intros He. destruct cb; [apply quiet_emit, He|apply quiet_refl]. Qed.

(** [update(0)] invokes no completion callback when the progress it
    computes is below 1. *)
Lemma update_quiet (Z : Tween.t) (w : World) :
  (Tween.isActive Z = true ->
   Qle_bool 1 (Qmin ((if negb (Tween._managedByTimeline Z)
                      then Tween.elapsedTime Z + 0 else Tween.elapsedTime Z)
                     / Tween.duration Z) 1) = false) ->
  quiet w (snd (Tween.update 0 Z w)).
Proof.
  intros Hp. unfold Tween.update.
  destruct (Tween.isActive Z); cbn [negb]; [|apply quiet_refl].
  specialize (Hp eq_refl).
  set (Ze := if negb (Tween._managedByTimeline Z)
             then Tween.with_elapsedTime (Tween.elapsedTime Z + 0) Z else Z).
  assert (Hp' : Qle_bool 1 (Qmin (Tween.elapsedTime Ze / Tween.duration Ze) 1) = false).
  { subst Ze. destruct (negb (Tween._managedByTimeline Z)); exact Hp. }
  destruct (Tween.interpolate Ze _ _) as [cv|]; [|apply quiet_refl].
  rewrite Hp'. cbn [snd].
  eapply quiet_trans; [|apply quiet_emit_if; reflexivity].
  destruct (negb (Tween.is_dummy Ze)); [apply quiet_write|apply quiet_refl].
Qed.

(** [setProgress] with a ratio in [0, 1) invokes no completion callback. *)
Lemma setProgress_quiet_below (p : Q) (X : Tween.t) (w : World) :
  0 <= p -> p < 1 -> quiet w (snd (Tween.setProgress p X w)).
Proof.
  intros H0 H1. unfold Tween.setProgress.
  set (inside := Qltb 0 p && Qltb p 1).
  set (S1 := if negb (Tween.isActive X) && inside && is_null (Tween.startValue X)
             then Tween.start X w else (X, w)).
  assert (Hq : quiet w (snd S1)).
  { subst S1. destruct (negb _ && _ && _); [apply start_spec|apply quiet_refl]. }
  destruct S1 as [X1 wA]. cbn [snd] in Hq.
  eapply quiet_trans; [exact Hq|].
  apply update_quiet. intros _.
  set (X2 := if negb (Tween.isActive X1) && inside then Tween.with_isActive true X1 else X1).
  cbn [Tween.elapsedTime Tween._managedByTimeline Tween.duration Tween.with_elapsedTime].
  apply (progress_below_one p _ _ H0 H1).
  destruct (negb (Tween._managedByTimeline X2)); ring.
Qed.

(** A tween that [setProgress] leaves active did not reach progress 1. *)
Lemma setProgress_active_after (p : Q) (X : Tween.t) (w : World) :
  Tween.isActive (fst (Tween.setProgress p X w)) = true ->
  Qle_bool 1 (progress_at p (fst (Tween.setProgress p X w))) = false.
Proof.
  destruct (setProgress_touches p X w) as [Hb _].
  unfold progress_at.
  destruct Hb as (_ & _ & _ & -> & _ & _ & _ & _ & ->).
  unfold Tween.setProgress.
  set (inside := Qltb 0 p && Qltb p 1).
  destruct (if negb (Tween.isActive X) && inside && is_null (Tween.startValue X)
            then Tween.start X w else (X, w)) as [X1 wA] eqn:E1.
  assert (Hb1 : same_binding X X1).
  { destruct (negb _ && _ && _).
    - pose proof (start_spec X w) as (_ & _ & Hb & _). rewrite E1 in Hb. exact Hb.
    - injection E1 as <- <-. apply same_binding_refl. }
  set (X2 := if negb (Tween.isActive X1) && inside then Tween.with_isActive true X1 else X1).
  assert (Hb2 : same_binding X X2).
  { subst X2. destruct (negb (Tween.isActive X1) && inside); [|exact Hb1].
    eapply same_binding_trans; [exact Hb1|]. repeat split. }
  destruct Hb2 as (_ & _ & _ & Hd & _ & _ & _ & _ & Hm).
  rewrite Hd.
  set (X3 := Tween.with_elapsedTime (Qmin (Qmax 0 p) 1 * Tween.duration X) X2).
  unfold Tween.update.
  destruct (Tween.isActive X3) eqn:Ea3; cbn [negb fst].
  2:{ intros Ha. rewrite Ha in Ea3. discriminate. }
  change (Tween._managedByTimeline X3) with (Tween._managedByTimeline X2). rewrite Hm.
  set (Ze := if negb (Tween._managedByTimeline X)
             then Tween.with_elapsedTime (Tween.elapsedTime X3 + 0) X3 else X3).
  assert (He : Tween.elapsedTime Ze / Tween.duration Ze
               = (if negb (Tween._managedByTimeline X)
                  then Qmin (Qmax 0 p) 1 * Tween.duration X + 0
                  else Qmin (Qmax 0 p) 1 * Tween.duration X) / Tween.duration X).
  { subst Ze. destruct (negb (Tween._managedByTimeline X));
      cbn [Tween.elapsedTime Tween.duration Tween.with_elapsedTime];
      change (Tween.duration X3) with (Tween.duration X2); rewrite ?Hd; reflexivity. }
  destruct (Tween.interpolate Ze _ _) as [cv|]; cbn [fst].
  2:{ discriminate. }
  rewrite He.
  destruct (Qle_bool 1 _); cbn [fst]; [discriminate|reflexivity].
Qed.

(** [setProgress] at or beyond the ends invokes no completion callback
    on a tween that is inactive or cannot reach progress 1. *)
Lemma setProgress_quiet_if (p : Q) (X : Tween.t) (w : World) :
  Qltb 0 p && Qltb p 1 = false ->
  (Tween.isActive X = true -> Qle_bool 1 (progress_at p X) = false) ->
  quiet w (snd (Tween.setProgress p X w)).
Proof.
  intros Hin Hp. unfold Tween.setProgress. rewrite Hin, andb_false_r.
  cbn [andb]. rewrite andb_false_r.
  apply update_quiet. exact Hp.
Qed.

(** ** One entry under [seek] *)

Lemma window_ratio (s d now : Q) :
  Qle_bool s now = true -> Qltb now (s + d) = true ->
  0 <= (now - s) / d /\ (now - s) / d < 1.
Proof.
  intros Hs He. apply Qle_bool_iff in Hs.
  assert (Hlt : now < s + d).
  { unfold Qltb in He. apply negb_true_iff in He.
    destruct (Qlt_le_dec now (s + d)) as [H|H]; [exact H|].
    apply Qle_bool_iff in H. congruence. }
  assert (H0 : 0 <= now - s) by lra.
  assert (H1 : now - s < d) by lra.
  assert (Hd : 0 < d) by (eapply Qle_lt_trans; eassumption).
  split.
  - apply Qle_shift_div_l; [exact Hd|]. rewrite Qmult_0_l. exact H0.
  - apply Qlt_shift_div_r; [exact Hd|]. rewrite Qmult_1_l. exact H1.
Qed.

Lemma seek_item_touches (now : Q) (it : Timeline.item) (w : World) :
  same_binding (Timeline.tween it) (Timeline.tween (fst (Timeline.seek_item now it w)))
  /\ Timeline.startTime (fst (Timeline.seek_item now it w)) = Timeline.startTime it
  /\ forall y, Tween.target (Timeline.tween it) <> y ->
       heap (snd (Timeline.seek_item now it w)) !! y = heap w !! y.
Proof.
  unfold Timeline.seek_item. destruct it as [X s f].
  cbn [Timeline.tween Timeline.startTime Timeline._hasStartedInternal].
  destruct (Qle_bool s now && Qltb now _).
  { destruct f; cbn [negb].
    - destruct (setProgress_touches ((now - s) / Tween.duration X) X w) as [Hb Hf].
      destruct (Tween.setProgress _ X w) as [Y w1]. cbn [fst snd] in *.
      repeat split; try apply Hb. exact Hf.
    - destruct (start_spec X w) as (Hh & _ & Hb & _).
      destruct (Tween.start X w) as [Xs ws]. cbn [fst snd] in *.
      destruct (setProgress_touches ((now - s) / Tween.duration Xs) Xs ws) as [Hb' Hf].
      destruct (Tween.setProgress _ Xs ws) as [Y w1]. cbn [fst snd] in *.
      split; [eapply same_binding_trans; eassumption|]. split; [reflexivity|].
      intros y Hy. rewrite Hf, Hh; [reflexivity|].
      destruct Hb as (-> & _). exact Hy. }
  destruct (Qle_bool _ now).
  { destruct (f && Tween.isActive X).
    - destruct (setProgress_touches 1 X w) as [Hb Hf].
      destruct (Tween.setProgress 1 X w) as [Y w1]. cbn [fst snd] in *.
      repeat split; try apply Hb. exact Hf.
    - destruct (negb f); [|repeat split].
      destruct (start_spec X w) as (Hh & _ & Hb & _).
      destruct (Tween.start X w) as [Xs ws]. cbn [fst snd] in *.
      destruct (setProgress_touches 1 Xs ws) as [Hb' Hf].
      destruct (Tween.setProgress 1 Xs ws) as [Y w1]. cbn [fst snd] in *.
      split; [eapply same_binding_trans; eassumption|]. split; [reflexivity|].
      intros y Hy. rewrite Hf, Hh; [reflexivity|].
      destruct Hb as (-> & _). exact Hy. }
  destruct f; [|repeat split].
  destruct (resetToStart_touches X w) as (Hb & _ & Hf).
  destruct (Tween.resetToStart X w) as [Y w1]. cbn [fst snd] in *.
  repeat split; try apply Hb. exact Hf.
Qed.

(** The second [seek] of an entry at the same play-head invokes no
    completion callback, whatever the heap has become. *)
Lemma seek_item_again_quiet (now : Q) (it : Timeline.item) (w v : World) :
  quiet v (snd (Timeline.seek_item now (fst (Timeline.seek_item now it w)) v)).
Proof.
  destruct (seek_item_touches now it w) as (Hb & Hs & _).
  assert (Hpost : Timeline.tweenEndTime it <= now ->
            Qle_bool (Timeline.startTime it) now && Qltb now (Timeline.tweenEndTime it)
            = false ->
            Timeline._hasStartedInternal (fst (Timeline.seek_item now it w)) = true
            /\ (Tween.isActive (Timeline.tween (fst (Timeline.seek_item now it w))) = true ->
                Qle_bool 1 (progress_at 1 (Timeline.tween (fst (Timeline.seek_item now it w))))
                = false)).
  { intros He Hw. unfold Timeline.seek_item. rewrite Hw.
    apply Qle_bool_iff in He. rewrite He.
    destruct it as [X s f].
    cbn [Timeline.tween Timeline.startTime Timeline._hasStartedInternal].
    destruct f; cbn [andb negb].
    - destruct (Tween.isActive X) eqn:Ea.
      + pose proof (setProgress_active_after 1 X w) as Hp.
        destruct (Tween.setProgress 1 X w) as [Y w1]. cbn [fst snd] in *.
        split; [reflexivity|exact Hp].
      + cbn [fst Timeline.tween Timeline._hasStartedInternal].
        split; [reflexivity|]. intros Ha. congruence.
    - destruct (Tween.start X w) as [Xs ws].
      pose proof (setProgress_active_after 1 Xs ws) as Hp.
      destruct (Tween.setProgress 1 Xs ws) as [Y w1]. cbn [fst snd] in *.
      split; [reflexivity|exact Hp]. }
  set (it1 := fst (Timeline.seek_item now it w)) in *.
  assert (He1 : Timeline.tweenEndTime it1 = Timeline.tweenEndTime it).
  { unfold Timeline.tweenEndTime. rewrite Hs.
    destruct Hb as (_ & _ & _ & -> & _). reflexivity. }
  unfold Timeline.seek_item at 1. rewrite He1, Hs.
  destruct (Qle_bool (Timeline.startTime it) now && Qltb now (Timeline.tweenEndTime it))
    eqn:Ew.
  { apply andb_prop in Ew as [Ews Ewe].
    destruct (negb (Timeline._hasStartedInternal it1)).
    - pose proof (start_spec (Timeline.tween it1) v) as (_ & Hq & Hbs & _).
      destruct (Tween.start (Timeline.tween it1) v) as [Xs ws]. cbn [fst snd] in *.
      assert (Hr : 0 <= (now - Timeline.startTime it) / Tween.duration Xs
                   /\ (now - Timeline.startTime it) / Tween.duration Xs < 1).
      { apply window_ratio; [exact Ews|].
        destruct Hbs as (_ & _ & _ & -> & _).
        destruct Hb as (_ & _ & _ & -> & _). exact Ewe. }
      pose proof (setProgress_quiet_below _ Xs ws (proj1 Hr) (proj2 Hr)) as Hq2.
      destruct (Tween.setProgress _ Xs ws) as [Y w2]. cbn [fst snd] in *.
      eapply quiet_trans; eassumption.
    - assert (Hr : 0 <= (now - Timeline.startTime it) / Tween.duration (Timeline.tween it1)
                   /\ (now - Timeline.startTime it) / Tween.duration (Timeline.tween it1) < 1).
      { apply window_ratio; [exact Ews|].
        destruct Hb as (_ & _ & _ & -> & _). exact Ewe. }
      pose proof (setProgress_quiet_below _ (Timeline.tween it1) v (proj1 Hr) (proj2 Hr))
        as Hq2.
      destruct (Tween.setProgress _ (Timeline.tween it1) v) as [Y w2].
      exact Hq2. }
  destruct (Qle_bool (Timeline.tweenEndTime it) now) eqn:Ee.
  { apply Qle_bool_iff in Ee. destruct (Hpost Ee eq_refl) as [Hf Hp].
    rewrite Hf. cbn [andb negb].
    destruct (Tween.isActive (Timeline.tween it1)) eqn:Ea; [|apply quiet_refl].
    pose proof (setProgress_quiet_if 1 (Timeline.tween it1) v eq_refl (fun _ => Hp eq_refl))
      as Hq.
    destruct (Tween.setProgress 1 (Timeline.tween it1) v) as [Y w2]. exact Hq. }
  destruct (Timeline._hasStartedInternal it1); [|apply quiet_refl].
  pose proof (resetToStart_touches (Timeline.tween it1) v) as (_ & Htr & _).
  destruct (Tween.resetToStart (Timeline.tween it1) v) as [Y w2]. cbn [fst snd] in *.
  exists []. split; [unfold extends; rewrite Htr, app_nil_r|]; reflexivity.
Qed.

(** The second [seek] of an entry at the same play-head, on a heap that
    differs from the one the first [seek] of the entry left by assignments
    through other bindings: the entry and the heap stay as they are. *)
Lemma seek_item_twice (now : Q) (it it1 : Timeline.item) (w w1 v : World) :
  driven (Timeline.tween it) = true ->
  Timeline.seek_item now it w = (it1, w1) ->
  written_apart (Timeline.tween it) (heap w1) (heap v) ->
  exists v', Timeline.seek_item now it1 v = (it1, v') /\ heap v' = heap v.
Proof.
  intros Hdr E Hv.
  pose proof (seek_item_touches now it w) as (Hb & Hs & _). rewrite E in Hb, Hs.
  cbn [fst] in Hb, Hs.
  assert (He1 : Timeline.tweenEndTime it1 = Timeline.tweenEndTime it).
  { unfold Timeline.tweenEndTime. rewrite Hs.
    destruct Hb as (_ & _ & _ & -> & _). reflexivity. }
  unfold Timeline.seek_item. rewrite He1, Hs.
  unfold Timeline.seek_item in E.
  destruct it as [X s f].
  cbn [Timeline.tween Timeline.startTime Timeline._hasStartedInternal] in *.
  destruct (Qle_bool s now && Qltb now (Timeline.tweenEndTime (Timeline.mkItem X s f))).
  { (* inside the window *)
    assert (G : exists Xs ws,
               driven Xs = true /\ same_binding X Xs /\ heap ws = heap w
               /\ Tween.setProgress ((now - s) / Tween.duration Xs) Xs ws
                  = (Timeline.tween it1, w1)
               /\ it1 = Timeline.mkItem (Timeline.tween it1) s true).
    { destruct f; cbn [negb] in E.
      - exists X, w.
        destruct (Tween.setProgress _ X w) as [Y wy]. injection E as <- <-.
        repeat split; assumption.
      - pose proof (start_spec X w) as (Hh & _ & Hbs & _).
        pose proof (start_driven X w (proj1 (driven_inv X Hdr))) as Hds.
        destruct (Tween.start X w) as [Xs ws]. cbn [fst snd] in *.
        exists Xs, ws.
        destruct (Tween.setProgress _ Xs ws) as [Y wy]. injection E as <- <-.
        repeat split; try assumption; apply Hbs. }
    destruct G as (Xs & ws & Hds & Hbs & Hhs & Esp & Eit).
    rewrite Eit. cbn [Timeline.tween Timeline._hasStartedInternal negb].
    assert (Hdur : Tween.duration (Timeline.tween it1) = Tween.duration Xs).
    { destruct Hb as (_ & _ & _ & -> & _). destruct Hbs as (_ & _ & _ & -> & _).
      reflexivity. }
    rewrite Hdur.
    assert (Hv' : written_apart Xs (heap w1) (heap v)).
    { apply (written_apart_binding X); [apply Hbs|apply Hbs|exact Hv]. }
    destruct (setProgress_twice _ Xs (Timeline.tween it1) ws w1 v Hds Esp Hv')
      as (v' & Ev & Hh).
    rewrite Ev. exists v'. split; [reflexivity|exact Hh]. }
  destruct (Qle_bool (Timeline.tweenEndTime (Timeline.mkItem X s f)) now).
  { (* past the window *)
    assert (G : (exists Xs ws,
                   driven Xs = true /\ same_binding X Xs /\ heap ws = heap w
                   /\ Tween.setProgress 1 Xs ws = (Timeline.tween it1, w1)
                   /\ it1 = Timeline.mkItem (Timeline.tween it1) s true)
                \/ (it1 = Timeline.mkItem X s true /\ Tween.isActive X = false)).
    { destruct f; cbn [negb andb] in E.
      - destruct (Tween.isActive X) eqn:Ea.
        + left. exists X, w.
          destruct (Tween.setProgress 1 X w) as [Y wy]. injection E as <- <-.
          repeat split; assumption.
        + right. injection E as <- <-. split; reflexivity.
      - left.
        pose proof (start_spec X w) as (Hh & _ & Hbs & _).
        pose proof (start_driven X w (proj1 (driven_inv X Hdr))) as Hds.
        destruct (Tween.start X w) as [Xs ws]. cbn [fst snd] in *.
        exists Xs, ws.
        destruct (Tween.setProgress 1 Xs ws) as [Y wy]. injection E as <- <-.
        repeat split; try assumption; apply Hbs. }
    destruct G as [(Xs & ws & Hds & Hbs & Hhs & Esp & Eit) | [-> Ea]].
    - rewrite Eit. cbn [Timeline.tween Timeline._hasStartedInternal negb andb].
      destruct (Tween.isActive (Timeline.tween it1)) eqn:Ea.
      + assert (Hv' : written_apart Xs (heap w1) (heap v)).
        { apply (written_apart_binding X); [apply Hbs|apply Hbs|exact Hv]. }
        destruct (setProgress_twice 1 Xs (Timeline.tween it1) ws w1 v Hds Esp Hv')
          as (v' & Ev & Hh).
        rewrite Ev. exists v'. split; [reflexivity|exact Hh].
      + exists v. split; reflexivity.
    - cbn [Timeline.tween Timeline._hasStartedInternal negb andb]. rewrite Ea.
      exists v. split; reflexivity. }
  (* before the window *)
  destruct f.
  - destruct (Tween.resetToStart X w) as [Y wy]. injection E as <- <-.
    cbn [Timeline._hasStartedInternal]. exists v. split; reflexivity.
  - injection E as <- <-. cbn [Timeline._hasStartedInternal].
    exists v. split; reflexivity.
Qed.

(** ** A whole timeline under [seek] *)


Lemma for_each_seek_again_quiet (now : Q) (items : list Timeline.item) (w v : World) :
  quiet v (snd (Timeline.for_each (Timeline.seek_item now)
                  (fst (Timeline.for_each (Timeline.seek_item now) items w)) v)).
Proof.
  revert w v. induction items as [|it items IH]; intros w v; cbn [Timeline.for_each].
  - apply quiet_refl.
  - pose proof (seek_item_again_quiet now it w v) as Hq.
    destruct (Timeline.seek_item now it w) as [it1 wa]. cbn [fst snd] in *.
    specialize (IH wa).
    destruct (Timeline.for_each (Timeline.seek_item now) items wa) as [rest w1].
    cbn [fst snd Timeline.for_each] in *.
    destruct (Timeline.seek_item now it1 v) as [it2 va]. cbn [fst snd] in *.
    specialize (IH va).
    destruct (Timeline.for_each (Timeline.seek_item now) rest va) as [rest2 v2].
    cbn [fst snd] in *. eapply quiet_trans; eassumption.
Qed.

(** *** Writes stay at the binding *)

Lemma write_apart (X Z : Tween.t) (val : value) (w : World) :
  overlap X Z = false ->
  written_apart X (heap w) (heap (write (Tween.target Z) (Tween.propertyPath Z) val w)).
Proof. intros Ho. apply written_one. exact Ho. Qed.

Lemma write_final_apart (X Z : Tween.t) (w : World) :
  overlap X Z = false -> written_apart X (heap w) (heap (Tween.write_final Z w)).
Proof.
  intros Ho. unfold Tween.write_final.
  destruct (Tween.rawEndValue Z); try (apply write_apart; exact Ho).
  destruct (typeof_object _ && negb _); apply write_apart; exact Ho.
Qed.

Lemma overlap_binding (X Z Z' : Tween.t) :
  same_binding Z Z' -> overlap X Z' = overlap X Z.
Proof. intros (Ht & Hp & _). unfold overlap. rewrite Ht, Hp. reflexivity. Qed.

(** [update] assigns through the binding of its tween only. *)
Lemma update_apart (X : Tween.t) (deltaTime : Q) (Z : Tween.t) (w : World) :
  overlap X Z = false ->
  written_apart X (heap w) (heap (snd (Tween.update deltaTime Z w))).
Proof.
  intros Ho. unfold Tween.update.
  destruct (negb (Tween.isActive Z)); [apply written_none|].
  set (Ze := if negb (Tween._managedByTimeline Z)
             then Tween.with_elapsedTime (Tween.elapsedTime Z + deltaTime) Z else Z).
  assert (Hoe : overlap X Ze = false).
  { subst Ze. destruct (negb (Tween._managedByTimeline Z)); exact Ho. }
  destruct (Tween.interpolate Ze _ _) as [cv|]; cbn [fst snd]; [|apply written_none].
  set (w1 := emit_if (Tween.onUpdate Ze) _ _).
  assert (Hw1 : written_apart X (heap w) (heap w1)).
  { subst w1. rewrite heap_emit_if.
    destruct (negb (Tween.is_dummy Ze)); [apply write_apart; exact Hoe|apply written_none]. }
  destruct (Qle_bool 1 _); cbn [fst snd]; [|exact Hw1].
  set (w2 := if negb (Tween.is_dummy (Tween.with_isActive false Ze))
             then Tween.write_final (Tween.with_isActive false Ze) w1 else w1).
  assert (Hw2 : written_apart X (heap w) (heap w2)).
  { subst w2. destruct (negb (Tween.is_dummy _)); [|exact Hw1].
    eapply written_apart_trans; [exact Hw1|]. apply write_final_apart. exact Hoe. }
  destruct (Tween.sceneRef _);
    [destruct (negb (Tween._managedByTimeline (Tween.with_isActive false Ze)))|];
    cbn [heap emit]; rewrite ?heap_emit_if; exact Hw2.
Qed.

Lemma setProgress_apart (X : Tween.t) (p : Q) (Z : Tween.t) (w : World) :
  overlap X Z = false ->
  written_apart X (heap w) (heap (snd (Tween.setProgress p Z w))).
Proof.
  intros Ho. unfold Tween.setProgress.
  set (inside := Qltb 0 p && Qltb p 1).
  set (S1 := if negb (Tween.isActive Z) && inside && is_null (Tween.startValue Z)
             then Tween.start Z w else (Z, w)).
  assert (H1 : same_binding Z (fst S1) /\ heap (snd S1) = heap w).
  { subst S1. destruct (negb _ && _ && _); [|split; [apply same_binding_refl|reflexivity]].
    destruct (start_spec Z w) as (Hh & _ & Hb & _). split; assumption. }
  destruct S1 as [X1 wA]. cbn [fst snd] in H1. destruct H1 as [Hb1 HhA].
  set (X2 := if negb (Tween.isActive X1) && inside then Tween.with_isActive true X1 else X1).
  assert (Hb2 : same_binding Z X2).
  { subst X2. destruct (negb (Tween.isActive X1) && inside); [|exact Hb1].
    eapply same_binding_trans; [exact Hb1|]. repeat split. }
  set (X3 := Tween.with_elapsedTime (Qmin (Qmax 0 p) 1 * Tween.duration X2) X2).
  assert (Hb3 : same_binding Z X3).
  { eapply same_binding_trans; [exact Hb2|]. repeat split. }
  rewrite <- HhA. apply update_apart.
  rewrite (overlap_binding X Z X3 Hb3). exact Ho.
Qed.

Lemma resetToStart_apart (X Z : Tween.t) (w : World) :
  overlap X Z = false ->
  written_apart X (heap w) (heap (snd (Tween.resetToStart Z w))).
Proof.
  intros Ho. unfold Tween.resetToStart.
  destruct (negb _ && negb _ && negb _); cbn [snd];
    [apply write_apart; exact Ho|apply written_none].
Qed.

(** An entry under [seek] assigns through the binding of its tween only. *)
Lemma seek_item_apart (X : Tween.t) (now : Q) (it : Timeline.item) (w : World) :
  overlap X (Timeline.tween it) = false ->
  written_apart X (heap w) (heap (snd (Timeline.seek_item now it w))).
Proof.
  intros Ho. unfold Timeline.seek_item. destruct it as [Z s f].
  cbn [Timeline.tween Timeline.startTime Timeline._hasStartedInternal] in *.
  assert (Hstart : forall p : Tween.t -> Q,
             written_apart X (heap w)
               (heap (snd (Tween.setProgress (p (fst (Tween.start Z w)))
                             (fst (Tween.start Z w)) (snd (Tween.start Z w)))))).
  { intros p. destruct (start_spec Z w) as (Hh & _ & Hb & _).
    rewrite <- Hh. apply setProgress_apart.
    rewrite (overlap_binding X Z _ Hb). exact Ho. }
  destruct (Qle_bool s now && Qltb now _).
  { destruct f; cbn [negb].
    - pose proof (setProgress_apart X ((now - s) / Tween.duration Z) Z w Ho) as H.
      destruct (Tween.setProgress _ Z w) as [Y w1]. exact H.
    - specialize (Hstart (fun Zs => (now - s) / Tween.duration Zs)). cbv beta in Hstart.
      destruct (Tween.start Z w) as [Zs ws]. cbn [fst snd] in Hstart.
      destruct (Tween.setProgress _ Zs ws) as [Y w1]. exact Hstart. }
  destruct (Qle_bool _ now).
  { destruct (f && Tween.isActive Z).
    - pose proof (setProgress_apart X 1 Z w Ho) as H.
      destruct (Tween.setProgress 1 Z w) as [Y w1]. exact H.
    - destruct (negb f); [|apply written_none].
      specialize (Hstart (fun _ => 1)). cbv beta in Hstart.
      destruct (Tween.start Z w) as [Zs ws]. cbn [fst snd] in Hstart.
      destruct (Tween.setProgress 1 Zs ws) as [Y w1]. exact Hstart. }
  destruct f; [|apply written_none].
  pose proof (resetToStart_apart X Z w Ho) as H.
  destruct (Tween.resetToStart Z w) as [Y w1]. exact H.
Qed.

Lemma for_each_seek_apart (X : Tween.t) (now : Q) (items : list Timeline.item)
    (w : World) :
  Forall (fun it => overlap X (Timeline.tween it) = false) items ->
  written_apart X (heap w)
    (heap (snd (Timeline.for_each (Timeline.seek_item now) items w))).
Proof.
  revert w. induction items as [|it items IH]; intros w Hall; cbn [Timeline.for_each];
    [apply written_none|].
  apply Forall_cons in Hall as [Hit Hall].
  pose proof (seek_item_apart X now it w Hit) as H1.
  destruct (Timeline.seek_item now it w) as [it1 wa]. cbn [snd] in H1.
  specialize (IH wa Hall).
  destruct (Timeline.for_each (Timeline.seek_item now) items wa) as [rest w1].
  cbn [snd] in *. eapply written_apart_trans; eassumption.
Qed.

Lemma for_each_seek_twice (now : Q) (items : list Timeline.item) (w v : World) :
  separate items ->
  Forall (fun it => driven (Timeline.tween it) = true) items ->
  heap v = heap (snd (Timeline.for_each (Timeline.seek_item now) items w)) ->
  exists v',
    Timeline.for_each (Timeline.seek_item now)
      (fst (Timeline.for_each (Timeline.seek_item now) items w)) v
    = (fst (Timeline.for_each (Timeline.seek_item now) items w), v')
    /\ heap v' = heap v.
Proof.
  revert w v. induction items as [|it items IH]; intros w v Hsep Hdr Hv.
  - exists v. split; reflexivity.
  - inversion Hsep as [|a l Hhead Htail]; subst.
    apply Forall_cons in Hdr as [Hd Hdr].
    cbn [Timeline.for_each] in Hv |- *.
    destruct (Timeline.seek_item now it w) as [it1 wa] eqn:E1.
    pose proof (for_each_seek_apart (Timeline.tween it) now items wa Hhead) as Hrest.
    specialize (IH wa).
    destruct (Timeline.for_each (Timeline.seek_item now) items wa) as [rest w1].
    cbn [fst snd] in *.
    rewrite <- Hv in Hrest.
    destruct (seek_item_twice now it it1 w wa v Hd E1 Hrest) as (va & Ea & Hha).
    cbn [Timeline.for_each]. rewrite Ea.
    destruct (IH va Htail Hdr) as (v' & Er & Hh).
    { rewrite Hha. exact Hv. }
    rewrite Er. exists v'. split; [reflexivity|]. rewrite Hh. exact Hha.
Qed.

(** Two passes of the loop of [seek] at one play-head, over entries that
    each hold a Tween object of their own. *)
Lemma seek_twice_by_value (now : Q) (items : list Timeline.item) (w : World) :
  let '(items1, w1) := Timeline.for_each (Timeline.seek_item now) items w in
  let '(items2, w2) := Timeline.for_each (Timeline.seek_item now) items1 w1 in
  quiet w1 w2
  /\ (separate items ->
      Forall (fun it => driven (Timeline.tween it) = true) items ->
      items2 = items1 /\ heap w2 = heap w1).
Proof.
  pose proof (for_each_seek_again_quiet now items w) as Hq.
  pose proof (for_each_seek_twice now items w) as Hi.
  destruct (Timeline.for_each (Timeline.seek_item now) items w) as [items1 w1].
  cbn [fst snd] in *. specialize (Hq w1). specialize (Hi w1).
  destruct (Timeline.for_each (Timeline.seek_item now) items1 w1) as [items2 w2].
  cbn [snd] in Hq. split; [exact Hq|].
  intros Hsep Hdr.
  destruct (Hi Hsep Hdr eq_refl) as (v' & Ev & Hh).
  injection Ev as -> ->. split; [reflexivity|exact Hh].
Qed.

(** ** Entries that refer to Tween objects *)

Lemma entry_put_other (s : TimelineRef.tweens) (r : nat) (tw : Tween.t)
    (items : list TimelineRef.item) :
  r ∉ map TimelineRef.tween items ->
  map (TimelineRef.entry (TimelineRef.put r tw s)) items
  = map (TimelineRef.entry s) items.
Proof.
  induction items as [|it items IH]; intros Hr; [reflexivity|].
  cbn [map] in Hr |- *. apply not_elem_of_cons in Hr as [Hne Hr].
  rewrite (IH Hr). f_equal. unfold TimelineRef.entry, TimelineRef.put.
  destruct (Nat.eqb (TimelineRef.tween it) r) eqn:E; [|reflexivity].
  apply Nat.eqb_eq in E. congruence.
Qed.

(** When no Tween object is referred to twice, the loop of [seek] is the
    loop of [Timeline.seek] on the entries with the states of their Tween
    objects; the references stay, and no other Tween object changes. *)
Lemma for_each_by_value (now : Q) (items : list TimelineRef.item)
    (s : TimelineRef.tweens) (w : World) :
  NoDup (map TimelineRef.tween items) ->
  let '(items', s', w') :=
    TimelineRef.for_each (TimelineRef.seek_item now) items s w in
  Timeline.for_each (Timeline.seek_item now) (map (TimelineRef.entry s) items) w
  = (map (TimelineRef.entry s') items', w')
  /\ map TimelineRef.tween items' = map TimelineRef.tween items
  /\ (forall r, r ∉ map TimelineRef.tween items -> s' r = s r).
Proof.
  revert s w. induction items as [|it items IH]; intros s w Hnd.
  - cbn. repeat split.
  - cbn [map] in Hnd. apply NoDup_cons in Hnd as [Hnotin Hnd].
    cbn [TimelineRef.for_each map Timeline.for_each].
    unfold TimelineRef.seek_item at 1.
    destruct (Timeline.seek_item now (TimelineRef.entry s it) w) as [it1 wa].
    set (sa := TimelineRef.put (TimelineRef.tween it) (Timeline.tween it1) s).
    specialize (IH sa wa Hnd).
    destruct (TimelineRef.for_each (TimelineRef.seek_item now) items sa wa)
      as [[items' s'] w'].
    destruct IH as (Hrun & Hrefs & Hframe).
    subst sa. rewrite entry_put_other in Hrun by exact Hnotin.
    rewrite Hrun. cbn [map TimelineRef.tween]. split; [|split].
    + f_equal. f_equal. unfold TimelineRef.entry. cbn [TimelineRef.tween
        TimelineRef.startTime TimelineRef._hasStartedInternal].
      rewrite (Hframe _ Hnotin). unfold TimelineRef.put. rewrite Nat.eqb_refl.
      destruct it1. reflexivity.
    + rewrite Hrefs. reflexivity.
    + intros r Hr. apply not_elem_of_cons in Hr as [Hne Hr].
      rewrite (Hframe r Hr). unfold TimelineRef.put.
      destruct (Nat.eqb r (TimelineRef.tween it)) eqn:E; [|reflexivity].
      apply Nat.eqb_eq in E. congruence.
Qed.

Lemma entries_inj (s s' : TimelineRef.tweens) (l l' : list TimelineRef.item) :
  map TimelineRef.tween l' = map TimelineRef.tween l ->
  map (TimelineRef.entry s') l' = map (TimelineRef.entry s) l ->
  l' = l /\ forall r, r ∈ map TimelineRef.tween l -> s' r = s r.
Proof.
  revert l'. induction l as [|it l IH]; intros [|it' l'] Hr He; try discriminate.
  - split; [reflexivity|]. intros r Hin. cbn in Hin. inversion Hin.
  - cbn [map] in Hr, He. injection Hr as Hr0 Hr. injection He as Ht Hs Hf He.
    destruct (IH l' Hr He) as [-> Hl]. split.
    + destruct it, it'. cbn in *. congruence.
    + intros r Hin. cbn [map] in Hin. apply elem_of_cons in Hin as [->|Hin].
      * rewrite <- Hr0 at 1. exact Ht.
      * apply Hl. exact Hin.
Qed.

(** C5, as the code has it: of two successive [seek(t)] calls on a timeline
    whose entries refer to Tween objects that are all different, the second
    invokes no tween completion callback; and when no two entries have
    bindings that overlap and the tweens are driven by the timeline, it
    leaves the timeline, every Tween object and every tween target as the
    first call left them. *)
Theorem seek_twice (tl : TimelineRef.t) (s : TimelineRef.tweens) (w : World) (t : Q) :
  NoDup (map TimelineRef.tween (TimelineRef.tweensWithMeta tl)) ->
  let '(tl1, s1, w1) := TimelineRef.seek t tl s w in
  let '(tl2, s2, w2) := TimelineRef.seek t tl1 s1 w1 in
  quiet w1 w2
  /\ (separate (map (TimelineRef.entry s) (TimelineRef.tweensWithMeta tl)) ->
      Forall (fun it => driven (s (TimelineRef.tween it)) = true)
             (TimelineRef.tweensWithMeta tl) ->
      tl2 = tl1 /\ (forall r, s2 r = s1 r) /\ heap w2 = heap w1).
Proof.
  intros Hnd. unfold TimelineRef.seek.
  set (now := Qmax 0 (Qmin t (TimelineRef.duration tl))).
  pose proof (for_each_by_value now (TimelineRef.tweensWithMeta tl) s w Hnd) as H1.
  pose proof (seek_twice_by_value now
                (map (TimelineRef.entry s) (TimelineRef.tweensWithMeta tl)) w) as Hv.
  destruct (TimelineRef.for_each (TimelineRef.seek_item now)
              (TimelineRef.tweensWithMeta tl) s w) as [[items1 s1] w1].
  destruct H1 as (Hrun1 & Hrefs1 & _). rewrite Hrun1 in Hv.
  cbn [TimelineRef.duration TimelineRef.tweensWithMeta TimelineRef.sceneRef
       TimelineRef.isPlaying TimelineRef.timeScale TimelineRef.loop
       TimelineRef.onCompleteCallback].
  fold now.
  assert (Hnd1 : NoDup (map TimelineRef.tween items1)) by (rewrite Hrefs1; exact Hnd).
  pose proof (for_each_by_value now items1 s1 w1 Hnd1) as H2.
  destruct (TimelineRef.for_each (TimelineRef.seek_item now) items1 s1 w1)
    as [[items2 s2] w2].
  destruct H2 as (Hrun2 & Hrefs2 & Hframe2). rewrite Hrun2 in Hv.
  destruct Hv as [Hq Hsame]. split; [exact Hq|].
  intros Hsep Hdr.
  destruct Hsame as [Hitems Hheap]; [exact Hsep| |].
  { apply Forall_map. exact Hdr. }
  destruct (entries_inj s1 s2 items1 items2 Hrefs2 Hitems) as [-> Hstore].
  split; [reflexivity|]. split; [|exact Hheap].
  intros r. destruct (decide (r ∈ map TimelineRef.tween items1)) as [Hin|Hout].
  - apply Hstore. exact Hin.
  - apply Hframe2. exact Hout.
Qed.

(** Two entries on the same property, [x] to 20 over [0, 2) evaluated
    before [x] to 10 over [0, 1): the first [seek(1.5)] ends with the
    catch-up of the second entry and leaves [x] at 10; the second
    [seek(1.5)] only re-evaluates the first entry and leaves [x] at 15. *)
Lemma seek_twice_differs_on_shared_property :
  let '(tl1, w1) := Timeline.seek (3 # 2) timeline_ba world_x0 in
  let '(tl2, w2) := Timeline.seek (3 # 2) tl1 w1 in
  heap_get (heap w1) 0 ["x"] = VNum 10
  /\ (exists q, heap_get (heap w2) 0 ["x"] = VNum q /\ q == 15)
  /\ heap w2 <> heap w1.
Proof.
  vm_compute. split; [reflexivity|]. split.
  - eexists. split; reflexivity.
  - intros H. discriminate H.
Qed.

(** One Tween object under two entries, over [0, 1) and over [2, 3): the
    first [seek(2.5)] completes it for the first entry (callback 1) and
    starts it again for the second; the second [seek(2.5)] finds it active
    at the first entry, past its window, completes it and invokes
    callback 1 again. *)
Lemma seek_twice_fires_again_on_shared_tween :
  let '(tl, s) := timeline_shared in
  let '(tl1, s1, w1) := TimelineRef.seek (5 # 2) tl s world_x0 in
  let '(tl2, s2, w2) := TimelineRef.seek (5 # 2) tl1 s1 w1 in
  map TimelineRef.tween (TimelineRef.tweensWithMeta tl) = [0; 0]%nat
  /\ filter is_complete (trace w1) = [EvComplete 1]
  /\ filter is_complete (trace w2) = [EvComplete 1; EvComplete 1].
Proof. vm_compute. repeat split. Qed.

(** Two Tween objects on two properties of one target, [x] over [0, 1) and
    [y] over [0, 2): [seek(0.5)] twice is [seek(0.5)] once. *)
Lemma seek_twice_witness :
  let '(tl, s) := timeline_xy in
  let '(tl1, s1, w1) := TimelineRef.seek (1 # 2) tl s world_xy in
  let '(tl2, s2, w2) := TimelineRef.seek (1 # 2) tl1 s1 w1 in
  map (fun it => Tween.target (s (TimelineRef.tween it))) (TimelineRef.tweensWithMeta tl)
  = [0; 0]%nat
  /\ quiet w1 w2 /\ tl2 = tl1 /\ (forall r, s2 r = s1 r) /\ heap w2 = heap w1.
Proof.
  destruct timeline_xy as [tl s] eqn:E.
  assert (Etl : tl = fst timeline_xy) by (rewrite E; reflexivity).
  assert (Es : s = snd timeline_xy) by (rewrite E; reflexivity).
  assert (Hnd : NoDup (map TimelineRef.tween (TimelineRef.tweensWithMeta tl))).
  { rewrite Etl. vm_compute.
    apply NoDup_cons. split; [intros H; inversion H as [|? ? ? H']; inversion H'|].
    apply NoDup_cons. split; [intros H; inversion H|apply NoDup_nil; exact I]. }
  assert (Hsep : separate (map (TimelineRef.entry s) (TimelineRef.tweensWithMeta tl))).
  { rewrite Etl, Es. vm_compute. repeat constructor. }
  assert (Hdr : Forall (fun it => driven (s (TimelineRef.tween it)) = true)
                       (TimelineRef.tweensWithMeta tl)).
  { rewrite Etl, Es. vm_compute. repeat constructor. }
  pose proof (seek_twice tl s world_xy (1 # 2) Hnd) as H.
  destruct (TimelineRef.seek (1 # 2) tl s world_xy) as [[tl1 s1] w1].
  destruct (TimelineRef.seek (1 # 2) tl1 s1 w1) as [[tl2 s2] w2].
  destruct H as [Hq Hsame]. destruct (Hsame Hsep Hdr) as (Htl & Hs & Hh).
  split; [rewrite Etl, Es; reflexivity|].
  split; [exact Hq|]. split; [exact Htl|]. split; [exact Hs|exact Hh].
Defined.

(** ** Driven tweens *)

Lemma interpolate_without_start (Z : Tween.t) (eased progress : Q) :
  is_null (Tween.startValue Z) = true ->
  Tween.both_colors (Tween.rawStartValue Z) (Tween.rawEndValue Z) = false ->
  Tween.is_dummy Z = false ->
  Tween.interpolate Z eased progress = None.
Proof.
  intros Hn Hc Hd. unfold Tween.interpolate. rewrite Hc, Hd.
  destruct (Tween.startValue Z); try discriminate. reflexivity.
Qed.

Lemma start_failed_colors (X : Tween.t) (w : World) :
  Tween.isActive (fst (Tween.start X w)) = false ->
  Tween.both_colors (Tween.rawStartValue (fst (Tween.start X w)))
                    (Tween.rawEndValue (fst (Tween.start X w))) = false.
Proof.
  rewrite start_eq. cbv zeta.
  destruct (start_outcome X (bound (heap w) X)) as [sv|] eqn:Eo; cbn [fst].
  { intros H. discriminate H. }
  intros _.
  change (Tween.both_colors (bound (heap w) X) (Tween.endValue X) = false).
  unfold start_outcome in Eo.
  destruct (is_undefined (bound (heap w) X)) eqn:Eu.
  - destruct (bound (heap w) X); try discriminate. reflexivity.
  - cbn [andb] in Eo. unfold Tween.capture in Eo.
    destruct (Tween.both_colors _ _); [discriminate|reflexivity].
Qed.

Lemma update_stays_active (Z Y : Tween.t) (w w1 : World) :
  Tween._managedByTimeline Z = true ->
  Tween.update 0 Z w = (Y, w1) ->
  Tween.isActive Y = true ->
  Y = Z
  /\ Tween.interpolate Z
       (Tween.easingFn Z (Qmin (Tween.elapsedTime Z / Tween.duration Z) 1))
       (Qmin (Tween.elapsedTime Z / Tween.duration Z) 1) <> None.
Proof.
  intros Hm E Ha. rewrite (update_managed Z w Hm) in E.
  destruct (negb (Tween.isActive Z)) eqn:Ez.
  { injection E as <- <-. rewrite Ha in Ez. discriminate. }
  cbv zeta in E.
  destruct (Tween.interpolate Z _ _) as [cv|].
  2:{ injection E as <- <-. discriminate. }
  destruct (Qle_bool 1 _); injection E as <- _; [discriminate|].
  split; [reflexivity|discriminate].
Qed.

(** [setProgress] keeps a driven tween driven. *)
Lemma setProgress_driven (p : Q) (X : Tween.t) (w : World) :
  driven X = true -> driven (fst (Tween.setProgress p X w)) = true.
Proof.
  intros Hdr. destruct (driven_inv X Hdr) as [Hm Hdum].
  destruct (setProgress_touches p X w) as [Hb _].
  pose proof (same_binding_dummy _ _ Hb) as Hdy.
  unfold driven.
  destruct Hb as (_ & _ & _ & _ & _ & _ & _ & _ & ->). rewrite Hm, Hdy. cbn [andb].
  destruct (Tween.isActive (fst (Tween.setProgress p X w))) eqn:Ea; [|reflexivity].
  cbn [negb orb].
  destruct (Tween.is_dummy X) eqn:Ed; [apply orb_true_r|]. rewrite orb_false_r.
  apply negb_true_iff.
  destruct (is_null (Tween.startValue (fst (Tween.setProgress p X w)))) eqn:En;
    [|reflexivity].
  exfalso. revert Ea En. unfold Tween.setProgress.
  set (inside := Qltb 0 p && Qltb p 1).
  set (pre := negb (Tween.isActive X) && inside && is_null (Tween.startValue X)).
  destruct (if pre then Tween.start X w else (X, w)) as [X1 wA] eqn:E1.
  assert (H1 : same_binding X X1
               /\ (Tween.isActive X1 = true -> is_null (Tween.startValue X1) = false)
               /\ (Tween.isActive X1 = false -> inside = true ->
                   is_null (Tween.startValue X1) = true ->
                   Tween.both_colors (Tween.rawStartValue X1) (Tween.rawEndValue X1)
                   = false)).
  { destruct pre eqn:Epre.
    - pose proof (start_spec X w) as (_ & _ & Hb & Hn).
      pose proof (start_failed_colors X w) as Hc.
      rewrite E1 in Hb, Hn, Hc. cbn [fst] in *.
      split; [exact Hb|]. split; [exact Hn|]. intros Hi _ _. exact (Hc Hi).
    - injection E1 as <- <-. split; [apply same_binding_refl|]. split.
      + intros Ha. destruct (is_null (Tween.startValue X)) eqn:Enx; [|reflexivity].
        discriminate (Hdum Ha eq_refl).
      + intros Hi Hin Hnull. subst pre. rewrite Hi, Hin, Hnull in Epre. discriminate. }
  destruct H1 as (Hb1 & Hact & Hcol).
  set (X2 := if negb (Tween.isActive X1) && inside then Tween.with_isActive true X1 else X1).
  set (X3 := Tween.with_elapsedTime (Qmin (Qmax 0 p) 1 * Tween.duration X2) X2).
  assert (Hm3 : Tween._managedByTimeline X3 = true).
  { change (Tween._managedByTimeline X2 = true). subst X2.
    destruct (negb (Tween.isActive X1) && inside);
      change (Tween._managedByTimeline X1 = true);
      destruct Hb1 as (_ & _ & _ & _ & _ & _ & _ & _ & ->); exact Hm. }
  destruct (Tween.update 0 X3 wA) as [Y w1] eqn:Eu. cbn [fst].
  intros Ea En.
  destruct (update_stays_active X3 Y wA w1 Hm3 Eu Ea) as [-> Hsome].
  apply Hsome. apply interpolate_without_start.
  - exact En.
  - change (Tween.startValue X2) with (Tween.startValue X3) in *.
    assert (Hsv : Tween.startValue X3 = Tween.startValue X1).
    { change (Tween.startValue X2 = Tween.startValue X1). subst X2.
      destruct (negb (Tween.isActive X1) && inside); reflexivity. }
    rewrite Hsv in En.
    assert (Hraw : Tween.both_colors (Tween.rawStartValue X3) (Tween.rawEndValue X3)
                   = Tween.both_colors (Tween.rawStartValue X1) (Tween.rawEndValue X1)).
    { change (Tween.both_colors (Tween.rawStartValue X2) (Tween.rawEndValue X2)
              = Tween.both_colors (Tween.rawStartValue X1) (Tween.rawEndValue X1)).
      subst X2. destruct (negb (Tween.isActive X1) && inside); reflexivity. }
    rewrite Hraw.
    destruct (Tween.isActive X1) eqn:Ea1.
    + rewrite (Hact eq_refl) in En. discriminate.
    + apply Hcol; [reflexivity| |exact En].
      destruct inside; [reflexivity|].
      assert (Ha3 : Tween.isActive X3 = Tween.isActive X1).
      { change (Tween.isActive X2 = Tween.isActive X1). subst X2.
        rewrite andb_false_r. reflexivity. }
      rewrite Ha3, Ea1 in Ea. discriminate.
  - change (Tween.is_dummy X2 = false). subst X2.
    destruct (negb (Tween.isActive X1) && inside);
      change (Tween.is_dummy X1 = false);
      rewrite (same_binding_dummy _ _ Hb1); exact Ed.
Qed.

Lemma seek_item_driven (now : Q) (it : Timeline.item) (w : World) :
  driven (Timeline.tween it) = true ->
  driven (Timeline.tween (fst (Timeline.seek_item now it w))) = true.
Proof.
  intros Hdr. pose proof (proj1 (driven_inv _ Hdr)) as Hm.
  unfold Timeline.seek_item. destruct it as [X s f].
  cbn [Timeline.tween Timeline.startTime Timeline._hasStartedInternal] in *.
  destruct (Qle_bool s now && Qltb now _).
  { destruct f; cbn [negb].
    - pose proof (setProgress_driven ((now - s) / Tween.duration X) X w Hdr) as H.
      destruct (Tween.setProgress _ X w) as [Y w1]. exact H.
    - pose proof (start_driven X w Hm) as Hs.
      destruct (Tween.start X w) as [Xs ws]. cbn [fst] in Hs.
      pose proof (setProgress_driven ((now - s) / Tween.duration Xs) Xs ws Hs) as H.
      destruct (Tween.setProgress _ Xs ws) as [Y w1]. exact H. }
  destruct (Qle_bool _ now).
  { destruct (f && Tween.isActive X).
    - pose proof (setProgress_driven 1 X w Hdr) as H.
      destruct (Tween.setProgress 1 X w) as [Y w1]. exact H.
    - destruct (negb f); [|exact Hdr].
      pose proof (start_driven X w Hm) as Hs.
      destruct (Tween.start X w) as [Xs ws]. cbn [fst] in Hs.
      pose proof (setProgress_driven 1 Xs ws Hs) as H.
      destruct (Tween.setProgress 1 Xs ws) as [Y w1]. exact H. }
  destruct f; [|exact Hdr].
  unfold Tween.resetToStart.
  destruct (negb _ && negb _ && negb _); cbn [Timeline.tween fst];
    unfold driven; cbn; rewrite Hm; reflexivity.
Qed.

(** The tweens of a timeline built with [add] from inactive tweens are
    driven, and [seek] keeps them so. *)
Lemma add_driven (tw : Tween.t) (s : Q) (tl : Timeline.t) :
  Tween.isActive tw = false ->
  Forall (fun it => driven (Timeline.tween it) = true) (Timeline.tweensWithMeta tl) ->
  Forall (fun it => driven (Timeline.tween it) = true)
         (Timeline.tweensWithMeta (Timeline.add tw s tl)).
Proof.
  intros Ha Hall. rewrite add_items. apply Forall_app. split; [exact Hall|].
  apply Forall_cons. split; [|apply Forall_nil; exact I].
  unfold driven. cbn. rewrite Ha. reflexivity.
Qed.

Lemma seek_driven (t : Q) (tl : Timeline.t) (w : World) :
  Forall (fun it => driven (Timeline.tween it) = true) (Timeline.tweensWithMeta tl) ->
  Forall (fun it => driven (Timeline.tween it) = true)
         (Timeline.tweensWithMeta (fst (Timeline.seek t tl w))).
Proof.
  unfold Timeline.seek.
  cbn [Timeline.duration Timeline.tweensWithMeta Timeline.currentTime
       Timeline.with_currentTime].
  set (now := Qmax 0 (Qmin t (Timeline.duration tl))).
  generalize (Timeline.tweensWithMeta tl) as items. intros items. revert w.
  induction items as [|it items IH]; intros w Hall; cbn [Timeline.for_each].
  - apply Forall_nil. exact I.
  - apply Forall_cons in Hall as [Hd Hall].
    pose proof (seek_item_driven now it w Hd) as H1.
    destruct (Timeline.seek_item now it w) as [it1 wa]. cbn [fst] in H1.
    specialize (IH wa Hall).
    destruct (Timeline.for_each (Timeline.seek_item now) items wa) as [rest w1].
    cbn [fst Timeline.tweensWithMeta Timeline.with_items] in *.
    apply Forall_cons. split; assumption.
Qed.

(** ** The nested call of [Timeline.update] *)

Lemma Qrem_bound (c d : Q) : 0 < d -> d <= c -> 0 <= Qrem c d /\ Qrem c d < d.
Proof.
  intros Hd Hc. unfold Qrem, Qtrunc.
  assert (Hq : 1 <= c / d).
  { apply Qle_shift_div_l; [exact Hd|]. rewrite Qmult_1_l. exact Hc. }
  assert (H0 : Qle_bool 0 (c / d) = true).
  { apply Qle_bool_iff. eapply Qle_trans; [|exact Hq]. discriminate. }
  rewrite H0.
  pose proof (Qfloor_le (c / d)) as Hlo.
  pose proof (Qlt_floor (c / d)) as Hhi.
  assert (Hne : ~ d == 0) by (intros E; rewrite E in Hd; discriminate).
  assert (Ec : c == d * (c / d)) by (rewrite Qmult_div_r; [reflexivity|exact Hne]).
  set (q := c / d) in *. set (f := inject_Z (Qfloor q)) in *.
  assert (Hhi' : q < f + 1).
  { subst f. rewrite inject_Z_plus in Hhi. exact Hhi. }
  split.
  - rewrite Ec at 1. nra.
  - rewrite Ec at 1. nra.
Qed.

Lemma update_fuel_no_wrap (n : nat) (deltaTime : Q) (tl : Timeline.t) (w : World) :
  Qle_bool (Timeline.duration tl)
           (Timeline.currentTime tl + deltaTime * Timeline.timeScale tl) = false ->
  Timeline.update_fuel n deltaTime tl w = Timeline.update_fuel 0 deltaTime tl w.
Proof.
  intros Hlt. destruct n; [reflexivity|]. cbn [Timeline.update_fuel].
  destruct (negb (Timeline.isPlaying tl)); [reflexivity|].
  cbn [Timeline.duration Timeline.currentTime Timeline.with_currentTime
       Timeline.tweensWithMeta Timeline.timeScale].
  destruct (Timeline.for_each _ _ w) as [items w'].
  cbn [Timeline.duration Timeline.currentTime Timeline.with_items
       Timeline.with_currentTime Timeline.timeScale].
  rewrite Hlt. reflexivity.
Qed.

(** One nested call is enough: on a timeline of positive duration, the
    call after a loop wrap finds the play-head inside [[0, duration)] and
    does not wrap again, so more fuel changes nothing. *)
Lemma update_fuel_enough (n : nat) (deltaTime : Q) (tl : Timeline.t) (w : World) :
  0 < Timeline.duration tl ->
  Timeline.update_fuel (S n) deltaTime tl w = Timeline.update deltaTime tl w.
Proof.
  intros Hd. unfold Timeline.update. cbn [Timeline.update_fuel].
  destruct (negb (Timeline.isPlaying tl)); [reflexivity|].
  cbn [Timeline.duration Timeline.currentTime Timeline.with_currentTime
       Timeline.tweensWithMeta Timeline.timeScale].
  destruct (Timeline.for_each _ _ w) as [items w'].
  cbn [Timeline.duration Timeline.currentTime Timeline.with_items Timeline.loop
       Timeline.with_currentTime Timeline.timeScale].
  destruct (Qle_bool (Timeline.duration tl) _) eqn:Ec; [|reflexivity].
  destruct (Timeline.loop tl); [|reflexivity].
  rewrite resetAllTweensState_spec.
  apply update_fuel_no_wrap.
  cbn [Timeline.duration Timeline.currentTime Timeline.with_currentTime
       Timeline.with_items Timeline.timeScale].
  apply Qle_bool_iff in Ec.
  destruct (Qrem_bound _ _ Hd Ec) as [_ Hlt].
  destruct (Qle_bool (Timeline.duration tl) _) eqn:E; [|reflexivity].
  apply Qle_bool_iff in E. exfalso. lra.
Qed.

(** * Further properties of the engine *)

(** ** Property paths *)

Lemma string_app_nil_r (s : string) : s ++ "" = s.
Proof.
  induction s as [|c s IH]; [reflexivity|].
  change (String c (s ++ "") = String c s). rewrite IH. reflexivity.
Qed.

Lemma string_app_assoc (s1 s2 s3 : string) : (s1 ++ s2) ++ s3 = s1 ++ (s2 ++ s3).
Proof.
  induction s1 as [|c s IH]; [reflexivity|].
  change (String c ((s ++ s2) ++ s3) = String c (s ++ (s2 ++ s3))).
  rewrite IH. reflexivity.
Qed.

Lemma join_split_aux (s acc : string) :
  split_dot_aux acc s <> [] /\ join_dot (split_dot_aux acc s) = acc ++ s.
Proof.
  revert acc. induction s as [|c rest IH]; intros acc; cbn [split_dot_aux].
  - split; [discriminate|]. cbn. symmetry. apply string_app_nil_r.
  - destruct (Ascii.eqb c ".") eqn:Ec.
    + apply Ascii.eqb_eq in Ec. subst c.
      destruct (IH "") as [Hne Hj]. split; [discriminate|].
      destruct (split_dot_aux "" rest) as [|k l] eqn:El; [contradiction|].
      change (join_dot (acc :: k :: l)) with (acc ++ "." ++ join_dot (k :: l)).
      rewrite Hj. reflexivity.
    + destruct (IH (acc ++ String c "")) as [Hne Hj]. split; [exact Hne|].
      rewrite Hj. rewrite string_app_assoc. reflexivity.
Qed.

Lemma split_no_dot (s acc : string) :
  (forall i, String.get i s <> Some "."%char) -> split_dot_aux acc s = [acc ++ s].
Proof.
  revert acc. induction s as [|c rest IH]; intros acc Hs; cbn [split_dot_aux].
  - rewrite string_app_nil_r. reflexivity.
  - destruct (Ascii.eqb c ".") eqn:Ec.
    + apply Ascii.eqb_eq in Ec. subst c. exfalso. apply (Hs 0%nat). reflexivity.
    + rewrite IH.
      * rewrite string_app_assoc. reflexivity.
      * intros i. apply (Hs (S i)).
Qed.

(** X6: the path a tween keeps is the split of the string it was given:
    joining it with dots gives the string back, so the test for the phantom
    binding compares the original string; a string without a dot is a path
    of one key, and no path is empty. *)
Theorem path_split_join (target : ref) (propertyPath : string) (endValue : value)
    (duration : Q) (easingFn : Q -> Q) (sceneRef : option nat) :
  let tw := Tween.constructor target propertyPath endValue duration easingFn sceneRef in
  Tween.propertyPath tw <> []
  /\ join_dot (Tween.propertyPath tw) = propertyPath
  /\ Tween.is_dummy tw = String.eqb propertyPath "_dummyPropertyForColorTween"
  /\ ((forall i, String.get i propertyPath <> Some "."%char) ->
      Tween.propertyPath tw = [propertyPath]).
Proof.
  cbv zeta. unfold Tween.is_dummy. cbn [Tween.constructor Tween.propertyPath].
  unfold split_dot. destruct (join_split_aux propertyPath "") as [Hne Hj].
  cbn [String.append] in Hj.
  split; [exact Hne|]. split; [exact Hj|]. split; [rewrite Hj; reflexivity|].
  intros Hs. apply (split_no_dot propertyPath "" Hs).
Qed.

Lemma path_split_join_witness :
  Tween.propertyPath (Tween.constructor 0 "style.fill" VNull 1 linear None)
  = ["style"; "fill"]
  /\ Tween.propertyPath (Tween.constructor 0 "alpha" VNull 1 linear None) = ["alpha"].
Proof.
  split; [reflexivity|].
  apply (path_split_join 0 "alpha" VNull 1 linear None).
  intros i. do 6 (destruct i as [|i]; [discriminate|]). discriminate.
Defined.

Lemma set_field_same (k : string) (v : value) (fs : list (string * value)) :
  lookup_field k fs = Some v -> set_field k v fs = fs.
Proof.
  induction fs as [|[k0 v0] fs IH]; simpl; [discriminate|].
  destruct (String.eqb k k0) eqn:E.
  - apply String.eqb_eq in E. subst k0. intros [= ->]. reflexivity.
  - intros H. rewrite (IH H). reflexivity.
Qed.

Lemma set_field_over (k : string) (u v : value) (fs : list (string * value)) :
  set_field k v (set_field k u fs) = set_field k v fs.
Proof.
  induction fs as [|[k0 v0] fs IH]; simpl.
  - rewrite String.eqb_refl. reflexivity.
  - destruct (String.eqb k k0) eqn:E; simpl.
    + rewrite String.eqb_refl. reflexivity.
    + rewrite E, IH. reflexivity.
Qed.

Lemma set_deep_over (path : list string) (obj u v : value) :
  writable obj path = true ->
  _setDeepProperty (_setDeepProperty obj path u) path v = _setDeepProperty obj path v.
Proof.
  revert obj. induction path as [|k rest IH]; intros obj Hw.
  - destruct obj; discriminate.
  - destruct (writable_inv _ _ Hw) as [fs ->].
    destruct rest as [|k2 rest].
    + cbn [_setDeepProperty set_prop]. rewrite set_field_over. reflexivity.
    + rewrite writable_cons in Hw.
      destruct (lookup_field k fs) as [c|] eqn:Ec; [|discriminate].
      destruct (writable_inv _ _ Hw) as [cs ->].
      rewrite !set_deep_cons. rewrite (get_prop_lookup fs k _ Ec).
      cbn [is_nullish is_undefined is_null orb].
      destruct (writable_inv _ _ (writable_set_deep _ _ u Hw)) as [cs' Ecs].
      cbn [set_prop]. rewrite get_prop_set_field. rewrite Ecs.
      cbn [is_nullish is_undefined is_null orb]. cbn [set_prop].
      rewrite set_field_over. rewrite <- Ecs. rewrite (IH _ Hw). reflexivity.
Qed.

Lemma set_get_deep (path : list string) (obj : value) :
  writable obj path = true ->
  is_undefined (_getDeepProperty obj path) = false ->
  _setDeepProperty obj path (_getDeepProperty obj path) = obj.
Proof.
  revert obj. induction path as [|k rest IH]; intros obj Hw Hu.
  - destruct obj; discriminate.
  - destruct (writable_inv _ _ Hw) as [fs ->].
    destruct rest as [|k2 rest].
    + cbn [_setDeepProperty _getDeepProperty is_nullish is_undefined is_null orb set_prop]
        in Hu |- *.
      unfold get_prop in Hu |- *. cbn [own_fields] in Hu |- *.
      destruct (lookup_field k fs) as [c|] eqn:Ec; [|discriminate].
      rewrite (set_field_same _ _ _ Ec). reflexivity.
    + rewrite writable_cons in Hw.
      destruct (lookup_field k fs) as [c|] eqn:Ec; [|discriminate].
      destruct (writable_inv _ _ Hw) as [cs ->].
      rewrite get_deep_cons in Hu |- *. rewrite set_deep_cons.
      cbn [is_nullish is_undefined is_null orb] in Hu |- *.
      rewrite (get_prop_lookup fs k _ Ec) in Hu |- *.
      cbn [is_nullish is_undefined is_null orb].
      rewrite (IH _ Hw Hu). cbn [set_prop].
      rewrite (set_field_same _ _ _ Ec). reflexivity.
Qed.

(** X7: reading and writing through a path that runs through plain objects:
    a write is read back, the last of two writes wins, and writing back
    what is read changes nothing when the property is there. *)
Theorem path_get_set (obj : value) (path : list string) (u v : value) :
  writable obj path = true ->
  _getDeepProperty (_setDeepProperty obj path v) path = v
  /\ _setDeepProperty (_setDeepProperty obj path u) path v = _setDeepProperty obj path v
  /\ (is_undefined (_getDeepProperty obj path) = false ->
      _setDeepProperty obj path (_getDeepProperty obj path) = obj).
Proof.
  intros Hw. split; [apply get_set_deep, Hw|].
  split; [apply set_deep_over, Hw|]. apply set_get_deep, Hw.
Qed.

Lemma path_get_set_witness :
  let obj := VObj [("style", VObj [("fill", VStr "red"); ("w", VNum 1)])] in
  _getDeepProperty (_setDeepProperty obj ["style"; "w"] (VNum 2)) ["style"; "w"] = VNum 2
  /\ _setDeepProperty obj ["style"; "w"] (VNum 1) = obj.
Proof.
  cbv zeta.
  destruct (path_get_set (VObj [("style", VObj [("fill", VStr "red"); ("w", VNum 1)])])
              ["style"; "w"] (VNum 0) (VNum 2) eq_refl) as (Hg & _ & Hs).
  split; [exact Hg|]. exact (Hs eq_refl).
Defined.

Lemma set_prop_same (o : value) (k : string) :
  is_undefined (get_prop o k) = false -> set_prop o k (get_prop o k) = o.
Proof.
  unfold get_prop. destruct o; cbn [own_fields set_prop]; try reflexivity.
  - cbn [lookup_field].
    destruct (String.eqb k "x") eqn:Ex; [reflexivity|].
    destruct (String.eqb k "y") eqn:Ey; [reflexivity|]. discriminate.
  - destruct (lookup_field k _) as [c|] eqn:Ec; [|discriminate]. intros _.
    destruct (lookup_indexed_inv _ _ _ _ _ Ec) as (i & [px py] & Hi & -> & ->).
    cbn [fst snd]. rewrite Nat.add_0_l.
    rewrite (index_of_key_found _ _ (lookup_lt_Some _ _ _ Hi)).
    rewrite (list_insert_id _ _ _ Hi). reflexivity.
  - destruct (lookup_field k _) as [c|] eqn:Ec; [|discriminate]. intros _.
    destruct (lookup_indexed_inv _ _ _ _ _ Ec) as (i & q & Hi & -> & ->).
    rewrite Nat.add_0_l.
    rewrite (index_of_key_found _ _ (lookup_lt_Some _ _ _ Hi)).
    rewrite (list_insert_id _ _ _ Hi). reflexivity.
  - destruct (lookup_field k fields) as [c|] eqn:Ec; [|discriminate]. intros _.
    rewrite (set_field_same _ _ _ Ec). reflexivity.
Qed.

Lemma get_deep_nullish (path : list string) (o : value) :
  is_nullish o = true -> path <> [] -> _getDeepProperty o path = VUndefined.
Proof.
  intros Hn Hp. destruct path as [|k rest]; [contradiction|].
  rewrite get_deep_cons, Hn. reflexivity.
Qed.

Lemma set_deep_missing (pre : list string) (k : string) (rest : list string)
    (obj v : value) :
  pre <> [] ->
  is_nullish (_getDeepProperty obj pre) = true ->
  _setDeepProperty obj (pre ++ k :: rest)%list v = obj.
Proof.
  revert obj. induction pre as [|k1 pre IH]; intros obj Hne Hn; [contradiction|].
  destruct pre as [|k2 pre].
  - cbn [app]. rewrite set_deep_cons.
    rewrite get_deep_cons in Hn.
    destruct (is_nullish obj) eqn:Eo.
    + destruct obj; try discriminate; reflexivity.
    + cbn [_getDeepProperty] in Hn. rewrite Hn. reflexivity.
  - change ((k1 :: k2 :: pre) ++ k :: rest)%list with (k1 :: k2 :: (pre ++ k :: rest))%list.
    rewrite set_deep_cons.
    destruct (is_nullish (get_prop obj k1)) eqn:Ec; [reflexivity|].
    rewrite get_deep_cons in Hn.
    destruct (is_nullish obj) eqn:Eo.
    { destruct obj; try discriminate; reflexivity. }
    change (k2 :: pre ++ k :: rest)%list with ((k2 :: pre) ++ k :: rest)%list.
    rewrite (IH (get_prop obj k1)); [|discriminate|exact Hn].
    apply set_prop_same.
    destruct (get_prop obj k1); try discriminate; reflexivity.
Qed.

(** X8: a path that runs through plain objects into [undefined] or [null]
    before its last key: the read gives [undefined] and the write changes
    nothing; no intermediate object is created. *)
Theorem path_through_missing (obj : value) (pre : list string) (k : string)
    (rest : list string) (v : value) :
  writable obj pre = true ->
  is_nullish (_getDeepProperty obj pre) = true ->
  _getDeepProperty obj (pre ++ k :: rest)%list = VUndefined
  /\ _setDeepProperty obj (pre ++ k :: rest)%list v = obj.
Proof.
  intros Hw Hn.
  assert (Hne : pre <> []) by (intros ->; destruct obj; discriminate).
  clear Hw.
  split; [|apply set_deep_missing; assumption].
  clear v. revert obj Hne Hn.
  induction pre as [|k1 pre IH]; intros obj Hne Hn; [contradiction|].
  cbn [app]. rewrite get_deep_cons in Hn |- *.
  destruct (is_nullish obj); [reflexivity|].
  destruct pre as [|k2 pre].
  - cbn [app _getDeepProperty] in Hn |- *. rewrite Hn. reflexivity.
  - apply IH; [discriminate|exact Hn].
Qed.

Lemma path_through_missing_witness :
  let obj := VObj [("style", VNull)] in
  _getDeepProperty obj ["style"; "fill"] = VUndefined
  /\ _setDeepProperty obj ["style"; "fill"] (VStr "red") = obj
  /\ _setDeepProperty obj ["shadow"; "blur"; "x"] (VNum 1) = obj.
Proof.
  cbv zeta.
  destruct (path_through_missing (VObj [("style", VNull)]) ["style"] "fill" []
              (VStr "red") eq_refl eq_refl) as [Hg Hs].
  split; [exact Hg|]. split; [exact Hs|].
  apply (path_through_missing (VObj [("style", VNull)]) ["shadow"] "blur" ["x"]
           (VNum 1) eq_refl eq_refl).
Defined.

(** ** Tweens *)

Lemma heap_set_over (h : gmap nat value) (x : ref) (path : list string) (u v : value) :
  match h !! x with Some obj => writable obj path | None => false end = true ->
  heap_set (heap_set h x path u) x path v = heap_set h x path v.
Proof.
  intros Hw. unfold heap_set at 1 3.
  rewrite heap_set_at.
  destruct (h !! x) as [obj|] eqn:E; [|discriminate].
  rewrite (set_deep_over _ _ _ _ Hw).
  unfold heap_set. rewrite E. apply insert_insert_eq.
Qed.

Lemma heap_set_get (h : gmap nat value) (x : ref) (path : list string) :
  match h !! x with Some obj => writable obj path | None => false end = true ->
  is_undefined (heap_get h x path) = false ->
  heap_set h x path (heap_get h x path) = h.
Proof.
  unfold heap_set, heap_get.
  destruct (h !! x) as [obj|] eqn:E; [|discriminate].
  intros Hw Hu. rewrite (set_get_deep _ _ Hw Hu). apply insert_id. exact E.
Qed.

Lemma heap_writable_set (h : gmap nat value) (X : Tween.t) (u : value) :
  heap_writable h X = true ->
  heap_writable (heap_set h (Tween.target X) (Tween.propertyPath X) u) X = true.
Proof.
  unfold heap_writable. rewrite heap_set_at.
  destruct (h !! Tween.target X) as [obj|]; [|discriminate].
  apply writable_set_deep.
Qed.

Lemma rewritten_write (X : Tween.t) (h h' : gmap nat value) (v : value) :
  heap_writable h X = true ->
  rewritten X h h' ->
  rewritten X h (heap_set h' (Tween.target X) (Tween.propertyPath X) v).
Proof.
  intros Hw [->|[u ->]]; right; exists v; [reflexivity|].
  apply heap_set_over. exact Hw.
Qed.

Lemma rewritten_writable (X : Tween.t) (h h' : gmap nat value) :
  heap_writable h X = true -> rewritten X h h' -> heap_writable h' X = true.
Proof.
  intros Hw [->|[u ->]]; [exact Hw|]. apply heap_writable_set. exact Hw.
Qed.

Lemma rewritten_trans (X : Tween.t) (h1 h2 h3 : gmap nat value) :
  heap_writable h1 X = true ->
  rewritten X h1 h2 -> rewritten X h2 h3 -> rewritten X h1 h3.
Proof.
  intros Hw H12 [->|[u ->]]; [exact H12|]. apply rewritten_write; assumption.
Qed.

Lemma write_final_rewrites (Z : Tween.t) (w : World) :
  exists u, heap (Tween.write_final Z w)
            = heap_set (heap w) (Tween.target Z) (Tween.propertyPath Z) u.
Proof.
  unfold Tween.write_final.
  destruct (Tween.rawEndValue Z); try (eexists; reflexivity).
  destruct (typeof_object _ && negb (is_null _)); eexists; reflexivity.
Qed.

Lemma update_rewrites (deltaTime : Q) (Z : Tween.t) (w : World) :
  heap_writable (heap w) Z = true ->
  rewritten Z (heap w) (heap (snd (Tween.update deltaTime Z w))).
Proof.
  intros Hw. unfold Tween.update.
  destruct (negb (Tween.isActive Z)); [left; reflexivity|].
  set (Ze := if negb (Tween._managedByTimeline Z)
             then Tween.with_elapsedTime (Tween.elapsedTime Z + deltaTime) Z else Z).
  assert (Ht : Tween.target Ze = Tween.target Z /\ Tween.propertyPath Ze = Tween.propertyPath Z
               /\ Tween.is_dummy Ze = Tween.is_dummy Z).
  { subst Ze. destruct (negb (Tween._managedByTimeline Z)); repeat split. }
  destruct Ht as (Ht & Hp & Hd).
  cbv zeta.
  destruct (Tween.interpolate Ze _ _) as [cv|]; [|left; reflexivity].
  rewrite Hd, Ht, Hp.
  change (Tween.is_dummy (Tween.with_isActive false Ze)) with (Tween.is_dummy Ze).
  rewrite Hd.
  set (w1 := if negb (Tween.is_dummy Z)
             then write (Tween.target Z) (Tween.propertyPath Z) cv w else w).
  assert (H1 : rewritten Z (heap w) (heap w1)).
  { subst w1. destruct (negb (Tween.is_dummy Z)); [right; eexists|left]; reflexivity. }
  destruct (Qle_bool 1 _).
  - cbn [snd].
    match goal with
    | |- rewritten _ _ (heap ?x) =>
        assert (Hx : heap x = heap (if negb (Tween.is_dummy Z)
                                    then Tween.write_final (Tween.with_isActive false Ze)
                                           (emit_if (Tween.onUpdate Ze)
                                              (fun cb => EvUpdate cb cv
                                                 (Qmin (Tween.elapsedTime Ze / Tween.duration Ze) 1)) w1)
                                    else emit_if (Tween.onUpdate Ze)
                                           (fun cb => EvUpdate cb cv
                                                 (Qmin (Tween.elapsedTime Ze / Tween.duration Ze) 1)) w1))
    end.
    { destruct (Tween.sceneRef (Tween.with_isActive false Ze));
        [destruct (negb (Tween._managedByTimeline (Tween.with_isActive false Ze)))|];
        cbn [emit heap]; rewrite ?heap_emit_if; reflexivity. }
    rewrite Hx. destruct (negb (Tween.is_dummy Z)).
    + destruct (write_final_rewrites (Tween.with_isActive false Ze)
                  (emit_if (Tween.onUpdate Ze)
                     (fun cb => EvUpdate cb cv
                        (Qmin (Tween.elapsedTime Ze / Tween.duration Ze) 1)) w1))
        as [u Hu].
      rewrite Hu. rewrite heap_emit_if.
      change (Tween.target (Tween.with_isActive false Ze)) with (Tween.target Ze).
      change (Tween.propertyPath (Tween.with_isActive false Ze))
        with (Tween.propertyPath Ze).
      rewrite Ht, Hp. apply rewritten_write; assumption.
    + rewrite heap_emit_if. exact H1.
  - cbn [snd]. rewrite heap_emit_if. exact H1.
Qed.

Lemma update_keeps_start (deltaTime : Q) (Z : Tween.t) (w : World) :
  Tween.startValue (fst (Tween.update deltaTime Z w)) = Tween.startValue Z
  /\ Tween.rawStartValue (fst (Tween.update deltaTime Z w)) = Tween.rawStartValue Z
  /\ Tween.rawEndValue (fst (Tween.update deltaTime Z w)) = Tween.rawEndValue Z.
Proof.
  unfold Tween.update.
  destruct (negb (Tween.isActive Z)); [repeat split|].
  cbv zeta.
  destruct (negb (Tween._managedByTimeline Z));
    (destruct (Tween.interpolate _ _ _); [|repeat split]);
    destruct (Qle_bool 1 _); repeat split.
Qed.

Lemma setProgress_active (p : Q) (X : Tween.t) (w : World) :
  Tween.isActive X = true ->
  Tween.setProgress p X w
  = Tween.update 0
      (Tween.with_elapsedTime (Qmin (Qmax 0 p) 1 * Tween.duration X) X) w.
Proof.
  intros Ha. unfold Tween.setProgress. rewrite Ha. cbn [negb andb].
  rewrite Ha. cbn [negb andb]. reflexivity.
Qed.

Lemma start_success (X : Tween.t) (w : World) :
  Tween.isActive (fst (Tween.start X w)) = true ->
  exists sv,
    start_outcome X (bound (heap w) X) = Some sv
    /\ fst (Tween.start X w)
       = Tween.with_isActive true
           (Tween.with_elapsedTime 0
              (Tween.with_startValue sv
                 (Tween.with_raw (bound (heap w) X) (Tween.endValue X) X)))
    /\ heap (snd (Tween.start X w)) = heap w.
Proof.
  rewrite start_eq. cbv zeta.
  destruct (start_outcome X (bound (heap w) X)) as [sv|]; cbn [fst snd].
  - intros _. exists sv. split; [reflexivity|]. split; [reflexivity|].
    destruct (Tween.sceneRef X); [destruct (negb (Tween._managedByTimeline X))|];
      reflexivity.
  - intros H. discriminate H.
Qed.

Lemma start_outcome_raw (X : Tween.t) (r sv : value) :
  start_outcome X r = Some sv -> Tween.is_dummy X = false ->
  is_undefined r = false /\ is_null r = false.
Proof.
  unfold start_outcome. intros H Hd. rewrite Hd in H. cbn [negb] in H.
  rewrite andb_true_r in H.
  destruct (is_undefined r) eqn:Eu; [discriminate|]. split; [reflexivity|].
  destruct r; try reflexivity.
  unfold Tween.capture in H. rewrite Hd in H. discriminate H.
Qed.

Lemma valueToSet_id (r : value) :
  (isArray r = true -> array_length r <> 0%nat) -> Tween.valueToSet r = r.
Proof.
  intros H. destruct r as [| | | | | |ps|qs|fs]; try reflexivity.
  - destruct ps; [exfalso; apply H; reflexivity|reflexivity].
  - destruct qs; [exfalso; apply H; reflexivity|reflexivity].
Qed.

Lemma capture_interpolate (X Y : Tween.t) (r e sv : value) (eased progress : Q) :
  Tween.capture X r e = Some sv ->
  Tween.startValue Y = sv -> Tween.rawStartValue Y = r -> Tween.rawEndValue Y = e ->
  Tween.is_dummy Y = Tween.is_dummy X ->
  Tween.interpolate Y eased progress <> None.
Proof.
  intros Hc Hs Hr He Hd. unfold Tween.interpolate. rewrite Hs, Hr, He, Hd.
  unfold Tween.capture in Hc.
  destruct (Tween.both_colors r e) eqn:Ec.
  { destruct r, e; try discriminate Ec. discriminate. }
  destruct r, e; cbn in Hc;
    repeat match type of Hc with
           | (if ?c then _ else _) = Some _ => destruct c eqn:?
           end;
    try discriminate Hc; injection Hc as <-; cbn;
    rewrite ?Nat.eqb_refl; cbn; try discriminate.
  all: repeat match goal with
              | H : (_ =? _)%nat = true |- _ => rewrite H; clear H
              | H : (_ || _) = _ |- _ => cbn in H
              | |- context [if ?c then _ else _] => destruct c eqn:?
              | |- context [match ?l with [] => _ | _ :: _ => _ end] => destruct l
              end; cbn; try discriminate.
  all: destruct ((_ =? 0)%nat); discriminate.
Qed.

Lemma trace_emit_if (cb : option nat) (e : nat -> event) (w : World) :
  trace (emit_if cb e w)
  = (trace w ++ match cb with Some k => [e k] | None => [] end)%list.
Proof. destruct cb; cbn; [reflexivity|]. rewrite app_nil_r. reflexivity. Qed.

Lemma write_final_plain (Z : Tween.t) (w : World) :
  (forall fs, Tween.rawEndValue Z <> VObj fs) ->
  Tween.write_final Z w
  = write (Tween.target Z) (Tween.propertyPath Z) (Tween.rawEndValue Z) w.
Proof.
  intros H. unfold Tween.write_final.
  destruct (Tween.rawEndValue Z) eqn:E; try reflexivity.
  exfalso. apply (H fields). reflexivity.
Qed.

(** An update of an active tween that reaches progress 1 on a binding
    that can be written, with an end value that is not a plain record. *)
Lemma update_completion (deltaTime : Q) (Z : Tween.t) (w : World) :
  Tween.isActive Z = true ->
  Tween.is_dummy Z = false ->
  heap_writable (heap w) Z = true ->
  (forall fs, Tween.rawEndValue Z <> VObj fs) ->
  let Ze := if negb (Tween._managedByTimeline Z)
            then Tween.with_elapsedTime (Tween.elapsedTime Z + deltaTime) Z else Z in
  let progress := Qmin (Tween.elapsedTime Ze / Tween.duration Ze) 1 in
  Tween.interpolate Ze (Tween.easingFn Ze progress) progress <> None ->
  Qle_bool 1 progress = true ->
  fst (Tween.update deltaTime Z w) = Tween.with_isActive false Ze
  /\ bound (heap (snd (Tween.update deltaTime Z w))) Z = Tween.rawEndValue Z
  /\ exists cv,
       trace (snd (Tween.update deltaTime Z w))
       = (trace w
          ++ match Tween.onUpdate Z with
             | Some cb => [EvUpdate cb cv progress] | None => [] end
          ++ match Tween.onComplete Z with
             | Some cb => [EvComplete cb] | None => [] end
          ++ match Tween.sceneRef Z with
             | Some scene =>
                 if Tween._managedByTimeline Z then [] else [EvRemoveTween scene]
             | None => [] end)%list.
Proof.
  intros Ha Hd Hw Hev Ze progress Hi Hp.
  assert (Hf : Tween.target Ze = Tween.target Z
               /\ Tween.propertyPath Ze = Tween.propertyPath Z
               /\ Tween.is_dummy Ze = Tween.is_dummy Z
               /\ Tween.rawEndValue Ze = Tween.rawEndValue Z
               /\ Tween.onUpdate Ze = Tween.onUpdate Z
               /\ Tween.onComplete Ze = Tween.onComplete Z
               /\ Tween.sceneRef Ze = Tween.sceneRef Z
               /\ Tween._managedByTimeline Ze = Tween._managedByTimeline Z).
  { subst Ze. destruct (negb (Tween._managedByTimeline Z)); repeat split. }
  destruct Hf as (Ht & Hpa & Hdu & Hre & Hou & Hoc & Hsc & Hma).
  unfold Tween.update. rewrite Ha. cbn [negb]. fold Ze. cbv zeta. fold progress.
  destruct (Tween.interpolate Ze (Tween.easingFn Ze progress) progress) as [cv|];
    [|contradiction].
  rewrite Hp.
  change (Tween.is_dummy (Tween.with_isActive false Ze)) with (Tween.is_dummy Ze).
  change (Tween.onComplete (Tween.with_isActive false Ze)) with (Tween.onComplete Ze).
  change (Tween.sceneRef (Tween.with_isActive false Ze)) with (Tween.sceneRef Ze).
  change (Tween._managedByTimeline (Tween.with_isActive false Ze))
    with (Tween._managedByTimeline Ze).
  rewrite Hdu, Hd, Ht, Hpa, Hou, Hoc, Hsc, Hma. cbn [negb].
  rewrite write_final_plain
    by (change (Tween.rawEndValue (Tween.with_isActive false Ze))
          with (Tween.rawEndValue Ze); rewrite Hre; exact Hev).
  change (Tween.target (Tween.with_isActive false Ze)) with (Tween.target Ze).
  change (Tween.propertyPath (Tween.with_isActive false Ze)) with (Tween.propertyPath Ze).
  change (Tween.rawEndValue (Tween.with_isActive false Ze)) with (Tween.rawEndValue Ze).
  rewrite Ht, Hpa, Hre.
  set (w1 := write (Tween.target Z) (Tween.propertyPath Z) cv w).
  set (w2 := emit_if (Tween.onUpdate Z) (fun cb => EvUpdate cb cv progress) w1).
  set (w3 := write (Tween.target Z) (Tween.propertyPath Z) (Tween.rawEndValue Z) w2).
  set (w4 := emit_if (Tween.onComplete Z) EvComplete w3).
  assert (Hw2 : heap_writable (heap w2) Z = true).
  { subst w2. rewrite heap_emit_if. subst w1. apply heap_writable_set. exact Hw. }
  destruct (bound_write Z w2 (Tween.rawEndValue Z) Hw2) as [Hb _]. fold w3 in Hb.
  assert (Ht4 : trace w4
                = (trace w
                   ++ match Tween.onUpdate Z with
                      | Some cb => [EvUpdate cb cv progress] | None => [] end
                   ++ match Tween.onComplete Z with
                      | Some cb => [EvComplete cb] | None => [] end)%list).
  { subst w4. rewrite trace_emit_if. subst w3. cbn [write trace].
    subst w2. rewrite trace_emit_if. subst w1. cbn [write trace].
    rewrite <- app_assoc. reflexivity. }
  assert (Hh4 : heap w4 = heap w3) by (subst w4; apply heap_emit_if).
  cbn [fst snd]. split; [reflexivity|].
  destruct (Tween.sceneRef Z) as [scene|];
    [destruct (Tween._managedByTimeline Z); cbn [negb]|].
  - split; [rewrite Hh4; exact Hb|]. exists cv. rewrite Ht4, !app_nil_r. reflexivity.
  - cbn [emit heap trace]. split; [rewrite Hh4; exact Hb|]. exists cv.
    rewrite Ht4, <- !app_assoc. reflexivity.
  - split; [rewrite Hh4; exact Hb|]. exists cv. rewrite Ht4, !app_nil_r. reflexivity.
Qed.

Lemma progress_full (p d el : Q) :
  1 <= p -> ~ d == 0 -> el == Qmin (Qmax 0 p) 1 * d ->
  Qle_bool 1 (Qmin (el / d) 1) = true.
Proof.
  intros Hp Hd He. apply Qle_bool_iff.
  assert (Hc : Qmin (Qmax 0 p) 1 == 1).
  { rewrite Q.min_r; [reflexivity|].
    eapply Qle_trans; [exact Hp|]. apply Q.le_max_r. }
  assert (H1 : el / d == 1).
  { rewrite He, Hc. field. exact Hd. }
  rewrite H1. rewrite Q.min_l; apply Qle_refl.
Qed.

Lemma inside_false_above (p : Q) : 1 <= p -> Qltb 0 p && Qltb p 1 = false.
Proof.
  intros Hp. apply andb_false_iff. right. unfold Qltb.
  apply negb_false_iff. apply Qle_bool_iff. exact Hp.
Qed.

Lemma start_then_complete (tw0 : Tween.t) (w0 : World) (p : Q) :
  heap_writable (heap w0) tw0 = true ->
  Tween.is_dummy tw0 = false ->
  ~ Tween.duration tw0 == 0 ->
  (forall fs, Tween.endValue tw0 <> VObj fs) ->
  1 <= p ->
  Tween.isActive (fst (Tween.start tw0 w0)) = true ->
  let '(tw1, w1) := Tween.start tw0 w0 in
  let '(tw2, w2) := Tween.setProgress p tw1 w1 in
  bound (heap w2) tw0 = Tween.endValue tw0
  /\ Tween.isActive tw2 = false
  /\ (exists evs,
        extends w1 w2 evs
        /\ filter is_complete evs
           = match Tween.onComplete tw0 with
             | Some cb => [EvComplete cb] | None => [] end)
  /\ snd (Tween.setProgress p tw2 w2) = w2.
Proof.
  intros Hw Hd Hdur Hev Hp Hact.
  destruct (start_success tw0 w0 Hact) as (sv & Ho & E1 & Hh1).
  destruct (Tween.start tw0 w0) as [tw1 w1]. cbn [fst snd] in *.
  assert (Ha1 : Tween.isActive tw1 = true) by (rewrite E1; reflexivity).
  rewrite (setProgress_active p tw1 w1 Ha1).
  set (Z := Tween.with_elapsedTime (Qmin (Qmax 0 p) 1 * Tween.duration tw1) tw1).
  assert (HZ : Tween.isActive Z = true /\ Tween.is_dummy Z = false
               /\ Tween.target Z = Tween.target tw0
               /\ Tween.propertyPath Z = Tween.propertyPath tw0
               /\ Tween.rawEndValue Z = Tween.endValue tw0
               /\ Tween.onComplete Z = Tween.onComplete tw0
               /\ Tween.duration Z = Tween.duration tw0).
  { subst Z. rewrite E1. repeat split. exact Hd. }
  destruct HZ as (HaZ & HdZ & HtZ & HpZ & HeZ & HcZ & HduZ).
  assert (HwZ : heap_writable (heap w1) Z = true).
  { unfold heap_writable. rewrite HtZ, HpZ, Hh1. exact Hw. }
  assert (HevZ : forall fs, Tween.rawEndValue Z <> VObj fs)
    by (rewrite HeZ; exact Hev).
  pose proof (update_completion 0 Z w1 HaZ HdZ HwZ HevZ) as Hu. cbv zeta in Hu.
  set (Ze := if negb (Tween._managedByTimeline Z)
             then Tween.with_elapsedTime (Tween.elapsedTime Z + 0) Z else Z) in *.
  assert (Hcap : Tween.interpolate Ze
                   (Tween.easingFn Ze (Qmin (Tween.elapsedTime Ze / Tween.duration Ze) 1))
                   (Qmin (Tween.elapsedTime Ze / Tween.duration Ze) 1) <> None).
  { unfold start_outcome in Ho.
    destruct (is_undefined (bound (heap w0) tw0) && negb (Tween.is_dummy tw0));
      [discriminate|].
    apply (capture_interpolate tw0 Ze _ _ sv _ _ Ho);
      subst Ze; destruct (negb (Tween._managedByTimeline Z)); subst Z; rewrite E1;
      reflexivity. }
  assert (Hfull : Qle_bool 1 (Qmin (Tween.elapsedTime Ze / Tween.duration Ze) 1) = true).
  { apply (progress_full p); [exact Hp| |].
    - assert (E : Tween.duration Ze = Tween.duration tw0)
        by (subst Ze; destruct (negb (Tween._managedByTimeline Z)); exact HduZ).
      rewrite E. exact Hdur.
    - subst Ze. destruct (negb (Tween._managedByTimeline Z)); subst Z; rewrite E1;
        cbn; ring. }
  destruct (Hu Hcap Hfull) as (Hf & Hb & cv & Htr).
  destruct (Tween.update 0 Z w1) as [tw2 w2]. cbn [fst snd] in *.
  split.
  { unfold bound in Hb |- *. rewrite HtZ, HpZ, HeZ in Hb. exact Hb. }
  split; [rewrite Hf; reflexivity|]. split.
  - eexists. split; [exact Htr|].
    rewrite HcZ.
    destruct (Tween.onUpdate Z), (Tween.onComplete tw0), (Tween.sceneRef Z);
      try destruct (Tween._managedByTimeline Z); reflexivity.
  - unfold Tween.setProgress. rewrite (inside_false_above p Hp).
    rewrite !andb_false_r. cbv zeta. unfold Tween.update.
    rewrite Hf. reflexivity.
Qed.

(** ** Construction *)

(** [start()] never reads the duration. *)
Lemma start_ignores_duration (target : ref) (propertyPath : string) (endValue : value)
    (d d' : Q) (easingFn : Q -> Q) (sceneRef : option nat) (w : World) :
  let tw := Tween.constructor target propertyPath endValue d easingFn sceneRef in
  let tw' := Tween.constructor target propertyPath endValue d' easingFn sceneRef in
  Tween.isActive (fst (Tween.start tw' w)) = Tween.isActive (fst (Tween.start tw w))
  /\ Tween.startValue (fst (Tween.start tw' w)) = Tween.startValue (fst (Tween.start tw w))
  /\ Tween.duration (fst (Tween.start tw' w)) = d'
  /\ snd (Tween.start tw' w) = snd (Tween.start tw w).
Proof.
  cbv zeta. rewrite !start_eq. cbv zeta.
  change (bound (heap w) (Tween.constructor target propertyPath endValue d' easingFn sceneRef))
    with (bound (heap w) (Tween.constructor target propertyPath endValue d easingFn sceneRef)).
  change (start_outcome (Tween.constructor target propertyPath endValue d' easingFn sceneRef))
    with (start_outcome (Tween.constructor target propertyPath endValue d easingFn sceneRef)).
  destruct (start_outcome _ _); cbn; [destruct sceneRef|]; repeat split.
Qed.

(** C6, as the code has it: the constructor makes no check on [duration].
    Every call returns a tween that stores the duration it was given,
    whatever its sign, in the state of a tween that was never started.
    [start()] does not read the duration: whether it activates the tween,
    the start value it captures and the world it leaves are the same for
    any two durations.  For a duration other than 0, negative ones
    included, on a binding that takes writes and with an end value that is
    not a plain record, a tween that [start()] has activated is completed
    by [setProgress(1)]: the binding holds exactly the end value and the
    tween is inactive. *)
Theorem constructor_accepts_any_duration (target : ref) (propertyPath : string)
    (endValue : value) (duration : Q) (easingFn : Q -> Q)
    (sceneRef : option nat) (w : World) :
  exists tw,
    new_Tween target propertyPath endValue duration easingFn sceneRef = Returned tw
    /\ Tween.duration tw = duration
    /\ Tween.isActive tw = false
    /\ Tween.elapsedTime tw = 0
    /\ Tween.startValue tw = VNull
    /\ (forall d' : Q,
          let tw' := Tween.constructor target propertyPath endValue d' easingFn sceneRef in
          Tween.isActive (fst (Tween.start tw' w)) = Tween.isActive (fst (Tween.start tw w))
          /\ Tween.startValue (fst (Tween.start tw' w))
             = Tween.startValue (fst (Tween.start tw w))
          /\ Tween.duration (fst (Tween.start tw' w)) = d'
          /\ snd (Tween.start tw' w) = snd (Tween.start tw w))
    /\ (~ duration == 0 ->
        heap_writable (heap w) tw = true ->
        Tween.is_dummy tw = false ->
        (forall fs, endValue <> VObj fs) ->
        Tween.isActive (fst (Tween.start tw w)) = true ->
        let '(tw1, w1) := Tween.start tw w in
        let '(tw2, w2) := Tween.setProgress 1 tw1 w1 in
        bound (heap w2) tw = endValue /\ Tween.isActive tw2 = false).
Proof.
  eexists. split; [reflexivity|]. split; [reflexivity|]. split; [reflexivity|].
  split; [reflexivity|]. split; [reflexivity|]. split.
  - intros d'. apply start_ignores_duration.
  - intros Hd Hw Hdm Hev Hact.
    pose proof (start_then_complete _ w 1 Hw Hdm Hd Hev (Qle_refl 1) Hact) as H.
    destruct (Tween.start _ w) as [tw1 w1].
    destruct (Tween.setProgress 1 tw1 w1) as [tw2 w2].
    destruct H as (Hb & Ha & _). split; assumption.
Qed.

(** A tween of duration -1 on [{x: 0}]: [start()] activates it as it
    activates the tween of duration 2, and [setProgress(1)] completes it
    with [x] at 10. *)
Lemma constructor_accepts_any_duration_witness :
  let tw := Tween.constructor 0 "x" (VNum 10) (-1) linear None in
  Tween.isActive (fst (Tween.start (Tween.constructor 0 "x" (VNum 10) 2 linear None) world_x0))
  = Tween.isActive (fst (Tween.start tw world_x0))
  /\ (let '(tw1, w1) := Tween.start tw world_x0 in
      let '(tw2, w2) := Tween.setProgress 1 tw1 w1 in
      bound (heap w2) tw = VNum 10 /\ Tween.isActive tw2 = false).
Proof.
  destruct (constructor_accepts_any_duration 0 "x" (VNum 10) (-1) linear None world_x0)
    as (tw & Hn & _ & _ & _ & _ & Hs & Hc).
  injection Hn as <-. cbv zeta. split.
  - exact (proj1 (Hs 2)).
  - apply Hc; [intros H; discriminate H | reflexivity | reflexivity
              | intros fs H; discriminate H | reflexivity].
Defined.

(** No duration is refused: a tween of duration -1 is constructed without
    error and is usable; started on [{x: 0}] and driven to progress 1, it
    completes with [x] at its end value. *)
Lemma nonpositive_duration_is_accepted :
  exists tw,
    new_Tween 0 "x" (VNum 10) (-1) linear None = Returned tw
    /\ Tween.duration tw <= 0
    /\ new_Tween 0 "x" (VNum 10) (-1) linear None <> Thrown InvalidDuration
    /\ let '(tw1, w1) := Tween.start tw world_x0 in
       let '(tw2, w2) := Tween.setProgress 1 tw1 w1 in
       Tween.isActive tw1 = true /\ heap_get (heap w2) 0 ["x"] = VNum 10.
Proof.
  eexists. split; [reflexivity|]. split; [discriminate|].
  split; [discriminate|]. vm_compute. split; reflexivity.
Qed.

(** X9: a tween that [start()] has activated, driven to progress 1 or beyond:
    the binding holds exactly the end value (for an end value that is not a
    plain record), the tween is inactive, its completion callback has been
    invoked once, and repeating the call changes nothing. *)
Theorem completion_writes_end_value (tw0 : Tween.t) (w0 : World) (p : Q) :
  heap_writable (heap w0) tw0 = true ->
  Tween.is_dummy tw0 = false ->
  ~ Tween.duration tw0 == 0 ->
  (forall fs, Tween.endValue tw0 <> VObj fs) ->
  1 <= p ->
  Tween.isActive (fst (Tween.start tw0 w0)) = true ->
  let '(tw1, w1) := Tween.start tw0 w0 in
  let '(tw2, w2) := Tween.setProgress p tw1 w1 in
  bound (heap w2) tw0 = Tween.endValue tw0
  /\ Tween.isActive tw2 = false
  /\ (exists evs,
        extends w1 w2 evs
        /\ filter is_complete evs
           = match Tween.onComplete tw0 with
             | Some cb => [EvComplete cb] | None => [] end)
  /\ snd (Tween.setProgress p tw2 w2) = w2.
Proof. exact (start_then_complete tw0 w0 p). Qed.

Lemma completion_writes_end_value_witness :
  let '(tw1, w1) := Tween.start tween_a world_x0 in
  let '(tw2, w2) := Tween.setProgress 2 tw1 w1 in
  bound (heap w2) tween_a = VNum 10 /\ Tween.isActive tw2 = false.
Proof.
  assert (Hd : ~ Tween.duration tween_a == 0) by discriminate.
  assert (He : forall fs, Tween.endValue tween_a <> VObj fs) by discriminate.
  assert (Hp : 1 <= 2) by discriminate.
  pose proof (completion_writes_end_value tween_a world_x0 2 eq_refl eq_refl Hd He Hp
                eq_refl) as H.
  destruct (Tween.start tween_a world_x0) as [tw1 w1].
  destruct (Tween.setProgress 2 tw1 w1) as [tw2 w2].
  destruct H as (Hb & Ha & _). split; assumption.
Defined.

(** X10: a tween that [start()] has activated on a binding that can be
    written: whatever progress it is driven to, [resetToStart()] puts the
    target back exactly as it was before [start()], unless the captured
    value is an empty array. *)
Theorem reset_restores_target (tw0 : Tween.t) (w0 : World) (p : Q) :
  heap_writable (heap w0) tw0 = true ->
  Tween.is_dummy tw0 = false ->
  (isArray (bound (heap w0) tw0) = true -> array_length (bound (heap w0) tw0) <> 0%nat) ->
  Tween.isActive (fst (Tween.start tw0 w0)) = true ->
  let '(tw1, w1) := Tween.start tw0 w0 in
  let '(tw2, w2) := Tween.setProgress p tw1 w1 in
  let '(tw3, w3) := Tween.resetToStart tw2 w2 in
  heap w3 = heap w0 /\ Tween.isActive tw3 = false /\ Tween.elapsedTime tw3 = 0
  /\ trace w3 = trace w2.
Proof.
  intros Hw Hd Harr Hact.
  destruct (start_success tw0 w0 Hact) as (sv & Ho & E1 & Hh1).
  destruct (start_outcome_raw _ _ _ Ho Hd) as [Hu Hn].
  pose proof (start_outcome_not_null _ _ _ Ho) as Hsv.
  destruct (Tween.start tw0 w0) as [tw1 w1]. cbn [fst snd] in *.
  assert (Ha1 : Tween.isActive tw1 = true) by (rewrite E1; reflexivity).
  rewrite (setProgress_active p tw1 w1 Ha1).
  set (Z := Tween.with_elapsedTime (Qmin (Qmax 0 p) 1 * Tween.duration tw1) tw1).
  assert (HZ : Tween.target Z = Tween.target tw0
               /\ Tween.propertyPath Z = Tween.propertyPath tw0
               /\ Tween.startValue Z = sv
               /\ Tween.rawStartValue Z = bound (heap w0) tw0).
  { subst Z. rewrite E1. repeat split. }
  destruct HZ as (HtZ & HpZ & HsZ & HrZ).
  assert (HwZ : heap_writable (heap w1) Z = true).
  { unfold heap_writable. rewrite HtZ, HpZ, Hh1. exact Hw. }
  pose proof (update_rewrites 0 Z w1 HwZ) as Hrw.
  destruct (update_keeps_start 0 Z w1) as (Hs2 & Hr2 & _).
  destruct (update_touches 0 Z w1) as [Hsb _].
  pose proof (same_binding_dummy _ _ Hsb) as Hd2.
  destruct Hsb as (Ht2 & Hp2 & _).
  destruct (Tween.update 0 Z w1) as [tw2 w2]. cbn [fst snd] in *.
  unfold Tween.resetToStart.
  change (Tween.startValue (Tween.with_isActive false (Tween.with_elapsedTime 0 tw2)))
    with (Tween.startValue tw2).
  change (Tween.rawStartValue (Tween.with_isActive false (Tween.with_elapsedTime 0 tw2)))
    with (Tween.rawStartValue tw2).
  change (Tween.is_dummy (Tween.with_isActive false (Tween.with_elapsedTime 0 tw2)))
    with (Tween.is_dummy tw2).
  change (Tween.target (Tween.with_isActive false (Tween.with_elapsedTime 0 tw2)))
    with (Tween.target tw2).
  change (Tween.propertyPath (Tween.with_isActive false (Tween.with_elapsedTime 0 tw2)))
    with (Tween.propertyPath tw2).
  rewrite Hs2, Hr2, HsZ, HrZ, Hd2, Ht2, Hp2, HtZ, HpZ.
  assert (HdZ : Tween.is_dummy Z = false).
  { unfold Tween.is_dummy. rewrite HpZ. exact Hd. }
  rewrite Hsv, Hn, HdZ. cbn [negb andb].
  rewrite (valueToSet_id _ Harr).
  split; [|repeat split].
  cbn [write heap]. unfold rewritten in Hrw. rewrite HtZ, HpZ, Hh1 in Hrw.
  transitivity (heap_set (heap w0) (Tween.target tw0) (Tween.propertyPath tw0)
                  (bound (heap w0) tw0)).
  - destruct Hrw as [->|[u ->]]; [reflexivity|]. apply heap_set_over. exact Hw.
  - apply heap_set_get; assumption.
Qed.

Lemma reset_restores_target_witness :
  let '(tw1, w1) := Tween.start tween_a world_x0 in
  let '(tw2, w2) := Tween.setProgress (1 # 2) tw1 w1 in
  let '(tw3, w3) := Tween.resetToStart tw2 w2 in
  heap w3 = heap world_x0.
Proof.
  assert (Harr : isArray (bound (heap world_x0) tween_a) = true ->
                 array_length (bound (heap world_x0) tween_a) <> 0%nat)
    by discriminate.
  pose proof (reset_restores_target tween_a world_x0 (1 # 2) eq_refl eq_refl Harr
                eq_refl) as H.
  destruct (Tween.start tween_a world_x0) as [tw1 w1].
  destruct (Tween.setProgress (1 # 2) tw1 w1) as [tw2 w2].
  destruct (Tween.resetToStart tw2 w2) as [tw3 w3].
  exact (proj1 H).
Defined.

(** X11: an empty array is not restored as an array: when both the bound
    value and the end value are empty arrays, [start()] succeeds and
    [resetToStart()] writes back a plain object without keys. *)
Theorem reset_of_empty_array (tw0 : Tween.t) (w0 : World) :
  heap_writable (heap w0) tw0 = true ->
  Tween.is_dummy tw0 = false ->
  isArray (bound (heap w0) tw0) = true -> array_length (bound (heap w0) tw0) = 0%nat ->
  isArray (Tween.endValue tw0) = true -> array_length (Tween.endValue tw0) = 0%nat ->
  let '(tw1, w1) := Tween.start tw0 w0 in
  let '(tw2, w2) := Tween.resetToStart tw1 w1 in
  Tween.isActive tw1 = true
  /\ bound (heap w2) tw0 = VObj []
  /\ isArray (bound (heap w2) tw0) = false.
Proof.
  intros Hw Hd Ha1 Hl1 Ha2 Hl2.
  rewrite start_eq. cbv zeta.
  set (r := bound (heap w0) tw0) in *.
  assert (Ho : start_outcome tw0 r = Some r).
  { unfold start_outcome, Tween.capture.
    destruct r as [| | | | | |ps|qs|fs]; try discriminate Ha1;
      destruct (Tween.endValue tw0) as [| | | | | |ps'|qs'|fs']; try discriminate Ha2;
      cbn in Hl1, Hl2;
      repeat match goal with
             | H : length ?l = 0%nat |- _ => destruct l; [clear H|discriminate H]
             end; reflexivity. }
  rewrite Ho.
  set (w1 := match Tween.sceneRef tw0 with
             | Some scene =>
                 if negb (Tween._managedByTimeline tw0)
                 then emit (EvAddTween scene) w0 else w0
             | None => w0 end).
  assert (Hh1 : heap w1 = heap w0).
  { subst w1. destruct (Tween.sceneRef tw0); [destruct (negb _)|]; reflexivity. }
  unfold Tween.resetToStart. cbn [Tween.startValue Tween.rawStartValue Tween.with_isActive
    Tween.with_elapsedTime Tween.with_startValue Tween.with_raw Tween.isActive
    Tween.target Tween.propertyPath].
  change (Tween.is_dummy _) with (Tween.is_dummy tw0). rewrite Hd.
  assert (Hn : is_null r = false) by (destruct r; try discriminate Ha1; reflexivity).
  rewrite Hn. cbn [negb andb].
  assert (Hv : Tween.valueToSet r = VObj []).
  { destruct r as [| | | | | |ps|qs|fs]; try discriminate Ha1; cbn in Hl1;
      match goal with
      | H : length ?l = 0%nat |- _ => destruct l; [clear H|discriminate H]
      end; reflexivity. }
  rewrite Hv. split; [reflexivity|].
  assert (Hw1 : heap_writable (heap w1) tw0 = true) by (rewrite Hh1; exact Hw).
  destruct (bound_write tw0 w1 (VObj []) Hw1) as [Hb _].
  rewrite Hb. split; reflexivity.
Qed.

Lemma reset_of_empty_array_witness :
  let w0 := {| heap := {[ 0%nat := VObj [("points", VPoints [])] ]}; trace := [] |} in
  let tw0 := Tween.constructor 0 "points" (VPoints []) 1 linear None in
  let '(tw1, w1) := Tween.start tw0 w0 in
  let '(tw2, w2) := Tween.resetToStart tw1 w1 in
  heap_get (heap w2) 0 ["points"] = VObj [].
Proof.
  cbv zeta.
  pose proof (reset_of_empty_array
                (Tween.constructor 0 "points" (VPoints []) 1 linear None)
                {| heap := {[ 0%nat := VObj [("points", VPoints [])] ]}; trace := [] |}
                eq_refl eq_refl eq_refl eq_refl eq_refl eq_refl) as H.
  destruct (Tween.start _ _) as [tw1 w1].
  destruct (Tween.resetToStart tw1 w1) as [tw2 w2].
  exact (proj1 (proj2 H)).
Defined.

Lemma with_elapsedTime_same (Z : Tween.t) :
  Tween.with_elapsedTime (Tween.elapsedTime Z) Z = Z.
Proof. destruct Z. reflexivity. Qed.

Lemma start_failure (X : Tween.t) (w : World) :
  Tween.isActive (fst (Tween.start X w)) = false ->
  Tween.start X w
  = (Tween.with_isActive false
       (Tween.with_raw (bound (heap w) X) (Tween.endValue X) X), w).
Proof.
  rewrite start_eq. cbv zeta.
  destruct (start_outcome X (bound (heap w) X)) as [sv|] eqn:Eo; cbn [fst].
  { intros H. discriminate H. }
  intros _. reflexivity.
Qed.

(** X12: a tween that was never started and whose [start()] fails is inert:
    the failed start, and every [setProgress] and [update] after it, leave
    all targets untouched, invoke no callback and leave the tween
    inactive. *)
Theorem failed_start_is_inert (tw0 : Tween.t) (w0 : World) (p deltaTime : Q) :
  Tween.startValue tw0 = VNull ->
  Tween.is_dummy tw0 = false ->
  Tween.isActive (fst (Tween.start tw0 w0)) = false ->
  let '(tw1, w1) := Tween.start tw0 w0 in
  w1 = w0
  /\ snd (Tween.setProgress p tw1 w1) = w0
  /\ Tween.isActive (fst (Tween.setProgress p tw1 w1)) = false
  /\ Tween.update deltaTime tw1 w1 = (tw1, w0).
Proof.
  intros Hs Hd Hf.
  pose proof (start_failed_colors tw0 w0 Hf) as Hc.
  pose proof (start_failed_again tw0 w0 w0
                (Tween.elapsedTime (fst (Tween.start tw0 w0))) eq_refl Hf) as Hagain.
  rewrite with_elapsedTime_same in Hagain.
  pose proof (start_failure tw0 w0 Hf) as E1. rewrite E1 in Hc, Hagain |- *.
  cbn [fst snd] in *.
  set (tw1 := Tween.with_isActive false
                (Tween.with_raw (bound (heap w0) tw0) (Tween.endValue tw0) tw0)) in *.
  split; [reflexivity|].
  assert (Hupd : Tween.update deltaTime tw1 w0 = (tw1, w0)) by reflexivity.
  assert (Hmain : snd (Tween.setProgress p tw1 w0) = w0
                  /\ Tween.isActive (fst (Tween.setProgress p tw1 w0)) = false).
  { unfold Tween.setProgress.
    change (Tween.isActive tw1) with false.
    change (Tween.startValue tw1) with (Tween.startValue tw0). rewrite Hs.
    cbn [negb andb is_null]. rewrite andb_true_r.
    destruct (Qltb 0 p && Qltb p 1).
    - rewrite Hagain. change (Tween.isActive tw1) with false. cbn [negb andb].
      unfold Tween.update. cbn [Tween.isActive Tween.with_isActive Tween.with_elapsedTime
                                negb].
      cbv zeta.
      match goal with
      | |- context [Tween.interpolate ?Z ?a ?b] =>
          rewrite (interpolate_without_start Z a b)
      end.
      + destruct (negb _); split; reflexivity.
      + destruct (negb _); cbn; rewrite Hs; reflexivity.
      + destruct (negb _); exact Hc.
      + destruct (negb _); exact Hd.
    - change (Tween.isActive tw1) with false. cbn [negb andb].
      unfold Tween.update. cbn. split; reflexivity. }
  destruct Hmain as [H1 H2]. repeat split; assumption.
Qed.

Lemma failed_start_is_inert_witness :
  let tw0 := Tween.constructor 0 "y" (VNum 10) 1 linear None in
  snd (Tween.setProgress (1 # 2) (fst (Tween.start tw0 world_x0))
         (snd (Tween.start tw0 world_x0))) = world_x0.
Proof.
  cbv zeta.
  pose proof (failed_start_is_inert (Tween.constructor 0 "y" (VNum 10) 1 linear None)
                world_x0 (1 # 2) 0 eq_refl eq_refl eq_refl) as H.
  destruct (Tween.start _ world_x0) as [tw1 w1]. cbn [fst snd].
  exact (proj1 (proj2 H)).
Defined.

(** X13: [start()] gives up, leaving the tween inactive and everything else as
    it was, when the property is missing, when the two values are strings
    that are not both colours [parseColor] accepts (colour names are not),
    and when exactly one of them is a number. *)
Theorem start_rejects (tw : Tween.t) (w : World) :
  Tween.is_dummy tw = false ->
  is_undefined (bound (heap w) tw) = true
  \/ (exists s e, bound (heap w) tw = VStr s /\ Tween.endValue tw = VStr e
                  /\ is_color s && is_color e = false)
  \/ typeof_number (bound (heap w) tw) = negb (typeof_number (Tween.endValue tw)) ->
  Tween.start tw w
  = (Tween.with_isActive false
       (Tween.with_raw (bound (heap w) tw) (Tween.endValue tw) tw), w).
Proof.
  intros Hd H. apply start_failure. rewrite start_eq. cbv zeta.
  assert (Ho : start_outcome tw (bound (heap w) tw) = None).
  { unfold start_outcome. rewrite Hd. cbn [negb]. rewrite andb_true_r.
    destruct H as [->|[(s & e & -> & -> & Hc)|Hn]]; [reflexivity| |].
    - cbn [is_undefined]. unfold Tween.capture. cbn. rewrite Hc, Hd. reflexivity.
    - destruct (is_undefined (bound (heap w) tw)) eqn:Eu; [reflexivity|].
      unfold Tween.capture. rewrite Hd.
      destruct (bound (heap w) tw), (Tween.endValue tw); cbn in Hn |- *;
        try discriminate Hn; try reflexivity. }
  rewrite Ho. reflexivity.
Qed.

Lemma start_rejects_witness :
  let w := {| heap := {[ 0%nat := VObj [("fill", VStr "blue")] ]}; trace := [] |} in
  let tw := Tween.constructor 0 "fill" (VStr "red") 2 linear None in
  Tween.isActive (fst (Tween.start tw w)) = false /\ snd (Tween.start tw w) = w.
Proof.
  cbv zeta.
  rewrite (start_rejects (Tween.constructor 0 "fill" (VStr "red") 2 linear None)
             {| heap := {[ 0%nat := VObj [("fill", VStr "blue")] ]}; trace := [] |}
             eq_refl).
  - split; reflexivity.
  - right. left. exists "blue", "red". repeat split.
Defined.

(** X14: one frame of a standalone tween between two numbers: [update(dt)]
    adds [dt] to the elapsed time.  Short of the duration, the binding
    holds the eased interpolation and no completion is signalled; once the
    duration is reached, the binding holds exactly the end value, the tween
    is inactive, and its completion callback and then the removal from its
    scene follow the progress callback. *)
Theorem standalone_update (tw : Tween.t) (w : World) (deltaTime s e : Q) :
  Tween.isActive tw = true ->
  Tween._managedByTimeline tw = false ->
  Tween.is_dummy tw = false ->
  heap_writable (heap w) tw = true ->
  Tween.startValue tw = VNum s ->
  Tween.rawEndValue tw = VNum e ->
  0 < Tween.duration tw ->
  let '(tw', w') := Tween.update deltaTime tw w in
  let t := Tween.elapsedTime tw + deltaTime in
  Tween.elapsedTime tw' = t
  /\ (t < Tween.duration tw ->
      Tween.isActive tw' = true
      /\ Qmin (t / Tween.duration tw) 1 == t / Tween.duration tw
      /\ bound (heap w') tw
         = VNum (lerp s e (Tween.easingFn tw (Qmin (t / Tween.duration tw) 1)))
      /\ trace w'
         = (trace w
            ++ match Tween.onUpdate tw with
               | Some cb =>
                   [EvUpdate cb
                      (VNum (lerp s e (Tween.easingFn tw (Qmin (t / Tween.duration tw) 1))))
                      (Qmin (t / Tween.duration tw) 1)]
               | None => [] end)%list)
  /\ (Tween.duration tw <= t ->
      Tween.isActive tw' = false
      /\ bound (heap w') tw = VNum e
      /\ trace w'
         = (trace w
            ++ match Tween.onUpdate tw with
               | Some cb =>
                   [EvUpdate cb
                      (VNum (lerp s e (Tween.easingFn tw (Qmin (t / Tween.duration tw) 1))))
                      (Qmin (t / Tween.duration tw) 1)]
               | None => [] end
            ++ match Tween.onComplete tw with
               | Some cb => [EvComplete cb] | None => [] end
            ++ match Tween.sceneRef tw with
               | Some scene => [EvRemoveTween scene] | None => [] end)%list).
Proof.
  intros Ha Hm Hd Hw Hs He Hdur.
  set (t := Tween.elapsedTime tw + deltaTime).
  set (Ze := Tween.with_elapsedTime t tw).
  set (progress := Qmin (t / Tween.duration tw) 1).
  assert (Hi : Tween.interpolate Ze (Tween.easingFn Ze progress) progress
               = Some (VNum (lerp s e (Tween.easingFn tw progress)))).
  { unfold Tween.interpolate.
    change (Tween.startValue Ze) with (Tween.startValue tw).
    change (Tween.rawEndValue Ze) with (Tween.rawEndValue tw).
    rewrite Hs, He.
    destruct (Tween.rawStartValue Ze); reflexivity. }
  destruct (Qle_bool 1 progress) eqn:Ep.
  - (* completion *)
    assert (Hev : forall fs, Tween.rawEndValue tw <> VObj fs)
      by (rewrite He; discriminate).
    pose proof (update_completion deltaTime tw w Ha Hd Hw Hev) as Hu.
    cbv zeta in Hu. rewrite Hm in Hu. cbn [negb] in Hu. fold t in Hu. fold Ze in Hu.
    change (Tween.elapsedTime Ze) with t in Hu.
    change (Tween.duration Ze) with (Tween.duration tw) in Hu.
    fold progress in Hu. rewrite Hi in Hu.
    destruct (Hu ltac:(discriminate) Ep) as (Hf & Hb & cv & Htr).
    assert (Hcv : trace (snd (Tween.update deltaTime tw w))
                  = (trace w
                     ++ match Tween.onUpdate tw with
                        | Some cb =>
                            [EvUpdate cb (VNum (lerp s e (Tween.easingFn tw progress)))
                               progress]
                        | None => [] end
                     ++ match Tween.onComplete tw with
                        | Some cb => [EvComplete cb] | None => [] end
                     ++ match Tween.sceneRef tw with
                        | Some scene => [EvRemoveTween scene] | None => [] end)%list).
    { clear Htr Hb Hf Hu.
      unfold Tween.update. rewrite Ha, Hm. cbn [negb]. fold t. fold Ze. cbv zeta.
      change (Tween.elapsedTime Ze) with t.
      change (Tween.duration Ze) with (Tween.duration tw).
      fold progress. rewrite Hi, Ep.
      change (Tween.onUpdate Ze) with (Tween.onUpdate tw).
      change (Tween.onComplete (Tween.with_isActive false Ze)) with (Tween.onComplete tw).
      change (Tween.sceneRef (Tween.with_isActive false Ze)) with (Tween.sceneRef tw).
      change (Tween._managedByTimeline (Tween.with_isActive false Ze))
        with (Tween._managedByTimeline tw).
      change (Tween.is_dummy (Tween.with_isActive false Ze)) with (Tween.is_dummy tw).
      change (Tween.is_dummy Ze) with (Tween.is_dummy tw).
      rewrite Hd, Hm. cbn [negb].
      rewrite write_final_plain
        by (change (Tween.rawEndValue (Tween.with_isActive false Ze))
              with (Tween.rawEndValue tw); exact Hev).
      destruct (Tween.sceneRef tw); cbn [snd emit trace];
        rewrite trace_emit_if; cbn [write trace]; rewrite trace_emit_if;
        cbn [write trace]; rewrite <- ?app_assoc, ?app_nil_r; reflexivity. }
    destruct (Tween.update deltaTime tw w) as [tw' w']. cbn [fst snd] in *.
    cbv zeta. fold t. fold progress.
    split; [rewrite Hf; reflexivity|]. split.
    + intros Hlt. exfalso. apply Qle_bool_iff in Ep.
      assert (Hq : t / Tween.duration tw < 1).
      { apply Qlt_shift_div_r; [exact Hdur|]. rewrite Qmult_1_l. exact Hlt. }
      assert (Hx : progress < 1).
      { subst progress. apply Q.min_lt_iff. left. exact Hq. }
      apply (Qlt_irrefl 1). eapply Qle_lt_trans; [exact Ep|exact Hx].
    + intros _. split; [rewrite Hf; reflexivity|]. split; [|exact Hcv].
      rewrite Hb. exact He.
  - (* short of the duration *)
    unfold Tween.update. rewrite Ha, Hm. cbn [negb]. fold t. fold Ze. cbv zeta.
    change (Tween.elapsedTime Ze) with t.
    change (Tween.duration Ze) with (Tween.duration tw).
    fold progress. rewrite Hi, Ep.
    change (Tween.is_dummy Ze) with (Tween.is_dummy tw). rewrite Hd. cbn [negb].
    change (Tween.onUpdate Ze) with (Tween.onUpdate tw).
    change (Tween.target Ze) with (Tween.target tw).
    change (Tween.propertyPath Ze) with (Tween.propertyPath tw).
    split; [reflexivity|]. split.
    + intros Hlt. split; [exact Ha|]. split.
      * subst progress. apply Q.min_l. apply Qlt_le_weak.
        apply Qlt_shift_div_r; [exact Hdur|]. rewrite Qmult_1_l. exact Hlt.
      * split.
        -- unfold bound. rewrite heap_emit_if.
           apply (bound_write tw w _ Hw).
        -- rewrite trace_emit_if. reflexivity.
    + intros Hge. exfalso.
      assert (Hq : 1 <= t / Tween.duration tw).
      { apply Qle_shift_div_l; [exact Hdur|]. rewrite Qmult_1_l. exact Hge. }
      assert (Hx : Qle_bool 1 progress = true).
      { apply Qle_bool_iff. subst progress. apply Q.min_glb; [exact Hq|apply Qle_refl]. }
      rewrite Hx in Ep. discriminate Ep.
Qed.

Lemma standalone_update_witness :
  let tw := fst (Tween.start tween_a world_x0) in
  let '(tw', w') := Tween.update (1 # 2) tw world_x0 in
  Tween.isActive tw' = true
  /\ bound (heap w') tw = VNum (lerp 0 10 (linear (Qmin ((0 + (1 # 2)) / 1) 1))).
Proof.
  cbv zeta.
  assert (Hdur : 0 < Tween.duration (fst (Tween.start tween_a world_x0)))
    by reflexivity.
  pose proof (standalone_update (fst (Tween.start tween_a world_x0)) world_x0 (1 # 2)
                0 10 eq_refl eq_refl eq_refl eq_refl eq_refl eq_refl Hdur) as H.
  destruct (Tween.update (1 # 2) (fst (Tween.start tween_a world_x0)) world_x0)
    as [tw' w'].
  destruct H as (_ & Hlt & _).
  destruct (Hlt eq_refl) as (Ha & _ & Hb & _). split; assumption.
Defined.

(** X15: two arrays of different lengths are not rejected: [start()] captures
    the bound array as a plain object, and an update short of completion
    leaves a plain object, not an array, in the binding. *)
Theorem mismatched_arrays_lose_their_shape (tw0 : Tween.t) (w0 : World) (p : Q) :
  heap_writable (heap w0) tw0 = true ->
  Tween.is_dummy tw0 = false ->
  isArray (bound (heap w0) tw0) = true ->
  isArray (Tween.endValue tw0) = true ->
  array_length (bound (heap w0) tw0) <> array_length (Tween.endValue tw0) ->
  0 <= p -> p < 1 ->
  let '(tw1, w1) := Tween.start tw0 w0 in
  let '(tw2, w2) := Tween.setProgress p tw1 w1 in
  Tween.isActive tw1 = true
  /\ Tween.startValue tw1 = spread (bound (heap w0) tw0)
  /\ Tween.isActive tw2 = true
  /\ exists fs, bound (heap w2) tw0 = VObj fs.
Proof.
  intros Hw Hd Har Hae Hlen Hp0 Hp1.
  set (r := bound (heap w0) tw0) in *.
  assert (Ho : start_outcome tw0 r = Some (spread r)).
  { unfold start_outcome, Tween.capture. rewrite Hd.
    apply Nat.eqb_neq in Hlen.
    destruct r as [| | | | | |ps|qs|fs]; try discriminate Har;
      destruct (Tween.endValue tw0) as [| | | | | |ps'|qs'|fs']; try discriminate Hae;
      cbn in Hlen |- *; rewrite Hlen; reflexivity. }
  pose proof (start_eq tw0 w0) as E1. cbv zeta in E1. fold r in E1. rewrite Ho in E1.
  destruct (Tween.start tw0 w0) as [tw1 w1].
  injection E1 as E1 Ew1.
  assert (Hh1 : heap w1 = heap w0).
  { rewrite Ew1. destruct (Tween.sceneRef tw0); [destruct (negb _)|]; reflexivity. }
  assert (Ha1 : Tween.isActive tw1 = true) by (rewrite E1; reflexivity).
  rewrite (setProgress_active p tw1 w1 Ha1).
  set (Z := Tween.with_elapsedTime (Qmin (Qmax 0 p) 1 * Tween.duration tw1) tw1).
  unfold Tween.update.
  change (Tween.isActive Z) with (Tween.isActive tw1). rewrite Ha1. cbn [negb].
  set (Ze := if negb (Tween._managedByTimeline Z)
             then Tween.with_elapsedTime (Tween.elapsedTime Z + 0) Z else Z).
  assert (HZ : Tween.startValue Ze = spread r /\ Tween.rawStartValue Ze = r
               /\ Tween.rawEndValue Ze = Tween.endValue tw0
               /\ Tween.is_dummy Ze = false
               /\ Tween.target Ze = Tween.target tw0
               /\ Tween.propertyPath Ze = Tween.propertyPath tw0
               /\ Tween.elapsedTime Ze == Qmin (Qmax 0 p) 1 * Tween.duration Ze).
  { subst Ze. destruct (negb (Tween._managedByTimeline Z)); subst Z; rewrite E1;
      repeat split; try exact Hd; cbn; ring. }
  destruct HZ as (Hs & Hr & He & HdZ & Ht & Hpa & Hel).
  cbv zeta.
  assert (Hi : exists cur,
             Tween.interpolate Ze
               (Tween.easingFn Ze (Qmin (Tween.elapsedTime Ze / Tween.duration Ze) 1))
               (Qmin (Tween.elapsedTime Ze / Tween.duration Ze) 1) = Some (VObj cur)).
  { unfold Tween.interpolate. rewrite Hs, Hr, He.
    assert (Hc : Tween.both_colors r (Tween.endValue tw0) = false)
      by (destruct r; try discriminate Har; reflexivity).
    rewrite Hc. unfold spread.
    cbn [instanceof_Vec2 isArray typeof_number typeof_object is_null negb andb].
    assert (Hoe : typeof_object (Tween.endValue tw0) && negb (is_null (Tween.endValue tw0))
                  = true)
      by (destruct (Tween.endValue tw0); try discriminate Hae; reflexivity).
    rewrite Hoe.
    destruct (record_loop (VObj (own_fields r)) (Tween.endValue tw0)
                (Tween.easingFn Ze (Qmin (Tween.elapsedTime Ze / Tween.duration Ze) 1))
                (Qmin (Tween.elapsedTime Ze / Tween.duration Ze) 1)
                (map fst (own_fields (Tween.endValue tw0))) (own_fields r))
      as (cur & Ecur & _).
    exists cur. cbn [own_fields] in Ecur |- *. rewrite Ecur. reflexivity. }
  destruct Hi as (cur & Hi). rewrite Hi.
  rewrite (progress_below_one p _ _ Hp0 Hp1 Hel).
  rewrite HdZ, Ht, Hpa. cbn [negb].
  split; [reflexivity|]. split; [rewrite E1; reflexivity|].
  assert (Hac : Tween.isActive Ze = true).
  { subst Ze. destruct (negb (Tween._managedByTimeline Z)); exact Ha1. }
  split; [exact Hac|]. exists cur.
  unfold bound. rewrite heap_emit_if.
  assert (Hw1 : heap_writable (heap w1) tw0 = true) by (rewrite Hh1; exact Hw).
  apply (bound_write tw0 w1 _ Hw1).
Qed.

Lemma mismatched_arrays_lose_their_shape_witness :
  let w0 := {| heap := {[ 0%nat := VObj [("points", VPoints [(0, 0); (1, 1)])] ]};
               trace := [] |} in
  let tw0 := Tween.constructor 0 "points" (VPoints [(5, 5)]) 1 linear None in
  let '(tw1, w1) := Tween.start tw0 w0 in
  let '(tw2, w2) := Tween.setProgress (1 # 2) tw1 w1 in
  Tween.isActive tw1 = true /\ exists fs, heap_get (heap w2) 0 ["points"] = VObj fs.
Proof.
  cbv zeta.
  assert (Hlen : array_length (VPoints [(0, 0); (1, 1)]) <> array_length (VPoints [(5, 5)]))
    by discriminate.
  assert (Hp0 : 0 <= 1 # 2) by discriminate.
  assert (Hp1 : 1 # 2 < 1) by reflexivity.
  pose proof (mismatched_arrays_lose_their_shape
                (Tween.constructor 0 "points" (VPoints [(5, 5)]) 1 linear None)
                {| heap := {[ 0%nat := VObj [("points", VPoints [(0, 0); (1, 1)])] ]};
                   trace := [] |}
                (1 # 2) eq_refl eq_refl eq_refl eq_refl Hlen Hp0 Hp1) as H.
  destruct (Tween.start _ _) as [tw1 w1].
  destruct (Tween.setProgress (1 # 2) tw1 w1) as [tw2 w2].
  destruct H as (Ha & _ & _ & Hb). split; [exact Ha|exact Hb].
Defined.

(** ** Timelines *)

Lemma fold_max_spec (items : list Timeline.item) (d0 : Q) :
  let m := fold_left (fun d it => Qmax d (Timeline.tweenEndTime it)) items d0 in
  d0 <= m
  /\ Forall (fun it => Timeline.tweenEndTime it <= m) items
  /\ (m = d0 \/ Exists (fun it => Timeline.tweenEndTime it == m) items).
Proof.
  revert d0. induction items as [|it items IH]; intros d0; cbn [fold_left].
  - split; [apply Qle_refl|]. split; [constructor|]. left. reflexivity.
  - destruct (IH (Qmax d0 (Timeline.tweenEndTime it))) as (Hle & Hall & Hex).
    cbv zeta in *.
    set (m := fold_left (fun d it => Qmax d (Timeline.tweenEndTime it)) items
                (Qmax d0 (Timeline.tweenEndTime it))) in *.
    split; [eapply Qle_trans; [apply Q.le_max_l|exact Hle]|].
    split.
    + constructor; [|exact Hall].
      eapply Qle_trans; [apply Q.le_max_r|exact Hle].
    + destruct Hex as [Hm|Hex].
      * rewrite Hm.
        destruct (Q.max_dec d0 (Timeline.tweenEndTime it)) as [E|E].
        -- destruct (Q.max_spec d0 (Timeline.tweenEndTime it)) as [[Hlt Hq]|[Hge Hq]].
           ++ right. constructor. symmetry. exact Hq.
           ++ unfold Qmax, GenericMinMax.gmax in *.
              destruct (d0 ?= Timeline.tweenEndTime it) eqn:Ecmp.
              ** left. reflexivity.
              ** right. constructor. reflexivity.
              ** left. reflexivity.
        -- right. constructor. symmetry. exact E.
      * right. apply Exists_cons_tl. exact Hex.
Qed.

(** X16: after [add], the duration of a timeline is the latest end time of its
    entries: it is not negative, no entry ends after it, and it is 0 or the
    end time of an entry. *)
Theorem duration_is_latest_end (tw : Tween.t) (s : Q) (tl : Timeline.t) :
  let tl' := Timeline.add tw s tl in
  0 <= Timeline.duration tl'
  /\ Forall (fun it => Timeline.tweenEndTime it <= Timeline.duration tl')
            (Timeline.tweensWithMeta tl')
  /\ (Timeline.duration tl' = 0
      \/ Exists (fun it => Timeline.tweenEndTime it == Timeline.duration tl')
                (Timeline.tweensWithMeta tl')).
Proof.
  cbv zeta. unfold Timeline.add, Timeline._recalculateDuration.
  cbn [Timeline.duration Timeline.tweensWithMeta Timeline.with_duration
       Timeline.with_items].
  apply fold_max_spec.
Qed.

Lemma sequence_from_spec (tweens : list Tween.t) (g marker : Q) (tl : Timeline.t) :
  exists added,
    Timeline.tweensWithMeta (Timeline.sequence_from tweens g marker tl)
    = (Timeline.tweensWithMeta tl ++ added)%list
    /\ length added = length tweens
    /\ forall k it tw,
         added !! k = Some it -> tweens !! k = Some tw ->
         Timeline.tween it = Tween.with_managedByTimeline true tw
         /\ Timeline._hasStartedInternal it = false
         /\ Timeline.startTime it
            = fold_left (fun m tw' => m + (Tween.duration tw' + g)) (take k tweens) marker.
Proof.
  revert marker tl.
  induction tweens as [|tw0 rest IH]; intros marker tl; cbn [Timeline.sequence_from].
  - exists []. rewrite app_nil_r. split; [reflexivity|]. split; [reflexivity|].
    intros k it tw H. destruct k; discriminate H.
  - destruct (IH (marker + (Tween.duration tw0 + g)) (Timeline.add tw0 marker tl))
      as (added & Hitems & Hlen & Hk).
    rewrite add_items, <- app_assoc in Hitems.
    eexists. split; [exact Hitems|]. split; [cbn; rewrite Hlen; reflexivity|].
    intros k it tw Hit Htw. destruct k as [|k'].
    + cbn in Hit, Htw. injection Hit as <-. injection Htw as <-.
      repeat split.
    + cbn in Hit, Htw. destruct (Hk k' it tw Hit Htw) as (H1 & H2 & H3).
      repeat split; try assumption.
Qed.

(** X17: [sequence] appends one entry per tween after the entries the
    timeline has, in the order of the array, none started and each marked
    as managed.  The offset (the timeline's duration at the call when no
    offset, or the offset 0, is given) is read once, before the first
    [add] changes the duration; the k-th entry starts at the number the
    loop has then accumulated, the offset with [tween.duration + gap]
    added for each tween before it, in that order. *)
Theorem sequence_start_times (tl : Timeline.t) (tweens : list Tween.t)
    (opts : Timeline.options) :
  let off := or_default (Timeline.offset opts) (Timeline.duration tl) in
  let g := or_default (Timeline.gap opts) 0 in
  exists added,
    Timeline.tweensWithMeta (Timeline.sequence tweens opts tl)
    = (Timeline.tweensWithMeta tl ++ added)%list
    /\ length added = length tweens
    /\ forall k it tw,
         added !! k = Some it -> tweens !! k = Some tw ->
         Timeline.tween it = Tween.with_managedByTimeline true tw
         /\ Timeline._hasStartedInternal it = false
         /\ Timeline.startTime it
            = fold_left (fun m tw' => m + (Tween.duration tw' + g)) (take k tweens) off.
Proof. cbv zeta. unfold Timeline.sequence. apply sequence_from_spec. Qed.

(** The second of two tweens of durations 1 and 2 appended with a gap of
    one half to the one-entry timeline (duration 1) starts at
    [1 + (1 + 1/2)]. *)
Lemma sequence_start_times_witness :
  exists it,
    Timeline.tweensWithMeta
      (Timeline.sequence [tween_a; tween_b]
         {| Timeline.offset := None; Timeline.gap := Some (1 # 2) |} timeline_a)
      !! 2%nat = Some it
    /\ Timeline.startTime it = 1 + (1 + (1 # 2)).
Proof.
  destruct (sequence_start_times timeline_a [tween_a; tween_b]
              {| Timeline.offset := None; Timeline.gap := Some (1 # 2) |})
    as (added & Hitems & Hlen & Hk).
  destruct added as [|x [|y [|z rest]]]; try discriminate Hlen.
  exists y. split; [rewrite Hitems; reflexivity|].
  destruct (Hk 1%nat y tween_b eq_refl eq_refl) as (_ & _ & Hs).
  rewrite Hs. reflexivity.
Defined.



(** *** Events of the tweens and of the timeline *)

Lemma avoids_refl (f : event -> bool) (w : World) : avoids f w w.
Proof. exists []. split; [unfold extends; rewrite app_nil_r|]; reflexivity. Qed.

Lemma avoids_trans (f : event -> bool) (w1 w2 w3 : World) :
  avoids f w1 w2 -> avoids f w2 w3 -> avoids f w1 w3.
Proof.
  intros (e1 & H1 & F1) (e2 & H2 & F2). exists (e1 ++ e2)%list. unfold extends in *.
  split; [rewrite H2, H1, app_assoc; reflexivity|].
  rewrite filter_app, F1, F2. reflexivity.
Qed.

Lemma avoids_emit (f : event -> bool) (e : event) (w : World) :
  f e = false -> avoids f w (emit e w).
Proof.
  intros He. exists [e]. split; [reflexivity|]. cbn. rewrite He. reflexivity.
Qed.

Lemma avoids_emit_if (f : event -> bool) (cb : option nat) (e : nat -> event) (w : World) :
  (forall k, f (e k) = false) -> avoids f w (emit_if cb e w).
Proof. intros He. destruct cb; [apply avoids_emit, He|apply avoids_refl]. Qed.

Lemma avoids_same_trace (f : event -> bool) (w w' : World) :
  trace w' = trace w -> avoids f w w'.
Proof.
  intros H. exists []. split; [unfold extends; rewrite app_nil_r; exact H|reflexivity].
Qed.

Lemma avoids_from (f : event -> bool) (w v v' : World) :
  trace v = trace w -> avoids f v v' -> avoids f w v'.
Proof. intros H (evs & He & Hf). exists evs. unfold extends in *. rewrite <- H. auto. Qed.

Lemma start_avoids (X : Tween.t) (w : World) :
  avoids is_timeline_complete w (snd (Tween.start X w)).
Proof.
  rewrite start_eq. cbv zeta.
  destruct (start_outcome X _); cbn [snd]; [|apply avoids_refl].
  destruct (Tween.sceneRef X); [destruct (negb _)|];
    try apply avoids_refl. apply avoids_emit. reflexivity.
Qed.

Lemma write_final_trace (Z : Tween.t) (w : World) :
  trace (Tween.write_final Z w) = trace w.
Proof.
  unfold Tween.write_final.
  destruct (Tween.rawEndValue Z); try reflexivity.
  destruct (typeof_object _ && negb (is_null _)); reflexivity.
Qed.

Lemma update_avoids (deltaTime : Q) (Z : Tween.t) (w : World) :
  avoids is_timeline_complete w (snd (Tween.update deltaTime Z w)).
Proof.
  unfold Tween.update.
  destruct (negb (Tween.isActive Z)); [apply avoids_refl|].
  cbv zeta.
  destruct (Tween.interpolate _ _ _) as [cv|]; [|apply avoids_refl].
  match goal with
  | |- context [emit_if (Tween.onUpdate ?Ze) ?e ?w1] =>
      set (w2 := emit_if (Tween.onUpdate Ze) e w1);
      assert (H2 : avoids is_timeline_complete w w2)
  end.
  { subst w2. eapply avoids_trans; [|apply avoids_emit_if; reflexivity].
    apply avoids_same_trace. destruct (negb (Tween.is_dummy _)); reflexivity. }
  destruct (Qle_bool 1 _); cbn [snd]; [|exact H2].
  eapply avoids_trans; [exact H2|].
  match goal with
  | |- context [emit_if (Tween.onComplete ?T) EvComplete ?w3] =>
      set (w4 := emit_if (Tween.onComplete T) EvComplete w3);
      assert (H4 : avoids is_timeline_complete w2 w4)
  end.
  { subst w4. eapply avoids_trans; [|apply avoids_emit_if; reflexivity].
    apply avoids_same_trace.
    destruct (negb (Tween.is_dummy _)); [apply write_final_trace|reflexivity]. }
  destruct (Tween.sceneRef _); [|exact H4].
  match goal with
  | |- context [if ?c then emit _ _ else _] => destruct c
  end; [|exact H4].
  eapply avoids_trans; [exact H4|]. apply avoids_emit. reflexivity.
Qed.

Lemma setProgress_avoids (p : Q) (X : Tween.t) (w : World) :
  avoids is_timeline_complete w (snd (Tween.setProgress p X w)).
Proof.
  unfold Tween.setProgress.
  destruct (negb (Tween.isActive X) && (Qltb 0 p && Qltb p 1)
            && is_null (Tween.startValue X)).
  - pose proof (start_avoids X w) as Hs.
    destruct (Tween.start X w) as [X1 w1]. cbn [snd] in Hs.
    eapply avoids_trans; [exact Hs|]. apply update_avoids.
  - apply update_avoids.
Qed.

Lemma resetToStart_avoids (X : Tween.t) (w : World) :
  avoids is_timeline_complete w (snd (Tween.resetToStart X w)).
Proof.
  apply avoids_same_trace. apply (resetToStart_touches X w).
Qed.

Lemma seek_item_avoids (now : Q) (it : Timeline.item) (w : World) :
  avoids is_timeline_complete w (snd (Timeline.seek_item now it w)).
Proof.
  unfold Timeline.seek_item.
  destruct (Qle_bool _ _ && Qltb _ _).
  - destruct (negb (Timeline._hasStartedInternal it)).
    + pose proof (start_avoids (Timeline.tween it) w) as Hs.
      destruct (Tween.start (Timeline.tween it) w) as [X1 w1]. cbn [snd] in Hs.
      pose proof (setProgress_avoids
                    ((now - Timeline.startTime it) / Tween.duration X1) X1 w1) as Hp.
      destruct (Tween.setProgress _ X1 w1) as [X2 w2]. cbn [snd] in *.
      eapply avoids_trans; eassumption.
    + pose proof (setProgress_avoids
                    ((now - Timeline.startTime it) / Tween.duration (Timeline.tween it))
                    (Timeline.tween it) w) as Hp.
      destruct (Tween.setProgress _ _ w) as [X2 w2]. exact Hp.
  - destruct (Qle_bool _ _).
    + destruct (Timeline._hasStartedInternal it && Tween.isActive (Timeline.tween it)).
      * pose proof (setProgress_avoids 1 (Timeline.tween it) w) as Hp.
        destruct (Tween.setProgress 1 _ w) as [X2 w2]. exact Hp.
      * destruct (negb (Timeline._hasStartedInternal it)); [|apply avoids_refl].
        pose proof (start_avoids (Timeline.tween it) w) as Hs.
        destruct (Tween.start (Timeline.tween it) w) as [X1 w1]. cbn [snd] in Hs.
        pose proof (setProgress_avoids 1 X1 w1) as Hp.
        destruct (Tween.setProgress 1 X1 w1) as [X2 w2]. cbn [snd] in *.
        eapply avoids_trans; eassumption.
    + destruct (Timeline._hasStartedInternal it); [|apply avoids_refl].
      pose proof (resetToStart_avoids (Timeline.tween it) w) as Hr.
      destruct (Tween.resetToStart _ w) as [X2 w2]. exact Hr.
Qed.

Lemma for_each_avoids (f : event -> bool)
    (body : Timeline.item -> World -> Timeline.item * World)
    (items : list Timeline.item) (w : World) :
  (forall it w, avoids f w (snd (body it w))) ->
  avoids f w (snd (Timeline.for_each body items w)).
Proof.
  intros Hb. revert w. induction items as [|it items IH]; intros w;
    cbn [Timeline.for_each]; [apply avoids_refl|].
  pose proof (Hb it w) as H1. destruct (body it w) as [it' w'].
  pose proof (IH w') as H2. destruct (Timeline.for_each body items w') as [rest w''].
  cbn [snd] in *. eapply avoids_trans; eassumption.
Qed.

Lemma for_each_meta (body : Timeline.item -> World -> Timeline.item * World)
    (items : list Timeline.item) (w : World) :
  (forall it w, Timeline.startTime (fst (body it w)) = Timeline.startTime it) ->
  map Timeline.startTime (fst (Timeline.for_each body items w))
  = map Timeline.startTime items.
Proof.
  intros Hb. revert w. induction items as [|it items IH]; intros w;
    cbn [Timeline.for_each]; [reflexivity|].
  pose proof (Hb it w) as H1. destruct (body it w) as [it' w'].
  pose proof (IH w') as H2. destruct (Timeline.for_each body items w') as [rest w''].
  cbn [fst map] in *. rewrite H1, H2. reflexivity.
Qed.

(** X19: [seek] moves the play-head and the tweens only: it neither starts nor
    stops the timeline, keeps its duration, time scale and loop flag and
    the start time of every entry, and never invokes the timeline's
    completion callback, wherever it lands. *)
Theorem seek_leaves_playback_alone (tl : Timeline.t) (w : World) (t : Q) :
  let '(tl', w') := Timeline.seek t tl w in
  Timeline.isPlaying tl' = Timeline.isPlaying tl
  /\ Timeline.duration tl' = Timeline.duration tl
  /\ Timeline.timeScale tl' = Timeline.timeScale tl
  /\ Timeline.loop tl' = Timeline.loop tl
  /\ map Timeline.startTime (Timeline.tweensWithMeta tl')
     = map Timeline.startTime (Timeline.tweensWithMeta tl)
  /\ avoids is_timeline_complete w w'.
Proof.
  unfold Timeline.seek.
  cbn [Timeline.currentTime Timeline.with_currentTime Timeline.tweensWithMeta
       Timeline.duration].
  set (now := Qmax 0 (Qmin t (Timeline.duration tl))).
  pose proof (for_each_avoids is_timeline_complete (Timeline.seek_item now)
                (Timeline.tweensWithMeta tl) w (seek_item_avoids now)) as Ha.
  pose proof (for_each_meta (Timeline.seek_item now) (Timeline.tweensWithMeta tl) w
                (fun it w => proj1 (proj2 (seek_item_touches now it w)))) as Hm.
  destruct (Timeline.for_each (Timeline.seek_item now) (Timeline.tweensWithMeta tl) w)
    as [items w'].
  cbn [fst snd] in *. repeat split; assumption.
Qed.

Lemma update_item_avoids (now : Q) (it : Timeline.item) (w : World) :
  avoids is_timeline_complete w (snd (Timeline.update_item now it w)).
Proof.
  unfold Timeline.update_item.
  destruct (Qle_bool _ _ && Qltb _ _).
  - destruct (negb (Timeline._hasStartedInternal it)).
    + pose proof (start_avoids (Timeline.tween it) w) as Hs.
      destruct (Tween.start (Timeline.tween it) w) as [X1 w1]. cbn [snd] in Hs.
      pose proof (setProgress_avoids
                    ((now - Timeline.startTime it)
                     / Tween.duration (Tween.with_isActive true X1))
                    (Tween.with_isActive true X1) w1) as Hp.
      destruct (Tween.setProgress _ (Tween.with_isActive true X1) w1) as [X2 w2].
      cbn [snd] in *. eapply avoids_trans; eassumption.
    + pose proof (setProgress_avoids
                    ((now - Timeline.startTime it) / Tween.duration (Timeline.tween it))
                    (Timeline.tween it) w) as Hp.
      destruct (Tween.setProgress _ _ w) as [X2 w2]. exact Hp.
  - destruct (Qle_bool _ _).
    + destruct (Timeline._hasStartedInternal it && Tween.isActive (Timeline.tween it));
        [|apply avoids_refl].
      pose proof (setProgress_avoids 1 (Timeline.tween it) w) as Hp.
      destruct (Tween.setProgress 1 _ w) as [X2 w2]. exact Hp.
    + destruct (Qltb _ _ && Timeline._hasStartedInternal it); [|apply avoids_refl].
      pose proof (resetToStart_avoids (Timeline.tween it) w) as Hr.
      destruct (Tween.resetToStart _ w) as [X2 w2]. exact Hr.
Qed.

Lemma finish_item_avoids (it : Timeline.item) (w : World) :
  avoids is_timeline_complete w (snd (Timeline.finish_item it w)).
Proof.
  unfold Timeline.finish_item.
  destruct (Timeline._hasStartedInternal it && Tween.isActive (Timeline.tween it));
    [|apply avoids_refl].
  pose proof (setProgress_avoids 1 (Timeline.tween it) w) as Hp.
  destruct (Tween.setProgress 1 _ w) as [X2 w2]. exact Hp.
Qed.

(** X20: a playing timeline that does not loop and whose play-head reaches its
    duration: [update] stops it and invokes the timeline's completion
    callback once, after whatever the tweens signal; every later [update]
    does nothing. *)
Theorem timeline_completes_once (tl : Timeline.t) (w : World) (deltaTime : Q) :
  Timeline.isPlaying tl = true ->
  Timeline.loop tl = false ->
  Timeline.duration tl <= Timeline.currentTime tl + deltaTime * Timeline.timeScale tl ->
  let '(tl1, w1) := Timeline.update deltaTime tl w in
  Timeline.isPlaying tl1 = false
  /\ (exists evs,
        trace w1
        = (trace w ++ evs
           ++ match Timeline.onCompleteCallback tl with
              | Some cb => [EvTimelineComplete cb] | None => [] end)%list
        /\ filter is_timeline_complete evs = [])
  /\ forall dt, Timeline.update dt tl1 w1 = (tl1, w1).
Proof.
  intros Hp Hl Hd. apply Qle_bool_iff in Hd.
  unfold Timeline.update. cbn [Timeline.update_fuel]. rewrite Hp. cbn [negb].
  cbn [Timeline.duration Timeline.currentTime Timeline.with_currentTime
       Timeline.tweensWithMeta Timeline.timeScale].
  pose proof (for_each_avoids is_timeline_complete
                (Timeline.update_item
                   (Timeline.currentTime tl + deltaTime * Timeline.timeScale tl))
                (Timeline.tweensWithMeta tl) w
                (update_item_avoids _)) as Ha.
  destruct (Timeline.for_each _ (Timeline.tweensWithMeta tl) w) as [items w'].
  cbn [snd] in Ha.
  cbn [Timeline.duration Timeline.currentTime Timeline.with_items Timeline.loop
       Timeline.with_currentTime Timeline.timeScale Timeline.with_isPlaying
       Timeline.tweensWithMeta Timeline.onCompleteCallback].
  rewrite Hd, Hl.
  pose proof (for_each_avoids is_timeline_complete Timeline.finish_item items w'
                finish_item_avoids) as Hb.
  destruct (Timeline.for_each Timeline.finish_item items w') as [items' w''].
  cbn [snd] in Hb.
  split; [reflexivity|]. split.
  - destruct (avoids_trans _ _ _ _ Ha Hb) as (evs & He & Hf).
    exists evs. split; [|exact Hf].
    rewrite trace_emit_if. rewrite He. rewrite <- app_assoc. reflexivity.
  - intros dt. reflexivity.
Qed.

Lemma timeline_completes_once_witness :
  let '(tl0, w0) := Timeline.play timeline_a world_x0 in
  let '(tl1, w1) := Timeline.update 2 tl0 w0 in
  Timeline.isPlaying tl1 = false /\ Timeline.update 1 tl1 w1 = (tl1, w1).
Proof.
  assert (Hd : Timeline.duration (fst (Timeline.play timeline_a world_x0))
               <= Timeline.currentTime (fst (Timeline.play timeline_a world_x0))
                  + 2 * Timeline.timeScale (fst (Timeline.play timeline_a world_x0)))
    by discriminate.
  pose proof (timeline_completes_once (fst (Timeline.play timeline_a world_x0))
                (snd (Timeline.play timeline_a world_x0)) 2 eq_refl eq_refl Hd) as H.
  destruct (Timeline.play timeline_a world_x0) as [tl0 w0]. cbn [fst snd] in H.
  destruct (Timeline.update 2 tl0 w0) as [tl1 w1].
  destruct H as (H1 & _ & H3). split; [exact H1|apply H3].
Defined.

Lemma reset_all_trace (tl : Timeline.t) (w : World) :
  trace (snd (Timeline.resetAllTweensState tl w)) = trace w.
Proof. rewrite resetAllTweensState_spec. reflexivity. Qed.

(** X21: a playing timeline that loops, of positive duration: [update] keeps
    it playing and never invokes the timeline's completion callback.
    Short of the duration the play-head advances by the scaled delta; when
    it reaches the duration it wraps to the remainder by the duration,
    which lies in [[0, duration)]. *)
Theorem looping_timeline_wraps (tl : Timeline.t) (w : World) (deltaTime : Q) :
  Timeline.isPlaying tl = true ->
  Timeline.loop tl = true ->
  0 < Timeline.duration tl ->
  let t := Timeline.currentTime tl + deltaTime * Timeline.timeScale tl in
  let '(tl1, w1) := Timeline.update deltaTime tl w in
  Timeline.isPlaying tl1 = true
  /\ Timeline.duration tl1 = Timeline.duration tl
  /\ (t < Timeline.duration tl -> Timeline.currentTime tl1 = t)
  /\ (Timeline.duration tl <= t ->
      Timeline.currentTime tl1 == Qrem t (Timeline.duration tl)
      /\ 0 <= Timeline.currentTime tl1 /\ Timeline.currentTime tl1 < Timeline.duration tl)
  /\ avoids is_timeline_complete w w1.
Proof.
  intros Hp Hl Hd t.
  unfold Timeline.update. cbn [Timeline.update_fuel]. rewrite Hp. cbn [negb].
  cbn [Timeline.duration Timeline.currentTime Timeline.with_currentTime
       Timeline.tweensWithMeta Timeline.timeScale].
  fold t.
  pose proof (for_each_avoids is_timeline_complete (Timeline.update_item t)
                (Timeline.tweensWithMeta tl) w (update_item_avoids _)) as Ha.
  destruct (Timeline.for_each _ (Timeline.tweensWithMeta tl) w) as [items w'].
  cbn [snd] in Ha.
  cbn [Timeline.duration Timeline.currentTime Timeline.with_items Timeline.loop
       Timeline.with_currentTime Timeline.timeScale Timeline.with_isPlaying
       Timeline.tweensWithMeta Timeline.onCompleteCallback].
  rewrite Hl.
  destruct (Qle_bool (Timeline.duration tl) t) eqn:Ec.
  - apply Qle_bool_iff in Ec.
    destruct (Qrem_bound _ _ Hd Ec) as [Hlo Hhi].
    rewrite resetAllTweensState_spec.
    cbn [Timeline.tweensWithMeta Timeline.with_items Timeline.with_currentTime
         Timeline.isPlaying Timeline.currentTime Timeline.timeScale
         Timeline.duration Timeline.loop negb].
    rewrite Hp. cbn [negb].
    set (now := Qrem t (Timeline.duration tl) + 0 * Timeline.timeScale tl).
    assert (Hnow : now == Qrem t (Timeline.duration tl)) by (subst now; ring).
    set (w2 := {| heap := fold_left write_back items (heap w'); trace := trace w' |}).
    pose proof (for_each_avoids is_timeline_complete (Timeline.update_item now)
                  (map unstarted items) w2 (update_item_avoids _)) as Hb.
    destruct (Timeline.for_each (Timeline.update_item now) (map unstarted items) w2)
      as [items2 w3].
    cbn [snd] in Hb.
    cbn [Timeline.duration Timeline.currentTime Timeline.with_items Timeline.loop
         Timeline.with_currentTime Timeline.timeScale Timeline.with_isPlaying
         Timeline.tweensWithMeta Timeline.isPlaying].
    assert (Hno : Qle_bool (Timeline.duration tl) now = false).
    { destruct (Qle_bool (Timeline.duration tl) now) eqn:E; [|reflexivity].
      apply Qle_bool_iff in E. exfalso. rewrite Hnow in E.
      apply (Qlt_irrefl (Timeline.duration tl)).
      eapply Qle_lt_trans; [exact E|exact Hhi]. }
    rewrite Hno.
    cbn [Timeline.duration Timeline.currentTime Timeline.with_items Timeline.loop
         Timeline.with_currentTime Timeline.timeScale Timeline.with_isPlaying
         Timeline.tweensWithMeta Timeline.isPlaying].
    split; [exact Hp|]. split; [reflexivity|]. split.
    + intros Hlt. exfalso. apply (Qlt_irrefl t).
      eapply Qlt_le_trans; [exact Hlt|exact Ec].
    + split.
      * intros _. split; [exact Hnow|]. rewrite Hnow. split; assumption.
      * eapply avoids_trans; [exact Ha|].
        apply (avoids_from _ w' w2 w3); [reflexivity|exact Hb].
  - cbn [Timeline.duration Timeline.currentTime Timeline.with_items Timeline.loop
         Timeline.with_currentTime Timeline.timeScale Timeline.with_isPlaying
         Timeline.tweensWithMeta Timeline.isPlaying].
    split; [exact Hp|]. split; [reflexivity|]. split; [reflexivity|]. split.
    + intros Hge. apply Qle_bool_iff in Hge. rewrite Hge in Ec. discriminate Ec.
    + exact Ha.
Qed.

Lemma looping_timeline_wraps_witness :
  let tl := fst (Timeline.play (Timeline.setLoop true timeline_a) world_x0) in
  let '(tl1, w1) := Timeline.update (3 # 2) tl world_x0 in
  Timeline.isPlaying tl1 = true /\ Timeline.currentTime tl1 == 1 # 2.
Proof.
  cbv zeta.
  assert (Hd : 0 < Timeline.duration
                     (fst (Timeline.play (Timeline.setLoop true timeline_a) world_x0)))
    by reflexivity.
  pose proof (looping_timeline_wraps
                (fst (Timeline.play (Timeline.setLoop true timeline_a) world_x0))
                world_x0 (3 # 2) eq_refl eq_refl Hd) as H.
  cbv zeta in H.
  destruct (Timeline.update (3 # 2)
              (fst (Timeline.play (Timeline.setLoop true timeline_a) world_x0)) world_x0)
    as [tl1 w1].
  destruct H as (Hp & _ & _ & Hw & _). split; [exact Hp|].
  assert (Hge : Timeline.duration
                  (fst (Timeline.play (Timeline.setLoop true timeline_a) world_x0))
                <= Timeline.currentTime
                     (fst (Timeline.play (Timeline.setLoop true timeline_a) world_x0))
                   + (3 # 2)
                     * Timeline.timeScale
                         (fst (Timeline.play (Timeline.setLoop true timeline_a) world_x0)))
    by discriminate.
  destruct (Hw Hge) as (Hc & _). rewrite Hc. reflexivity.
Defined.

(** *** What [seek] shows *)

Lemma heap_writable_same (h h' : gmap nat value) (X : Tween.t) :
  h !! Tween.target X = h' !! Tween.target X -> heap_writable h X = heap_writable h' X.
Proof. unfold heap_writable. intros ->. reflexivity. Qed.

Lemma start_number (X : Tween.t) (w : World) (s0 e : Q) :
  Tween.is_dummy X = false ->
  bound (heap w) X = VNum s0 -> Tween.endValue X = VNum e ->
  fst (Tween.start X w)
  = Tween.with_isActive true
      (Tween.with_elapsedTime 0
         (Tween.with_startValue (VNum s0) (Tween.with_raw (VNum s0) (VNum e) X)))
  /\ heap (snd (Tween.start X w)) = heap w.
Proof.
  intros Hd Hb He. rewrite start_eq. cbv zeta. rewrite Hb, He.
  unfold start_outcome. rewrite Hd, He. cbn [is_undefined andb].
  unfold Tween.capture. cbn. split; [reflexivity|].
  destruct (Tween.sceneRef X); [destruct (negb _)|]; reflexivity.
Qed.






(** ** Shapes that animate themselves *)

(** [setProgress(p)] on an active tween whose value [interpolate] computes
    as [f], when the progress that [update] computes stays below 1: the
    binding holds [f] of that progress. *)
Lemma setProgress_short (p : Q) (X : Tween.t) (w : World) (f : Q -> value) :
  Tween.isActive X = true -> Tween.is_dummy X = false ->
  heap_writable (heap w) X = true ->
  (forall Y pr,
     Tween.startValue Y = Tween.startValue X ->
     Tween.rawStartValue Y = Tween.rawStartValue X ->
     Tween.rawEndValue Y = Tween.rawEndValue X ->
     Tween.is_dummy Y = Tween.is_dummy X ->
     Tween.interpolate Y (Tween.easingFn X pr) pr = Some (f pr)) ->
  progress_at p X < 1 ->
  Tween.isActive (fst (Tween.setProgress p X w)) = true
  /\ bound (heap (snd (Tween.setProgress p X w))) X = f (progress_at p X).
Proof.
  intros Ha Hd Hw Hf Hlt.
  rewrite (setProgress_active p X w Ha).
  set (Z := Tween.with_elapsedTime (Qmin (Qmax 0 p) 1 * Tween.duration X) X).
  unfold Tween.update. change (Tween.isActive Z) with (Tween.isActive X).
  rewrite Ha. cbn [negb].
  set (Ze := if negb (Tween._managedByTimeline Z)
             then Tween.with_elapsedTime (Tween.elapsedTime Z + 0) Z else Z).
  assert (HZ : Tween.startValue Ze = Tween.startValue X
               /\ Tween.rawStartValue Ze = Tween.rawStartValue X
               /\ Tween.rawEndValue Ze = Tween.rawEndValue X
               /\ Tween.is_dummy Ze = Tween.is_dummy X
               /\ Tween.target Ze = Tween.target X
               /\ Tween.propertyPath Ze = Tween.propertyPath X
               /\ Tween.easingFn Ze = Tween.easingFn X
               /\ Tween.isActive Ze = true
               /\ Qmin (Tween.elapsedTime Ze / Tween.duration Ze) 1 = progress_at p X).
  { subst Ze. unfold progress_at.
    change (Tween._managedByTimeline Z) with (Tween._managedByTimeline X).
    destruct (negb (Tween._managedByTimeline X)); subst Z;
      repeat split; assumption. }
  destruct HZ as (HsZ & HrZ & HeZ & HdZ & Ht & Hpa & Hea & HaZ & Hpr).
  cbv zeta. rewrite Hpr, Hea. rewrite (Hf Ze _ HsZ HrZ HeZ HdZ).
  assert (Hbelow : Qle_bool 1 (progress_at p X) = false).
  { destruct (Qle_bool 1 (progress_at p X)) eqn:E; [|reflexivity].
    apply Qle_bool_iff in E. exfalso. apply (Qlt_not_le _ _ Hlt E). }
  rewrite Hbelow. rewrite HdZ, Hd, Ht, Hpa. cbn [negb fst snd].
  split; [exact HaZ|].
  unfold bound. rewrite heap_emit_if. apply (bound_write X w _ Hw).
Qed.

(** X23: [PolygonShape.morphTo] refuses a target of another length.  For a
    target of the same length it returns a tween that [start()] accepts
    and that moves every point along the straight line to its target.
    After [setProgress(p)], with [pr] the progress that [update] computes,
    [min((clamp(p) * duration + 0) / duration, 1)]: while [pr] is below 1
    the polygon holds, for each pair of points, their interpolation at
    [easing(pr)]; for [p] at or above 1 it holds exactly the target
    points. *)
Theorem morphTo_moves_every_point (this : ref) (fs : list (string * value))
    (ps targetPoints : list (Q * Q)) (duration : Q) (easing : Q -> Q)
    (sceneRef : option nat) (w : World) (p : Q) :
  heap w !! this = Some (VObj fs) ->
  lookup_field "points" fs = Some (VPoints ps) ->
  0 < duration ->
  (length ps <> length targetPoints ->
   PolygonShape.morphTo this targetPoints duration easing sceneRef w = None)
  /\ (length ps = length targetPoints ->
      exists tw,
        PolygonShape.morphTo this targetPoints duration easing sceneRef w = Some tw
        /\ let '(tw1, w1) := Tween.start tw w in
           let pr := progress_at p tw1 in
           Tween.isActive tw1 = true
           /\ pr = Qmin ((Qmin (Qmax 0 p) 1 * duration + 0) / duration) 1
           /\ (pr < 1 ->
               heap_get (heap (snd (Tween.setProgress p tw1 w1))) this ["points"]
               = VPoints (zip_with (Tween.lerp_point (easing pr)) ps targetPoints))
           /\ (1 <= p ->
               heap_get (heap (snd (Tween.setProgress p tw1 w1))) this ["points"]
               = VPoints targetPoints)).
Proof.
  intros Hobj Hpts Hdur.
  assert (Hget : heap_get (heap w) this ["points"] = VPoints ps).
  { unfold heap_get. rewrite Hobj. cbn. unfold get_prop. cbn [own_fields].
    rewrite Hpts. reflexivity. }
  unfold PolygonShape.morphTo. rewrite Hget. cbn [array_length].
  split.
  { intros Hne. apply Nat.eqb_neq in Hne. rewrite Hne. reflexivity. }
  intros Hlen. pose proof Hlen as Hlen'. apply Nat.eqb_eq in Hlen'. rewrite Hlen'.
  cbn [negb]. eexists. split; [reflexivity|].
  set (tw := Tween.constructor this "points" (clone (VPoints targetPoints)) duration
               easing sceneRef).
  assert (Hw : heap_writable (heap w) tw = true).
  { unfold heap_writable. cbn. rewrite Hobj. reflexivity. }
  assert (Hb : bound (heap w) tw = VPoints ps) by exact Hget.
  assert (Hd : Tween.is_dummy tw = false) by reflexivity.
  assert (Ho : start_outcome tw (VPoints ps) = Some (VPoints ps)).
  { unfold start_outcome. rewrite Hd. cbn [is_undefined andb].
    unfold Tween.capture. cbn. rewrite Hlen'.
    destruct ps, targetPoints; try discriminate Hlen; reflexivity. }
  pose proof (start_eq tw w) as E1. cbv zeta in E1. rewrite Hb, Ho in E1.
  assert (Hne : ~ Tween.duration tw == 0).
  { intros E. cbn in E. rewrite E in Hdur. discriminate Hdur. }
  assert (Hev : forall fs', Tween.endValue tw <> VObj fs') by discriminate.
  assert (Hact : Tween.isActive (fst (Tween.start tw w)) = true)
    by (rewrite E1; reflexivity).
  pose proof (fun H1 => start_then_complete tw w p Hw Hd Hne Hev H1 Hact) as Hc.
  destruct (Tween.start tw w) as [tw1 w1].
  injection E1 as E1 Ew1.
  assert (Hh1 : heap w1 = heap w).
  { rewrite Ew1. generalize sceneRef. intros [sc|]; reflexivity. }
  cbv zeta.
  split; [rewrite E1; reflexivity|]. split; [rewrite E1; reflexivity|]. split.
  - intros Hlt.
    assert (Hw1 : heap_writable (heap w1) tw1 = true).
    { rewrite E1. unfold heap_writable. cbn. rewrite Hh1, Hobj. reflexivity. }
    assert (Ha1 : Tween.isActive tw1 = true) by (rewrite E1; reflexivity).
    assert (Hd1 : Tween.is_dummy tw1 = false) by (rewrite E1; reflexivity).
    assert (Hf : forall Y pr,
               Tween.startValue Y = Tween.startValue tw1 ->
               Tween.rawStartValue Y = Tween.rawStartValue tw1 ->
               Tween.rawEndValue Y = Tween.rawEndValue tw1 ->
               Tween.is_dummy Y = Tween.is_dummy tw1 ->
               Tween.interpolate Y (Tween.easingFn tw1 pr) pr
               = Some (VPoints (zip_with (Tween.lerp_point (easing pr)) ps targetPoints))).
    { intros Y pr Hs Hr He HdY. unfold Tween.interpolate.
      rewrite Hs, Hr, He, HdY, E1. cbn. rewrite Hlen'.
      destruct ps, targetPoints; try discriminate Hlen; reflexivity. }
    destruct (setProgress_short p tw1 w1
                (fun pr => VPoints (zip_with (Tween.lerp_point (easing pr)) ps targetPoints))
                Ha1 Hd1 Hw1 Hf Hlt)
      as (_ & Hbd).
    unfold bound in Hbd. rewrite E1 in Hbd at 2 3. exact Hbd.
  - intros Hp. specialize (Hc Hp).
    destruct (Tween.setProgress p tw1 w1) as [tw2 w2]. cbn [snd].
    destruct Hc as (Hbd & _). exact Hbd.
Qed.

(** The segment from (0, 0) to (2, 0) morphing to the one from (0, 4) to
    (2, 8) over one second: half way it runs from (0, 2) to (2, 4), and at
    the end it is the target. *)
Lemma morphTo_moves_every_point_witness :
  let w := {| heap := {[ 0%nat := VObj [("points", VPoints [(0, 0); (2, 0)])] ]};
              trace := [] |} in
  exists tw,
    PolygonShape.morphTo 0 [(0, 4); (2, 8)] 1 linear None w = Some tw
    /\ heap_get (heap (snd (Tween.setProgress (1 # 2) (fst (Tween.start tw w))
                              (snd (Tween.start tw w))))) 0 ["points"]
       = VPoints (zip_with (Tween.lerp_point (Qmin (((1 # 2) * 1 + 0) / 1) 1))
                    [(0, 0); (2, 0)] [(0, 4); (2, 8)]).
Proof.
  cbv zeta.
  assert (Hobj : heap {| heap := {[ 0%nat := VObj [("points", VPoints [(0, 0); (2, 0)])] ]};
                         trace := [] |} !! 0%nat
                 = Some (VObj [("points", VPoints [(0, 0); (2, 0)])]))
    by (vm_compute; reflexivity).
  destruct (morphTo_moves_every_point 0 [("points", VPoints [(0, 0); (2, 0)])]
              [(0, 0); (2, 0)] [(0, 4); (2, 8)] 1 linear None
              {| heap := {[ 0%nat := VObj [("points", VPoints [(0, 0); (2, 0)])] ]};
                 trace := [] |} (1 # 2) Hobj eq_refl eq_refl) as [_ H].
  destruct (H eq_refl) as (tw & Htw & Hrest).
  exists tw. split; [exact Htw|].
  destruct (Tween.start tw _) as [tw1 w1]. cbn [fst snd].
  cbv zeta in Hrest.
  destruct Hrest as (_ & Hpr & Hin & _).
  rewrite (Hin ltac:(rewrite Hpr; reflexivity)), Hpr. reflexivity.
Defined.

(** X24: [FunctionPlot.createAnimation] hides the curve and returns a tween
    that draws it.  After [start()] and [setProgress(p)], with [pr] the
    progress that [update] computes,
    [min((clamp(p) * duration + 0) / duration, 1)]: while [pr] is below 1,
    [drawProgress] holds [0 + (1 - 0) * easing(pr)]; for [p] at or above 1
    it holds exactly 1. *)
Theorem createAnimation_draws_the_curve (this : ref) (fs : list (string * value))
    (duration : Q) (easing : Q -> Q) (sceneRef : option nat) (w : World) (p : Q) :
  heap w !! this = Some (VObj fs) ->
  0 < duration ->
  let '(tw, w0) := FunctionPlot.createAnimation this duration easing sceneRef w in
  heap_get (heap w0) this ["drawProgress"] = VNum 0
  /\ let '(tw1, w1) := Tween.start tw w0 in
     let pr := progress_at p tw1 in
     Tween.isActive tw1 = true
     /\ pr = Qmin ((Qmin (Qmax 0 p) 1 * duration + 0) / duration) 1
     /\ (pr < 1 ->
         heap_get (heap (snd (Tween.setProgress p tw1 w1))) this ["drawProgress"]
         = VNum (0 + (1 - 0) * easing pr))
     /\ (1 <= p ->
         heap_get (heap (snd (Tween.setProgress p tw1 w1))) this ["drawProgress"]
         = VNum 1).
Proof.
  intros Hobj Hdur. unfold FunctionPlot.createAnimation.
  set (w0 := write this ["drawProgress"] (VNum 0) w).
  set (tw := Tween.constructor this "drawProgress" (VNum 1) duration easing sceneRef).
  assert (Hw : heap_writable (heap w0) tw = true).
  { unfold heap_writable. subst w0. cbn [write heap Tween.target tw Tween.constructor].
    rewrite heap_set_at, Hobj. reflexivity. }
  assert (Hb : bound (heap w0) tw = VNum 0).
  { unfold bound, heap_get. subst w0. cbn [write heap Tween.target tw Tween.constructor].
    rewrite heap_set_at, Hobj.
    change (Tween.propertyPath tw) with ["drawProgress"].
    cbn [_setDeepProperty _getDeepProperty set_prop is_nullish is_undefined is_null orb].
    apply get_prop_set_field. }
  split; [exact Hb|].
  assert (Hd : Tween.is_dummy tw = false) by reflexivity.
  destruct (start_number tw w0 0 1 Hd Hb eq_refl) as [E1 Hh1].
  assert (Hne : ~ Tween.duration tw == 0).
  { intros E. cbn in E. rewrite E in Hdur. discriminate Hdur. }
  assert (Hev : forall fs', Tween.endValue tw <> VObj fs') by discriminate.
  assert (Hact : Tween.isActive (fst (Tween.start tw w0)) = true)
    by (rewrite E1; reflexivity).
  pose proof (fun H1 => start_then_complete tw w0 p Hw Hd Hne Hev H1 Hact) as Hc.
  destruct (Tween.start tw w0) as [tw1 w1]. cbn [fst snd] in *.
  cbv zeta.
  split; [rewrite E1; reflexivity|]. split; [rewrite E1; reflexivity|]. split.
  - intros Hlt.
    assert (Hw1 : heap_writable (heap w1) tw1 = true).
    { rewrite (heap_writable_same _ (heap w0)) by (rewrite Hh1; reflexivity).
      rewrite E1. exact Hw. }
    assert (Ha1 : Tween.isActive tw1 = true) by (rewrite E1; reflexivity).
    assert (Hd1 : Tween.is_dummy tw1 = false) by (rewrite E1; reflexivity).
    assert (Hf : forall Y pr,
               Tween.startValue Y = Tween.startValue tw1 ->
               Tween.rawStartValue Y = Tween.rawStartValue tw1 ->
               Tween.rawEndValue Y = Tween.rawEndValue tw1 ->
               Tween.is_dummy Y = Tween.is_dummy tw1 ->
               Tween.interpolate Y (Tween.easingFn tw1 pr) pr
               = Some (VNum (0 + (1 - 0) * easing pr))).
    { intros Y pr Hs Hr He HdY. unfold Tween.interpolate.
      rewrite Hs, Hr, He, HdY, E1. reflexivity. }
    destruct (setProgress_short p tw1 w1 (fun pr => VNum (0 + (1 - 0) * easing pr))
                Ha1 Hd1 Hw1 Hf Hlt) as (_ & Hbd).
    unfold bound in Hbd. rewrite E1 in Hbd at 2 3. exact Hbd.
  - intros Hp. specialize (Hc Hp).
    destruct (Tween.setProgress p tw1 w1) as [tw2 w2]. cbn [snd].
    destruct Hc as (Hbd & _). exact Hbd.
Qed.

(** On the object at reference 0, with two seconds and linear easing:
    [drawProgress] is 0 after [createAnimation], and after [start()] and
    [setProgress(0.25)] it holds [0 + (1 - 0) * pr] for the progress [pr]
    computed from 0.25. *)
Lemma createAnimation_draws_the_curve_witness :
  let '(tw, w0) := FunctionPlot.createAnimation 0 2 linear None world_x0 in
  heap_get (heap w0) 0 ["drawProgress"] = VNum 0
  /\ heap_get (heap (snd (Tween.setProgress (1 # 4) (fst (Tween.start tw w0))
                            (snd (Tween.start tw w0))))) 0 ["drawProgress"]
     = VNum (0 + (1 - 0) * Qmin (((1 # 4) * 2 + 0) / 2) 1).
Proof.
  assert (Hobj : heap world_x0 !! 0%nat = Some (VObj [("x", VNum 0)]))
    by (vm_compute; reflexivity).
  pose proof (createAnimation_draws_the_curve 0 [("x", VNum 0)] 2 linear None world_x0
                (1 # 4) Hobj eq_refl) as H.
  destruct (FunctionPlot.createAnimation 0 2 linear None world_x0) as [tw w0].
  destruct H as [H0 H]. split; [exact H0|].
  destruct (Tween.start tw w0) as [tw1 w1]. cbn [fst snd].
  cbv zeta in H. destruct H as (_ & Hpr & Hin & _).
  rewrite (Hin ltac:(rewrite Hpr; reflexivity)), Hpr. reflexivity.
Defined.

(** ** Colour tweens *)

(** X25: a tween between two colour strings that [parseColor] accepts is
    accepted by [start()].  After [setProgress(p)], with [pr] the progress
    that [update] computes: while [pr] is below 1 the binding holds
    [interpolateColor(start, end, easing(pr))]; for [p] at or above 1 it
    holds exactly the end string as it was given. *)
Theorem color_tween_progress (tw0 : Tween.t) (w0 : World) (p : Q) (s e : string) :
  heap_writable (heap w0) tw0 = true ->
  Tween.is_dummy tw0 = false ->
  bound (heap w0) tw0 = VStr s ->
  Tween.endValue tw0 = VStr e ->
  is_color s && is_color e = true ->
  ~ Tween.duration tw0 == 0 ->
  let '(tw1, w1) := Tween.start tw0 w0 in
  let pr := progress_at p tw1 in
  Tween.isActive tw1 = true
  /\ pr = progress_at p tw0
  /\ (pr < 1 ->
      bound (heap (snd (Tween.setProgress p tw1 w1))) tw0
      = VStr (interpolateColor s e (Tween.easingFn tw0 pr)))
  /\ (1 <= p -> bound (heap (snd (Tween.setProgress p tw1 w1))) tw0 = VStr e).
Proof.
  intros Hw Hd Hb He Hc Hne.
  assert (Ho : start_outcome tw0 (VStr s) = Some (VStr s)).
  { unfold start_outcome. rewrite Hd. cbn [is_undefined andb].
    unfold Tween.capture. rewrite He. cbn [Tween.both_colors]. rewrite Hc. reflexivity. }
  pose proof (start_eq tw0 w0) as E1. cbv zeta in E1. rewrite Hb, Ho, He in E1.
  assert (Hev : forall fs', Tween.endValue tw0 <> VObj fs') by (rewrite He; discriminate).
  assert (Hact : Tween.isActive (fst (Tween.start tw0 w0)) = true)
    by (rewrite E1; reflexivity).
  pose proof (fun H1 => start_then_complete tw0 w0 p Hw Hd Hne Hev H1 Hact) as Hcomp.
  destruct (Tween.start tw0 w0) as [tw1 w1].
  injection E1 as E1 Ew1.
  assert (Hh1 : heap w1 = heap w0).
  { rewrite Ew1. destruct (Tween.sceneRef tw0); [destruct (negb _)|]; reflexivity. }
  cbv zeta.
  split; [rewrite E1; reflexivity|]. split; [rewrite E1; reflexivity|]. split.
  - intros Hlt.
    assert (Ha1 : Tween.isActive tw1 = true) by (rewrite E1; reflexivity).
    assert (Hd1 : Tween.is_dummy tw1 = false) by (rewrite E1; exact Hd).
    assert (Hw1 : heap_writable (heap w1) tw1 = true).
    { rewrite E1. unfold heap_writable. cbn [Tween.target Tween.propertyPath
        Tween.with_isActive Tween.with_elapsedTime Tween.with_startValue Tween.with_raw].
      rewrite Hh1. exact Hw. }
    assert (Hf : forall Y pr,
               Tween.startValue Y = Tween.startValue tw1 ->
               Tween.rawStartValue Y = Tween.rawStartValue tw1 ->
               Tween.rawEndValue Y = Tween.rawEndValue tw1 ->
               Tween.is_dummy Y = Tween.is_dummy tw1 ->
               Tween.interpolate Y (Tween.easingFn tw1 pr) pr
               = Some (VStr (interpolateColor s e (Tween.easingFn tw0 pr)))).
    { intros Y pr Hs Hr HeY HdY. unfold Tween.interpolate.
      rewrite Hr, HeY, E1.
      cbn [Tween.rawStartValue Tween.rawEndValue Tween.easingFn Tween.with_isActive
           Tween.with_elapsedTime Tween.with_startValue Tween.with_raw Tween.both_colors].
      rewrite Hc. reflexivity. }
    destruct (setProgress_short p tw1 w1
                (fun pr => VStr (interpolateColor s e (Tween.easingFn tw0 pr)))
                Ha1 Hd1 Hw1 Hf Hlt)
      as (_ & Hbd).
    unfold bound in Hbd |- *. rewrite E1 in Hbd at 2 3. exact Hbd.
  - intros Hp. specialize (Hcomp Hp).
    destruct (Tween.setProgress p tw1 w1) as [tw2 w2]. cbn [snd].
    destruct Hcomp as (Hbd & _). rewrite Hbd. exact He.
Qed.

(** [fill] from [#000] to [#fff] over two seconds with linear easing: half
    way the binding holds the grey [rgba(128,128,128,1)], and at the end
    the string [#fff] itself. *)
Lemma color_tween_progress_witness :
  let w0 := {| heap := {[ 0%nat := VObj [("fill", VStr "#000")] ]}; trace := [] |} in
  let tw0 := Tween.constructor 0 "fill" (VStr "#fff") 2 linear None in
  bound (heap (snd (Tween.setProgress (1 # 2) (fst (Tween.start tw0 w0))
                      (snd (Tween.start tw0 w0))))) tw0
  = VStr "rgba(128,128,128,1)"
  /\ bound (heap (snd (Tween.setProgress 1 (fst (Tween.start tw0 w0))
                         (snd (Tween.start tw0 w0))))) tw0
     = VStr "#fff".
Proof.
  cbv zeta.
  assert (Hne : ~ Tween.duration (Tween.constructor 0 "fill" (VStr "#fff") 2 linear None)
                  == 0) by discriminate.
  pose proof (fun q => color_tween_progress
                (Tween.constructor 0 "fill" (VStr "#fff") 2 linear None)
                {| heap := {[ 0%nat := VObj [("fill", VStr "#000")] ]}; trace := [] |}
                q "#000" "#fff" eq_refl eq_refl eq_refl eq_refl eq_refl Hne) as H.
  destruct (Tween.start _ _) as [tw1 w1]. cbn [fst snd].
  split.
  - specialize (H (1 # 2)). cbv zeta in H. destruct H as (_ & Hpr & Hin & _).
    rewrite (Hin ltac:(rewrite Hpr; reflexivity)), Hpr. reflexivity.
  - specialize (H 1). cbv zeta in H. destruct H as (_ & _ & _ & H). apply H. discriminate.
Defined.

(** ** Colours *)

Lemma channel_range (num : option Z) (shift : Z) : (0 <= channel num shift <= 255)%Z.
Proof.
  unfold channel. change 255%Z with (Z.ones 8).
  rewrite Z.land_ones by lia.
  change (2 ^ 8)%Z with 256%Z.
  pose proof (Z.mod_pos_bound (Z.shiftr (match num with Some n => n | None => 0%Z end) shift)
                256 ltac:(lia)) as H.
  change (Z.ones 8) with 255%Z. lia.
Qed.

(** X26: every colour that [parseColor] reads from a [#] notation has its
    three channels between 0 and 255, whatever the characters after the
    [#] are. *)
Theorem hex_channels_in_range (s : string) (c : rgba) :
  starts_with "#" (trim s) = true ->
  parseColor s = Some c ->
  (0 <= r c <= 255 /\ 0 <= g c <= 255 /\ 0 <= b c <= 255)%Z.
Proof.
  intros Hs. unfold parseColor. rewrite Hs. cbv zeta.
  destruct (String.length _ =? 3)%nat;
    [|destruct (String.length _ =? 4)%nat; [|destruct (String.length _ =? 8)%nat]].
  all: match goal with
       | |- (if ?c then _ else _) = _ -> _ => destruct c; [|discriminate]
       end.
  all: intros [= <-]; cbn [r g b]; repeat split; apply channel_range.
Qed.

Lemma hex_channels_in_range_witness :
  exists c, parseColor " #1e90ff " = Some c /\ (0 <= r c <= 255)%Z.
Proof.
  eexists. split; [reflexivity|].
  apply (hex_channels_in_range " #1e90ff " _ eq_refl eq_refl).
Defined.

(** X27: the short [#] notations are the long ones with every digit doubled:
    [#abc] reads as [#aabbcc] and [#abcd] as [#aabbccdd], whatever the
    characters are, the last one being an ASCII character other than
    white space (which [trim] would remove). *)
Theorem hex_shorthand_doubles (c1 c2 c3 c4 : ascii) :
  let hash := "#"%char in
  ((nat_of_ascii c3 < 128)%nat -> is_space c3 = false ->
   parseColor (string_of_list_ascii [hash; c1; c2; c3])
   = parseColor (string_of_list_ascii [hash; c1; c1; c2; c2; c3; c3]))
  /\ ((nat_of_ascii c4 < 128)%nat -> is_space c4 = false ->
      parseColor (string_of_list_ascii [hash; c1; c2; c3; c4])
      = parseColor (string_of_list_ascii [hash; c1; c1; c2; c2; c3; c3; c4; c4])).
Proof.
  cbv zeta. split; intros _ Hc.
  - unfold parseColor, trim. cbn [string_of_list_ascii list_ascii_of_string drop_spaces].
    change (is_space "#"%char) with false. cbn [rev app drop_spaces]. rewrite Hc.
    cbn [rev app string_of_list_ascii]. reflexivity.
  - unfold parseColor, trim. cbn [string_of_list_ascii list_ascii_of_string drop_spaces].
    change (is_space "#"%char) with false. cbn [rev app drop_spaces]. rewrite Hc.
    cbn [rev app string_of_list_ascii]. reflexivity.
Qed.

(** [#f80] is [#ff8800], and [#f808] is [#ff880088]. *)
Lemma hex_shorthand_doubles_witness :
  parseColor "#f80" = parseColor "#ff8800"
  /\ parseColor "#f808" = parseColor "#ff880088".
Proof.
  split.
  - apply (hex_shorthand_doubles "f"%char "8"%char "0"%char "0"%char);
      [vm_compute; lia | reflexivity].
  - apply (hex_shorthand_doubles "f"%char "8"%char "0"%char "8"%char);
      [vm_compute; lia | reflexivity].
Defined.

Lemma blend_bounds (x y : Z) (factor : Q) :
  blend x y 0 = x
  /\ blend x y 1 = y
  /\ (0 <= factor -> factor <= 1 ->
      (Z.min x y <= blend x y factor <= Z.max x y)%Z).
Proof.
  unfold blend, Math_round.
  assert (Hfl : forall (z : Z) (q : Q), q == inject_Z z + (1 # 2) -> Qfloor q = z).
  { intros z q Hq. rewrite Hq.
    apply Z.le_antisymm.
    - assert (H : (Qfloor (inject_Z z + (1 # 2))%Q < z + 1)%Z).
      { apply Z.lt_nge. intros Hge.
        pose proof (Qfloor_le (inject_Z z + (1 # 2))) as Hle.
        assert (H1 : inject_Z (z + 1) <= inject_Z (Qfloor (inject_Z z + (1 # 2))))
          by (rewrite <- Zle_Qle; exact Hge).
        rewrite inject_Z_plus in H1. change (inject_Z 1) with 1 in H1. lra. }
      lia.
    - rewrite <- (Qfloor_Z z) at 1. apply Qfloor_resp_le. lra. }
  split; [apply Hfl; ring|]. split; [apply Hfl; ring|].
  intros H0 H1.
  set (v := inject_Z x + factor * (inject_Z y - inject_Z x)).
  assert (Hlo : inject_Z (Z.min x y) <= v).
  { subst v. destruct (Z.min_spec x y) as [[Hlt ->]|[Hge ->]].
    - assert (inject_Z x <= inject_Z y) by (rewrite <- Zle_Qle; lia). nra.
    - assert (inject_Z y <= inject_Z x) by (rewrite <- Zle_Qle; lia). nra. }
  assert (Hhi : v <= inject_Z (Z.max x y)).
  { subst v. destruct (Z.max_spec x y) as [[Hlt ->]|[Hge ->]].
    - assert (inject_Z x <= inject_Z y) by (rewrite <- Zle_Qle; lia). nra.
    - assert (inject_Z y <= inject_Z x) by (rewrite <- Zle_Qle; lia). nra. }
  split.
  - rewrite <- (Qfloor_Z (Z.min x y)). apply Qfloor_resp_le. lra.
  - apply Z.lt_succ_r. apply Z.lt_nge. intros Hge.
    pose proof (Qfloor_le (v + (1 # 2))) as Hle.
    assert (H2 : inject_Z (Z.succ (Z.max x y)) <= inject_Z (Qfloor (v + (1 # 2))))
      by (rewrite <- Zle_Qle; exact Hge).
    unfold Z.succ in H2. rewrite inject_Z_plus in H2. change (inject_Z 1) with 1 in H2.
    lra.
Qed.

(** X28: a blended channel, [Math.round(x + factor * (y - x))]: it is the
    first channel at factor 0, the second at factor 1, and lies between
    the two for every factor in [[0, 1]]. *)
Theorem blend_stays_between (x y : Z) (factor : Q) :
  blend x y 0 = x
  /\ blend x y 1 = y
  /\ (0 <= factor -> factor <= 1 ->
      (Z.min x y <= blend x y factor <= Z.max x y)%Z).
Proof. exact (blend_bounds x y factor). Qed.

Lemma blend_stays_between_witness :
  (Z.min 0 255 <= blend 0 255 (1 # 3) <= Z.max 0 255)%Z.
Proof.
  apply (blend_stays_between 0 255 (1 # 3)); discriminate.
Defined.

(** *** Printing and reading back *)

Lemma decimal_val_snoc (ds : list ascii) (c : ascii) :
  decimal_val (ds ++ [c]) = (10 * decimal_val ds + digit_val c)%Z.
Proof. unfold decimal_val. rewrite fold_left_app. reflexivity. Qed.

Lemma pretty_N_char_digit (m : N) :
  (m < 10)%N ->
  is_digit (pretty_N_char m) = true /\ digit_val (pretty_N_char m) = Z.of_N m.
Proof.
  intros Hm.
  assert (H : (m = 0 \/ m = 1 \/ m = 2 \/ m = 3 \/ m = 4 \/ m = 5 \/ m = 6 \/ m = 7
               \/ m = 8 \/ m = 9)%N) by lia.
  repeat destruct H as [->|H]; try subst m; split; reflexivity.
Qed.

Lemma pretty_N_go_digits (x : N) :
  forall s, exists ds,
    list_ascii_of_string (pretty_N_go x s) = (ds ++ list_ascii_of_string s)%list
    /\ all_digits ds
    /\ decimal_val ds = Z.of_N x
    /\ ((0 < x)%N -> ds <> []).
Proof.
  induction x as [x IH] using (well_founded_induction N.lt_wf_0). intros s.
  destruct (N.eq_dec x 0%N) as [->|Hx].
  - rewrite pretty_N_go_0. exists []. repeat split; [constructor|lia].
  - assert (Hpos : (0 < x)%N) by lia.
    rewrite (pretty_N_go_step x s Hpos).
    assert (Hlt : (x `div` 10 < x)%N) by (apply N.div_lt; lia).
    destruct (IH _ Hlt (String (pretty_N_char (x `mod` 10)) s))
      as (ds & Hds & Hall & Hval & _).
    assert (Hm : (x `mod` 10 < 10)%N) by (apply N.mod_lt; lia).
    destruct (pretty_N_char_digit _ Hm) as [Hd Hv].
    exists (ds ++ [pretty_N_char (x `mod` 10)])%list.
    split; [rewrite Hds, <- app_assoc; reflexivity|].
    split; [apply Forall_app; split; [exact Hall|repeat constructor; exact Hd]|].
    split.
    + rewrite decimal_val_snoc, Hval, Hv.
      rewrite (N.div_mod x 10) at 3 by lia. lia.
    + intros _ E. destruct ds; discriminate E.
Qed.

Lemma pretty_Z_digits (z : Z) :
  (0 <= z)%Z ->
  exists ds,
    list_ascii_of_string (pretty z) = ds
    /\ all_digits ds /\ ds <> [] /\ decimal_val ds = z.
Proof.
  intros Hz. destruct z as [|q|q]; [| |lia].
  - exists ["0"%char]. repeat split; [repeat constructor|discriminate].
  - change (pretty (Z.pos q)) with (pretty (N.pos q)).
    unfold pretty, pretty_N. destruct (decide (N.pos q = 0%N)) as [E|_]; [discriminate E|].
    destruct (pretty_N_go_digits (N.pos q) "") as (ds & Hds & Hall & Hval & Hne).
    cbn [list_ascii_of_string] in Hds. rewrite app_nil_r in Hds.
    exists ds. repeat split; try assumption. apply Hne. lia.
Qed.

Lemma take_digits_app (ds rest : list ascii) :
  all_digits ds ->
  match rest with c :: _ => is_digit c = false | [] => True end ->
  take_digits (ds ++ rest) = (ds, rest).
Proof.
  intros Hall Hrest. induction Hall as [|c ds Hc _ IH]; cbn [app take_digits].
  - destruct rest as [|c rest]; [reflexivity|]. cbn [take_digits].
    rewrite Hrest. reflexivity.
  - rewrite Hc, IH. reflexivity.
Qed.

Lemma take_digits_app_cons (ds : list ascii) (c : ascii) (rest : list ascii) :
  all_digits ds -> is_digit c = false ->
  take_digits (ds ++ c :: rest) = (ds, c :: rest).
Proof. intros Hall Hc. apply take_digits_app; assumption. Qed.

Lemma take_digits_dots_app (ds rest : list ascii) :
  Forall (fun c => is_digit c || Ascii.eqb c "."%char = true) ds ->
  match rest with
  | c :: _ => is_digit c || Ascii.eqb c "."%char = false
  | [] => True
  end ->
  take_digits_dots (ds ++ rest) = (ds, rest).
Proof.
  intros Hall Hrest. induction Hall as [|c ds Hc _ IH]; cbn [app take_digits_dots].
  - destruct rest as [|c rest]; [reflexivity|]. cbn [take_digits_dots].
    rewrite Hrest. reflexivity.
  - rewrite Hc, IH. reflexivity.
Qed.

Lemma digit_not_space (c : ascii) : is_digit c = true -> is_space c = false.
Proof.
  unfold is_digit, is_space. intros H.
  apply andb_true_iff in H as [H1 H2].
  apply Nat.leb_le in H1, H2.
  apply orb_false_iff. split.
  - apply andb_false_iff. right. apply Nat.leb_gt. lia.
  - apply Nat.eqb_neq. lia.
Qed.

Lemma drop_spaces_digits (ds rest : list ascii) :
  all_digits ds -> ds <> [] -> drop_spaces (ds ++ rest) = (ds ++ rest)%list.
Proof.
  intros Hall Hne. destruct Hall as [|c ds Hc _]; [contradiction|].
  cbn [app drop_spaces]. rewrite (digit_not_space c Hc). reflexivity.
Qed.

Lemma list_ascii_of_string_app (s1 s2 : string) :
  list_ascii_of_string (s1 ++ s2)
  = (list_ascii_of_string s1 ++ list_ascii_of_string s2)%list.
Proof.
  induction s1 as [|c s1 IH]; [reflexivity|].
  change (list_ascii_of_string (String c (s1 ++ s2))
          = (c :: list_ascii_of_string s1 ++ list_ascii_of_string s2)%list).
  cbn [list_ascii_of_string]. rewrite IH. reflexivity.
Qed.

Lemma frac_ok_all : forallb frac_ok (map Z.of_nat (seq 0 1000)) = true.
Proof. vm_compute. reflexivity. Qed.

Lemma frac_spec (m : Z) :
  (0 <= m < 1000)%Z ->
  all_digits (frac_digits m)
  /\ (decimal_val (frac_digits m) * 1000
      = m * Z.of_nat (10 ^ length (frac_digits m)))%Z
  /\ (frac_digits m = [] <-> m = 0%Z).
Proof.
  intros Hm.
  assert (Hin : In m (map Z.of_nat (seq 0 1000))).
  { apply in_map_iff. exists (Z.to_nat m). split; [lia|]. apply in_seq. lia. }
  pose proof (proj1 (forallb_forall _ _) frac_ok_all m Hin) as Hok.
  unfold frac_ok in Hok. cbv zeta in Hok.
  apply andb_true_iff in Hok as [Hok H3]. apply andb_true_iff in Hok as [H1 H2].
  split; [|split].
  - unfold all_digits. apply Forall_forall. intros c Hc.
    apply (proj1 (forallb_forall _ _) H1). apply list_elem_of_In. exact Hc.
  - apply Z.eqb_eq. exact H2.
  - destruct (frac_digits m).
    + apply Z.eqb_eq in H3. split; intros _; [exact H3|reflexivity].
    + apply negb_true_iff in H3. apply Z.eqb_neq in H3.
      split; [discriminate|contradiction].
Qed.

Lemma thousandths_nonneg (q : Q) : (0 <= thousandths q)%Z.
Proof.
  unfold thousandths. rewrite <- (Qfloor_Z 0). apply Qfloor_resp_le.
  pose proof (Qabs_nonneg q) as H. change (inject_Z 0) with 0.
  assert (H1 : 0 <= Qabs q * 1000) by (apply Qmult_le_0_compat; [exact H|discriminate]).
  apply (Qle_trans _ (Qabs q * 1000)); [exact H1|].
  rewrite <- (Qplus_0_r (Qabs q * 1000)) at 1. apply Qplus_le_r. discriminate.
Qed.

Lemma pow10_pos (n : nat) : (0 < 10 ^ n)%nat.
Proof. induction n; cbn; lia. Qed.

(** The text [print_fixed3] writes for an alpha that is not negative is a
    decimal literal that reads back as the alpha rounded to thousandths. *)
Lemma print_fixed3_parse (q : Q) :
  0 <= q ->
  exists ads v,
    list_ascii_of_string (print_fixed3 (Some q)) = ads
    /\ Forall (fun c => is_digit c || Ascii.eqb c "."%char = true) ads
    /\ ads <> []
    /\ parseFloat_digits ads = Some v
    /\ v == thousandths q # 1000.
Proof.
  intros Hq. unfold print_fixed3.
  set (n := thousandths q).
  assert (Hn : (0 <= n)%Z) by apply thousandths_nonneg.
  apply Qle_bool_iff in Hq. rewrite Hq. cbn [orb].
  assert (Hdiv : (0 <= n / 1000)%Z) by (apply Z.div_pos; lia).
  assert (Hmod : (0 <= n mod 1000 < 1000)%Z) by (apply Z.mod_pos_bound; lia).
  destruct (pretty_Z_digits _ Hdiv) as (ipds & Hip & Hipall & Hipne & Hipval).
  destruct (frac_spec _ Hmod) as (Hfall & Hfval & Hfnil).
  change (rev (drop_zeros (rev (list_ascii_of_string (pad3 (n mod 1000))))))
    with (frac_digits (n mod 1000)).
  set (fds := frac_digits (n mod 1000)) in *.
  assert (Hdd : forall ds, all_digits ds ->
                  Forall (fun c => is_digit c || Ascii.eqb c "."%char = true) ds).
  { intros ds H. eapply Forall_impl; [exact H|]. cbn. intros c ->. reflexivity. }
  assert (Hndot : is_digit "."%char = false) by reflexivity.
  destruct fds as [|f0 fds'] eqn:Efds.
  - (* no fraction *)
    cbn [string_of_list_ascii].
    change ("" ++ pretty (n / 1000)%Z) with (pretty (n / 1000)%Z).
    exists ipds. eexists. split; [exact Hip|]. split; [apply Hdd, Hipall|].
    split; [exact Hipne|].
    unfold parseFloat_digits.
    rewrite <- (app_nil_r ipds) at 1. rewrite (take_digits_app ipds [] Hipall I).
    destruct ipds as [|i0 ipds']; [contradiction|].
    split; [reflexivity|].
    rewrite Hipval. cbn [length decimal_val fold_left Nat.pow Pos.of_nat].
    assert (Hm0 : (n mod 1000 = 0)%Z) by (apply Hfnil; reflexivity).
    unfold Qeq, Qplus, inject_Z. cbn [Qnum Qden].
    rewrite (Z.div_mod n 1000) at 2 by lia. rewrite Hm0. lia.
  - (* a fraction *)
    assert (Hs : exists rest, string_of_list_ascii (f0 :: fds') = String f0 rest
                              /\ list_ascii_of_string (String f0 rest) = f0 :: fds').
    { exists (string_of_list_ascii fds'). split; [reflexivity|].
      cbn [list_ascii_of_string]. rewrite list_ascii_of_string_of_list_ascii.
      reflexivity. }
    destruct Hs as (rest & -> & Hrest).
    change ("" ++ pretty (n / 1000)%Z ++ "." ++ String f0 rest)
      with (pretty (n / 1000)%Z ++ "." ++ String f0 rest).
    exists (ipds ++ "."%char :: f0 :: fds')%list. eexists.
    split.
    { rewrite list_ascii_of_string_app, Hip.
      change ("." ++ String f0 rest) with (String "."%char (String f0 rest)).
      cbn [list_ascii_of_string] in Hrest |- *. rewrite Hrest. reflexivity. }
    split.
    { apply Forall_app. split; [apply Hdd, Hipall|].
      constructor; [reflexivity|]. apply Hdd. exact Hfall. }
    split; [intros E; destruct ipds; discriminate E|].
    unfold parseFloat_digits.
    rewrite (take_digits_app_cons ipds "."%char (f0 :: fds') Hipall Hndot).
    rewrite <- (app_nil_r (f0 :: fds')). rewrite (take_digits_app _ [] Hfall I).
    cbn [fst].
    destruct ipds as [|i0 ipds']; [contradiction|].
    split; [reflexivity|].
    rewrite Hipval.
    set (K := (10 ^ length (f0 :: fds'))%nat) in *.
    assert (HK : (0 < K)%nat) by apply pow10_pos.
    assert (HKp : Z.pos (Pos.of_nat K) = Z.of_nat K).
    { destruct K as [|k]; [lia|]. rewrite <- Pos.of_nat_succ, Zpos_P_of_succ_nat. lia. }
    unfold Qeq, Qplus, inject_Z. cbn [Qnum Qden].
    rewrite Pos.mul_1_l, HKp.
    rewrite (Z.div_mod n 1000) at 2 by lia. nia.
Qed.

Lemma digit_val_nonneg (c : ascii) : is_digit c = true -> (0 <= digit_val c)%Z.
Proof.
  unfold is_digit, digit_val. intros H. apply andb_true_iff in H as [H1 _].
  apply Nat.leb_le in H1. lia.
Qed.

Lemma decimal_val_nonneg (ds : list ascii) : all_digits ds -> (0 <= decimal_val ds)%Z.
Proof.
  unfold decimal_val. intros Hall.
  assert (G : forall acc, (0 <= acc)%Z ->
                (0 <= fold_left (fun n c => 10 * n + digit_val c) ds acc)%Z).
  { induction Hall as [|c ds Hc _ IH]; intros acc Hacc; cbn [fold_left]; [exact Hacc|].
    apply IH. pose proof (digit_val_nonneg c Hc). lia. }
  apply G. lia.
Qed.

Lemma take_digits_all (s : list ascii) : all_digits (fst (take_digits s)).
Proof.
  induction s as [|c s IH]; cbn [take_digits]; [constructor|].
  destruct (is_digit c) eqn:Ec; [|constructor].
  destruct (take_digits s) as [ds tl]. cbn [fst] in *. constructor; assumption.
Qed.

Lemma digits1_all (s d rest : list ascii) :
  digits1 s = Some (d, rest) -> all_digits d.
Proof.
  unfold digits1. pose proof (take_digits_all s) as H.
  destruct (take_digits s) as [[|c ds] tl]; [discriminate|].
  intros [= <- <-]. exact H.
Qed.

Lemma rgb_tail_all (s d1 d2 d3 : list ascii) (d4 : option (list ascii)) :
  rgb_tail s = Some (d1, d2, d3, d4) -> all_digits d1 /\ all_digits d2 /\ all_digits d3.
Proof.
  unfold rgb_tail.
  destruct (digits1 s) as [[e1 s1]|] eqn:E1; [|discriminate].
  destruct (expect _ s1) as [s2|]; [|discriminate].
  destruct (digits1 (drop_spaces s2)) as [[e2 s3]|] eqn:E2; [|discriminate].
  destruct (expect _ s3) as [s4|]; [|discriminate].
  destruct (digits1 (drop_spaces s4)) as [[e3 s5]|] eqn:E3; [|discriminate].
  intros H.
  assert (Hd : d1 = e1 /\ d2 = e2 /\ d3 = e3).
  { destruct s5 as [|c s6]; [discriminate|].
    destruct c as [[] [] [] [] [] [] [] []]; try discriminate H.
    - injection H as <- <- <- _. repeat split.
    - destruct (take_digits_dots (drop_spaces s6)) as [[|x xs] [|y ys]];
        try discriminate H.
      destruct y as [[] [] [] [] [] [] [] []]; try discriminate H.
      injection H as <- <- <- _. repeat split. }
  destruct Hd as (-> & -> & ->).
  split; [eapply digits1_all; exact E1|].
  split; [eapply digits1_all; exact E2|eapply digits1_all; exact E3].
Qed.

Lemma rgb_exec_all (s d1 d2 d3 : list ascii) (d4 : option (list ascii)) :
  rgb_exec s = Some (d1, d2, d3, d4) -> all_digits d1 /\ all_digits d2 /\ all_digits d3.
Proof.
  assert (Hat : forall s, rgb_at s = Some (d1, d2, d3, d4) ->
                  all_digits d1 /\ all_digits d2 /\ all_digits d3).
  { intros s0. unfold rgb_at.
    repeat match goal with
           | |- match ?l with [] => _ | _ :: _ => _ end = _ -> _ =>
               destruct l; try discriminate
           | |- match ?c with Ascii _ _ _ _ _ _ _ _ => _ end = _ -> _ =>
               destruct c
           | |- (if ?b then _ else _) = _ -> _ => destruct b; try discriminate
           end; try discriminate; apply rgb_tail_all. }
  induction s as [|c s IH]; cbn [rgb_exec].
  - destruct (rgb_at []) eqn:E; [|discriminate]. intros [= ->]. apply (Hat _ E).
  - destruct (rgb_at (c :: s)) eqn:E; [intros [= ->]; apply (Hat _ E)|exact IH].
Qed.

(** The channels of every colour [parseColor] accepts are not negative. *)
Lemma parsed_channels_nonneg (s : string) (c : rgba) :
  parseColor s = Some c -> (0 <= r c /\ 0 <= g c /\ 0 <= b c)%Z.
Proof.
  unfold parseColor.
  destruct (starts_with "#" (trim s)).
  - cbv zeta.
    set (hex := substring 1 (String.length (trim s) - 1) (trim s)).
    destruct (String.length hex =? 3)%nat;
      [|destruct (String.length hex =? 4)%nat; [|destruct (String.length hex =? 8)%nat]].
    all: match goal with
         | |- (if ?c then _ else _) = _ -> _ => destruct c; [|discriminate]
         end.
    all: intros [= <-]; cbn [r g b]; repeat split; apply channel_range.
  - destruct (starts_with "rgb" (trim s)); [|discriminate].
    destruct (rgb_exec _) as [[[[d1 d2] d3] d4]|] eqn:E; [|discriminate].
    intros [= <-]. cbn [r g b].
    destruct (rgb_exec_all _ _ _ _ _ E) as (H1 & H2 & H3).
    repeat split; apply decimal_val_nonneg; assumption.
Qed.

Lemma trim_keeps (S : string) (c0 cl : ascii) (mid : list ascii) :
  list_ascii_of_string S = (c0 :: mid ++ [cl])%list ->
  is_space c0 = false -> is_space cl = false -> trim S = S.
Proof.
  intros HS H0 Hl. unfold trim. rewrite HS.
  cbn [drop_spaces]. rewrite H0.
  change (c0 :: mid ++ [cl])%list with ((c0 :: mid) ++ [cl])%list.
  rewrite rev_app_distr. cbn [rev app drop_spaces]. rewrite Hl.
  change (cl :: rev mid ++ [c0])%list with (rev [cl] ++ rev (c0 :: mid))%list.
  rewrite <- rev_app_distr, rev_involutive.
  change ((c0 :: mid) ++ [cl])%list with (c0 :: mid ++ [cl])%list.
  rewrite <- HS. apply string_of_list_ascii_of_string.
Qed.

Lemma rgba_parses (X : string) (Rds Gds Bds ads : list ascii) :
  list_ascii_of_string X
  = (Rds ++ ","%char :: Gds ++ ","%char :: Bds ++ ","%char :: ads ++ [")"%char])%list ->
  all_digits Rds -> Rds <> [] ->
  all_digits Gds -> Gds <> [] ->
  all_digits Bds -> Bds <> [] ->
  Forall (fun c => is_digit c || Ascii.eqb c "."%char = true) ads -> ads <> [] ->
  parseColor ("rgba(" ++ X)
  = Some {| r := decimal_val Rds; g := decimal_val Gds; b := decimal_val Bds;
            a := parseFloat_digits ads |}.
Proof.
  intros HX HR HRn HG HGn HB HBn HA HAn.
  set (S := "rgba(" ++ X).
  assert (HS : list_ascii_of_string S
               = ("r"%char :: "g"%char :: "b"%char :: "a"%char :: "("%char
                  :: Rds ++ ","%char :: Gds ++ ","%char :: Bds ++ ","%char
                  :: ads ++ [")"%char])%list).
  { subst S. rewrite list_ascii_of_string_app, HX. reflexivity. }
  assert (Htrim : trim S = S).
  { apply (trim_keeps S "r"%char ")"%char
             ("g"%char :: "b"%char :: "a"%char :: "("%char
              :: Rds ++ ","%char :: Gds ++ ","%char :: Bds ++ ","%char :: ads)%list);
      [|reflexivity|reflexivity].
    rewrite HS. cbn [app].
    repeat (rewrite <- app_assoc; cbn [app]). reflexivity. }
  unfold parseColor. rewrite Htrim.
  assert (Hh : starts_with "#" S = false) by reflexivity.
  assert (Hr : starts_with "rgb" S = true) by reflexivity.
  rewrite Hh, Hr, HS.
  assert (Hcomma : is_digit ","%char = false) by reflexivity.
  assert (Hparen : is_digit ")"%char || Ascii.eqb ")"%char "."%char = false)
    by reflexivity.
  assert (Hexec : rgb_exec
                    ("r"%char :: "g"%char :: "b"%char :: "a"%char :: "("%char
                     :: Rds ++ ","%char :: Gds ++ ","%char :: Bds ++ ","%char
                     :: ads ++ [")"%char])%list
                  = Some (Rds, Gds, Bds, Some ads)).
  { cbn [rgb_exec].
    assert (Hat : rgb_at
                    ("r"%char :: "g"%char :: "b"%char :: "a"%char :: "("%char
                     :: Rds ++ ","%char :: Gds ++ ","%char :: Bds ++ ","%char
                     :: ads ++ [")"%char])%list
                  = Some (Rds, Gds, Bds, Some ads)).
    { unfold rgb_at. cbn [map skipn].
      change (lower "r"%char) with "r"%char. change (lower "g"%char) with "g"%char.
      change (lower "b"%char) with "b"%char. change (lower "a"%char) with "a"%char.
      change (lower "("%char) with "("%char. cbv iota beta.
      rewrite skipn_O. unfold rgb_tail, digits1.
      rewrite (take_digits_app_cons Rds _ _ HR Hcomma).
      destruct Rds as [|r0 Rds']; [contradiction|]. cbn [expect].
      change (Ascii.eqb ","%char ","%char) with true. cbv iota.
      rewrite (drop_spaces_digits Gds _ HG HGn).
      rewrite (take_digits_app_cons Gds _ _ HG Hcomma).
      destruct Gds as [|g0 Gds']; [contradiction|]. cbn [expect].
      change (Ascii.eqb ","%char ","%char) with true. cbv iota.
      rewrite (drop_spaces_digits Bds _ HB HBn).
      rewrite (take_digits_app_cons Bds _ _ HB Hcomma).
      destruct Bds as [|b0 Bds']; [contradiction|]. cbv iota beta.
      assert (Hds : drop_spaces (ads ++ [")"%char]) = (ads ++ [")"%char])%list).
      { destruct ads as [|a0 ads']; [contradiction|]. cbn [app drop_spaces].
        apply Forall_cons in HA as [Ha0 _].
        assert (Hsp : is_space a0 = false).
        { apply orb_true_iff in Ha0 as [Hd|Hdot].
          - apply digit_not_space. exact Hd.
          - apply Ascii.eqb_eq in Hdot. subst a0. reflexivity. }
        rewrite Hsp. reflexivity. }
      rewrite Hds. rewrite (take_digits_dots_app ads [")"%char] HA Hparen).
      destruct ads as [|a0 ads']; [contradiction|]. reflexivity. }
    rewrite Hat. reflexivity. }
  rewrite Hexec. reflexivity.
Qed.

Lemma thousandths_unit (q : Q) : 0 <= q -> q <= 1 -> (thousandths q <= 1000)%Z.
Proof.
  intros H0 H1. unfold thousandths.
  rewrite (Qabs_pos q H0).
  apply Z.lt_succ_r. apply Z.lt_nge. intros Hge.
  pose proof (Qfloor_le (q * 1000 + (1 # 2))) as Hle.
  assert (H2 : inject_Z (Z.succ 1000) <= inject_Z (Qfloor (q * 1000 + (1 # 2))))
    by (rewrite <- Zle_Qle; exact Hge).
  change (inject_Z (Z.succ 1000)) with 1001 in H2. lra.
Qed.

Lemma thousandths_near (q : Q) :
  0 <= q -> Qabs ((thousandths q # 1000) - q) <= 1 # 1000.
Proof.
  intros H0. unfold thousandths. rewrite (Qabs_pos q H0).
  set (n := Qfloor (q * 1000 + (1 # 2))).
  pose proof (Qfloor_le (q * 1000 + (1 # 2))) as Hlo.
  pose proof (Qlt_floor (q * 1000 + (1 # 2))) as Hhi.
  fold n in Hlo, Hhi.
  rewrite inject_Z_plus in Hhi. change (inject_Z 1) with 1 in Hhi.
  assert (Hn : n # 1000 == inject_Z n / 1000).
  { unfold Qeq, Qdiv, Qmult, Qinv, inject_Z. cbn. lia. }
  rewrite Hn. apply Qabs_Qle_condition. split.
  - assert (H : q - (1 # 1000) <= inject_Z n / 1000).
    { apply Qle_shift_div_l; [reflexivity|]. lra. }
    lra.
  - assert (H : inject_Z n / 1000 <= q + (1 # 1000)).
    { apply Qle_shift_div_r; [reflexivity|]. lra. }
    lra.
Qed.

(** X29: interpolating, with a factor in [[0, 1]], two colours that
    [parseColor] accepts and whose channels and alpha are in range gives a
    text that [parseColor] accepts again, so that a tween can start from
    it: its channels are the blended channels, its alpha is a number of
    thousandths within one thousandth of the interpolated alpha, and it is
    in range too. *)
Theorem interpolated_color_parses (s1 s2 : string) (c1 c2 : rgba) (factor : Q) :
  parseColor s1 = Some c1 -> parseColor s2 = Some c2 ->
  in_gamut c1 -> in_gamut c2 ->
  0 <= factor -> factor <= 1 ->
  exists c,
    parseColor (interpolateColor s1 s2 factor) = Some c
    /\ is_color (interpolateColor s1 s2 factor) = true
    /\ r c = blend (r c1) (r c2) factor
    /\ g c = blend (g c1) (g c2) factor
    /\ b c = blend (b c1) (b c2) factor
    /\ (exists a1 a2 q n,
          a c1 = Some a1 /\ a c2 = Some a2 /\ a c = Some q
          /\ q == n # 1000
          /\ Qabs (q - (a1 + factor * (a2 - a1))) <= 1 # 1000)
    /\ in_gamut c.
Proof.
  intros Hp1 Hp2 (Hch1 & a1 & Ha1 & Ha1lo & Ha1hi) (Hch2 & a2 & Ha2 & Ha2lo & Ha2hi)
    Hf0 Hf1.
  destruct (parsed_channels_nonneg _ _ Hp1) as (Hr1 & Hg1 & Hb1).
  destruct (parsed_channels_nonneg _ _ Hp2) as (Hr2 & Hg2 & Hb2).
  destruct (blend_bounds (r c1) (r c2) factor) as (_ & _ & HR). specialize (HR Hf0 Hf1).
  destruct (blend_bounds (g c1) (g c2) factor) as (_ & _ & HG). specialize (HG Hf0 Hf1).
  destruct (blend_bounds (b c1) (b c2) factor) as (_ & _ & HB). specialize (HB Hf0 Hf1).
  set (alpha := a1 + factor * (a2 - a1)).
  assert (Hal0 : 0 <= alpha) by (subst alpha; nra).
  assert (Hal1 : alpha <= 1) by (subst alpha; nra).
  destruct (pretty_Z_digits (blend (r c1) (r c2) factor) ltac:(lia))
    as (Rds & HRds & HRall & HRne & HRval).
  destruct (pretty_Z_digits (blend (g c1) (g c2) factor) ltac:(lia))
    as (Gds & HGds & HGall & HGne & HGval).
  destruct (pretty_Z_digits (blend (b c1) (b c2) factor) ltac:(lia))
    as (Bds & HBds & HBall & HBne & HBval).
  destruct (print_fixed3_parse alpha Hal0) as (ads & v & Hads & Hadsall & Hadsne & Hv & Hveq).
  assert (Hout : interpolateColor s1 s2 factor
                 = "rgba(" ++ (pretty (blend (r c1) (r c2) factor) ++ ","
                               ++ pretty (blend (g c1) (g c2) factor) ++ ","
                               ++ pretty (blend (b c1) (b c2) factor) ++ ","
                               ++ print_fixed3 (Some alpha) ++ ")")).
  { unfold interpolateColor. rewrite Hp1, Hp2, Ha1, Ha2. reflexivity. }
  assert (Hparse : parseColor (interpolateColor s1 s2 factor)
                   = Some {| r := decimal_val Rds; g := decimal_val Gds;
                             b := decimal_val Bds; a := parseFloat_digits ads |}).
  { rewrite Hout. apply rgba_parses; try assumption.
    rewrite !list_ascii_of_string_app, HRds, HGds, HBds, Hads. reflexivity. }
  eexists. split; [exact Hparse|]. split; [unfold is_color; rewrite Hparse; reflexivity|].
  cbn [r g b a]. split; [exact HRval|]. split; [exact HGval|]. split; [exact HBval|].
  split.
  - exists a1, a2, v, (thousandths alpha).
    split; [exact Ha1|]. split; [exact Ha2|]. split; [exact Hv|]. split; [exact Hveq|].
    rewrite Hveq. apply thousandths_near. exact Hal0.
  - split.
    + rewrite HRval, HGval, HBval. cbn [r g b]. lia.
    + exists v. cbn [a]. split; [exact Hv|]. rewrite Hveq.
      pose proof (thousandths_nonneg alpha) as Hn0.
      pose proof (thousandths_unit alpha Hal0 Hal1) as Hn1.
      unfold Qle. cbn [Qnum Qden]. lia.
Qed.

Lemma interpolated_color_parses_witness :
  is_color (interpolateColor "#000" "rgb(255, 128, 0)" (1 # 2)) = true.
Proof.
  destruct (interpolated_color_parses "#000" "rgb(255, 128, 0)"
              {| r := 0; g := 0; b := 0; a := Some 1 |}
              {| r := 255; g := 128; b := 0; a := Some 1 |} (1 # 2) eq_refl eq_refl)
    as (c & _ & H & _).
  - split; [cbn; lia|]. exists 1. repeat split; discriminate.
  - split; [cbn; lia|]. exists 1. repeat split; discriminate.
  - discriminate.
  - discriminate.
  - exact H.
Defined.

(** ** The scene's registry of tweens *)

Lemma existsb_eqb_elem (x : nat) (l : list nat) :
  existsb (Nat.eqb x) l = true <-> x ∈ l.
Proof.
  rewrite existsb_exists. split.
  - intros (y & Hy & E). apply Nat.eqb_eq in E. subst y. apply list_elem_of_In. exact Hy.
  - intros H. exists x. split; [apply list_elem_of_In; exact H|apply Nat.eqb_refl].
Qed.

Lemma indexOf_none (x : nat) (l : list nat) : Scene.indexOf x l = None <-> x ∉ l.
Proof.
  induction l as [|y l IH]; cbn [Scene.indexOf].
  - split; [intros _ H; inversion H|reflexivity].
  - destruct (Nat.eqb x y) eqn:E.
    + apply Nat.eqb_eq in E. subst y. split; [discriminate|].
      intros H. exfalso. apply H. left.
    + apply Nat.eqb_neq in E. rewrite not_elem_of_cons.
      destruct (Scene.indexOf x l); cbn [option_map].
      * split; [discriminate|]. intros [_ H]. apply IH in H. discriminate H.
      * split; [|reflexivity]. intros _. split; [exact E|]. apply IH. reflexivity.
Qed.

Lemma delete_indexOf (x : nat) (l : list nat) (i : nat) :
  Scene.indexOf x l = Some i ->
  NoDup l ->
  (x ∉ delete i l) /\ NoDup (delete i l)
  /\ forall y, y <> x -> (y ∈ delete i l <-> y ∈ l).
Proof.
  revert i. induction l as [|y l IH]; intros i; cbn [Scene.indexOf]; [discriminate|].
  destruct (Nat.eqb x y) eqn:E.
  - apply Nat.eqb_eq in E. subst y. intros [= <-] Hnd. cbn [delete list_delete].
    apply NoDup_cons in Hnd as [Hx Hnd]. split; [exact Hx|]. split; [exact Hnd|].
    intros z Hz. rewrite elem_of_cons. split; [auto|]. intros [->|H]; [contradiction|exact H].
  - apply Nat.eqb_neq in E.
    destruct (Scene.indexOf x l) as [j|] eqn:Ej; cbn [option_map]; [|discriminate].
    intros [= <-] Hnd. cbn [delete list_delete].
    apply NoDup_cons in Hnd as [Hy Hnd].
    destruct (IH j eq_refl Hnd) as (H1 & H2 & H3).
    split; [|split].
    + rewrite not_elem_of_cons. split; assumption.
    + apply NoDup_cons. split; [|exact H2].
      intros Hin. apply Hy. apply (H3 y); [congruence|exact Hin].
    + intros z Hz. rewrite !elem_of_cons, (H3 z Hz). reflexivity.
Qed.

(** X30: the registry of a scene behaves as a set: [addTween] never registers
    a tween twice and registering again changes nothing; [removeTween]
    removes the tween and nothing else; and removing a tween that was just
    added gives the registry back. *)
Theorem scene_registry_is_a_set (tween : nat) (sc : Scene.t) :
  NoDup (Scene.activeTweens sc) ->
  (NoDup (Scene.activeTweens (Scene.addTween tween sc))
   /\ (tween ∈ Scene.activeTweens (Scene.addTween tween sc))
   /\ Scene.addTween tween (Scene.addTween tween sc) = Scene.addTween tween sc)
  /\ (NoDup (Scene.activeTweens (Scene.removeTween tween sc))
      /\ (tween ∉ Scene.activeTweens (Scene.removeTween tween sc))
      /\ forall y, y <> tween ->
           (y ∈ Scene.activeTweens (Scene.removeTween tween sc)
            <-> y ∈ Scene.activeTweens sc))
  /\ (tween ∉ Scene.activeTweens sc ->
      Scene.removeTween tween (Scene.addTween tween sc) = sc).
Proof.
  intros Hnd. destruct sc as [l]. cbn [Scene.activeTweens] in Hnd.
  split; [|split].
  - unfold Scene.addTween. cbn [Scene.activeTweens].
    destruct (existsb (Nat.eqb tween) l) eqn:E.
    + cbn [Scene.activeTweens]. rewrite E.
      split; [exact Hnd|]. split; [apply existsb_eqb_elem; exact E|reflexivity].
    + assert (Hx : tween ∉ l).
      { intros H. apply existsb_eqb_elem in H. rewrite H in E. discriminate E. }
      cbn [Scene.activeTweens].
      assert (Hin : tween ∈ (l ++ [tween])%list).
      { apply elem_of_app. right. apply list_elem_of_singleton. reflexivity. }
      rewrite (proj2 (existsb_eqb_elem tween (l ++ [tween])) Hin).
      split; [|split; [exact Hin|reflexivity]].
      apply NoDup_app. split; [exact Hnd|]. split.
      * intros y Hy Hy'. apply list_elem_of_singleton in Hy'. subst y. contradiction.
      * apply NoDup_singleton.
  - unfold Scene.removeTween. cbn [Scene.activeTweens].
    destruct (Scene.indexOf tween l) as [i|] eqn:E; cbn [Scene.activeTweens].
    + destruct (delete_indexOf tween l i E Hnd) as (H1 & H2 & H3).
      split; [exact H2|]. split; [exact H1|exact H3].
    + split; [exact Hnd|]. split; [apply indexOf_none; exact E|]. intros y _. reflexivity.
  - cbn [Scene.activeTweens]. intros Hx.
    unfold Scene.addTween. cbn [Scene.activeTweens].
    destruct (existsb (Nat.eqb tween) l) eqn:E.
    { apply existsb_eqb_elem in E. contradiction. }
    unfold Scene.removeTween. cbn [Scene.activeTweens].
    assert (Hidx : Scene.indexOf tween (l ++ [tween]) = Some (length l)).
    { clear Hnd E. induction l as [|y l IH]; cbn [Scene.indexOf app length].
      - rewrite Nat.eqb_refl. reflexivity.
      - apply not_elem_of_cons in Hx as [Hne Hx].
        apply Nat.eqb_neq in Hne. rewrite Hne, (IH Hx). reflexivity. }
    rewrite Hidx. f_equal.
    clear. induction l as [|y l IH]; [reflexivity|].
    cbn [length app delete list_delete]. f_equal. exact IH.
Qed.

Lemma scene_registry_is_a_set_witness :
  Scene.removeTween 7%nat (Scene.addTween 7%nat (Scene.mk [3%nat; 5%nat]))
  = Scene.mk [3%nat; 5%nat].
Proof.
  assert (Hnd : NoDup (Scene.activeTweens (Scene.mk [3%nat; 5%nat]))).
  { cbn. apply NoDup_cons. split.
    - intros H. apply list_elem_of_In in H. cbn in H. intuition discriminate.
    - apply NoDup_cons. split; [intros H; inversion H|apply NoDup_nil; exact I]. }
  apply (scene_registry_is_a_set 7%nat (Scene.mk [3%nat; 5%nat]) Hnd).
  cbn. intros H. apply list_elem_of_In in H. cbn in H. intuition discriminate.
Defined.
